(** * BlogSystem101: the WordPress publish pipeline and the image-replace route

    A shallow embedding of the two request handlers of the route file
    ([POST /api/blogs/:id/publish] and [PATCH /api/blogs/:id/images/:imageIndex])
    together with the in-memory blog storage they use ([MemStorage]).

    Conventions of the embedding.
    - A JavaScript string is a [list ascii]: a sequence of code units below 256.
    - A regular expression literal of the source is written as a term of [re];
      [rx] is a backtracking matcher for the fragment of the JavaScript
      semantics those literals use (greedy quantifiers on character classes,
      alternation, capture groups, anchors with and without the [m] flag,
      negative lookahead).
    - Every network call of the publish handler is answered by a [World], a
      record of oracles; the handler returns its HTTP response, the new
      storage and the list of the external effects it performed, in order.
    - Delays and timeouts are in milliseconds; the retry delay
      [3000 * 1.5^(attempt-1)] is an exact rational (every value the loop
      can produce is a dyadic rational that a double represents exactly). *)

From Stdlib Require Import ZArith QArith Qminmax Lia List Ascii String Bool DecimalString.
From stdpp Require Import gmap strings list.
Import ListNotations.

Abbreviation jstr := (list ascii).

Definition js (x : string) : jstr := list_ascii_of_string x.
Arguments js x%_string.

(** ** Characters and the string methods the handlers call *)

Definition LF : ascii := ascii_of_nat 10.
Definition CR : ascii := ascii_of_nat 13.

(** [LineTerminator] of the language, restricted to code units below 256. *)
Definition isLineTerminator (c : ascii) : bool :=
  Ascii.eqb c LF || Ascii.eqb c CR.

(** [WhiteSpace] and [LineTerminator], the class of [\s] and of [trim]:
    TAB, LF, VT, FF, CR, SP and NBSP. *)
Definition isSpace (c : ascii) : bool :=
  let n := nat_of_ascii c in
  ((9 <=? n) && (n <=? 13)) || (n =? 32) || (n =? 160).

Definition lowerChar (c : ascii) : ascii :=
  let n := nat_of_ascii c in
  if ((65 <=? n) && (n <=? 90))
     || ((192 <=? n) && (n <=? 222) && negb (n =? 215))
  then ascii_of_nat (n + 32) else c.

Definition toLowerCase (s : jstr) : jstr := map lowerChar s.

Fixpoint jstr_eqb (a b : jstr) : bool :=
  match a, b with
  | [], [] => true
  | x :: a', y :: b' => Ascii.eqb x y && jstr_eqb a' b'
  | _, _ => false
  end.

Fixpoint startsWith (p s : jstr) : bool :=
  match p, s with
  | [], _ => true
  | x :: p', y :: s' => Ascii.eqb x y && startsWith p' s'
  | _ :: _, [] => false
  end.

(** [s.includes(p)] *)
Fixpoint includes (s p : jstr) : bool :=
  startsWith p s ||
  match s with
  | [] => false
  | _ :: s' => includes s' p
  end.

Fixpoint trimStart (s : jstr) : jstr :=
  match s with
  | c :: s' => if isSpace c then trimStart s' else s
  | [] => []
  end.

Definition trimEnd (s : jstr) : jstr := rev (trimStart (rev s)).

Definition trim (s : jstr) : jstr := trimEnd (trimStart s).

(** [s.substring(0, n)] *)
Definition substring0 (n : nat) (s : jstr) : jstr := firstn n s.

(** [s.split(sep)] for a non-empty string separator: [pending] holds, reversed,
    the characters of the piece being read. *)
Fixpoint split_go (sep : jstr) (pending : jstr) (inside : nat) (s : jstr)
  : list jstr :=
  match s with
  | [] => [rev pending]
  | c :: s' =>
      match inside with
      | S n => split_go sep pending n s'
      | O =>
          if startsWith sep s
          then rev pending :: split_go sep [] (length sep - 1) s'
          else split_go sep (c :: pending) 0 s'
      end
  end.

Definition split (sep : jstr) (s : jstr) : list jstr := split_go sep [] 0 s.

(** [a.join(sep)] *)
Fixpoint join (sep : jstr) (l : list jstr) : jstr :=
  match l with
  | [] => []
  | [x] => x
  | x :: l' => x ++ sep ++ join sep l'
  end.

(** JavaScript truthiness of a possibly absent string. *)
Definition truthy (o : option jstr) : bool :=
  match o with
  | Some (_ :: _) => true
  | _ => false
  end.

(** [a || b] on possibly absent strings. *)
Definition orElse (a b : option jstr) : option jstr :=
  if truthy a then a else b.

(** [n.toString()] for an integer: its decimal digits. The numbers of the
    handlers are ids, indices and counts, integers that a number of the
    language holds exactly; from 1e21 on the language would write an
    exponent. *)
Definition toString (z : Z) : jstr :=
  js (NilZero.string_of_int (Z.to_int z)).

(** ** Regular expressions *)

Inductive re : Type :=
| Eps
| Chr (p : ascii -> bool)                       (* one character of a class *)
| Rep (p : ascii -> bool) (lo : nat) (hi : option nat)
                                                (* greedy [{lo,hi}] on a class *)
| Cat (a b : re)
| Alt (a b : re)
| Grp (n : nat) (a : re)                        (* capture group number n *)
| Bol | Eol                                     (* [^] and [$] under the m flag *)
| Bos | Eos                                     (* [^] and [$] without it *)
| NLook (a : re).                               (* [(?! a)] *)

Record mstate : Type := MState {
  m_prev : option ascii;          (* the character before the position *)
  m_rest : jstr;                  (* the input from the position on *)
  m_pos : nat;                    (* characters consumed since the match start *)
  m_caps : list (nat * jstr)      (* captures, latest first *)
}.

Fixpoint skip (n : nat) (st : mstate) : mstate :=
  match n with
  | O => st
  | S n' =>
      match m_rest st with
      | [] => st
      | c :: s' => skip n' (MState (Some c) s' (S (m_pos st)) (m_caps st))
      end
  end.

(** Length of the longest prefix of [s] made of characters of [p], at most [hi]. *)
Fixpoint run (p : ascii -> bool) (hi : option nat) (s : jstr) : nat :=
  match hi with
  | Some O => O
  | _ =>
      match s with
      | c :: s' => if p c then S (run p (option_map Nat.pred hi) s') else O
      | [] => O
      end
  end.

(** Greedy repetition gives characters back one at a time, down to [lo]. *)
Fixpoint backoff (lo n : nat) (st : mstate) (k : mstate -> option mstate)
  : option mstate :=
  match k (skip n st) with
  | Some r => Some r
  | None =>
      match n with
      | O => None
      | S n' => if lo <=? n' then backoff lo n' st k else None
      end
  end.

Definition at_bol (st : mstate) : bool :=
  match m_prev st with
  | None => true
  | Some c => isLineTerminator c
  end.

Definition at_eol (st : mstate) : bool :=
  match m_rest st with
  | [] => true
  | c :: _ => isLineTerminator c
  end.

Definition at_bos (st : mstate) : bool :=
  match m_prev st with None => true | Some _ => false end.

Definition at_eos (st : mstate) : bool :=
  match m_rest st with [] => true | _ :: _ => false end.

Definition set_cap (n : nat) (t : jstr) (st : mstate) : mstate :=
  MState (m_prev st) (m_rest st) (m_pos st) ((n, t) :: m_caps st).

(** The matcher, in continuation-passing style: [rx r st k] matches [r] at
    [st] and hands the state after it to [k]; when [k] fails the next
    alternative of [r] is tried. *)
Fixpoint rx (r : re) (st : mstate) (k : mstate -> option mstate)
  : option mstate :=
  match r with
  | Eps => k st
  | Chr p =>
      match m_rest st with
      | c :: _ => if p c then k (skip 1 st) else None
      | [] => None
      end
  | Rep p lo hi =>
      let n := run p hi (m_rest st) in
      if lo <=? n then backoff lo n st k else None
  | Cat a b => rx a st (fun st' => rx b st' k)
  | Alt a b =>
      match rx a st k with
      | Some res => Some res
      | None => rx b st k
      end
  | Grp n a =>
      rx a st (fun st' =>
        k (set_cap n (firstn (m_pos st' - m_pos st) (m_rest st)) st'))
  | Bol => if at_bol st then k st else None
  | Eol => if at_eol st then k st else None
  | Bos => if at_bos st then k st else None
  | Eos => if at_eos st then k st else None
  | NLook a =>
      match rx a st Some with
      | Some _ => None
      | None => k st
      end
  end.

(** A match found at a position: its text and its captures. *)
Record rmatch : Type := RMatch {
  mt_text : jstr;
  mt_caps : list (nat * jstr)
}.

Definition match_at (r : re) (prev : option ascii) (s : jstr) : option rmatch :=
  match rx r (MState prev s 0 []) Some with
  | Some st => Some (RMatch (firstn (m_pos st) s) (m_caps st))
  | None => None
  end.

Fixpoint cap (n : nat) (caps : list (nat * jstr)) : jstr :=
  match caps with
  | [] => []
  | (i, t) :: caps' => if n =? i then t else cap n caps'
  end.

(** What a global scan of a string yields, left to right: the characters no
    match covers and the matches. *)
Inductive seg : Type :=
| SChr (c : ascii)
| SMatch (m : rmatch).

(** The successive [exec] calls of a global regular expression. [inside]
    counts the characters still covered by the match just found; after an
    empty match the search resumes one character further. *)
Fixpoint scan (r : re) (prev : option ascii) (inside : nat) (s : jstr)
  : list seg :=
  match s with
  | [] =>
      match inside with
      | O => match match_at r prev [] with
             | Some m => [SMatch m]
             | None => []
             end
      | S _ => []
      end
  | c :: s' =>
      match inside with
      | S n => scan r (Some c) n s'
      | O =>
          match match_at r prev s with
          | Some m =>
              match length (mt_text m) with
              | O => SMatch m :: SChr c :: scan r (Some c) 0 s'
              | S n => SMatch m :: scan r (Some c) n s'
              end
          | None => SChr c :: scan r (Some c) 0 s'
          end
      end
  end.

(** Like [scan], but only the first match is taken ([replace] and [match]
    with a regular expression that has no [g] flag). *)
Fixpoint scan1 (r : re) (prev : option ascii) (s : jstr) : list seg :=
  match match_at r prev s with
  | Some m => SMatch m :: map SChr (skipn (length (mt_text m)) s)
  | None =>
      match s with
      | [] => []
      | c :: s' => SChr c :: scan1 r (Some c) s'
      end
  end.

(** A replacement string: literal text and [$n] references. *)
Inductive titem : Type :=
| TLit (t : jstr)
| TRef (n : nat).

Definition expand (tmpl : list titem) (m : rmatch) : jstr :=
  flat_map (fun it => match it with
                      | TLit t => t
                      | TRef n => cap n (mt_caps m)
                      end) tmpl.

Definition render (tmpl : list titem) (sg : seg) : jstr :=
  match sg with
  | SChr c => [c]
  | SMatch m => expand tmpl m
  end.

(** [s.replace(/r/g, tmpl)] *)
Definition replaceAll (r : re) (tmpl : list titem) (s : jstr) : jstr :=
  flat_map (render tmpl) (scan r None 0 s).

(** [s.replace(/r/, tmpl)] *)
Definition replaceFirst (r : re) (tmpl : list titem) (s : jstr) : jstr :=
  flat_map (render tmpl) (scan1 r None s).

(** [s.match(/r/)] *)
Fixpoint firstMatch (sgs : list seg) : option rmatch :=
  match sgs with
  | [] => None
  | SMatch m :: _ => Some m
  | SChr _ :: sgs' => firstMatch sgs'
  end.

Definition matchFirst (r : re) (s : jstr) : option rmatch :=
  firstMatch (scan1 r None s).

(** [s.split(/r/)] for a separator that never matches the empty string:
    the pieces between the matches. *)
Fixpoint pieces (pending : jstr) (sgs : list seg) : list jstr :=
  match sgs with
  | [] => [rev pending]
  | SChr c :: sgs' => pieces (c :: pending) sgs'
  | SMatch _ :: sgs' => rev pending :: pieces [] sgs'
  end.

Definition splitRe (r : re) (s : jstr) : list jstr :=
  pieces [] (scan r None 0 s).

(** *** Building blocks for the literals of the source *)

Definition oneOf (c : string) : ascii -> bool :=
  fun x => existsb (Ascii.eqb x) (js c).

Definition noneOf (c : string) : ascii -> bool :=
  fun x => negb (oneOf c x).

(** [.] *)
Definition dot : ascii -> bool := fun x => negb (isLineTerminator x).

Definition notSpace : ascii -> bool := fun x => negb (isSpace x).

Fixpoint cat (l : list re) : re :=
  match l with
  | [] => Eps
  | [r] => r
  | r :: l' => Cat r (cat l')
  end.

(** A literal run of characters. *)
Definition lit (t : string) : re :=
  cat (map (fun c => Chr (Ascii.eqb c)) (js t)).

(** The same under the [i] flag. *)
Definition liti (t : string) : re :=
  cat (map (fun c => Chr (fun x => Ascii.eqb (lowerChar x) (lowerChar c))) (js t)).

Definition star (p : ascii -> bool) : re := Rep p 0 None.
Definition plus (p : ascii -> bool) : re := Rep p 1 None.
Definition opt (p : ascii -> bool) : re := Rep p 0 (Some 1).

(** The image reference of both handlers: [!], an alternative text in
    brackets (group 1, any run without a closing bracket), a non-empty
    address in parentheses (group 2, without a closing parenthesis). *)
Definition imagePattern : re :=
  cat [lit "!["; Grp 1 (star (noneOf "]")); lit "]("; Grp 2 (plus (noneOf ")")); lit ")"].

(** ** The markdown transformations of the publish handler *)

(** The three photo-credit patterns: an asterisk-delimited run that starts
    with "Photo by", or contains "Unsplash", or contains "Photo". *)
Definition captionPhotoBy : re :=
  cat [lit "*Photo by"; star (noneOf "*"); lit "*"].
Definition captionUnsplash : re :=
  cat [lit "*"; star (noneOf "*"); lit "Unsplash"; star (noneOf "*"); lit "*"].
Definition captionPhoto : re :=
  cat [lit "*"; star (noneOf "*"); lit "Photo"; star (noneOf "*"); lit "*"].

Definition stripCaptions (s : jstr) : jstr :=
  replaceAll captionPhoto []
    (replaceAll captionUnsplash []
       (replaceAll captionPhotoBy [] s)).

(** A first-level heading line, under the flags g and m. *)
Definition h1Pattern : re := cat [Bol; lit "# "; plus dot; Eol].

(** A heading line of the given level (2, 3 or 4), its text in group 1. *)
Definition headingPattern (marks : string) : re :=
  cat [Bol; lit marks; lit " "; Grp 1 (plus dot); Eol].

Definition listItemPattern : re := cat [Bol; lit "- "; Grp 1 (plus dot); Eol].

(** A markdown link: non-empty text in brackets (group 1), non-empty address
    in parentheses (group 2). *)
Definition linkPattern : re :=
  cat [lit "["; Grp 1 (plus (noneOf "]")); lit "]("; Grp 2 (plus (noneOf ")")); lit ")"].

(** A bare address: group 1 is the start of the string or one character that
    is not a quote or a closing angle bracket, group 2 the address; it must
    not be followed, before the next opening angle bracket, by a closing
    anchor tag. *)
Definition DQ : ascii := ascii_of_nat 34.

Definition urlChar : ascii -> bool :=
  fun x => negb (isSpace x) && noneOf "<>" x && negb (Ascii.eqb x DQ).

Definition bareUrlPattern : re :=
  cat [Grp 1 (Alt Bos (Chr (fun x => noneOf "'>" x && negb (Ascii.eqb x DQ))));
       Grp 2 (cat [lit "http"; opt (oneOf "s"); lit "://"; plus urlChar]);
       NLook (cat [star (noneOf "<"); lit "</a>"])].

Definition boldPattern : re :=
  cat [lit "**"; Grp 1 (plus (noneOf "*")); lit "**"].
Definition italicPattern : re :=
  cat [lit "*"; Grp 1 (plus (noneOf "*")); lit "*"].

Definition anchorOpen : jstr := js "<a href=" ++ [DQ].
Definition anchorAttrs : jstr :=
  [DQ] ++ js " target=" ++ [DQ] ++ js "_blank" ++ [DQ]
  ++ js " rel=" ++ [DQ] ++ js "noopener noreferrer" ++ [DQ] ++ js ">".

(** The loop that wraps each run of list-item lines in one unordered list. *)
Fixpoint groupLists (inList : bool) (lines : list jstr) : list jstr :=
  match lines with
  | [] => if inList then [js "</ul>"] else []
  | line :: rest =>
      if includes line (js "<li>")
      then (if inList then [] else [js "<ul>"]) ++ line :: groupLists true rest
      else (if inList then [js "</ul>"] else []) ++ line :: groupLists false rest
  end.

Definition isHtmlBlock (p : jstr) : bool :=
  includes p (js "<h") || includes p (js "<ul")
  || includes p (js "<figure") || includes p (js "<li").

Definition nonBlank (p : jstr) : bool :=
  match trim p with [] => false | _ :: _ => true end.

Definition paragraph (p : jstr) : jstr :=
  if isHtmlBlock p then p else js "<p>" ++ trim p ++ js "</p>".

Definition NL : jstr := [LF].
Definition NLNL : jstr := [LF; LF].

(** [htmlContent], from the stored markdown to what is sent as the post
    content: the statements of the handler, in order. *)
Definition stripImages (s : jstr) : jstr := replaceAll imagePattern [] s.

Definition stripH1 (s : jstr) : jstr := replaceAll h1Pattern [] s.

Definition convertHeadings (s : jstr) : jstr :=
  replaceAll (headingPattern "####") [TLit (js "<h4>"); TRef 1; TLit (js "</h4>")]
    (replaceAll (headingPattern "###") [TLit (js "<h3>"); TRef 1; TLit (js "</h3>")]
       (replaceAll (headingPattern "##") [TLit (js "<h2>"); TRef 1; TLit (js "</h2>")] s)).

Definition convertLists (s : jstr) : jstr :=
  join NL (groupLists false
    (split NL (replaceAll listItemPattern [TLit (js "<li>"); TRef 1; TLit (js "</li>")] s))).

Definition convertLinks (s : jstr) : jstr :=
  replaceAll bareUrlPattern
    [TRef 1; TLit anchorOpen; TRef 2; TLit anchorAttrs; TRef 2; TLit (js "</a>")]
    (replaceAll linkPattern
       [TLit anchorOpen; TRef 2; TLit anchorAttrs; TRef 1; TLit (js "</a>")] s).

Definition convertEmphasis (s : jstr) : jstr :=
  replaceAll italicPattern [TLit (js "<em>"); TRef 1; TLit (js "</em>")]
    (replaceAll boldPattern [TLit (js "<strong>"); TRef 1; TLit (js "</strong>")] s).

Definition toParagraphs (s : jstr) : jstr :=
  join NLNL (map paragraph (List.filter nonBlank (split NLNL s))).

Definition markdownToHtml (content : jstr) : jstr :=
  toParagraphs
    (convertEmphasis
       (convertLinks
          (convertLists
             (convertHeadings
                (stripH1 (stripCaptions (stripImages content))))))).

(** *** The excerpt *)

Definition unsplashUrlPattern : re :=
  cat [liti "http"; opt (fun x => Ascii.eqb (lowerChar x) "s"); lit "://";
       star notSpace; liti "unsplash"; star notSpace].

Definition imagesHostPattern : re :=
  cat [liti "http"; opt (fun x => Ascii.eqb (lowerChar x) "s"); lit "://";
       liti "images."; star notSpace].

(** One to six hash signs at the start of a line, then white space. *)
Definition headerMarksPattern : re :=
  cat [Bol; Rep (oneOf "#") 1 (Some 6); plus isSpace].

Definition markupCharPattern : re := Chr (oneOf "*_`#").

(** A markdown link again, but only the text is captured. *)
Definition linkTextPattern : re :=
  cat [lit "["; Grp 1 (plus (noneOf "]")); lit "]("; plus (noneOf ")"); lit ")"].

Definition blankLinesPattern : re :=
  cat [Chr (Ascii.eqb LF); star isSpace; Chr (Ascii.eqb LF)].

Definition spacesPattern : re := plus isSpace.

Definition sentenceEndPattern : re := plus (oneOf ".!?").

Definition urlStartPattern : re :=
  cat [Bos; lit "http"; opt (oneOf "s"); lit "://"].

(** White space, then a run without white space, up to the end. *)
Definition lastWordPattern : re :=
  cat [plus isSpace; star notSpace; Eos].

Definition cleanForExcerpt (content : jstr) : jstr :=
  let s := replaceAll h1Pattern [] content in
  let s := replaceAll imagePattern [] s in
  let s := replaceAll imagePattern [] s in
  let s := replaceAll unsplashUrlPattern [] s in
  let s := replaceAll imagesHostPattern [] s in
  let s := stripCaptions s in
  let s := replaceAll headerMarksPattern [] s in
  let s := replaceAll markupCharPattern [] s in
  let s := replaceAll linkTextPattern [TRef 1] s in
  let s := replaceAll blankLinesPattern [TLit NL] s in
  trim (replaceAll spacesPattern [TLit (js " ")] s).

Definition qualifies (trimmed : jstr) : bool :=
  (20 <? length trimmed)
  && negb (match matchFirst urlStartPattern trimmed with Some _ => true | None => false end)
  && negb (includes trimmed (js "unsplash")).

(** The loop over the sentences: the first one that qualifies, with a full
    stop, or the empty string. *)
Fixpoint firstSentence (sentences : list jstr) : jstr :=
  match sentences with
  | [] => []
  | sentence :: rest =>
      let trimmed := trim sentence in
      if qualifies trimmed then trimmed ++ js "." else firstSentence rest
  end.

Definition genericExcerpt : jstr :=
  js "A comprehensive guide on sustainable fashion and ethical living.".

Definition excerptOfClean (cleanExcerpt : jstr) : jstr :=
  let finalExcerpt := firstSentence (splitRe sentenceEndPattern cleanExcerpt) in
  let finalExcerpt :=
    match finalExcerpt with
    | [] => if 20 <? length cleanExcerpt
            then replaceFirst lastWordPattern [] (substring0 160 cleanExcerpt)
            else []
    | _ :: _ => finalExcerpt
    end in
  match finalExcerpt with
  | [] => genericExcerpt
  | _ :: _ => finalExcerpt
  end.

Definition cleanExcerpt (content : jstr) : jstr :=
  excerptOfClean (cleanForExcerpt content).

(** ** The data model *)

Record UnsplashImage : Type := {
  img_id : jstr;
  img_url : jstr;
  img_thumbUrl : jstr;
  img_description : jstr;
  img_photographer : jstr;
  img_downloadUrl : jstr
}.

(** The blog record, with the columns of the [blogs] table; a column that
    can be null is an [option]. *)
Record Blog : Type := {
  b_id : jstr;
  b_keyword : jstr;
  b_title : jstr;
  b_content : jstr;
  b_imageUrl : option jstr;
  b_imageDescription : option jstr;
  b_images : list UnsplashImage;
  b_status : jstr;
  b_generatedTopics : list jstr;
  b_wordCount : option jstr;
  b_wordpressUrl : option jstr;
  b_wordpressPostId : option jstr;
  b_publishedAt : option jstr;
  b_categoryId : option jstr;
  b_tagIds : option (list (option Z));     (* an entry [None] is undefined *)
  b_metaDescription : option jstr;
  b_githubFilePath : option jstr;
  b_githubCommitSha : option jstr;
  b_backedUpToGithub : option jstr;
  b_createdAt : jstr
}.

(** The object given to [updateBlog], with the keys of the type
    [UpdateBlog]: [None] is a key the object does not have, [Some v] a key
    with the value [v] (which, for a column that can be null, can itself be
    null or undefined). *)
Record UpdateBlog : Type := {
  u_keyword : option jstr;
  u_title : option jstr;
  u_content : option jstr;
  u_imageUrl : option (option jstr);
  u_imageDescription : option (option jstr);
  u_images : option (list UnsplashImage);
  u_status : option jstr;
  u_generatedTopics : option (list jstr);
  u_wordCount : option (option jstr);
  u_wordpressUrl : option (option jstr);
  u_wordpressPostId : option (option jstr);
  u_publishedAt : option (option jstr);
  u_categoryId : option (option jstr);
  u_tagIds : option (option (list (option Z)));
  u_metaDescription : option (option jstr);
  u_githubFilePath : option (option jstr);
  u_githubCommitSha : option (option jstr);
  u_backedUpToGithub : option (option jstr)
}.

Definition noUpdate : UpdateBlog :=
  {| u_keyword := None; u_title := None; u_content := None; u_imageUrl := None;
     u_imageDescription := None; u_images := None; u_status := None;
     u_generatedTopics := None; u_wordCount := None; u_wordpressUrl := None;
     u_wordpressPostId := None; u_publishedAt := None; u_categoryId := None;
     u_tagIds := None; u_metaDescription := None; u_githubFilePath := None;
     u_githubCommitSha := None; u_backedUpToGithub := None |}.

(** The update object that has the key [content] only. *)
Definition contentUpdate (content : jstr) : UpdateBlog :=
  {| u_keyword := None; u_title := None; u_content := Some content; u_imageUrl := None;
     u_imageDescription := None; u_images := None; u_status := None;
     u_generatedTopics := None; u_wordCount := None; u_wordpressUrl := None;
     u_wordpressPostId := None; u_publishedAt := None; u_categoryId := None;
     u_tagIds := None; u_metaDescription := None; u_githubFilePath := None;
     u_githubCommitSha := None; u_backedUpToGithub := None |}.

(** The spread of the update over the existing record. *)
Definition spread (existing : Blog) (u : UpdateBlog) : Blog :=
  {| b_id := b_id existing;
     b_keyword := default (b_keyword existing) (u_keyword u);
     b_title := default (b_title existing) (u_title u);
     b_content := default (b_content existing) (u_content u);
     b_imageUrl := default (b_imageUrl existing) (u_imageUrl u);
     b_imageDescription := default (b_imageDescription existing) (u_imageDescription u);
     b_images := default (b_images existing) (u_images u);
     b_status := default (b_status existing) (u_status u);
     b_generatedTopics := default (b_generatedTopics existing) (u_generatedTopics u);
     b_wordCount := default (b_wordCount existing) (u_wordCount u);
     b_wordpressUrl := default (b_wordpressUrl existing) (u_wordpressUrl u);
     b_wordpressPostId := default (b_wordpressPostId existing) (u_wordpressPostId u);
     b_publishedAt := default (b_publishedAt existing) (u_publishedAt u);
     b_categoryId := default (b_categoryId existing) (u_categoryId u);
     b_tagIds := default (b_tagIds existing) (u_tagIds u);
     b_metaDescription := default (b_metaDescription existing) (u_metaDescription u);
     b_githubFilePath := default (b_githubFilePath existing) (u_githubFilePath u);
     b_githubCommitSha := default (b_githubCommitSha existing) (u_githubCommitSha u);
     b_backedUpToGithub := default (b_backedUpToGithub existing) (u_backedUpToGithub u);
     b_createdAt := b_createdAt existing |}.

Record Credentials : Type := {
  c_wordpressUrl : option jstr;
  c_username : option jstr;
  c_password : option jstr
}.

(** [MemStorage]: the map of blogs and the stored WordPress credentials. *)
Record Storage : Type := {
  blogs : gmap jstr Blog;
  wordpressCredentials : option Credentials
}.

Definition getBlog (st : Storage) (id : jstr) : option Blog := blogs st !! id.

Definition updateBlog (st : Storage) (id : jstr) (u : UpdateBlog)
  : option Blog * Storage :=
  match blogs st !! id with
  | None => (None, st)
  | Some existingBlog =>
      let updatedBlog := spread existingBlog u in
      (Some updatedBlog,
       {| blogs := <[id := updatedBlog]> (blogs st);
          wordpressCredentials := wordpressCredentials st |})
  end.

Definition getWordPressCredentials (st : Storage) : option Credentials :=
  wordpressCredentials st.

(** ** Requests, responses and the outside world *)

(** *** JSON as the handlers read it

    Of the JSON values that come back from the site the publish handler
    reads the keys [id], [name], [link], [message] and [code] of objects,
    the entries of arrays, and the [length] of whatever came back where it
    expects an array. An object is kept as these five keys: [None] is a
    key the object does not have, which reads as undefined; a value that is
    there has the type WordPress gives it, an integer for [id] and a string
    for the others. A number or a boolean reads like the object without
    keys. Objects with a key [length], and arrays with entries other than
    objects and null, are outside the model. *)

Record JObject : Type := {
  j_id : option Z;
  j_name : option jstr;
  j_link : option jstr;
  j_message : option jstr;
  j_code : option jstr
}.

Inductive Json : Type :=
| JNull
| JArray (entries : list (option JObject))     (* an entry [None] is null *)
| JString (s : jstr)
| JObj (o : JObject).

(** The body of a response: [None] when it is not JSON, so that
    [response.json()] rejects and [JSON.parse] throws. *)
Definition Body : Type := option Json.

Definition noKeys : JObject :=
  {| j_id := None; j_name := None; j_link := None; j_message := None; j_code := None |}.

(** The keys of a value for the reads [value.id], [value.name] and so on:
    [None] when such a read throws, the value being null. Arrays and
    strings have none of the five keys. *)
Definition keysOf (value : Json) : option JObject :=
  match value with
  | JNull => None
  | JObj o => Some o
  | JArray _ | JString _ => Some noKeys
  end.

(** The entries of an array when none of them is null. *)
Fixpoint entriesOf (entries : list (option JObject)) : option (list JObject) :=
  match entries with
  | [] => Some []
  | None :: _ => None
  | Some o :: rest => option_map (cons o) (entriesOf rest)
  end.

(** [a === b] on ids, undefined being [None]; it is also what
    [includes] compares with. *)
Definition sameId (a b : option Z) : bool :=
  match a, b with
  | Some x, Some y => (x =? y)%Z
  | None, None => true
  | _, _ => false
  end.

(** [ids.includes(id)] *)
Definition includesId (ids : list (option Z)) (id : option Z) : bool :=
  existsb (sameId id) ids.

(** What the engine throws at the places of the handler that only the
    outer [catch] covers. The handler passes the message of the error on;
    its wording is the engine's. *)
Inductive Failure : Type :=
| NotJson                           (* [response.json()] on a body that is not JSON *)
| BodyAlreadyRead                   (* a body is read a second time *)
| ReadOfNull (key : jstr)           (* a key of null is read *)
| ReadOfUndefined (key : jstr)      (* a key of undefined is read *)
| NotAFunction (callee : jstr).     (* what is called is not a function *)

(** What a [fetch] gives: it rejects (network error, abort by the timeout)
    with a message, or a response arrives. *)
Inductive Fetched (A : Type) : Type :=
| Rejected (msg : jstr)
| Resp (status : Z) (body : A).
Arguments Rejected {A} msg.
Arguments Resp {A} status body.

(** [response.ok] *)
Definition okStatus (status : Z) : bool := ((200 <=? status) && (status <=? 299))%Z.

Record WordPressData : Type := {
  wp_title : jstr;
  wp_content : jstr;
  wp_status : jstr;
  wp_categories : list (option Z);      (* an entry [None] is sent as null *)
  wp_tags : list (option Z);
  wp_excerpt : jstr;
  wp_featured_media : option Z;
  wp_yoast_metadesc : jstr;
  wp_thumbnail_id : jstr;
  wp_attachment_image_alt : jstr
}.

(** The answers of everything outside the process during one run of the
    publish handler. Calls made in a loop are told apart by their number. *)
Record World : Type := {
  w_authProbe : nat -> Fetched Body;               (* by attempt *)
  w_tagCompletion : option (option jstr);          (* None: the call throws *)
  w_tagSearch : nat -> jstr -> Fetched Body;
  w_tagCreate : nat -> jstr -> Fetched Body;
  w_imageDownload : jstr -> Fetched (option Z);    (* the byte length; None:
                                                      [arrayBuffer()] rejects *)
  w_mediaUpload : Fetched Body;
  w_categories : Fetched Body;
  w_tags : Fetched Body;
  w_createPost : nat -> Fetched Body;              (* by attempt *)
  w_now : nat -> jstr;                             (* the n-th reading of the clock *)
  w_errorMessage : Failure -> jstr                 (* the engine's wording *)
}.

(** The external effects of a run, in the order they happen. *)
Inductive Event : Type :=
| EvAuthProbe (attempt : nat) (wordpressUrl username password : jstr) (timeoutMs : Z)
| EvSleep (ms : Q)
| EvTagCompletion
| EvTagSearch (name : jstr) (timeoutMs : Z)
| EvTagCreate (name : jstr) (timeoutMs : Z)
| EvImageDownload (url : jstr) (timeoutMs : Z)
| EvMediaUpload (title alt : jstr) (timeoutMs : Z)
| EvFetchCategories
| EvFetchTags
| EvCreatePost (attempt : nat) (timeoutMs : Z) (data : WordPressData)
| EvScheduleSourceBackup.

Record SeoData : Type := { sd_categoryIds : option (list Z) }.

Record PublishBody : Type := {
  q_wordpressUrl : option jstr;
  q_username : option jstr;
  q_password : option jstr;
  q_categoryId : option Z;
  q_tags : option (list jstr);
  q_metaDescription : option jstr;
  q_seoData : option SeoData
}.

Inductive ResponseBody : Type :=
| JError (error : jstr) (details : option jstr) (needsCredentials : bool)
| JPublished (wordpressUrl : option jstr) (publishedAt : jstr) (categoryId : option Z)
             (tagIds : list (option Z)) (metaDescription : option jstr)
| JBlog (b : Blog).

Record Response : Type := { r_status : Z; r_body : ResponseBody }.

Record Outcome : Type := {
  o_response : Response;
  o_storage : Storage;
  o_trace : list Event
}.

(** ** The publish handler *)

Definition respond (status : Z) (body : ResponseBody) (st : Storage)
  (trace : list Event) : Outcome :=
  {| o_response := {| r_status := status; r_body := body |};
     o_storage := st; o_trace := trace |}.

(** *** Credentials *)

Definition complete (c : Credentials) : bool :=
  truthy (c_wordpressUrl c) && truthy (c_username c) && truthy (c_password c).

Definition fallbackCredentials : Credentials :=
  {| c_wordpressUrl := Some (js "https://exoala.com");
     c_username := Some (js "exoala@brenthoke.com");
     c_password := Some (js "lG2y KvcO SAMO nasv SFB9 LeOT") |}.

Definition resolveCredentials (body : PublishBody) (st : Storage) : Credentials :=
  let supplied := {| c_wordpressUrl := q_wordpressUrl body;
                     c_username := q_username body;
                     c_password := q_password body |} in
  if complete supplied then supplied
  else
    match getWordPressCredentials st with
    | Some storedCredentials =>
        {| c_wordpressUrl := orElse (c_wordpressUrl storedCredentials) (q_wordpressUrl body);
           c_username := orElse (c_username storedCredentials) (q_username body);
           c_password := orElse (c_password storedCredentials) (q_password body) |}
    | None => fallbackCredentials
    end.

(** The credentials once they passed the final validation. *)
Record Auth : Type := { a_wordpressUrl : jstr; a_username : jstr; a_password : jstr }.

Definition authOf (c : Credentials) : Auth :=
  {| a_wordpressUrl := default [] (c_wordpressUrl c);
     a_username := default [] (c_username c);
     a_password := default [] (c_password c) |}.

(** *** The authentication probe *)

(** The loop [for (authAttempt = 1; authAttempt <= 3; authAttempt++)];
    [remaining] is the number of values of [authAttempt] still to run. A
    2xx response counts once its body has been parsed and [userInfo.name]
    read: whatever JSON it is, but for null. *)
Fixpoint authLoop (w : World) (a : Auth) (remaining authAttempt : nat)
  : bool * list Event :=
  match remaining with
  | O => (false, [])
  | S remaining' =>
      let probe := EvAuthProbe authAttempt (a_wordpressUrl a) (a_username a)
                               (a_password a) 15000 in
      let retry :=
        let wait := if authAttempt <? 3
                    then [EvSleep (inject_Z (Z.of_nat authAttempt * 1000))]
                    else [] in
        let '(authSuccess, evs) := authLoop w a remaining' (S authAttempt) in
        (authSuccess, probe :: wait ++ evs) in
      match w_authProbe w authAttempt with
      | Resp status body =>
          if okStatus status
          then match body with
               | None => retry             (* json() rejects: the catch block *)
               | Some userInfo =>
                   match keysOf userInfo with
                   | None => retry         (* userInfo is null: the catch block *)
                   | Some _ => (true, [probe])
                   end
               end
          else retry
      | Rejected _ => retry
      end
  end.

(** *** Tags *)

Definition parseTags (tagString : jstr) : list jstr :=
  List.filter (fun tag => (0 <? length tag) && (length tag <=? 25))
         (map trim (split (js ",") tagString)).

Definition fallbackTags (blog : Blog) : list jstr :=
  let title := toLowerCase (b_title blog) in
  [b_keyword blog]
  ++ (if includes title (js "business") then [js "business strategy"] else [])
  ++ (if includes title (js "tech") then [js "technology"] else [])
  ++ (if includes title (js "marketing") then [js "marketing"] else [])
  ++ [js "productivity"; js "tips"].

Definition generateTags (w : World) (blog : Blog) : list jstr :=
  match w_tagCompletion w with
  | Some content =>
      match option_map trim content with
      | Some (c :: t) => parseTags (c :: t)
      | _ => []
      end
  | None => fallbackTags blog
  end.

(** What the search for one tag leads to. *)
Inductive TagSearch : Type :=
| TagSkipped                       (* [continue], or an exception: no id *)
| TagFound (id : option Z)         (* [tagIds.push(existingTags[0].id)] *)
| TagMissing.                      (* the tag is to be created *)

(** The search for the tag [tagName], number [i] of the loop. *)
Definition searchTag (w : World) (i : nat) (tagName : jstr) : TagSearch :=
  match w_tagSearch w i tagName with
  | Resp status body =>
      if okStatus status
      then match body with
           | None => TagSkipped                          (* json() rejects *)
           | Some JNull => TagSkipped                    (* the length of null *)
           | Some (JArray []) => TagMissing
           | Some (JArray (Some tag :: _)) => TagFound (j_id tag)
           | Some (JArray (None :: _)) => TagSkipped     (* the id of null *)
           | Some (JString []) => TagMissing
           | Some (JString (_ :: _)) => TagFound None    (* a character has no id *)
           | Some (JObj _) => TagMissing                 (* no length: not > 0 *)
           end
      else TagSkipped
  | Rejected _ => TagSkipped
  end.

(** The creation of the tag [tagName]: the id pushed, if one is. *)
Definition createTag (w : World) (i : nat) (tagName : jstr) : option (option Z) :=
  match w_tagCreate w i tagName with
  | Resp status body =>
      if okStatus status
      then match body with
           | None => None                                (* json() rejects *)
           | Some newTag => option_map j_id (keysOf newTag)
           end
      else None
  | Rejected _ => None
  end.

(** The loop over the tag names: search, else create; a failure skips the
    tag. [i] numbers the names. *)
Fixpoint processTags (w : World) (i : nat) (names : list jstr)
  : list (option Z) * list Event :=
  match names with
  | [] => ([], [])
  | tagName :: rest =>
      let '(ids, evs) := processTags w (S i) rest in
      let search := EvTagSearch tagName 5000 in
      let create := EvTagCreate tagName 5000 in
      match searchTag w i tagName with
      | TagSkipped => (ids, search :: evs)
      | TagFound id => (id :: ids, search :: evs)
      | TagMissing =>
          match createTag w i tagName with
          | Some id => (id :: ids, search :: create :: evs)
          | None => (ids, search :: create :: evs)
          end
      end
  end.

(** The tag ids checked against the tags the site lists; when the list
    cannot be read the [catch] block takes the ids as they are. *)
Definition validateTags (w : World) (tagIds : list (option Z))
  : list (option Z) * list Event :=
  match tagIds with
  | [] => ([], [])
  | _ :: _ =>
      match w_tags w with
      | Resp status body =>
          if okStatus status
          then match body with
               | Some (JArray entries) =>
                   match entriesOf entries with
                   | Some availableTags =>
                       let availableTagIds := map j_id availableTags in
                       (List.filter (includesId availableTagIds) tagIds, [EvFetchTags])
                   | None => (tagIds, [EvFetchTags])     (* the id of null *)
                   end
               | _ => (tagIds, [EvFetchTags])   (* json() rejects, or no [map] *)
               end
          else ([], [EvFetchTags])
      | Rejected _ => (tagIds, [EvFetchTags])
      end
  end.

(** *** The featured image *)

Definition uploadFeaturedImage (w : World) (firstImageMatch : option rmatch)
  : option Z * list Event :=
  match firstImageMatch with
  | None => (None, [])
  | Some m =>
      let featuredImageUrl := cap 2 (mt_caps m) in
      let altText := cap 1 (mt_caps m) in
      if truthy (Some featuredImageUrl)
      then
        let download := EvImageDownload featuredImageUrl 8000 in
        let upload :=
          EvMediaUpload (match altText with [] => js "Featured Image" | _ => altText end)
                        altText 12000 in
        match w_imageDownload w featuredImageUrl with
        | Resp status (Some byteLength) =>
            if okStatus status
            then
              if ((0 <? byteLength) && (byteLength <? 10000000))%Z
              then
                match w_mediaUpload w with
                | Resp status' body =>
                    if okStatus status'
                    then match body with
                         | Some mediaData =>
                             match keysOf mediaData with
                             | Some o => (j_id o, [download; upload])
                             | None => (None, [download; upload])
                             end
                         | None => (None, [download; upload])
                         end
                    else (None, [download; upload])
                | Rejected _ => (None, [download; upload])
                end
              else (None, [download])
            else (None, [download])
        | _ => (None, [download])
        end
      else (None, [])
  end.

(** *** Categories *)

Definition requestedCategoryIds (body : PublishBody) : list Z :=
  let single := match q_categoryId body with
                | Some c => if (c =? 0)%Z then [] else [c]
                | None => []
                end in
  match q_seoData body with
  | Some seoData => default single (sd_categoryIds seoData)
  | None => single
  end.

(** [availableCategories] after the fetch: whatever a 2xx response
    parsed to, else the empty array it started as. *)
Definition fetchCategories (w : World) : Json :=
  match w_categories w with
  | Resp status body =>
      if okStatus status
      then match body with
           | Some categories => categories
           | None => JArray []
           end
      else JArray []
  | Rejected _ => JArray []
  end.

(** The requested ids that are among [availableCategoryIds]. *)
Definition validateCategories (availableCategoryIds : list (option Z))
  (categoryIds : list Z) : list (option Z) :=
  map Some (List.filter (fun catId => includesId availableCategoryIds (Some catId))
                        categoryIds).

(** [availableCategories.find(cat => cat.name.toLowerCase().includes(..) || ..)]:
    the first category whose name has one of the words, [Some None] when
    there is none, [None] when a category without a name is reached first,
    [toLowerCase] being read of undefined. *)
Fixpoint findByName (words : list jstr) (categories : list JObject)
  : option (option JObject) :=
  match categories with
  | [] => Some None
  | cat :: rest =>
      match j_name cat with
      | None => None
      | Some name =>
          if existsb (fun word => includes (toLowerCase name) word) words
          then Some (Some cat)
          else findByName words rest
      end
  end.

(** The content-keyword fallback, then the first category of the site;
    [None] when a [find] throws. *)
Definition smartFallback (blog : Blog) (availableCategories : list JObject)
  : option (option JObject) :=
  let title := toLowerCase (b_title blog) in
  let content := toLowerCase (b_content blog) in
  let found :=
    if includes title (js "ai") || includes title (js "automation")
       || includes content (js "artificial intelligence")
    then findByName [js "ai"; js "automation"; js "tool"] availableCategories
    else Some None in
  match found with
  | None => None
  | Some bestMatch =>
      let found :=
        match bestMatch with
        | Some _ => Some bestMatch
        | None =>
            if includes title (js "income") || includes title (js "money")
               || includes content (js "passive income")
            then findByName [js "income"; js "business"; js "affiliate"]
                            availableCategories
            else Some None
        end in
      match found with
      | None => None
      | Some bestMatch =>
          let found :=
            match bestMatch with
            | Some _ => Some bestMatch
            | None =>
                if includes title (js "travel") || includes title (js "nomad")
                   || includes content (js "digital nomad")
                then findByName [js "nomad"; js "travel"; js "abroad"]
                                availableCategories
                else Some None
            end in
          match found with
          | None => None
          | Some bestMatch =>
              Some (match bestMatch with
                    | Some _ => bestMatch
                    | None => head availableCategories
                    end)
          end
      end
  end.

(** [validCategoryIds], or what is thrown on the way: [map] is called on
    [availableCategories] outside every [try] of the handler, and so is
    [find] in the fallback. *)
Definition resolveCategories (blog : Blog) (availableCategories : Json)
  (categoryIds : list Z) : Failure + list (option Z) :=
  match availableCategories with
  | JNull => inl (ReadOfNull (js "map"))
  | JString _ | JObj _ => inl (NotAFunction (js "availableCategories.map"))
  | JArray entries =>
      match entriesOf entries with
      | None => inl (ReadOfNull (js "id"))
      | Some categories =>
          let availableCategoryIds := map j_id categories in
          let validCategoryIds := validateCategories availableCategoryIds categoryIds in
          match validCategoryIds, categories with
          | [], _ :: _ =>
              match smartFallback blog categories with
              | None => inl (ReadOfUndefined (js "toLowerCase"))
              | Some (Some bestMatch) => inr [j_id bestMatch]
              | Some None => inr []
              end
          | _, _ => inr validCategoryIds
          end
      end
  end.

(** *** The create-post request and its retry loop *)

Definition MAX_ATTEMPTS : nat := 8.

Definition attemptTimeout (attempt : nat) : Z :=
  Z.min (30000 + (Z.of_nat attempt - 1) * 15000) 135000.

Definition retryDelay (attempt : nat) : Q :=
  Qmin (3000 * Qpower (3 # 2) (Z.of_nat attempt - 1)) 60000.

(** The [response] variable: the last response received and whether its
    body has been read. *)
Record ResponseObj : Type := {
  ro_status : Z;
  ro_body : Body;
  ro_bodyUsed : bool
}.

(** [response.text()] and [response.json()] read the body once; a second
    read rejects. *)
Definition readBody (r : ResponseObj) : option Body :=
  if ro_bodyUsed r then None else Some (ro_body r).

Definition used (r : ResponseObj) : ResponseObj :=
  {| ro_status := ro_status r; ro_body := ro_body r; ro_bodyUsed := true |}.

Record LoopResult : Type := {
  lr_publishSuccess : bool;
  lr_response : option ResponseObj;
  lr_trace : list Event
}.

(** The loop [for (attempt = 1; attempt <= MAX_ATTEMPTS; attempt++)];
    [remaining] is the number of values of [attempt] still to run and
    [response] the variable of that name. *)
Fixpoint createPostLoop (w : World) (data : WordPressData)
  (remaining attempt : nat) (response : option ResponseObj) : LoopResult :=
  match remaining with
  | O => {| lr_publishSuccess := false; lr_response := response; lr_trace := [] |}
  | S remaining' =>
      let post := EvCreatePost attempt (attemptTimeout attempt) data in
      let retry (response : option ResponseObj) :=
        let wait := if attempt <? MAX_ATTEMPTS
                    then [EvSleep (retryDelay attempt)] else [] in
        let res := createPostLoop w data remaining' (S attempt) response in
        {| lr_publishSuccess := lr_publishSuccess res;
           lr_response := lr_response res;
           lr_trace := post :: wait ++ lr_trace res |} in
      match w_createPost w attempt with
      | Resp status body =>
          let r := {| ro_status := status; ro_body := body; ro_bodyUsed := false |} in
          if okStatus status
          then {| lr_publishSuccess := true; lr_response := Some r; lr_trace := [post] |}
          else
            (* the error text is read for the log *)
            if ((status =? 401) || (status =? 403))%Z
            then {| lr_publishSuccess := false; lr_response := Some (used r);
                    lr_trace := [post] |}
            else retry (Some (used r))
      | Rejected _ => retry response
      end
  end.

Definition exhaustedMessage : jstr :=
  js "WordPress publishing failed after " ++ toString (Z.of_nat MAX_ATTEMPTS)
  ++ js " attempts".

(** The message of the error thrown when the loop ends without a post. *)
Definition failureMessage (response : option ResponseObj) : jstr :=
  match response with
  | None => exhaustedMessage
  | Some r =>
      let httpError := js "WordPress HTTP " ++ toString (ro_status r) ++ js " error" in
      match readBody r with
      | None => httpError                   (* text() rejects: the catch block *)
      | Some None => httpError              (* JSON.parse throws *)
      | Some (Some errorData) =>
          match keysOf errorData with
          | None => httpError               (* a key of null is read *)
          | Some o =>
              if truthy (j_message o)
              then js "WordPress error: " ++ default [] (j_message o)
              else if truthy (j_code o)
                   then js "WordPress error code: " ++ default [] (j_code o)
                   else exhaustedMessage
          end
      end
  end.

Definition publishFailed (details : jstr) : ResponseBody :=
  JError (js "Failed to publish to WordPress") (Some details) false.

(** *** The handler *)

(** Everything the handler computes between the authentication probe and
    the create-post loop. *)
Record Prepared : Type := {
  p_tagIds : list (option Z);      (* the ids the search-or-create loop gave *)
  p_featuredMediaId : option Z;    (* the id of the uploaded media, if any *)
  p_validCategoryIds : list (option Z);
  p_validTagIds : list (option Z);
  p_wordpressData : WordPressData;
  p_trace : list Event
}.

(** The preparation ends with an exception, after the effects [trace], or
    goes through. *)
Inductive Preparation : Type :=
| PrepThrew (failure : Failure) (trace : list Event)
| PrepDone (p : Prepared).

Definition prepare (w : World) (blog : Blog) (body : PublishBody) : Preparation :=
  let dynamicTags := generateTags w blog in
  let '(tagIds, tagTrace) := processTags w 0 dynamicTags in
  let firstImageMatch := matchFirst imagePattern (b_content blog) in
  let featuredImageUrl :=
    match firstImageMatch with Some m => cap 2 (mt_caps m) | None => [] end in
  let htmlContent := markdownToHtml (b_content blog) in
  let '(featuredMediaId, imageTrace) := uploadFeaturedImage w firstImageMatch in
  let finalHtmlContent := htmlContent in
  let excerpt := cleanExcerpt (b_content blog) in
  let categoryIds := requestedCategoryIds body in
  let availableCategories := fetchCategories w in
  match resolveCategories blog availableCategories categoryIds with
  | inl failure =>
      PrepThrew failure
        ([EvTagCompletion] ++ tagTrace ++ imageTrace ++ [EvFetchCategories])
  | inr validCategoryIds =>
      let '(validTagIds, validateTrace) := validateTags w tagIds in
      PrepDone
        {| p_tagIds := tagIds;
           p_featuredMediaId := featuredMediaId;
           p_validCategoryIds := validCategoryIds;
           p_validTagIds := validTagIds;
           p_wordpressData :=
             {| wp_title := b_title blog;
                wp_content := finalHtmlContent;
                wp_status := js "publish";
                wp_categories := validCategoryIds;
                wp_tags := validTagIds;
                wp_excerpt := excerpt;
                wp_featured_media := None;
                wp_yoast_metadesc :=
                  default excerpt (orElse (q_metaDescription body) None);
                wp_thumbnail_id :=
                  match featuredImageUrl with [] => [] | _ :: _ => js "external" end;
                wp_attachment_image_alt := js "Featured image" |};
           p_trace := [EvTagCompletion] ++ tagTrace ++ imageTrace
                      ++ [EvFetchCategories] ++ validateTrace |}
  end.

(** The update written when the post has been created. *)
Definition publishedUpdate (w : World) (body : PublishBody) (tagIds : list (option Z))
  (link : option jstr) (postId : Z) : UpdateBlog :=
  {| u_keyword := None; u_title := None; u_content := None; u_imageUrl := None;
     u_imageDescription := None; u_images := None;
     u_status := Some (js "published");
     u_generatedTopics := None; u_wordCount := None;
     u_wordpressUrl := Some link;
     u_wordpressPostId := Some (Some (toString postId));
     u_publishedAt := Some (Some (w_now w 0));
     u_categoryId := Some (option_map toString (q_categoryId body));
     u_tagIds := Some (Some tagIds);
     u_metaDescription := Some (q_metaDescription body);
     u_githubFilePath := None; u_githubCommitSha := None;
     u_backedUpToGithub := None |}.

(** The answer when an exception reaches the outer [catch]. *)
Definition thrown (w : World) (failure : Failure) (st : Storage)
  (trace : list Event) : Outcome :=
  respond 500 (publishFailed (w_errorMessage w failure)) st trace.

(** From the end of the create-post loop to the response. *)
Definition conclude (w : World) (st : Storage) (blog : Blog) (body : PublishBody)
  (tagIds : list (option Z)) (res : LoopResult) (trace : list Event) : Outcome :=
  match lr_publishSuccess res, lr_response res with
  | true, Some r =>
      if okStatus (ro_status r)
      then
        match readBody r with
        | None => thrown w BodyAlreadyRead st trace
        | Some None => thrown w NotJson st trace
        | Some (Some publishedPost) =>
            match keysOf publishedPost with
            | None => thrown w (ReadOfNull (js "link")) st trace
            | Some post =>
                match j_id post with
                | None => thrown w (ReadOfUndefined (js "toString")) st trace
                | Some postId =>
                    let '(_, st') :=
                      updateBlog st (b_id blog)
                        (publishedUpdate w body tagIds (j_link post) postId) in
                    respond 200
                      (JPublished (j_link post) (w_now w 1) (q_categoryId body)
                                  tagIds (q_metaDescription body))
                      st' (trace ++ [EvScheduleSourceBackup])
                end
            end
        end
      else respond 500 (publishFailed (failureMessage (lr_response res))) st trace
  | _, _ => respond 500 (publishFailed (failureMessage (lr_response res))) st trace
  end.

Definition publish (w : World) (st : Storage) (id : jstr) (body : PublishBody)
  : Outcome :=
  match getBlog st id with
  | None => respond 404 (JError (js "Blog not found") None false) st []
  | Some blog =>
      let credentials := resolveCredentials body st in
      if negb (complete credentials)
      then respond 400
             (JError (js "WordPress credentials are incomplete") None true) st []
      else
        let auth := authOf credentials in
        let '(authSuccess, authTrace) := authLoop w auth 3 1 in
        if negb authSuccess
        then respond 401
               (JError (js "WordPress authentication failed after multiple attempts")
                       (Some (js "Please verify your WordPress URL, username, and application password"))
                       true)
               st authTrace
        else
          match prepare w blog body with
          | PrepThrew failure trace => thrown w failure st (authTrace ++ trace)
          | PrepDone p =>
              let res := createPostLoop w (p_wordpressData p) MAX_ATTEMPTS 1 None in
              conclude w st blog body (p_tagIds p) res
                       (authTrace ++ p_trace p ++ lr_trace res)
          end
  end.

(** ** The image-replace handler *)

Record NewImage : Type := {
  ni_url : option jstr;
  ni_description : option jstr;
  ni_alt_description : option jstr
}.

(** The variables the replace callback closes over. *)
Record ReplaceState : Type := { currentIndex : nat; replaced : bool }.

(** The callback given to [replace]: the text put in place of one match,
    and the variables after the call. *)
Definition replaceCallback (imageIndexNum : nat) (newImage : NewImage)
  (s : ReplaceState) (m : rmatch) : jstr * ReplaceState :=
  if currentIndex s =? imageIndexNum
  then
    let description :=
      default (cap 1 (mt_caps m))
              (orElse (ni_description newImage)
                      (orElse (ni_alt_description newImage) None)) in
    (js "![" ++ description ++ js "](" ++ default [] (ni_url newImage) ++ js ")",
     {| currentIndex := S (currentIndex s); replaced := true |})
  else (mt_text m, {| currentIndex := S (currentIndex s); replaced := replaced s |}).

(** [s.replace(/r/g, callback)]: the callback runs on the matches in order. *)
Fixpoint replaceWith {S : Type} (callback : S -> rmatch -> jstr * S)
  (s : S) (sgs : list seg) : jstr * S :=
  match sgs with
  | [] => ([], s)
  | SChr c :: sgs' =>
      let '(out, s') := replaceWith callback s sgs' in (c :: out, s')
  | SMatch m :: sgs' =>
      let '(t, s1) := callback s m in
      let '(out, s2) := replaceWith callback s1 sgs' in (t ++ out, s2)
  end.

(** The handler; [imageIndexNum] is the result of [parseInt] on the route
    parameter, [None] standing for NaN. *)
Definition replaceImage (st : Storage) (id : jstr) (imageIndexNum : option Z)
  (newImage : option NewImage) : Response * Storage :=
  let error status msg := ({| r_status := status; r_body := JError msg None false |}, st) in
  match newImage with
  | None => error 400%Z (js "New image data is required")
  | Some newImage =>
      if negb (truthy (ni_url newImage))
      then error 400%Z (js "New image data is required")
      else
        match getBlog st id with
        | None => error 404%Z (js "Blog not found")
        | Some blog =>
            match imageIndexNum with
            | None => error 400%Z (js "Invalid image index")
            | Some i =>
                if (i <? 0)%Z then error 400%Z (js "Invalid image index")
                else
                  let '(updatedContent, s) :=
                    replaceWith (replaceCallback (Z.to_nat i) newImage)
                                {| currentIndex := 0; replaced := false |}
                                (scan imagePattern None 0 (b_content blog)) in
                  if negb (replaced s)
                  then error 400%Z
                         (js "Image index " ++ toString i
                          ++ js " not found in content. Total images: "
                          ++ toString (Z.of_nat (currentIndex s)))
                  else
                    match updateBlog st id (contentUpdate updatedContent) with
                    | (Some updatedBlog, st') =>
                        ({| r_status := 200; r_body := JBlog updatedBlog |}, st')
                    | (None, st') =>
                        ({| r_status := 500;
                            r_body := JError (js "Failed to save updated blog") None false |},
                         st')
                    end
            end
        end
  end.

(** ** Specification-side definitions *)

(** The character before the position reached after reading [x]. *)
Definition lastChar (prev : option ascii) (x : jstr) : option ascii :=
  match rev x with
  | [] => prev
  | c :: _ => Some c
  end.

Definition withinBound (hi : option nat) (n : nat) : Prop :=
  match hi with
  | Some h => n <= h
  | None => True
  end.

(** What it means for [r] to match the text [x] when [prev] precedes it and
    [rest] follows it, turning the captures [caps] into [caps']. The matcher
    [rx] only ever succeeds with such a match ([rx_sound]). *)
Inductive matches : re -> option ascii -> jstr -> jstr ->
                    list (nat * jstr) -> list (nat * jstr) -> Prop :=
| M_eps prev rest caps : matches Eps prev [] rest caps caps
| M_chr p prev c rest caps :
    p c = true -> matches (Chr p) prev [c] rest caps caps
| M_rep p lo hi prev x rest caps :
    Forall (fun c => p c = true) x -> lo <= length x -> withinBound hi (length x) ->
    matches (Rep p lo hi) prev x rest caps caps
| M_cat a b prev x y rest caps caps' caps'' :
    matches a prev x (y ++ rest) caps caps' ->
    matches b (lastChar prev x) y rest caps' caps'' ->
    matches (Cat a b) prev (x ++ y) rest caps caps''
| M_alt_l a b prev x rest caps caps' :
    matches a prev x rest caps caps' -> matches (Alt a b) prev x rest caps caps'
| M_alt_r a b prev x rest caps caps' :
    matches b prev x rest caps caps' -> matches (Alt a b) prev x rest caps caps'
| M_grp n a prev x rest caps caps' :
    matches a prev x rest caps caps' ->
    matches (Grp n a) prev x rest caps ((n, x) :: caps')
| M_bol prev rest caps :
    at_bol (MState prev rest 0 caps) = true -> matches Bol prev [] rest caps caps
| M_eol prev rest caps :
    at_eol (MState prev rest 0 caps) = true -> matches Eol prev [] rest caps caps
| M_bos prev rest caps :
    at_bos (MState prev rest 0 caps) = true -> matches Bos prev [] rest caps caps
| M_eos prev rest caps :
    at_eos (MState prev rest 0 caps) = true -> matches Eos prev [] rest caps caps
| M_nlook a prev rest caps :
    (exists pos, rx a (MState prev rest pos caps) Some = None) ->
    matches (NLook a) prev [] rest caps caps.

(** The text a list of segments stands for. *)
Definition segText (sg : seg) : jstr :=
  match sg with
  | SChr c => [c]
  | SMatch m => mt_text m
  end.

Definition textOf (sgs : list seg) : jstr := flat_map segText sgs.

Definition isMatch (sg : seg) : bool :=
  match sg with SMatch _ => true | SChr _ => false end.

(** The number of matches among the segments. *)
Definition countMatches (sgs : list seg) : nat := length (List.filter isMatch sgs).

(** The reference the image-replace callback writes over the match [m]. *)
Definition newReference (newImage : NewImage) (m : rmatch) : jstr :=
  js "![" ++ default (cap 1 (mt_caps m))
               (orElse (ni_description newImage)
                       (orElse (ni_alt_description newImage) None))
  ++ js "](" ++ default [] (ni_url newImage) ++ js ")".

(** An image reference as the pattern reads it. *)
Definition imageReference (alt url : jstr) : jstr :=
  js "![" ++ alt ++ js "](" ++ url ++ js ")".

(** *** Image references in reading order *)

(** [alt] and [url] can stand in an image reference: no closing square
    bracket in [alt], and [url] is not empty and has no closing
    parenthesis. *)
Definition isReference (alt url : jstr) : Prop :=
  Forall (fun c => c <> "]"%char) alt
  /\ url <> []
  /\ Forall (fun c => c <> ")"%char) url.

(** The text starts with an image reference. *)
Definition startsReference (s : jstr) : Prop :=
  exists alt url rest, isReference alt url /\ s = imageReference alt url ++ rest.

(** No image reference starts at a position of [gap], [rest] being the
    text that follows [gap]. *)
Definition clearOf (gap rest : jstr) : Prop :=
  forall a b, gap = a ++ b -> b <> [] -> ~ startsReference (b ++ rest).

(** The text read from left to right: a stretch in which no reference
    starts, a reference, and so on, up to the last stretch [tail]. Each
    reference is kept with the stretch before it. *)
Inductive reading : jstr -> list (jstr * jstr * jstr) -> jstr -> Prop :=
| Read_tail tail : clearOf tail [] -> reading tail [] tail
| Read_reference gap alt url rest refs tail :
    clearOf gap (imageReference alt url ++ rest) ->
    isReference alt url ->
    reading rest refs tail ->
    reading (gap ++ imageReference alt url ++ rest) ((gap, alt, url) :: refs) tail.

(** The text of the references, each after the stretch before it. *)
Definition written (refs : list (jstr * jstr * jstr)) : jstr :=
  flat_map (fun ref => match ref with
                       | (gap, alt, url) => gap ++ imageReference alt url
                       end) refs.

(** The description of the new reference: that of the new image if it has
    one, else its alternative description if it has one, else the
    description of the reference it replaces. *)
Definition chosenDescription (newImage : NewImage) (alt : jstr) : jstr :=
  match ni_description newImage with
  | Some (c :: d) => c :: d
  | _ => match ni_alt_description newImage with
         | Some (c :: d) => c :: d
         | _ => alt
         end
  end.

(** The segments the scan of the image pattern cuts such a text into. *)
Definition segmentsOf (refs : list (jstr * jstr * jstr)) (tail : jstr) : list seg :=
  flat_map (fun ref => match ref with
                       | (gap, alt, url) =>
                           map SChr gap
                           ++ [SMatch (RMatch (imageReference alt url)
                                              [(2, url); (1, alt)])]
                       end) refs
  ++ map SChr tail.

(** *** Sample data for the closed instances *)

Definition sampleBlog (content : string) : Blog :=
  {| b_id := js "b1"; b_keyword := js "remote work";
     b_title := js "Working from anywhere"; b_content := js content;
     b_imageUrl := None; b_imageDescription := None;
     b_images := []; b_status := js "draft";
     b_generatedTopics := []; b_wordCount := Some (js "12");
     b_wordpressUrl := None; b_wordpressPostId := None; b_publishedAt := None;
     b_categoryId := None; b_tagIds := None; b_metaDescription := None;
     b_githubFilePath := None; b_githubCommitSha := None;
     b_backedUpToGithub := Some (js "false");
     b_createdAt := js "2024-04-30T09:00:00.000Z" |}.

Definition sampleStorage (blog : Blog) (stored : option Credentials) : Storage :=
  {| blogs := <[js "b1" := blog]> ∅; wordpressCredentials := stored |}.

Definition twoImages : Blog :=
  sampleBlog "Intro ![one](http://a/1.jpg) middle ![two](http://a/2.jpg) end".

(** The same address in two references. *)
Definition sameImageTwice : Blog :=
  sampleBlog "First ![one](http://a/1.jpg) then ![again](http://a/1.jpg) end".

Definition sampleNewImage : NewImage :=
  {| ni_url := Some (js "http://b/new.jpg");
     ni_description := Some (js "a new view");
     ni_alt_description := None |}.

(** *** How the attempts of the two retry loops are classified *)

(** The authentication probe succeeded: a 2xx response whose body is JSON
    other than null. Every other answer is a failed probe: a response that
    is not 2xx, a body that is not JSON or is null, a network error, a
    timeout. *)
Definition probeOk (f : Fetched Body) : bool :=
  match f with
  | Resp status (Some JNull) => false
  | Resp status (Some _) => okStatus status
  | _ => false
  end.

Definition isOk {A} (f : Fetched A) : bool :=
  match f with
  | Resp status _ => okStatus status
  | Rejected _ => false
  end.

(** A response with status 401 or 403. *)
Definition isAuthFailure {A} (f : Fetched A) : bool :=
  match f with
  | Resp status _ => ((status =? 401) || (status =? 403))%Z
  | Rejected _ => false
  end.

(** Every other failure: a non-2xx response, a network error, a timeout. *)
Definition retryable {A} (f : Fetched A) : bool :=
  negb (isOk f) && negb (isAuthFailure f).

(** [n] probes numbered from [attempt], each but the last followed by a
    wait of (its number) x 1000 ms. *)
Fixpoint probesTrace (a : Auth) (n attempt : nat) : list Event :=
  let probe := EvAuthProbe attempt (a_wordpressUrl a) (a_username a)
                           (a_password a) 15000 in
  match n with
  | O => []
  | S O => [probe]
  | S n' => probe :: EvSleep (inject_Z (Z.of_nat attempt * 1000))
            :: probesTrace a n' (S attempt)
  end.

(** [n] create-post attempts numbered from [attempt], each under its own
    timeout and each but the last followed by its retry delay. *)
Fixpoint attemptsTrace (data : WordPressData) (n attempt : nat) : list Event :=
  let post := EvCreatePost attempt (attemptTimeout attempt) data in
  match n with
  | O => []
  | S O => [post]
  | S n' => post :: EvSleep (retryDelay attempt) :: attemptsTrace data n' (S attempt)
  end.

Definition isCreatePost (e : Event) : bool :=
  match e with EvCreatePost _ _ _ => true | _ => false end.

Definition authFailedResponse : ResponseBody :=
  JError (js "WordPress authentication failed after multiple attempts")
         (Some (js "Please verify your WordPress URL, username, and application password"))
         true.

(** A term (a category, a tag, a user) as the site sends it. *)
Definition term (id : Z) (name : jstr) : JObject :=
  {| j_id := Some id; j_name := Some name; j_link := None;
     j_message := None; j_code := None |}.

(** The error object of the site. *)
Definition wpError (message code : jstr) : JObject :=
  {| j_id := None; j_name := None; j_link := None;
     j_message := Some message; j_code := Some code |}.

(** The messages of the engine, in the wording of one engine. *)
Definition engineMessage (failure : Failure) : jstr :=
  match failure with
  | NotJson => js "Unexpected token < in JSON at position 0"
  | BodyAlreadyRead => js "Body is unusable"
  | ReadOfNull key => js "Cannot read properties of null (reading '" ++ key ++ js "')"
  | ReadOfUndefined key =>
      js "Cannot read properties of undefined (reading '" ++ key ++ js "')"
  | NotAFunction callee => callee ++ js " is not a function"
  end.

(** Worlds for the closed instances: every call succeeds, except what the
    arguments say. *)
Definition sampleWorld (authProbe : nat -> Fetched Body)
  (createPost : nat -> Fetched Body) : World :=
  {| w_authProbe := authProbe;
     w_tagCompletion := Some (Some (js "remote work, travel gear"));
     w_tagSearch := fun i name =>
       Resp 200 (Some (JArray [Some (term (10 + Z.of_nat i) name)]));
     w_tagCreate := fun _ _ => Rejected (js "unused");
     w_imageDownload := fun _ => Resp 200 (Some 2048%Z);
     w_mediaUpload := Resp 201 (Some (JObj (term 77 (js "featured"))));
     w_categories := Resp 200 (Some (JArray [Some (term 3 (js "General"))]));
     w_tags := Resp 200 (Some (JArray [Some (term 10 (js "remote work"))]));
     w_createPost := createPost;
     w_now := fun n => js "2024-05-01T10:00:00.000Z";
     w_errorMessage := engineMessage |}.

Definition probeSucceeds : nat -> Fetched Body :=
  fun _ => Resp 200 (Some (JObj (term 1 (js "editor")))).

Definition postCreated : Fetched Body :=
  Resp 201 (Some (JObj {| j_id := Some 42%Z; j_name := None;
                          j_link := Some (js "https://site.example/?p=42");
                          j_message := None; j_code := None |})).

Definition emptyBody : PublishBody :=
  {| q_wordpressUrl := None; q_username := None; q_password := None;
     q_categoryId := None; q_tags := None; q_metaDescription := None;
     q_seoData := None |}.

(** The create-post events among the effects of a run. *)
Definition createPosts (trace : list Event) : list Event := List.filter isCreatePost trace.

(** The create-post events of attempts 1 to [n]. *)
Definition postsUpTo (data : WordPressData) (n : nat) : list Event :=
  map (fun k => EvCreatePost k (attemptTimeout k) data) (seq 1 n).

Definition sleeps (trace : list Event) : list Q :=
  flat_map (fun e => match e with EvSleep ms => [ms] | _ => [] end) trace.

(** Two network failures, then the post is created. *)
Definition failsTwice : nat -> Fetched Body :=
  fun attempt => if attempt <? 3 then Rejected (js "fetch failed") else postCreated.

(** The answer of the site to a create-post request it refuses for lack of
    rights. *)
Definition postForbidden (status : Z) : Fetched Body :=
  Resp status
    (Some (JObj (wpError (js "Sorry, you are not allowed to create posts as this user.")
                         (js "rest_cannot_create")))).

Definition httpErrorMessage (status : Z) : jstr :=
  js "WordPress HTTP " ++ toString status ++ js " error".

Definition storedCredentials : Credentials :=
  {| c_wordpressUrl := Some (js "https://stored.example");
     c_username := Some (js "stored-user");
     c_password := Some (js "stored-pass") |}.

Definition suppliedBody : PublishBody :=
  {| q_wordpressUrl := Some (js "https://supplied.example");
     q_username := Some (js "supplied-user");
     q_password := Some (js "supplied-pass");
     q_categoryId := None; q_tags := None; q_metaDescription := None;
     q_seoData := None |}.

Definition supplied (body : PublishBody) : Credentials :=
  {| c_wordpressUrl := q_wordpressUrl body;
     c_username := q_username body;
     c_password := q_password body |}.

(** A request that asks for category 5, which the site does not have. *)
Definition category5Body : PublishBody :=
  {| q_wordpressUrl := None; q_username := None; q_password := None;
     q_categoryId := Some 5%Z; q_tags := None;
     q_metaDescription := None; q_seoData := None |}.

Definition happyWorld : World := sampleWorld probeSucceeds (fun _ => postCreated).

(** The reading of the claim about the stored ids: the stored blog holds
    the first category and the tags of the create-post requests. *)
Definition storesValidatedIds (o : Outcome) (id : jstr) : Prop :=
  forall k t d, In (EvCreatePost k t d) (o_trace o) ->
    exists b, getBlog (o_storage o) id = Some b
              /\ b_categoryId b = option_map toString (mjoin (head (wp_categories d)))
              /\ b_tagIds b = Some (wp_tags d).

(** The keyword groups of the category fallback. *)
Definition aiContent (blog : Blog) : bool :=
  includes (toLowerCase (b_title blog)) (js "ai")
  || includes (toLowerCase (b_title blog)) (js "automation")
  || includes (toLowerCase (b_content blog)) (js "artificial intelligence").

Definition incomeContent (blog : Blog) : bool :=
  includes (toLowerCase (b_title blog)) (js "income")
  || includes (toLowerCase (b_title blog)) (js "money")
  || includes (toLowerCase (b_content blog)) (js "passive income").

Definition travelContent (blog : Blog) : bool :=
  includes (toLowerCase (b_title blog)) (js "travel")
  || includes (toLowerCase (b_title blog)) (js "nomad")
  || includes (toLowerCase (b_content blog)) (js "digital nomad").

Definition aiNames : list jstr := [js "ai"; js "automation"; js "tool"].
Definition incomeNames : list jstr := [js "income"; js "business"; js "affiliate"].
Definition travelNames : list jstr := [js "nomad"; js "travel"; js "abroad"].

Definition general3 : JObject := term 3 (js "General").

(** The name of the category has one of the words in it, whatever the
    case of its letters. *)
Definition nameHas (words : list jstr) (c : JObject) : Prop :=
  exists name word,
    j_name c = Some name /\ In word words
    /\ includes (toLowerCase name) word = true.

(** [c] is the first category of the list whose name has one of the
    words. *)
Definition firstWith (words : list jstr) (categories : list JObject) (c : JObject)
  : Prop :=
  exists before after,
    categories = before ++ c :: after
    /\ nameHas words c
    /\ Forall (fun x => ~ nameHas words x) before.

(** The keyword group gives nothing: the blog does not fall in it, or no
    category of the list has one of its words in its name. *)
Definition givesNothing (content : bool) (words : list jstr)
  (categories : list JObject) : Prop :=
  content = false \/ Forall (fun x => ~ nameHas words x) categories.

(** A blog about AI, and a category that has the word [tool] in its
    name. *)
Definition aiBlog : Blog :=
  {| b_id := js "b2"; b_keyword := js "writing";
     b_title := js "AI helpers for writers"; b_content := js "Some text.";
     b_imageUrl := None; b_imageDescription := None;
     b_images := []; b_status := js "draft";
     b_generatedTopics := []; b_wordCount := Some (js "2");
     b_wordpressUrl := None; b_wordpressPostId := None; b_publishedAt := None;
     b_categoryId := None; b_tagIds := None; b_metaDescription := None;
     b_githubFilePath := None; b_githubCommitSha := None;
     b_backedUpToGithub := Some (js "false");
     b_createdAt := js "2024-04-30T09:00:00.000Z" |}.

Definition tools7 : JObject := term 7 (js "Writing Tools").

(** A markdown text made of one long sentence without a full stop. *)
Definition longSentence : jstr :=
  js "This sentence has no full stop and keeps going with more and more words until it is far longer than one hundred and sixty five characters in total which is more than an excerpt is said to have".

(** Twenty characters, then a sentence that is long enough. *)
Definition twentyThenMore : jstr :=
  js "Exactly twenty chars. The second sentence is the one that is taken".

Definition notQualified (sentence : jstr) : Prop := qualifies (trim sentence) = false.

(** *** Readings of the claim about the HTML *)

(** The text still contains an image reference. *)
Definition hasImageSyntax (s : jstr) : bool :=
  existsb isMatch (scan imagePattern None 0 s).

(** Some line of the text begins with a hash sign and a space. *)
Definition hasH1Line (s : jstr) : bool :=
  existsb (startsWith (js "# ")) (split NL s).

Definition BANG : ascii := "!"%char.

(** An image reference that starts inside the text of another one. *)
Definition nestedImage : jstr := js "![]![b](c)(d)".

(** A heading line whose whole title is an image reference. *)
Definition imageHeading : jstr :=
  js "intro" ++ [LF] ++ js "# ![a](b)" ++ [LF] ++ js "more".

(** A text in which every exclamation mark is inside an image reference:
    stretches without exclamation mark, separated by image references. *)
Inductive imagesOnly : jstr -> Prop :=
| IO_text t : ~ In BANG t -> imagesOnly t
| IO_image t alt url rest :
    ~ In BANG t ->
    Forall (fun c => noneOf "]" c = true) alt ->
    url <> [] -> Forall (fun c => noneOf ")" c = true) url ->
    imagesOnly rest ->
    imagesOnly (t ++ imageReference alt url ++ rest).

(** The position after [pre] is the start of a line. *)
Definition atLineStart (pre : jstr) : Prop :=
  match lastChar None pre with
  | None => True
  | Some c => isLineTerminator c = true
  end.

(** The literal characters of a replacement string. *)
Definition literals (tmpl : list titem) : jstr :=
  flat_map (fun it => match it with TLit t => t | TRef _ => [] end) tmpl.

(** *** Reading a text line by line *)

(** Where a reader is on the current line: at its start, after a hash sign
    that starts it, after a hash sign and a space that start it, or
    anywhere else. *)
Inductive lstate : Type := LStart | LHash | LHashSp | LMid.

(** One character further; there is no next state when a character other
    than a line terminator follows a hash sign and a space that start a
    line. *)
Definition lstep (q : lstate) (c : ascii) : option lstate :=
  if isLineTerminator c then Some LStart
  else match q with
       | LStart => Some (if Ascii.eqb c "#" then LHash else LMid)
       | LHash => Some (if Ascii.eqb c " " then LHashSp else LMid)
       | LHashSp => None
       | LMid => Some LMid
       end.

Fixpoint lrun (q : lstate) (s : jstr) : option lstate :=
  match s with
  | [] => Some q
  | c :: s' =>
      match lstep q c with
      | Some q' => lrun q' s'
      | None => None
      end
  end.

(** [qo] allows every continuation that [qi] allows. *)
Definition lsim (qo qi : lstate) : Prop := qo = qi \/ qo = LMid.

(** The replacement of the match [m] by [tmpl] can be read wherever the
    match could. *)
Definition simMatch (tmpl : list titem) (m : rmatch) : Prop :=
  forall qi qo qi',
    lsim qo qi -> lrun qi (mt_text m) = Some qi' ->
    exists qo', lrun qo (expand tmpl m) = Some qo' /\ lsim qo' qi'.

(** No line is a hash sign and a space followed by a further character. *)
Definition noTitledH1 (s : jstr) : Prop :=
  forall pre c post,
    s = pre ++ js "# " ++ c :: post -> atLineStart pre ->
    isLineTerminator c = true.

(** A text that can be read after anything but a hash sign and a space
    that start a line, and leaves the reader inside a line. *)
Definition solid (t : jstr) : Prop :=
  lrun LStart t = Some LMid /\ lrun LHash t = Some LMid
  /\ lrun LMid t = Some LMid /\ lrun LHashSp t = None.

(** The end of a line: nothing, or a line terminator, comes next. *)
Definition eol (s : jstr) : Prop :=
  match s with
  | [] => True
  | c :: _ => isLineTerminator c = true
  end.

Definition bol (prev : option ascii) : bool :=
  match prev with
  | None => true
  | Some c => isLineTerminator c
  end.

(** What holds, while the heading lines are deleted, between the state of
    the reader of the output, the character before the position in the
    input and the input that is left. *)
Definition h1Inv (q : lstate) (prev : option ascii) (s : jstr) : Prop :=
  match q with
  | LStart => bol prev = true \/ eol s
  | LHash =>
      bol prev = false
      /\ ~ (exists d s', s = " "%char :: d :: s' /\ isLineTerminator d = false)
  | LHashSp => bol prev = false /\ eol s
  | LMid => bol prev = false
  end.

(** * The rest of the code: further definitions *)

(** ** Readings of the publish handler *)

(** The six ways a run of the handler ends. *)
Inductive PublishEnd (w : World) (st : Storage) (id : jstr) (body : PublishBody)
  : Outcome -> Prop :=
| PE_missing :
    getBlog st id = None ->
    PublishEnd w st id body (respond 404 (JError (js "Blog not found") None false) st [])
| PE_incomplete blog :
    getBlog st id = Some blog ->
    complete (resolveCredentials body st) = false ->
    PublishEnd w st id body
      (respond 400 (JError (js "WordPress credentials are incomplete") None true) st [])
| PE_refused blog :
    getBlog st id = Some blog ->
    complete (resolveCredentials body st) = true ->
    fst (authLoop w (authOf (resolveCredentials body st)) 3 1) = false ->
    PublishEnd w st id body
      (respond 401 authFailedResponse st
         (snd (authLoop w (authOf (resolveCredentials body st)) 3 1)))
| PE_threw blog failure trace :
    getBlog st id = Some blog ->
    complete (resolveCredentials body st) = true ->
    fst (authLoop w (authOf (resolveCredentials body st)) 3 1) = true ->
    prepare w blog body = PrepThrew failure trace ->
    PublishEnd w st id body
      (respond 500 (publishFailed (w_errorMessage w failure)) st
         (snd (authLoop w (authOf (resolveCredentials body st)) 3 1) ++ trace))
| PE_failed blog p details :
    getBlog st id = Some blog ->
    complete (resolveCredentials body st) = true ->
    fst (authLoop w (authOf (resolveCredentials body st)) 3 1) = true ->
    prepare w blog body = PrepDone p ->
    PublishEnd w st id body
      (respond 500 (publishFailed details) st
         (snd (authLoop w (authOf (resolveCredentials body st)) 3 1)
          ++ p_trace p
          ++ lr_trace (createPostLoop w (p_wordpressData p) MAX_ATTEMPTS 1 None)))
| PE_published blog p link postId :
    getBlog st id = Some blog ->
    complete (resolveCredentials body st) = true ->
    fst (authLoop w (authOf (resolveCredentials body st)) 3 1) = true ->
    prepare w blog body = PrepDone p ->
    PublishEnd w st id body
      (respond 200
         (JPublished link (w_now w 1) (q_categoryId body)
                     (p_tagIds p) (q_metaDescription body))
         (snd (updateBlog st (b_id blog)
                 (publishedUpdate w body (p_tagIds p) link postId)))
         ((snd (authLoop w (authOf (resolveCredentials body st)) 3 1)
           ++ p_trace p
           ++ lr_trace (createPostLoop w (p_wordpressData p) MAX_ATTEMPTS 1 None))
          ++ [EvScheduleSourceBackup])).

(** Nothing before the end of the create-post loop schedules a backup. *)
Definition quiet (trace : list Event) : Prop := ~ In EvScheduleSourceBackup trace.

(** Every blog is stored under its own id. *)
Definition keyedById (st : Storage) : Prop :=
  forall id b, getBlog st id = Some b -> b_id b = id.

(** A character of plain one-line text: none of the four markup characters
    the excerpt is cleaned of, and no white space other than the space. *)
Definition plainChar (c : ascii) : Prop :=
  oneOf "*_`#" c = false /\ (isSpace c = true -> c = " "%char).

(** The same request with other tags. *)
Definition withTags (body : PublishBody) (tags : option (list jstr)) : PublishBody :=
  {| q_wordpressUrl := q_wordpressUrl body;
     q_username := q_username body;
     q_password := q_password body;
     q_categoryId := q_categoryId body;
     q_tags := tags;
     q_metaDescription := q_metaDescription body;
     q_seoData := q_seoData body |}.

(** ** The rotation of the Unsplash keys *)

(** The body of a response of Unsplash: the JSON value the caller expects
    at that place, an error object, or anything else. *)
Inductive RBody (A : Type) : Type :=
| BJson (a : A)
| BWpError (message code : option jstr)
| BOther.
Arguments BJson {A} a.
Arguments BWpError {A} message code.
Arguments BOther {A}.


(** [UNSPLASH_KEYS]: the environment variables that are set and not empty,
    in order. *)
Definition loadUnsplashKeys (env : list (option jstr)) : list jstr :=
  flat_map (fun k => if truthy k then [default [] k] else []) env.

(** [getNextUnsplashKey]: the key at [currentKeyIndex] (undefined when the
    index is out of range) and the next value of [currentKeyIndex]. *)
Definition getNextUnsplashKey (keys : list jstr) (currentKeyIndex : nat)
  : option jstr * nat :=
  match keys with
  | [] => (None, currentKeyIndex)
  | _ :: _ => (nth_error keys currentKeyIndex,
               (currentKeyIndex + 1) mod length keys)
  end.

(** What one call of [fetchWithUnsplashRotation] gives: the response
    returned (null in every other case), the value of [currentKeyIndex]
    after the call, and the keys the requests were sent with, in order. *)
Record Rotation (A : Type) : Type := {
  rot_response : option (Z * RBody A);
  rot_index : nat;
  rot_keys : list jstr
}.
Arguments rot_response {A} r.
Arguments rot_index {A} r.
Arguments rot_keys {A} r.

(** The loop [for (let i = 0; i < retries; i++)] of
    [fetchWithUnsplashRotation]; [remaining] is the number of values of [i]
    still to run and [fetchUnsplash i url key] the answer to the request
    of iteration [i]. A response that is not ok, whatever its status, and
    a rejected request both lead to the next iteration. *)
Fixpoint rotationLoop {A : Type} (fetchUnsplash : nat -> jstr -> jstr -> Fetched (RBody A))
  (keys : list jstr) (url : jstr) (retries remaining i currentKeyIndex : nat)
  : Rotation A :=
  match remaining with
  | O => {| rot_response := None; rot_index := currentKeyIndex; rot_keys := [] |}
  | S remaining' =>
      let '(apiKey, nextIndex) := getNextUnsplashKey keys currentKeyIndex in
      if truthy apiKey
      then
        let key := default [] apiKey in
        let next := rotationLoop fetchUnsplash keys url retries remaining' (S i) nextIndex in
        let continue :=
          {| rot_response := rot_response next; rot_index := rot_index next;
             rot_keys := key :: rot_keys next |} in
        match fetchUnsplash i url key with
        | Resp status body =>
            if okStatus status
            then {| rot_response := Some (status, body); rot_index := nextIndex;
                    rot_keys := [key] |}
            else if (status =? 403)%Z && (i <? retries - 1)
                 then continue      (* rate limit: try the next key *)
                 else continue      (* nothing is done: the loop goes on *)
        | Rejected _ =>
            if i <? retries - 1 then continue else continue
        end
      else {| rot_response := None; rot_index := nextIndex; rot_keys := [] |}
  end.

(** [fetchWithUnsplashRotation(url)], with the default number of retries. *)
Definition fetchWithUnsplashRotation {A : Type}
  (fetchUnsplash : nat -> jstr -> jstr -> Fetched (RBody A))
  (keys : list jstr) (url : jstr) (currentKeyIndex : nat) : Rotation A :=
  rotationLoop fetchUnsplash keys url (length keys) (length keys) 0 currentKeyIndex.

(** The keys in the order the rotation hands them out from [index] on. *)
Definition rotated (keys : list jstr) (index : nat) : list jstr :=
  skipn index keys ++ firstn index keys.

(** [n] successive calls of [getNextUnsplashKey]. *)
Fixpoint nextKeys (keys : list jstr) (n currentKeyIndex : nat)
  : list (option jstr) * nat :=
  match n with
  | O => ([], currentKeyIndex)
  | S n' =>
      let '(key, nextIndex) := getNextUnsplashKey keys currentKeyIndex in
      let '(rest, lastIndex) := nextKeys keys n' nextIndex in
      (key :: rest, lastIndex)
  end.

(** ** The other storage methods and the routes on them *)

(** [MemStorage.deleteBlog]: whether the blog was there, and the storage
    without it. *)
Definition deleteBlog (st : Storage) (id : jstr) : bool * Storage :=
  match blogs st !! id with
  | Some _ =>
      (true, {| blogs := delete id (blogs st);
                wordpressCredentials := wordpressCredentials st |})
  | None => (false, st)
  end.

(** [MemStorage.saveWordPressCredentials]. Of the object that is stored
    the model keeps the three fields the publish handler reads. *)
Definition saveWordPressCredentials (st : Storage) (credentials : Credentials)
  : Credentials * Storage :=
  (credentials, {| blogs := blogs st; wordpressCredentials := Some credentials |}).

(** What the small routes answer: a status and, as body, nothing, an error
    object, a blog, or a success message. *)
Inductive ReplyBody : Type :=
| RNone
| RError (error : jstr)
| RBlog (b : Blog)
| RSuccess (message : jstr).

Record Reply : Type := { rp_status : Z; rp_body : ReplyBody }.

(** [GET /api/blogs/:id] *)
Definition getBlogRoute (st : Storage) (id : jstr) : Reply :=
  match getBlog st id with
  | None => {| rp_status := 404; rp_body := RError (js "Blog not found") |}
  | Some blog => {| rp_status := 200; rp_body := RBlog blog |}
  end.

(** [DELETE /api/blogs/:id] *)
Definition deleteBlogRoute (st : Storage) (id : jstr) : Reply * Storage :=
  let '(success, st') := deleteBlog st id in
  if negb success
  then ({| rp_status := 404; rp_body := RError (js "Blog not found") |}, st')
  else ({| rp_status := 204; rp_body := RNone |}, st').

(** The body of [POST /api/wordpress/credentials]. *)
Record CredentialsBody : Type := {
  cb_name : option jstr;
  cb_wordpressUrl : option jstr;
  cb_username : option jstr;
  cb_password : option jstr
}.

(** [POST /api/wordpress/credentials] *)
Definition saveCredentialsRoute (st : Storage) (body : CredentialsBody)
  : Reply * Storage :=
  if negb (truthy (cb_name body)) || negb (truthy (cb_wordpressUrl body))
     || negb (truthy (cb_username body)) || negb (truthy (cb_password body))
  then ({| rp_status := 400; rp_body := RError (js "All fields are required") |}, st)
  else
    let credentials := {| c_wordpressUrl := cb_wordpressUrl body;
                          c_username := cb_username body;
                          c_password := cb_password body |} in
    let '(_, st') := saveWordPressCredentials st credentials in
    ({| rp_status := 200;
        rp_body := RSuccess (js "WordPress credentials saved successfully") |}, st').

(** ** The client: [apiRequest] and [publishBlog] *)

(** A promise of the client: rejected with the message of an error, or
    resolved. *)
Inductive Settled (A : Type) : Type :=
| Thrown (message : jstr)
| Resolved (a : A).
Arguments Thrown {A} message.
Arguments Resolved {A} a.

(** What [response.json()] gives the client: it throws, or the value is
    not an object (or is null), or it is an object, of which the client
    looks at [success] (defined or not) and at [wordpressUrl]. *)
Inductive ClientJson : Type :=
| CJThrows (message : jstr)
| CJNotObject
| CJObject (successDefined : bool) (wordpressUrl : option jstr).

(** A response as the client sees it; [cr_text] is what reading the body
    as text gives. *)
Record ClientResponse : Type := {
  cr_status : Z;
  cr_statusText : jstr;
  cr_text : Settled jstr;
  cr_json : ClientJson
}.

(** What [fetch] does on the client: it is aborted by the timeout, it
    rejects for another reason, or a response arrives. *)
Inductive ClientFetch : Type :=
| CFAborted
| CFRejected (message : jstr)
| CFResponse (r : ClientResponse).

(** [throwIfResNotOk]: the message of the error it throws, if any. *)
Definition throwIfResNotOk (res : ClientResponse) : option jstr :=
  if negb (okStatus (cr_status res))
  then
    let errorText := match cr_text res with
                     | Resolved text => text
                     | Thrown _ => cr_statusText res
                     end in
    Some (toString (cr_status res) ++ js ": " ++ errorText)
  else None.

(** The timeout [apiRequest] chooses from the address. *)
Definition timeoutMs (url : jstr) : Z :=
  if includes url (js "/publish") then 60000
  else if includes url (js "/generate-content") then 120000
  else if includes url (js "/generate-topics") then 45000
  else 30000.

(** [apiRequest(method, url, data)]; [net] answers the [fetch], given the
    timeout that would abort it. *)
Definition apiRequest (url : jstr) (net : Z -> ClientFetch)
  : Settled ClientResponse :=
  match net (timeoutMs url) with
  | CFResponse res =>
      match throwIfResNotOk res with
      | Some message => Thrown message      (* not an AbortError: thrown again *)
      | None => Resolved res
      end
  | CFAborted =>
      Thrown (js "Request timeout after " ++ toString (timeoutMs url / 1000)
              ++ js " seconds. Please check your connection and try again.")
  | CFRejected message => Thrown message
  end.

Definition authenticationMessage : jstr :=
  js "WordPress authentication failed. Please check your credentials.".

(** [api.publishBlog(blogId, credentials, seoData)]: what it throws or the
    response whose JSON it returns. *)
Definition publishBlog (blogId : jstr) (net : Z -> ClientFetch)
  : Settled ClientResponse :=
  match apiRequest (js "/api/blogs/" ++ blogId ++ js "/publish") net with
  | Thrown message => Thrown message          (* logged and thrown again *)
  | Resolved response =>
      if negb (okStatus (cr_status response))
      then
        match cr_text response with
        | Thrown message => Thrown message
        | Resolved errorText =>
            if (cr_status response =? 401)%Z
               && includes (toLowerCase errorText) (js "authentication")
            then Thrown authenticationMessage
            else Thrown (js "Publishing failed: " ++ toString (cr_status response)
                         ++ js " - " ++ errorText)
        end
      else
        match cr_json response with
        | CJThrows message => Thrown message
        | CJNotObject => Thrown (js "Invalid response format from server")
        | CJObject successDefined wordpressUrl =>
            if negb successDefined && negb (truthy wordpressUrl)
            then Thrown (js "Publishing response missing success confirmation")
            else Resolved response
        end
  end.

(** The answer of the publish route when the probes failed, as the client
    receives it. *)
Definition unauthorizedResponse : ClientResponse :=
  {| cr_status := 401; cr_statusText := js "Unauthorized";
     cr_text := Resolved (js "WordPress authentication failed after multiple attempts");
     cr_json := CJObject false None |}.

(** ** The incremental backup of the source files *)

(** One entry of the backup records file. *)
Record BackupRecord : Type := {
  br_fileHash : jstr;
  br_githubCommitSha : jstr;
  br_fileSize : nat;
  br_lastBackupAt : jstr
}.

(** What looking for a file gives: it does not exist, reading it throws, or
    its content. *)
Inductive FileRead : Type :=
| FMissing
| FThrows
| FContent (content : jstr).

(** What is outside the backup service: the SHA-256 digest, the files, the
    answer of GitHub to [createOrUpdateFile] (the SHA of the commit, or
    [None] when the call throws) and the clock. The records file is taken
    to be readable and writable. *)
Record BackupWorld : Type := {
  bw_calculateFileHash : jstr -> jstr;
  bw_file : jstr -> FileRead;
  bw_createOrUpdateFile : jstr -> jstr -> jstr -> option jstr;
  bw_now : nat -> jstr
}.

(** The calls to GitHub: a source file, or the project information with
    its two counters and its date. *)
Inductive BackupEvent : Type :=
| BPut (path content message : jstr)
| BPutInfo (filesChanged filesSkipped : nat) (lastBackup : jstr).

Definition filesToBackup : list jstr :=
  [js "client/src/App.tsx";
   js "client/src/main.tsx";
   js "client/src/components/ContentPreviewPanel.tsx";
   js "client/src/components/KeywordInputPanel.tsx";
   js "client/src/components/ImageSelectionPanel.tsx";
   js "client/src/components/MarkdownRenderer.tsx";
   js "client/src/lib/api.ts";
   js "client/src/lib/queryClient.ts";
   js "server/index.ts";
   js "server/routes.ts";
   js "server/storage.ts";
   js "server/github-service.ts";
   js "server/background-services.ts";
   js "server/source-backup-service.ts";
   js "server/db.ts";
   js "server/vite.ts";
   js "package.json";
   js "package-lock.json";
   js "vite.config.ts";
   js "tailwind.config.ts";
   js "drizzle.config.ts";
   js "tsconfig.json";
   js "shared/schema.ts";
   js "README.md"].

(** [path.basename] of a path that does not end with a slash: what follows
    the last slash. *)
Fixpoint basename_go (pending : jstr) (p : jstr) : jstr :=
  match p with
  | [] => rev pending
  | c :: p' => if Ascii.eqb c "/" then basename_go [] p' else basename_go (c :: pending) p'
  end.

Definition basename (p : jstr) : jstr := basename_go [] p.

(** The variables of [backupSourceCode] and the records file while the
    loop over the files runs; the calls are kept latest first. *)
Record BackupState : Type := {
  bs_records : gmap jstr BackupRecord;
  bs_changedFiles : nat;
  bs_skippedFiles : nat;
  bs_clock : nat;                       (* readings of the clock so far *)
  bs_calls : list BackupEvent
}.

(** The body of the loop [for (const filePath of filesToBackup)]. *)
Definition backupFile (w : BackupWorld) (s : BackupState) (filePath : jstr)
  : BackupState :=
  match bw_file w filePath with
  | FMissing => s
  | FThrows => s                        (* caught: the next file *)
  | FContent content =>
      let currentHash := bw_calculateFileHash w content in
      let fileSize := length content in
      let backupRecord := bs_records s !! filePath in
      let unchanged :=
        match backupRecord with
        | Some r => jstr_eqb (br_fileHash r) currentHash
        | None => false
        end in
      if unchanged
      then {| bs_records := bs_records s;
              bs_changedFiles := bs_changedFiles s;
              bs_skippedFiles := S (bs_skippedFiles s);
              bs_clock := bs_clock s;
              bs_calls := bs_calls s |}
      else
        let fileName := basename filePath in
        let message := js "Update " ++ fileName ++ js " - incremental backup" in
        let put := BPut filePath content message in
        match bw_createOrUpdateFile w filePath content message with
        | None =>                       (* caught: the next file *)
            {| bs_records := bs_records s;
               bs_changedFiles := bs_changedFiles s;
               bs_skippedFiles := bs_skippedFiles s;
               bs_clock := bs_clock s;
               bs_calls := put :: bs_calls s |}
        | Some sha =>
            {| bs_records :=
                 <[filePath := {| br_fileHash := currentHash;
                                  br_githubCommitSha := sha;
                                  br_fileSize := fileSize;
                                  br_lastBackupAt := bw_now w (bs_clock s) |}]>
                   (bs_records s);
               bs_changedFiles := S (bs_changedFiles s);
               bs_skippedFiles := bs_skippedFiles s;
               bs_clock := S (bs_clock s);
               bs_calls := put :: bs_calls s |}
        end
  end.

(** [backupSourceCode]: the records file after the run and the calls to
    GitHub, in order. [hasCredentials] tells whether GitHub credentials are
    stored. *)
Definition backupSourceCode (w : BackupWorld) (hasCredentials : bool)
  (records : gmap jstr BackupRecord) : gmap jstr BackupRecord * list BackupEvent :=
  if negb hasCredentials then (records, [])
  else
    let s := fold_left (backupFile w)
               filesToBackup
               {| bs_records := records; bs_changedFiles := 0; bs_skippedFiles := 0;
                  bs_clock := 0; bs_calls := [] |} in
    let info :=
      if 0 <? bs_changedFiles s
      then [BPutInfo (bs_changedFiles s) (bs_skippedFiles s) (bw_now w (bs_clock s))]
      else [] in
    (bs_records s, rev (bs_calls s) ++ info).

(** A world in which every call to GitHub succeeds. *)
Definition reliable (w : BackupWorld) : Prop :=
  forall path content message, bw_createOrUpdateFile w path content message <> None.

(** The paths of the source files among the calls. *)
Definition putPaths (calls : list BackupEvent) : list jstr :=
  flat_map (fun e => match e with BPut path _ _ => [path] | BPutInfo _ _ _ => [] end) calls.

(** The record of [path] tells the content the file has now. *)
Definition upToDate (w : BackupWorld) (records : gmap jstr BackupRecord)
  (path : jstr) : Prop :=
  forall content, bw_file w path = FContent content ->
    exists r, records !! path = Some r
              /\ br_fileHash r = bw_calculateFileHash w content.

(** A world for the closed instances: the digest is the content itself,
    the only file is the README, and GitHub accepts everything. *)
Definition sampleBackupWorld : BackupWorld :=
  {| bw_calculateFileHash := fun content => content;
     bw_file := fun path => if jstr_eqb path (js "README.md")
                            then FContent (js "hello") else FMissing;
     bw_createOrUpdateFile := fun _ _ _ => Some (js "c0ffee");
     bw_now := fun _ => js "2024-05-01T10:00:00.000Z" |}.

Definition readmeRecord : BackupRecord :=
  {| br_fileHash := js "hello"; br_githubCommitSha := js "abc";
     br_fileSize := 5; br_lastBackupAt := js "2024-04-01T10:00:00.000Z" |}.

(** ** The renderer of the client: which image a click names *)

(** The matches of a global scan, in order. *)
Definition matchesOf (sgs : list seg) : list rmatch :=
  flat_map (fun sg => match sg with SMatch m => [m] | SChr _ => [] end) sgs.

(** [imageUrls] of [MarkdownRenderer]: the second group of every match of
    the image pattern in the content, in order. *)
Definition imageUrls (content : jstr) : list jstr :=
  map (fun m => cap 2 (mt_caps m)) (matchesOf (scan imagePattern None 0 content)).

(** [a.indexOf(x)] on an array of strings: the first index at which [x]
    is, or -1. *)
Fixpoint indexOf (x : jstr) (a : list jstr) : Z :=
  match a with
  | [] => -1
  | y :: a' =>
      if jstr_eqb y x then 0
      else let i := indexOf x a' in
           if (i <? 0)%Z then -1 else (i + 1)%Z
  end.

(** [currentImageIndex] for the image whose address is [src]. *)
Definition currentImageIndex (content src : jstr) : Z :=
  indexOf src (imageUrls content).

(** ** The client: the categories chosen before publishing *)

(** A category as the client gets it from [/api/wordpress/categories]. *)
Record WordPressCategory : Type := { cat_id : Z; cat_name : jstr }.

(** [getSmartFallbackCategory] of [handlePublish]: a category id read off
    the title, the content and the keyword. *)
Definition getSmartFallbackCategory (blog : Blog) : Z :=
  let content :=
    toLowerCase (b_title blog ++ js " " ++ b_content blog ++ js " " ++ b_keyword blog) in
  let has word := includes content (js word) in
  if has "chatgpt" || has "ai" || has "automation"
     || has "zapier" || has "tech" || has "software"
  then 40
  else if has "business" || has "startup" || has "entrepreneur"
          || has "income" || has "passive" || has "revenue"
  then 15
  else if has "productivity" || has "habits" || has "mindset"
          || has "personal" || has "growth"
  then 25
  else if has "marketing" || has "seo" || has "content"
          || has "social media" || has "advertising"
  then 30
  else if has "money" || has "finance" || has "investment"
          || has "budget" || has "financial"
  then 35
  else 21.

(** What is handed to [onPublish] beside the credentials. *)
Record ClientSeoData : Type := {
  cs_categoryId : Z;
  cs_categoryIds : list Z;
  cs_tags : list jstr;
  cs_metaDescription : jstr
}.

Definition markdownCharPattern : re := Chr (oneOf "#*[]()").

Definition fallbackSeoData (blog : Blog) : ClientSeoData :=
  {| cs_categoryId := getSmartFallbackCategory blog;
     cs_categoryIds := [getSmartFallbackCategory blog];
     cs_tags := [];
     cs_metaDescription :=
       substring0 160 (replaceAll markdownCharPattern [] (b_content blog)) ++ js "..." |}.

(** The answer of the SEO analysis, as far as it is read. *)
Record SeoAnalysis : Type := {
  sa_suggestedCategories : option (list jstr);
  sa_suggestedCategory : option jstr;
  sa_seoTags : option (list jstr);
  sa_metaDescription : option jstr
}.

(** The second search of a category for a suggestion: key words, then
    inclusion one way or the other. *)
Definition partialMatch (aiSuggestion : jstr) (cat : WordPressCategory) : bool :=
  let catName := toLowerCase (cat_name cat) in
  let sug word := includes aiSuggestion (js word) in
  let nam word := includes catName (js word) in
  if sug "tech" || sug "ai" || sug "automation"
  then nam "tech" || nam "ai" || nam "automation"
  else if sug "business" || sug "entrepreneur"
  then nam "business" || nam "entrepreneur"
  else if sug "marketing" || sug "seo"
  then nam "marketing" || nam "seo"
  else if sug "finance" || sug "money"
  then nam "finance" || nam "money"
  else if sug "personal" || sug "productivity"
  then nam "personal" || nam "productivity"
  else includes catName aiSuggestion || includes aiSuggestion catName.

Definition matchCategory (categories : list WordPressCategory) (suggestion : jstr)
  : option WordPressCategory :=
  match find (fun cat => jstr_eqb (toLowerCase (cat_name cat)) (toLowerCase suggestion))
             categories with
  | Some cat => Some cat
  | None => find (partialMatch (toLowerCase suggestion)) categories
  end.

(** The loop [for (const suggestion of suggestedCategories)]. *)
Fixpoint matchCategories (categories : list WordPressCategory)
  (matchedCategories : list WordPressCategory) (suggestions : list jstr)
  : list WordPressCategory :=
  match suggestions with
  | [] => matchedCategories
  | suggestion :: rest =>
      match suggestion with
      | [] => matchCategories categories matchedCategories rest
      | _ :: _ =>
          match matchCategory categories suggestion with
          | Some matchedCategory =>
              if existsb (fun cat => (cat_id cat =? cat_id matchedCategory)%Z)
                         matchedCategories
              then matchCategories categories matchedCategories rest
              else matchCategories categories
                     (matchedCategories ++ [matchedCategory]) rest
          | None => matchCategories categories matchedCategories rest
          end
      end
  end.

Definition suggestedCategories (analysis : SeoAnalysis) : list jstr :=
  match sa_suggestedCategories analysis with
  | Some suggestions => suggestions
  | None => if truthy (sa_suggestedCategory analysis)
            then [default [] (sa_suggestedCategory analysis)] else []
  end.

(** [finalSeoData]: the fallback, unless the categories were fetched and
    the analysis answered. *)
Definition finalSeoData (blog : Blog) (categories : option (list WordPressCategory))
  (seoAnalysis : option SeoAnalysis) : ClientSeoData :=
  match categories, seoAnalysis with
  | Some categories, Some analysis =>
      let matchedCategories := matchCategories categories [] (suggestedCategories analysis) in
      let fallback := fallbackSeoData blog in
      let categoryIds := map cat_id matchedCategories in
      {| cs_categoryId :=
           match matchedCategories with
           | primaryCategory :: _ => cat_id primaryCategory
           | [] => cs_categoryId fallback
           end;
         cs_categoryIds :=
           match categoryIds with
           | _ :: _ => categoryIds
           | [] => [cs_categoryId fallback]
           end;
         cs_tags := default [] (sa_seoTags analysis);
         cs_metaDescription :=
           if truthy (sa_metaDescription analysis)
           then default [] (sa_metaDescription analysis)
           else cs_metaDescription fallback |}
  | _, _ => fallbackSeoData blog
  end.

(** The body [api.publishBlog] sends, the credentials and the SEO data
    spread into one object, as the publish route reads it: the route looks
    for a key [seoData], which this object does not have. *)
Definition publishRequestBody (wordpressUrl username password : jstr)
  (seoData : ClientSeoData) : PublishBody :=
  {| q_wordpressUrl := Some wordpressUrl;
     q_username := Some username;
     q_password := Some password;
     q_categoryId := Some (cs_categoryId seoData);
     q_tags := Some (cs_tags seoData);
     q_metaDescription := Some (cs_metaDescription seoData);
     q_seoData := None |}.

(** ** The GitHub service: the name of the backup file *)

(** A lower-case letter of the basic alphabet or a digit. *)
Definition slugChar (c : ascii) : bool :=
  let n := nat_of_ascii c in
  ((97 <=? n) && (n <=? 122)) || ((48 <=? n) && (n <=? 57)).

Definition notSlugChar (c : ascii) : bool := negb (slugChar c).

Definition hyphen (c : ascii) : bool := oneOf "-" c.

(** One or more characters that are neither lower-case letters nor digits. *)
Definition nonSlugPattern : re := plus notSlugChar.

(** Hyphens at the start of the string, or hyphens at its end. *)
Definition edgeHyphensPattern : re :=
  Alt (cat [Bos; plus hyphen]) (cat [plus hyphen; Eos]).

(** The slug of [generateFileName]: the title in lower case, every run of
    other characters turned into one hyphen, without the hyphens at the two
    ends. *)
Definition slugOf (title : jstr) : jstr :=
  replaceAll edgeHyphensPattern []
    (replaceAll nonSlugPattern [TLit (js "-")] (toLowerCase title)).

(** [generateFileName]; [date] is the date part of the creation time in
    ISO format. *)
Definition generateFileName (date title : jstr) : jstr :=
  date ++ js "-" ++ slugOf title ++ js ".md".

(** Every run of characters of [p] replaced by [t]; [inRun] tells that the
    run the next character would belong to has been replaced already. *)
Fixpoint squeeze (p : ascii -> bool) (t : jstr) (inRun : bool) (s : jstr) : jstr :=
  match s with
  | [] => []
  | c :: s' =>
      if p c then (if inRun then [] else t) ++ squeeze p t true s'
      else c :: squeeze p t false s'
  end.

(** Without the hyphens it starts with. *)
Fixpoint dropStart (s : jstr) : jstr :=
  match s with
  | c :: s' => if hyphen c then dropStart s' else s
  | [] => []
  end.

(** Without the hyphens it ends with. *)
Fixpoint dropEnd (s : jstr) : jstr :=
  match s with
  | [] => []
  | c :: s' => if hyphen c && forallb hyphen s' then [] else c :: dropEnd s'
  end.

(** No two hyphens follow each other. *)
Fixpoint noDoubleHyphen (s : jstr) : bool :=
  match s with
  | a :: (b :: _) as s' => negb (hyphen a && hyphen b) && noDoubleHyphen s'
  | _ => true
  end.

(** The first and the last character, if any, are not hyphens. *)
Definition noEdgeHyphen (s : jstr) : Prop :=
  (forall c t, s = c :: t -> hyphen c = false)
  /\ (forall t c, s = t ++ [c] -> hyphen c = false).

(** A well-formed slug: lower-case letters, digits and hyphens, no hyphen at
    either end, no two hyphens in a row. *)
Definition wellFormedSlug (s : jstr) : Prop :=
  (forall c, In c s -> slugChar c = true \/ c = "-"%char)
  /\ noEdgeHyphen s
  /\ noDoubleHyphen s = true.

(** ** The images of a generated article

    The loop of [POST /api/blogs/generate-content] that searches Unsplash
    for the images of the article. *)

(** [encodeURIComponent] on characters below 256: the unreserved characters
    stay, every other one becomes the bytes of its UTF-8 encoding, each as
    [%XX]. *)
Definition unreservedChar (c : ascii) : bool :=
  let n := nat_of_ascii c in
  ((65 <=? n) && (n <=? 90)) || ((97 <=? n) && (n <=? 122))
  || ((48 <=? n) && (n <=? 57)) || oneOf "-_.!~*'()" c.

Definition hexDigit (n : nat) : ascii := nth n (js "0123456789ABCDEF") "0"%char.

Definition percentByte (n : nat) : jstr :=
  ["%"%char; hexDigit (n / 16); hexDigit (n mod 16)].

Definition encodeChar (c : ascii) : jstr :=
  let n := nat_of_ascii c in
  if unreservedChar c then [c]
  else if n <? 128 then percentByte n
  else percentByte (192 + n / 64) ++ percentByte (128 + n mod 64).

Definition encodeURIComponent (s : jstr) : jstr := flat_map encodeChar s.

(** [searchQueries] *)
Definition searchQueries (keyword : jstr) : list jstr :=
  [keyword;
   keyword ++ js " tips";
   keyword ++ js " guide";
   keyword ++ js " tools";
   keyword ++ js " best practices";
   keyword ++ js " examples";
   keyword ++ js " strategies";
   keyword ++ js " methods"].

(** The address of the search for one query. *)
Definition searchUrl (query : jstr) : jstr :=
  js "https://api.unsplash.com/search/photos?query=" ++ encodeURIComponent query
  ++ js "&per_page=2&orientation=landscape".

(** What the loop reads of one entry of [imageData.results]. *)
Record UnsplashPhoto : Type := {
  up_id : jstr;
  up_regular : jstr;                    (* photo.urls.regular *)
  up_thumb : jstr;                      (* photo.urls.thumb *)
  up_alt_description : option jstr;
  up_description : option jstr;
  up_name : jstr;                       (* photo.user.name *)
  up_download_location : jstr           (* photo.links.download_location *)
}.

(** An entry of [allImages]. *)
Record ArticleImage : Type := {
  ai_id : jstr;
  ai_url : jstr;
  ai_thumbUrl : jstr;
  ai_description : jstr;
  ai_photographer : jstr;
  ai_downloadUrl : jstr
}.

(** The object pushed for [photo], found with [query]. *)
Definition articleImage (query : jstr) (photo : UnsplashPhoto) : ArticleImage :=
  {| ai_id := up_id photo;
     ai_url := up_regular photo;
     ai_thumbUrl := up_thumb photo;
     ai_description :=
       (let described := orElse (up_alt_description photo) (up_description photo) in
        if truthy described then default [] described else query);
     ai_photographer := up_name photo;
     ai_downloadUrl := up_download_location photo |}.

(** The body of a search response: [BJson results] when [imageData.results]
    can be read as a list (a value without a positive [length] is the empty
    list), an entry being [None] when reading its [urls.regular], [user.name]
    or the like throws; with every other body [response.json()] or
    [imageData.results.length] throws. *)
Definition SearchResults : Type := list (option UnsplashPhoto).

(** [for (const photo of photosToAdd)]: the images after it, or [None] when
    reading a photo throws. *)
Fixpoint addPhotos (imagesNeeded : nat) (query : jstr)
  (photosToAdd : list (option UnsplashPhoto)) (allImages : list ArticleImage)
  : option (list ArticleImage) :=
  match photosToAdd with
  | [] => Some allImages
  | None :: _ => None
  | Some photo :: rest =>
      let allImages' := allImages ++ [articleImage query photo] in
      if imagesNeeded <=? length allImages' then Some allImages'   (* break *)
      else addPhotos imagesNeeded query rest allImages'
  end.

(** What the collection gives: [allImages] ([None] when an exception ended
    it, which the handler only logs), the value of [currentKeyIndex]
    afterwards and the queries searched, in order. *)
Record Collected : Type := {
  col_images : option (list ArticleImage);
  col_index : nat;
  col_searches : list jstr
}.

(** The loop [for (let i = 0; i < queriesNeeded; i++)] over the queries still
    to run; [fetchUnsplash i] answers the requests of the search of
    iteration [i]. *)
Fixpoint collectLoop
  (fetchUnsplash : nat -> nat -> jstr -> jstr -> Fetched (RBody SearchResults))
  (keys : list jstr) (imagesNeeded : nat) (queries : list jstr)
  (i currentKeyIndex : nat) (allImages : list ArticleImage) : Collected :=
  match queries with
  | [] => {| col_images := Some allImages; col_index := currentKeyIndex;
             col_searches := [] |}
  | query :: queries' =>
      let r := fetchWithUnsplashRotation (fetchUnsplash i) keys (searchUrl query)
                 currentKeyIndex in
      let thrown := {| col_images := None; col_index := rot_index r;
                       col_searches := [query] |} in
      let next (allImages' : list ArticleImage) :=
        if imagesNeeded <=? length allImages'
        then {| col_images := Some allImages'; col_index := rot_index r;
                col_searches := [query] |}                        (* break *)
        else
          let c := collectLoop fetchUnsplash keys imagesNeeded queries' (S i)
                     (rot_index r) allImages' in
          {| col_images := col_images c; col_index := col_index c;
             col_searches := query :: col_searches c |} in
      match rot_response r with
      | Some (status, body) =>
          if okStatus status
          then
            match body with
            | BJson results =>
                if 0 <? length results
                then
                  let photosToAdd := firstn (Nat.min 2 (length results)) results in
                  match addPhotos imagesNeeded query photosToAdd allImages with
                  | Some allImages' => next allImages'
                  | None => thrown
                  end
                else next allImages
            | _ => thrown
            end
          else next allImages
      | None => next allImages
      end
  end.

(** The collection for an article that needs [imagesNeeded] images, when
    there are keys. *)
Definition collectImages
  (fetchUnsplash : nat -> nat -> jstr -> jstr -> Fetched (RBody SearchResults))
  (keys : list jstr) (imagesNeeded : nat) (keyword : jstr) (currentKeyIndex : nat)
  : Collected :=
  let queriesNeeded := Nat.min (length (searchQueries keyword)) imagesNeeded in
  collectLoop fetchUnsplash keys imagesNeeded
    (firstn queriesNeeded (searchQueries keyword)) 0 currentKeyIndex [].

(** A search that is answered at the first request, with two photos or
    more that can be read. *)
Definition answered (fetchUnsplash : nat -> nat -> jstr -> jstr -> Fetched (RBody SearchResults))
  : Prop :=
  forall i url key, exists status p1 p2 more,
    fetchUnsplash i 0 url key = Resp status (BJson (Some p1 :: Some p2 :: more))
    /\ okStatus status = true.

(** A sample: every search is answered at once with the same two photos. *)
Definition samplePhoto : UnsplashPhoto :=
  {| up_id := js "p1";
     up_regular := js "https://images.unsplash.com/p1";
     up_thumb := js "https://images.unsplash.com/p1-thumb";
     up_alt_description := None;
     up_description := Some (js "a desk");
     up_name := js "Ann";
     up_download_location := js "https://api.unsplash.com/photos/p1/download" |}.

Definition sampleSearch : nat -> nat -> jstr -> jstr -> Fetched (RBody SearchResults) :=
  fun _ _ _ _ => Resp 200 (BJson [Some samplePhoto; Some samplePhoto]).

(** * Properties *)

(** ** The matcher *)

Lemma skip_state n prev s pos caps :
  n <= length s ->
  skip n (MState prev s pos caps)
  = MState (lastChar prev (firstn n s)) (skipn n s) (pos + n) caps.
Proof.
  revert prev s pos. induction n as [|n IH]; intros prev s pos Hn.
  - simpl. f_equal. lia.
  - destruct s as [|c s]; simpl in Hn; [lia|].
    cbn [skip m_rest m_pos m_caps]. rewrite IH by lia.
    f_equal; [|lia].
    cbn [firstn]. unfold lastChar. cbn [rev].
    destruct (rev (firstn n s)) as [|d l] eqn:E; reflexivity.
Qed.

Lemma lastChar_app prev x y : lastChar (lastChar prev x) y = lastChar prev (x ++ y).
Proof.
  unfold lastChar. rewrite rev_app_distr.
  destruct (rev y) as [|c l]; simpl; [|reflexivity].
  destruct (rev x); reflexivity.
Qed.

Lemma run_le p hi s : run p hi s <= length s.
Proof.
  revert hi. induction s as [|c s IH]; intros hi.
  - destruct hi as [[|h]|]; simpl; lia.
  - destruct hi as [[|h]|]; simpl; try lia;
      destruct (p c); simpl; try lia.
    + specialize (IH (Some h)). simpl in IH. lia.
    + specialize (IH None). simpl in IH. lia.
Qed.

Lemma run_bound p hi s : withinBound hi (run p hi s).
Proof.
  revert hi. induction s as [|c s IH]; intros hi.
  - destruct hi as [[|h]|]; simpl; lia.
  - destruct hi as [[|h]|]; simpl; try lia.
    destruct (p c); simpl; [|lia].
    specialize (IH (Some h)). simpl in IH. lia.
Qed.

Lemma run_all p hi s : Forall (fun c => p c = true) (firstn (run p hi s) s).
Proof.
  revert hi. induction s as [|c s IH]; intros hi.
  - destruct hi as [[|h]|]; simpl; constructor.
  - destruct hi as [[|h]|]; simpl; try constructor;
      destruct (p c) eqn:E; simpl; try constructor; auto.
Qed.

Lemma Forall_firstn_le {A} (P : A -> Prop) (l : list A) i j :
  i <= j -> Forall P (firstn j l) -> Forall P (firstn i l).
Proof.
  revert i j. induction l as [|a l IH]; intros i j Hij H.
  - rewrite firstn_nil. constructor.
  - destruct i as [|i]; [constructor|].
    destruct j as [|j]; [lia|].
    simpl in *. inversion H; subst.
    constructor; [assumption|]. apply IH with (j := j); [lia|assumption].
Qed.

Lemma backoff_sound lo n st k res :
  backoff lo n st k = Some res ->
  exists j, j <= n /\ (lo <= j \/ j = n) /\ k (skip j st) = Some res.
Proof.
  induction n as [|n IH]; cbn [backoff].
  - destruct (k (skip 0 st)) eqn:E; [|discriminate].
    intros H. exists 0. repeat split; auto.
    rewrite E. exact H.
  - destruct (k (skip (S n) st)) eqn:E.
    + intros H. exists (S n). repeat split; auto. rewrite E. exact H.
    + destruct (lo <=? n) eqn:Hlo; [|discriminate].
      intros H. destruct (IH H) as (j & Hj & Hlj & Hk).
      exists j. repeat split; [lia| |exact Hk].
      left. apply Nat.leb_le in Hlo. destruct Hlj; lia.
Qed.

(** Whenever the matcher succeeds, the continuation was entered after a
    text that [r] matches. *)
Lemma rx_sound r :
  forall prev s pos caps k res,
    rx r (MState prev s pos caps) k = Some res ->
    exists x rest caps',
      s = x ++ rest /\ matches r prev x rest caps caps'
      /\ k (MState (lastChar prev x) rest (pos + length x) caps') = Some res.
Proof.
  induction r as [|p|p lo hi|a IHa b IHb|a IHa b IHb|n a IHa| | | | |a IHa];
    intros prev s pos caps k res H; cbn [rx] in H.
  - exists [], s, caps. rewrite Nat.add_0_r. repeat split; auto. constructor.
  - cbn [m_rest] in H. destruct s as [|c s]; [discriminate|].
    destruct (p c) eqn:Hp; [|discriminate].
    exists [c], s, caps. repeat split; [constructor; exact Hp|].
    cbn [skip m_rest m_pos m_caps] in H.
    replace (pos + length [c]) with (S pos) by (simpl; lia). exact H.
  - cbn [m_rest] in H.
    destruct (lo <=? run p hi s) eqn:Hlo; [|discriminate].
    apply Nat.leb_le in Hlo.
    apply backoff_sound in H. destruct H as (j & Hj & Hlj & Hk).
    pose proof (run_le p hi s) as Hrl.
    rewrite skip_state in Hk by lia.
    exists (firstn j s), (skipn j s), caps.
    assert (Hlen : length (firstn j s) = j) by (rewrite length_firstn; lia).
    rewrite Hlen. repeat split.
    + symmetry. apply firstn_skipn.
    + constructor.
      * apply Forall_firstn_le with (j := run p hi s); [lia|apply run_all].
      * rewrite Hlen. lia.
      * rewrite Hlen. pose proof (run_bound p hi s) as Hb.
        destruct hi; simpl in *; lia.
    + exact Hk.
  - apply IHa in H. destruct H as (x & rest1 & caps1 & -> & Ha & H).
    apply IHb in H. destruct H as (y & rest & caps2 & -> & Hb & H).
    exists (x ++ y), rest, caps2. repeat split.
    + rewrite app_assoc. reflexivity.
    + econstructor; eauto.
    + rewrite <- lastChar_app, length_app, Nat.add_assoc. exact H.
  - destruct (rx a (MState prev s pos caps) k) eqn:E.
    + inversion H; subst. apply IHa in E.
      destruct E as (x & rest & caps' & -> & Hm & Hk).
      exists x, rest, caps'. repeat split; auto. apply M_alt_l. exact Hm.
    + apply IHb in H. destruct H as (x & rest & caps' & -> & Hm & Hk).
      exists x, rest, caps'. repeat split; auto. apply M_alt_r. exact Hm.
  - apply IHa in H. destruct H as (x & rest & caps' & -> & Hm & Hk).
    exists x, rest, ((n, x) :: caps'). repeat split; auto.
    + constructor. exact Hm.
    + cbn [m_pos m_rest set_cap m_prev m_caps] in Hk.
      replace (pos + length x - pos) with (length x) in Hk by lia.
      rewrite firstn_app, Nat.sub_diag, firstn_all in Hk.
      simpl in Hk. rewrite app_nil_r in Hk. exact Hk.
  - destruct (at_bol _) eqn:E; [|discriminate].
    exists [], s, caps. rewrite Nat.add_0_r. repeat split; auto.
    constructor. exact E.
  - destruct (at_eol _) eqn:E; [|discriminate].
    exists [], s, caps. rewrite Nat.add_0_r. repeat split; auto.
    constructor. exact E.
  - destruct (at_bos _) eqn:E; [|discriminate].
    exists [], s, caps. rewrite Nat.add_0_r. repeat split; auto.
    constructor. exact E.
  - destruct (at_eos _) eqn:E; [|discriminate].
    exists [], s, caps. rewrite Nat.add_0_r. repeat split; auto.
    constructor. exact E.
  - destruct (rx a (MState prev s pos caps) Some) eqn:E; [discriminate|].
    exists [], s, caps. rewrite Nat.add_0_r. repeat split; auto.
    constructor. exists pos. exact E.
Qed.

Lemma match_at_sound r prev s m :
  match_at r prev s = Some m ->
  exists rest, s = mt_text m ++ rest /\ matches r prev (mt_text m) rest [] (mt_caps m).
Proof.
  unfold match_at. destruct (rx r (MState prev s 0 []) Some) as [st|] eqn:E; [|discriminate].
  intros H. inversion H; subst; clear H.
  apply rx_sound in E. destruct E as (x & rest & caps' & -> & Hm & Hk).
  inversion Hk; subst; clear Hk. cbn [mt_text mt_caps m_pos m_caps].
  rewrite firstn_app, Nat.sub_diag, firstn_all. simpl. rewrite app_nil_r.
  exists rest. split; auto.
Qed.

Lemma match_at_prefix r prev s m :
  match_at r prev s = Some m -> mt_text m ++ skipn (length (mt_text m)) s = s.
Proof.
  intros H. apply match_at_sound in H. destruct H as (rest & Hs & _).
  assert (Hr : skipn (length (mt_text m)) s = rest).
  { rewrite Hs, skipn_app, skipn_all, Nat.sub_diag. reflexivity. }
  rewrite Hr. symmetry. exact Hs.
Qed.

(** ** Scanning *)

(** A scan cuts the string into pieces: nothing is lost or reordered. *)
Lemma textOf_scan r : forall s prev inside,
  textOf (scan r prev inside s) = skipn inside s.
Proof.
  induction s as [|c s IH]; intros prev inside.
  - cbn [scan]. destruct inside; [|reflexivity].
    destruct (match_at r prev []) as [m|] eqn:E; [|reflexivity].
    apply match_at_prefix in E. rewrite skipn_nil, app_nil_r in E.
    unfold textOf. simpl. rewrite E. reflexivity.
  - cbn [scan]. destruct inside as [|n].
    + destruct (match_at r prev (c :: s)) as [m|] eqn:E.
      * apply match_at_prefix in E.
        destruct (length (mt_text m)) as [|n] eqn:L.
        -- apply length_zero_iff_nil in L.
           unfold textOf in *. cbn [flat_map segText]. rewrite IH, L. reflexivity.
        -- unfold textOf in *. cbn [flat_map segText]. rewrite IH.
           cbn [skipn] in E. exact E.
      * unfold textOf in *. cbn [flat_map segText]. rewrite IH. reflexivity.
    + rewrite IH. reflexivity.
Qed.

Lemma textOf_app a b : textOf (a ++ b) = textOf a ++ textOf b.
Proof. unfold textOf. apply flat_map_app. Qed.

Lemma countMatches_app a b : countMatches (a ++ b) = countMatches a + countMatches b.
Proof. unfold countMatches. rewrite List.filter_app, length_app. reflexivity. Qed.

(** Every match a scan reports was found by [match_at] somewhere. *)
Lemma scan_matches r m : forall s prev inside,
  In (SMatch m) (scan r prev inside s) ->
  exists prev' s', match_at r prev' s' = Some m.
Proof.
  induction s as [|c s IH]; intros prev inside; cbn [scan].
  - destruct inside; [|intros []].
    destruct (match_at r prev []) as [m'|] eqn:E; [|intros []].
    intros [H|[]]. inversion H; subst. eauto.
  - destruct inside as [|n]; [|apply IH].
    destruct (match_at r prev (c :: s)) as [m'|] eqn:E.
    + destruct (length (mt_text m')).
      * intros [H|[H|H]]; [inversion H; subst; eauto|discriminate|eapply IH; eauto].
      * intros [H|H]; [inversion H; subst; eauto|eapply IH; eauto].
    + intros [H|H]; [discriminate|eapply IH; eauto].
Qed.

(** ** The image pattern *)

Ltac inv_matches :=
  repeat match goal with
  | H : matches (Cat _ _) _ _ _ _ _ |- _ => inversion H; subst; clear H
  | H : matches (Alt _ _) _ _ _ _ _ |- _ => inversion H; subst; clear H
  | H : matches (Chr _) _ _ _ _ _ |- _ => inversion H; subst; clear H
  | H : matches (Grp _ _) _ _ _ _ _ |- _ => inversion H; subst; clear H
  | H : matches (Rep _ _ _) _ _ _ _ _ |- _ => inversion H; subst; clear H
  | H : matches Eps _ _ _ _ _ |- _ => inversion H; subst; clear H
  | H : matches Bol _ _ _ _ _ |- _ => inversion H; subst; clear H
  | H : matches Eol _ _ _ _ _ |- _ => inversion H; subst; clear H
  | H : matches Bos _ _ _ _ _ |- _ => inversion H; subst; clear H
  | H : matches Eos _ _ _ _ _ |- _ => inversion H; subst; clear H
  | H : matches (NLook _) _ _ _ _ _ |- _ => inversion H; subst; clear H
  | H : Ascii.eqb _ _ = true |- _ => apply Ascii.eqb_eq in H; subst
  end.

Lemma imagePattern_shape prev x rest caps :
  matches imagePattern prev x rest [] caps ->
  exists alt url,
    x = imageReference alt url
    /\ cap 1 caps = alt /\ cap 2 caps = url
    /\ Forall (fun c => noneOf "]" c = true) alt
    /\ url <> [] /\ Forall (fun c => noneOf ")" c = true) url.
Proof.
  intros H.
  cbv [imagePattern cat lit js map list_ascii_of_string star plus] in H.
  inv_matches.
  match goal with
  | H1 : Forall _ ?alt, H2 : Forall _ ?url |- _ =>
      exists alt, url
  end.
  repeat split; auto.
  intros ->. simpl in *. lia.
Qed.

(** ** Replacing the image at an index *)

Section ImageReplace.

Variable imageIndexNum : nat.
Variable newImage : NewImage.

Let callback := replaceCallback imageIndexNum newImage.

(** Past the index, or short of it, the callback copies every match. *)
Lemma replaceWith_copy : forall sgs ci rep,
  imageIndexNum < ci \/ ci + countMatches sgs <= imageIndexNum ->
  replaceWith callback {| currentIndex := ci; replaced := rep |} sgs
  = (textOf sgs, {| currentIndex := ci + countMatches sgs; replaced := rep |}).
Proof.
  induction sgs as [|[c|m] sgs IH]; intros ci rep Hi.
  - cbn. rewrite Nat.add_0_r. reflexivity.
  - cbn [replaceWith]. rewrite IH by exact Hi. reflexivity.
  - cbn [replaceWith]. unfold callback at 1, replaceCallback.
    cbn [currentIndex replaced].
    change (countMatches (SMatch m :: sgs)) with (S (countMatches sgs)) in *.
    destruct (Nat.eqb_spec ci imageIndexNum) as [->|Hne]; [lia|].
    fold callback. rewrite IH by lia.
    unfold textOf. cbn [flat_map segText]. do 2 f_equal. lia.
Qed.

(** When the index is in range the callback rewrites exactly one match. *)
Lemma replaceWith_hit : forall sgs ci rep,
  ci <= imageIndexNum < ci + countMatches sgs ->
  exists before m after,
    sgs = before ++ SMatch m :: after
    /\ ci + countMatches before = imageIndexNum
    /\ replaceWith callback {| currentIndex := ci; replaced := rep |} sgs
       = (textOf before ++ newReference newImage m ++ textOf after,
          {| currentIndex := ci + countMatches sgs; replaced := true |}).
Proof.
  induction sgs as [|[c|m] sgs IH]; intros ci rep Hi.
  - cbn in Hi. lia.
  - destruct (IH ci rep Hi) as (before & m & after & -> & Hc & Hr).
    exists (SChr c :: before), m, after. repeat split; auto.
    cbn [replaceWith]. rewrite Hr. reflexivity.
  - change (countMatches (SMatch m :: sgs)) with (S (countMatches sgs)) in *.
    cbn [replaceWith]. unfold callback at 1, replaceCallback.
    cbn [currentIndex replaced].
    destruct (Nat.eqb_spec ci imageIndexNum) as [->|Hne].
    + exists [], m, sgs. repeat split.
      * cbn. lia.
      * fold callback. rewrite replaceWith_copy by lia.
        unfold newReference. cbn [textOf flat_map app].
        rewrite <- !app_assoc. do 2 f_equal. lia.
    + fold callback.
      destruct (IH (S ci) rep ltac:(lia)) as (before & m' & after & -> & Hc & Hr).
      exists (SMatch m :: before), m', after. repeat split.
      * change (countMatches (SMatch m :: before)) with (S (countMatches before)). lia.
      * rewrite Hr. unfold textOf. cbn [flat_map segText].
        rewrite <- !app_assoc. do 2 f_equal. lia.
Qed.

End ImageReplace.

Lemma updateBlog_found st id blog u :
  getBlog st id = Some blog ->
  updateBlog st id u
  = (Some (spread blog u),
     {| blogs := <[id := spread blog u]> (blogs st);
        wordpressCredentials := wordpressCredentials st |}).
Proof. unfold getBlog, updateBlog. intros ->. reflexivity. Qed.

(** ** The authentication probe *)

Lemma authLoop_step w a remaining authAttempt :
  authLoop w a (S remaining) authAttempt
  = if probeOk (w_authProbe w authAttempt)
    then (true, [EvAuthProbe authAttempt (a_wordpressUrl a) (a_username a)
                             (a_password a) 15000])
    else
      let wait := if authAttempt <? 3
                  then [EvSleep (inject_Z (Z.of_nat authAttempt * 1000))] else [] in
      let '(authSuccess, evs) := authLoop w a remaining (S authAttempt) in
      (authSuccess,
       EvAuthProbe authAttempt (a_wordpressUrl a) (a_username a) (a_password a) 15000
       :: wait ++ evs).
Proof.
  cbn [authLoop]. unfold probeOk.
  destruct (w_authProbe w authAttempt) as [msg|status [[|entries|s|o]|]];
    try reflexivity; destruct (okStatus status); reflexivity.
Qed.

(** C5. The authentication probe is sent at most three times, attempt [k]
    being followed, when it fails and is not the last, by a wait of
    [k * 1000] ms; the loop stops at the first probe that succeeds. A probe
    fails when the request is rejected, when the response is not 2xx, and
    when a 2xx response has a body that is not JSON or is null; every other
    2xx response is a success. When all three probes fail the publish
    handler answers 401 with [needsCredentials: true], leaves the storage
    as it was, and has done nothing but the three probes and the two waits:
    no tag generation, no other request to the site, no post creation. *)
Theorem auth_probe_three_attempts_then_401 :
  (forall (w : World) (a : Auth),
     exists n, 1 <= n <= 3
       /\ snd (authLoop w a 3 1) = probesTrace a n 1
       /\ (forall k, 1 <= k < n -> probeOk (w_authProbe w k) = false)
       /\ (n < 3 -> probeOk (w_authProbe w n) = true)
       /\ fst (authLoop w a 3 1) = probeOk (w_authProbe w n))
  /\ (forall (w : World) (st : Storage) (id : jstr) (body : PublishBody) (blog : Blog),
        getBlog st id = Some blog ->
        complete (resolveCredentials body st) = true ->
        (forall k, 1 <= k <= 3 -> probeOk (w_authProbe w k) = false) ->
        let a := authOf (resolveCredentials body st) in
        publish w st id body
        = respond 401 authFailedResponse st
            [EvAuthProbe 1 (a_wordpressUrl a) (a_username a) (a_password a) 15000;
             EvSleep (inject_Z 1000);
             EvAuthProbe 2 (a_wordpressUrl a) (a_username a) (a_password a) 15000;
             EvSleep (inject_Z 2000);
             EvAuthProbe 3 (a_wordpressUrl a) (a_username a) (a_password a) 15000])
  /\ (forall f : Fetched Body,
        probeOk f = true
        <-> exists status value,
              f = Resp status (Some value) /\ okStatus status = true
              /\ value <> JNull).
Proof.
  split; [|split].
  - intros w a. rewrite !authLoop_step. cbn [authLoop].
    destruct (probeOk (w_authProbe w 1)) eqn:E1.
    { exists 1. repeat split; auto; intros; lia. }
    destruct (probeOk (w_authProbe w 2)) eqn:E2.
    { exists 2. repeat split; auto.
      intros k Hk. replace k with 1 by lia. exact E1. }
    destruct (probeOk (w_authProbe w 3)) eqn:E3.
    + exists 3. repeat split; auto; try lia.
      intros k Hk. assert (k = 1 \/ k = 2) as [-> | ->] by lia; assumption.
    + exists 3. repeat split; auto; try lia.
      intros k Hk. assert (k = 1 \/ k = 2) as [-> | ->] by lia; assumption.
  - intros w st id body blog Hblog Hc Hfail a.
    unfold publish. rewrite Hblog, Hc. cbn [negb].
    rewrite !authLoop_step.
    rewrite (Hfail 1), (Hfail 2), (Hfail 3) by lia.
    reflexivity.
  - intros f. unfold probeOk. split.
    + destruct f as [msg|status [[|entries|s|o]|]]; try discriminate;
        intros Hok; eexists _, _; (split; [reflexivity|]); (split; [exact Hok|]);
        discriminate.
    + intros (status & value & -> & Hok & Hv).
      destruct value; [congruence|exact Hok..].
Qed.

Lemma auth_probe_three_attempts_then_401_witness :
  getBlog (sampleStorage twoImages None) (js "b1") = Some twoImages
  /\ complete (resolveCredentials emptyBody (sampleStorage twoImages None)) = true
  /\ (forall k, 1 <= k <= 3 ->
        probeOk (w_authProbe (sampleWorld (fun _ => Resp 401 None) (fun _ => postCreated)) k)
        = false)
  /\ r_status (o_response (publish (sampleWorld (fun _ => Resp 401 None) (fun _ => postCreated))
                                   (sampleStorage twoImages None) (js "b1") emptyBody))
     = 401%Z
  /\ length (o_trace (publish (sampleWorld (fun _ => Resp 401 None) (fun _ => postCreated))
                              (sampleStorage twoImages None) (js "b1") emptyBody))
     = 5.
Proof.
  assert (Hb : getBlog (sampleStorage twoImages None) (js "b1") = Some twoImages)
    by (vm_compute; reflexivity).
  assert (Hc : complete (resolveCredentials emptyBody (sampleStorage twoImages None)) = true)
    by reflexivity.
  assert (Hf : forall k, 1 <= k <= 3 ->
        probeOk (w_authProbe (sampleWorld (fun _ => Resp 401 None) (fun _ => postCreated)) k)
        = false) by (intros; reflexivity).
  split; [exact Hb|]. split; [exact Hc|]. split; [exact Hf|].
  destruct auth_probe_three_attempts_then_401 as (_ & H & _).
  rewrite (H _ _ _ _ _ Hb Hc Hf). split; reflexivity.
Defined.

(** ** The create-post loop *)

Section CreatePostLoop.

Variable w : World.
Variable data : WordPressData.

Lemma retryable_not_ok (f : Fetched Body) :
  retryable f = true ->
  match f with
  | Resp status _ => okStatus status = false
                     /\ ((status =? 401) || (status =? 403))%Z = false
  | Rejected _ => True
  end.
Proof.
  unfold retryable, isOk, isAuthFailure. destruct f as [msg|status b]; [trivial|].
  destruct (okStatus status), ((status =? 401) || (status =? 403))%Z;
    simpl; intros H; try discriminate; auto.
Qed.

(** One turn of the loop, by the kind of answer the attempt gets. *)
Lemma createPostLoop_retry remaining attempt response :
  retryable (w_createPost w attempt) = true ->
  lr_trace (createPostLoop w data (S remaining) attempt response)
  = EvCreatePost attempt (attemptTimeout attempt) data
    :: (if attempt <? MAX_ATTEMPTS then [EvSleep (retryDelay attempt)] else [])
    ++ lr_trace (createPostLoop w data remaining (S attempt)
                   (match w_createPost w attempt with
                    | Resp status b => Some (Build_ResponseObj status b true)
                    | Rejected _ => response
                    end))
  /\ lr_publishSuccess (createPostLoop w data (S remaining) attempt response)
     = lr_publishSuccess (createPostLoop w data remaining (S attempt)
                   (match w_createPost w attempt with
                    | Resp status b => Some (Build_ResponseObj status b true)
                    | Rejected _ => response
                    end))
  /\ lr_response (createPostLoop w data (S remaining) attempt response)
     = lr_response (createPostLoop w data remaining (S attempt)
                   (match w_createPost w attempt with
                    | Resp status b => Some (Build_ResponseObj status b true)
                    | Rejected _ => response
                    end)).
Proof.
  intros H. apply retryable_not_ok in H. cbn [createPostLoop].
  destruct (w_createPost w attempt) as [msg|status b].
  - repeat split; reflexivity.
  - destruct H as [-> ->]. repeat split; reflexivity.
Qed.

Lemma createPostLoop_stop remaining attempt response :
  retryable (w_createPost w attempt) = false ->
  lr_trace (createPostLoop w data (S remaining) attempt response)
  = [EvCreatePost attempt (attemptTimeout attempt) data]
  /\ lr_publishSuccess (createPostLoop w data (S remaining) attempt response)
     = isOk (w_createPost w attempt)
  /\ (forall status b,
        w_createPost w attempt = Resp status b -> okStatus status = true ->
        lr_response (createPostLoop w data (S remaining) attempt response)
        = Some (Build_ResponseObj status b false)).
Proof.
  unfold retryable, isOk, isAuthFailure. cbn [createPostLoop].
  destruct (w_createPost w attempt) as [msg|status b]; [discriminate|].
  destruct (okStatus status) eqn:Hok.
  - intros _. repeat split; try reflexivity.
    intros status' b' Hw _. inversion Hw; subst. reflexivity.
  - destruct ((status =? 401) || (status =? 403))%Z; [|discriminate].
    intros _. repeat split; try reflexivity.
    intros status' b' Hw Hok'. inversion Hw; subst. congruence.
Qed.

Lemma createPostLoop_spec : forall remaining attempt response,
  attempt + remaining = 8 ->
  let res := createPostLoop w data (S remaining) attempt response in
  exists n, 1 <= n <= S remaining
    /\ lr_trace res = attemptsTrace data n attempt
    /\ (forall k, attempt <= k < attempt + n - 1 ->
                  retryable (w_createPost w k) = true)
    /\ (n < S remaining -> retryable (w_createPost w (attempt + n - 1)) = false)
    /\ lr_publishSuccess res = isOk (w_createPost w (attempt + n - 1))
    /\ (forall status b,
          w_createPost w (attempt + n - 1) = Resp status b -> okStatus status = true ->
          lr_response res = Some (Build_ResponseObj status b false)).
Proof.
  induction remaining as [|remaining IH]; intros attempt response Hsum res;
    subst res; destruct (retryable (w_createPost w attempt)) eqn:Hr.
  - destruct (createPostLoop_retry 0 attempt response Hr) as (Ht & Hs & _).
    exists 1. rewrite Ht, Hs.
    replace (attempt + 1 - 1) with attempt by lia.
    replace (attempt <? MAX_ATTEMPTS) with false
      by (symmetry; apply Nat.ltb_ge; unfold MAX_ATTEMPTS; lia).
    assert (Hnok : isOk (w_createPost w attempt) = false).
    { unfold retryable in Hr. destruct (isOk (w_createPost w attempt)); [discriminate|reflexivity]. }
    repeat split; try lia; try reflexivity.
    + cbn [createPostLoop lr_publishSuccess]. symmetry. exact Hnok.
    + intros status b Hw Hok. unfold isOk in Hnok. rewrite Hw in Hnok. congruence.
  - destruct (createPostLoop_stop 0 attempt response Hr) as (Ht & Hs & Hresp).
    exists 1. rewrite Ht, Hs. replace (attempt + 1 - 1) with attempt by lia.
    repeat split; try lia; try reflexivity. exact Hresp.
  - destruct (createPostLoop_retry (S remaining) attempt response Hr) as (Ht & Hs & Hresp).
    rewrite Ht, Hs, Hresp.
    match goal with
    | |- context [createPostLoop w data (S remaining) (S attempt) ?r] =>
        destruct (IH (S attempt) r ltac:(lia))
          as (n & Hn & Htr & Hbefore & Hlast & Hsucc & Hresp')
    end.
    exists (S n). rewrite Htr, Hsucc.
    replace (attempt <? MAX_ATTEMPTS) with true
      by (symmetry; apply Nat.ltb_lt; unfold MAX_ATTEMPTS; lia).
    replace (attempt + S n - 1) with (S attempt + n - 1) by lia.
    repeat split; try lia.
    + destruct n as [|n]; [lia|]. reflexivity.
    + intros k Hk. destruct (Nat.eq_dec k attempt) as [->|Hne]; [exact Hr|].
      apply Hbefore. lia.
    + intros Hlt. apply Hlast. lia.
    + exact Hresp'.
  - destruct (createPostLoop_stop (S remaining) attempt response Hr) as (Ht & Hs & Hresp).
    exists 1. rewrite Ht, Hs. replace (attempt + 1 - 1) with attempt by lia.
    repeat split; try lia; try reflexivity; [intros _; exact Hr|exact Hresp].
Qed.

End CreatePostLoop.

Lemma createPosts_attemptsTrace data : forall n attempt,
  createPosts (attemptsTrace data n attempt)
  = map (fun k => EvCreatePost k (attemptTimeout k) data) (seq attempt n).
Proof.
  induction n as [|n IH]; intros attempt; [reflexivity|].
  destruct n as [|n]; [reflexivity|].
  change (attemptsTrace data (S (S n)) attempt)
    with (EvCreatePost attempt (attemptTimeout attempt) data
          :: EvSleep (retryDelay attempt) :: attemptsTrace data (S n) (S attempt)).
  unfold createPosts in *. cbn [List.filter isCreatePost]. rewrite IH. reflexivity.
Qed.

Lemma createPosts_app a b : createPosts (a ++ b) = createPosts a ++ createPosts b.
Proof. apply List.filter_app. Qed.

Lemma createPosts_authLoop w a : forall remaining authAttempt,
  createPosts (snd (authLoop w a remaining authAttempt)) = [].
Proof.
  induction remaining as [|remaining IH]; intros authAttempt; [reflexivity|].
  rewrite authLoop_step. destruct (probeOk _); [reflexivity|].
  specialize (IH (S authAttempt)).
  destruct (authLoop w a remaining (S authAttempt)) as [b evs]. cbn [snd] in *.
  destruct (authAttempt <? 3); cbn; exact IH.
Qed.

Lemma createPosts_processTags w : forall names i,
  createPosts (snd (processTags w i names)) = [].
Proof.
  induction names as [|tagName rest IH]; intros i; [reflexivity|].
  cbn [processTags]. specialize (IH (S i)).
  destruct (processTags w (S i) rest) as [ids evs]. cbn [snd] in IH.
  destruct (searchTag w i tagName); [exact IH..|].
  destruct (createTag w i tagName); exact IH.
Qed.

Lemma createPosts_uploadFeaturedImage w fm :
  createPosts (snd (uploadFeaturedImage w fm)) = [].
Proof.
  unfold uploadFeaturedImage. destruct fm as [m|]; [|reflexivity].
  destruct (truthy _); [|reflexivity].
  destruct (w_imageDownload w _) as [msg|status [len|]]; cbn; auto.
  destruct (okStatus status); cbn; auto.
  destruct ((0 <? len)%Z && (len <? 10000000)%Z); cbn; auto.
  destruct (w_mediaUpload w) as [msg|status' [mediaData|]]; cbn; auto;
    destruct (okStatus status'); cbn; auto.
  destruct (keysOf mediaData); reflexivity.
Qed.

Lemma createPosts_validateTags w tagIds :
  createPosts (snd (validateTags w tagIds)) = [].
Proof.
  unfold validateTags. destruct tagIds as [|t ts]; [reflexivity|].
  destruct (w_tags w) as [msg|status [[|entries|s|o]|]]; cbn; auto;
    destruct (okStatus status); cbn; auto.
  destruct (entriesOf entries); reflexivity.
Qed.

(** The preparation, with the results of its steps named. *)
Lemma prepare_eq w blog body :
  prepare w blog body
  = let tags := processTags w 0 (generateTags w blog) in
    let firstImageMatch := matchFirst imagePattern (b_content blog) in
    let image := uploadFeaturedImage w firstImageMatch in
    match resolveCategories blog (fetchCategories w) (requestedCategoryIds body) with
    | inl failure =>
        PrepThrew failure
          ([EvTagCompletion] ++ snd tags ++ snd image ++ [EvFetchCategories])
    | inr validCategoryIds =>
        let valid := validateTags w (fst tags) in
        PrepDone
          {| p_tagIds := fst tags;
             p_featuredMediaId := fst image;
             p_validCategoryIds := validCategoryIds;
             p_validTagIds := fst valid;
             p_wordpressData :=
               {| wp_title := b_title blog;
                  wp_content := markdownToHtml (b_content blog);
                  wp_status := js "publish";
                  wp_categories := validCategoryIds;
                  wp_tags := fst valid;
                  wp_excerpt := cleanExcerpt (b_content blog);
                  wp_featured_media := None;
                  wp_yoast_metadesc :=
                    default (cleanExcerpt (b_content blog))
                            (orElse (q_metaDescription body) None);
                  wp_thumbnail_id :=
                    match match firstImageMatch with
                          | Some m => cap 2 (mt_caps m)
                          | None => []
                          end with
                    | [] => []
                    | _ :: _ => js "external"
                    end;
                  wp_attachment_image_alt := js "Featured image" |};
             p_trace := [EvTagCompletion] ++ snd tags ++ snd image
                        ++ [EvFetchCategories] ++ snd valid |}
    end.
Proof.
  unfold prepare. cbv zeta.
  destruct (processTags w 0 (generateTags w blog)) as [tagIds tagTrace].
  destruct (uploadFeaturedImage w _) as [mediaId imageTrace].
  destruct (resolveCategories _ _ _) as [failure|validCategoryIds]; [reflexivity|].
  cbn [fst snd]. destruct (validateTags w tagIds) as [validTagIds validateTrace].
  reflexivity.
Qed.

Lemma createPosts_prepare w blog body :
  match prepare w blog body with
  | PrepThrew _ trace => createPosts trace = []
  | PrepDone p => createPosts (p_trace p) = []
  end.
Proof.
  rewrite prepare_eq. cbv zeta.
  pose proof (createPosts_processTags w (generateTags w blog) 0) as H1.
  pose proof (createPosts_uploadFeaturedImage w (matchFirst imagePattern (b_content blog))) as H2.
  destruct (resolveCategories _ _ _) as [failure|validCategoryIds].
  - rewrite !createPosts_app, H1, H2. reflexivity.
  - cbn [p_trace].
    rewrite !createPosts_app, H1, H2, createPosts_validateTags. reflexivity.
Qed.

Lemma createPosts_prepared w blog body p :
  prepare w blog body = PrepDone p -> createPosts (p_trace p) = [].
Proof.
  intros H. pose proof (createPosts_prepare w blog body) as Hp.
  rewrite H in Hp. exact Hp.
Qed.

Lemma conclude_trace w st blog body tagIds res trace :
  createPosts (o_trace (conclude w st blog body tagIds res trace)) = createPosts trace.
Proof.
  unfold conclude, thrown.
  destruct (lr_publishSuccess res), (lr_response res) as [r|]; try reflexivity.
  destruct (okStatus (ro_status r)); [|reflexivity].
  destruct (readBody r) as [[publishedPost|]|]; try reflexivity.
  destruct (keysOf publishedPost) as [post|]; [|reflexivity].
  destruct (j_id post) as [postId|]; [|reflexivity].
  destruct (updateBlog _ _ _) as [u st']. cbn [o_trace respond].
  rewrite createPosts_app. cbn. apply app_nil_r.
Qed.

(** The create-post requests of a whole run: none, or those of the loop. *)
Lemma publish_createPosts w st id body :
  createPosts (o_trace (publish w st id body)) = []
  \/ exists blog p n,
       getBlog st id = Some blog /\ prepare w blog body = PrepDone p
       /\ 1 <= n <= 8
       /\ createPosts (o_trace (publish w st id body))
          = postsUpTo (p_wordpressData p) n.
Proof.
  unfold publish.
  destruct (getBlog st id) as [blog|]; [|left; reflexivity].
  destruct (complete _); cbn [negb]; [|left; reflexivity].
  pose proof (createPosts_authLoop w (authOf (resolveCredentials body st)) 3 1) as Ha.
  destruct (authLoop w _ 3 1) as [authSuccess authTrace]. cbn [snd] in Ha.
  destruct authSuccess; cbn [negb]; [|left; exact Ha].
  pose proof (createPosts_prepare w blog body) as Hp.
  destruct (prepare w blog body) as [failure trace|p] eqn:Ep.
  - left. unfold thrown. cbn [respond o_trace]. rewrite createPosts_app, Ha, Hp.
    reflexivity.
  - right.
    destruct (createPostLoop_spec w (p_wordpressData p) 7 1 None eq_refl)
      as (n & Hn & Ht & _).
    exists blog, p, n. split; [reflexivity|]. split; [exact Ep|]. split; [lia|].
    rewrite conclude_trace, !createPosts_app, Ha, Hp.
    unfold MAX_ATTEMPTS. rewrite Ht. apply createPosts_attemptsTrace.
Qed.

(** C1. The create-post loop of the publish handler. For every world the
    loop makes [n] attempts, numbered 1 to [n], with [1 <= n <= 8]: attempt
    [k] is sent under the timeout [min(30000 + (k-1) * 15000, 135000)] ms,
    every attempt before the last failed otherwise than by a 401 or a 403
    and is followed, before the next attempt, by a wait of
    [min(3000 * 1.5^(k-1), 60000)] ms, and the loop ends before the eighth
    attempt only on a 2xx, a 401 or a 403 response; it succeeds exactly
    when the last attempt got a 2xx. A whole run of the handler sends the
    create-post request at most 8 times. After two failures and a 2xx there
    are exactly three attempts, with waits of 3000 ms and 4500 ms. *)
Theorem createPost_retry_schedule :
  (forall (w : World) (data : WordPressData),
     let res := createPostLoop w data MAX_ATTEMPTS 1 None in
     exists n, 1 <= n <= 8
       /\ lr_trace res = attemptsTrace data n 1
       /\ (forall k, 1 <= k < n -> retryable (w_createPost w k) = true)
       /\ (n < 8 -> retryable (w_createPost w n) = false)
       /\ lr_publishSuccess res = isOk (w_createPost w n))
  /\ (forall (w : World) (st : Storage) (id : jstr) (body : PublishBody),
        exists data n,
          n <= 8 /\ createPosts (o_trace (publish w st id body)) = postsUpTo data n)
  /\ (forall attempt : nat,
        attemptTimeout attempt
        = Z.min (30000 + (Z.of_nat attempt - 1) * 15000) 135000)
  /\ map attemptTimeout (seq 1 8)
     = [30000; 45000; 60000; 75000; 90000; 105000; 120000; 135000]%Z
  /\ (forall attempt : nat,
        retryDelay attempt == Qmin (3000 * (3 # 2) ^ (Z.of_nat attempt - 1)) 60000)
  /\ retryDelay 1 == 3000 /\ retryDelay 2 == 4500
  /\ (forall (w : World) (data : WordPressData),
        retryable (w_createPost w 1) = true ->
        retryable (w_createPost w 2) = true ->
        isOk (w_createPost w 3) = true ->
        let res := createPostLoop w data MAX_ATTEMPTS 1 None in
        lr_publishSuccess res = true
        /\ lr_trace res
           = [EvCreatePost 1 30000 data; EvSleep (retryDelay 1);
              EvCreatePost 2 45000 data; EvSleep (retryDelay 2);
              EvCreatePost 3 60000 data]).
Proof.
  assert (Hloop : forall (w : World) (data : WordPressData),
     let res := createPostLoop w data MAX_ATTEMPTS 1 None in
     exists n, 1 <= n <= 8
       /\ lr_trace res = attemptsTrace data n 1
       /\ (forall k, 1 <= k < n -> retryable (w_createPost w k) = true)
       /\ (n < 8 -> retryable (w_createPost w n) = false)
       /\ lr_publishSuccess res = isOk (w_createPost w n)).
  { intros w data res.
    destruct (createPostLoop_spec w data 7 1 None eq_refl)
      as (n & Hn & Ht & Hb & Hl & Hs & _).
    exists n. replace (1 + n - 1) with n in * by lia.
    repeat split; try lia; auto. }
  split; [exact Hloop|]. split; [|split; [|split; [|split; [|split; [|split]]]]].
  - intros w st id body.
    destruct (publish_createPosts w st id body) as [H|(blog & p & n & _ & _ & Hn & H)].
    + exists (Build_WordPressData [] [] [] [] [] [] None [] [] []), 0.
      split; [lia|exact H].
    + exists (p_wordpressData p), n. split; [lia|exact H].
  - reflexivity.
  - reflexivity.
  - intros attempt. reflexivity.
  - vm_compute. reflexivity.
  - vm_compute. reflexivity.
  - intros w data H1 H2 H3 res.
    destruct (Hloop w data) as (n & Hn & Ht & Hb & Hl & Hs).
    assert (H3' : retryable (w_createPost w 3) = false)
      by (unfold retryable; rewrite H3; reflexivity).
    assert (n = 3) as ->.
    { destruct (Nat.lt_ge_cases 3 n) as [Hgt|Hle].
      - rewrite (Hb 3) in H3' by lia. discriminate.
      - assert (n = 1 \/ n = 2 \/ n = 3) as [-> | [-> | ->]] by lia; auto.
        + rewrite Hl in H1 by lia. discriminate.
        + rewrite Hl in H2 by lia. discriminate. }
    subst res. rewrite Hs, Ht. split; [exact H3|reflexivity].
Qed.

Lemma createPost_retry_schedule_witness :
  retryable (w_createPost (sampleWorld probeSucceeds failsTwice) 1) = true
  /\ retryable (w_createPost (sampleWorld probeSucceeds failsTwice) 2) = true
  /\ isOk (w_createPost (sampleWorld probeSucceeds failsTwice) 3) = true
  /\ forall data,
       lr_trace (createPostLoop (sampleWorld probeSucceeds failsTwice) data MAX_ATTEMPTS 1 None)
       = [EvCreatePost 1 30000 data; EvSleep (retryDelay 1);
          EvCreatePost 2 45000 data; EvSleep (retryDelay 2);
          EvCreatePost 3 60000 data].
Proof.
  split; [reflexivity|]. split; [reflexivity|]. split; [reflexivity|].
  intros data.
  destruct createPost_retry_schedule as (_ & _ & _ & _ & _ & _ & _ & H).
  apply (H (sampleWorld probeSucceeds failsTwice) data); reflexivity.
Defined.

(** ** The end of a publish run *)

(** A loop that ends without success leaves a response whose body has
    been read, or no response at all. *)
Lemma createPostLoop_failed w data : forall remaining attempt response,
  match response with Some r => ro_bodyUsed r = true | None => True end ->
  lr_publishSuccess (createPostLoop w data remaining attempt response) = false ->
  match lr_response (createPostLoop w data remaining attempt response) with
  | Some r => ro_bodyUsed r = true
  | None => True
  end.
Proof.
  induction remaining as [|remaining IH]; intros attempt response Hr;
    cbn [createPostLoop]; [intros _; exact Hr|].
  destruct (w_createPost w attempt) as [msg|status b].
  - cbn [lr_publishSuccess lr_response]. apply IH. exact Hr.
  - destruct (okStatus status); [discriminate|].
    destruct ((status =? 401) || (status =? 403))%Z; [reflexivity|].
    cbn [lr_publishSuccess lr_response]. apply IH. reflexivity.
Qed.

(** A loop that succeeds holds the 2xx response of one of its attempts,
    its body not yet read. *)
Lemma createPostLoop_succeeded w data : forall remaining attempt response,
  lr_publishSuccess (createPostLoop w data remaining attempt response) = true ->
  exists n status b,
    attempt <= n < attempt + remaining
    /\ w_createPost w n = Resp status b /\ okStatus status = true
    /\ lr_response (createPostLoop w data remaining attempt response)
       = Some (Build_ResponseObj status b false).
Proof.
  induction remaining as [|remaining IH]; intros attempt response;
    cbn [createPostLoop]; [discriminate|].
  destruct (w_createPost w attempt) as [msg|status b] eqn:E.
  - cbn [lr_publishSuccess lr_response]. intros H.
    destruct (IH _ _ H) as (n & st' & b' & Hn & Hw & Hok & Hr).
    exists n, st', b'. repeat split; auto; lia.
  - destruct (okStatus status) eqn:Hok.
    + intros _. exists attempt, status, b. repeat split; auto; lia.
    + destruct ((status =? 401) || (status =? 403))%Z; [discriminate|].
      cbn [lr_publishSuccess lr_response]. intros H.
      destruct (IH _ _ H) as (n & st' & b' & Hn & Hw & Hok' & Hr).
      exists n, st', b'. repeat split; auto; lia.
Qed.

Lemma failureMessage_used r :
  ro_bodyUsed r = true -> failureMessage (Some r) = httpErrorMessage (ro_status r).
Proof. unfold failureMessage, readBody. intros ->. reflexivity. Qed.

(** An attempt answered 401 or 403 ends the loop. *)
Lemma createPostLoop_refused w data remaining attempt response status (b : Body) :
  w_createPost w attempt = Resp status b ->
  status = 401%Z \/ status = 403%Z ->
  createPostLoop w data (S remaining) attempt response
  = {| lr_publishSuccess := false;
       lr_response := Some (Build_ResponseObj status b true);
       lr_trace := [EvCreatePost attempt (attemptTimeout attempt) data] |}.
Proof.
  intros Hw Hs. cbn [createPostLoop]. rewrite Hw.
  destruct Hs; subst; reflexivity.
Qed.

(** C2. What the code does when a create-post attempt is answered 401 or
    403. With the first attempt refused that way (the preparation of the
    request having gone through), exactly one attempt is made, nothing is
    stored, and the handler answers 500 with the error
    [Failed to publish to WordPress] and without [needsCredentials]: the
    status, the error and the flag are those of any exhausted run, only the
    text of [details] carries the status of the site. Whatever the world, a
    failed loop never reports the message of the site: the body of the last
    response has already been read when the failure is reported. Whether
    the preparation went through or threw, a run whose first create-post
    attempt is to be refused stores nothing and answers that same 500. *)
Theorem createPost_401_reported_as_generic_failure :
  (forall (w : World) (st : Storage) (id : jstr) (body : PublishBody)
          (blog : Blog) (p : Prepared) (status : Z) (b : Body),
     getBlog st id = Some blog ->
     complete (resolveCredentials body st) = true ->
     probeOk (w_authProbe w 1) = true ->
     prepare w blog body = PrepDone p ->
     w_createPost w 1 = Resp status b ->
     status = 401%Z \/ status = 403%Z ->
     createPosts (o_trace (publish w st id body))
     = postsUpTo (p_wordpressData p) 1
     /\ o_storage (publish w st id body) = st
     /\ o_response (publish w st id body)
        = {| r_status := 500;
             r_body := JError (js "Failed to publish to WordPress")
                              (Some (httpErrorMessage status)) false |})
  /\ (forall (w : World) (data : WordPressData),
        let res := createPostLoop w data MAX_ATTEMPTS 1 None in
        lr_publishSuccess res = false ->
        failureMessage (lr_response res) = exhaustedMessage
        \/ exists r, lr_response res = Some r
                     /\ failureMessage (lr_response res) = httpErrorMessage (ro_status r))
  /\ o_response (publish (sampleWorld probeSucceeds (fun _ => Resp 500 None))
                         (sampleStorage twoImages None) (js "b1") emptyBody)
     = {| r_status := 500;
          r_body := JError (js "Failed to publish to WordPress")
                           (Some (httpErrorMessage 500)) false |}
  /\ o_response (publish (sampleWorld (fun _ => Resp 401 None) (fun _ => postCreated))
                         (sampleStorage twoImages None) (js "b1") emptyBody)
     = {| r_status := 401; r_body := authFailedResponse |}
  /\ (forall (w : World) (st : Storage) (id : jstr) (body : PublishBody)
             (blog : Blog) (status : Z) (b : Body),
        getBlog st id = Some blog ->
        complete (resolveCredentials body st) = true ->
        probeOk (w_authProbe w 1) = true ->
        w_createPost w 1 = Resp status b ->
        status = 401%Z \/ status = 403%Z ->
        length (createPosts (o_trace (publish w st id body))) <= 1
        /\ o_storage (publish w st id body) = st
        /\ exists details,
             o_response (publish w st id body)
             = {| r_status := 500;
                  r_body := JError (js "Failed to publish to WordPress")
                                   (Some details) false |}).
Proof.
  assert (Hdone : forall (w : World) (st : Storage) (id : jstr) (body : PublishBody)
          (blog : Blog) (p : Prepared) (status : Z) (b : Body),
     getBlog st id = Some blog ->
     complete (resolveCredentials body st) = true ->
     probeOk (w_authProbe w 1) = true ->
     prepare w blog body = PrepDone p ->
     w_createPost w 1 = Resp status b ->
     status = 401%Z \/ status = 403%Z ->
     createPosts (o_trace (publish w st id body))
     = postsUpTo (p_wordpressData p) 1
     /\ o_storage (publish w st id body) = st
     /\ o_response (publish w st id body)
        = {| r_status := 500;
             r_body := JError (js "Failed to publish to WordPress")
                              (Some (httpErrorMessage status)) false |});
    [|split; [exact Hdone|split; [|split; [|split]]]].
  - intros w st id body blog p status b Hblog Hc Hprobe Hprep Hpost Hstatus.
    assert (Hpub : publish w st id body
              = respond 500 (publishFailed (httpErrorMessage status)) st
                  ([EvAuthProbe 1 (a_wordpressUrl (authOf (resolveCredentials body st)))
                                (a_username (authOf (resolveCredentials body st)))
                                (a_password (authOf (resolveCredentials body st))) 15000]
                   ++ p_trace p
                   ++ [EvCreatePost 1 (attemptTimeout 1) (p_wordpressData p)])).
    { unfold publish. rewrite Hblog, Hc. cbn [negb].
      rewrite authLoop_step, Hprobe. cbn [negb]. rewrite Hprep.
      unfold MAX_ATTEMPTS.
      rewrite (createPostLoop_refused _ _ _ _ _ _ _ Hpost Hstatus).
      unfold conclude. cbn [lr_publishSuccess lr_response lr_trace].
      rewrite failureMessage_used by reflexivity. reflexivity. }
    rewrite Hpub. cbn [o_trace o_storage o_response respond].
    split; [|split; reflexivity].
    rewrite !createPosts_app, (createPosts_prepared _ _ _ _ Hprep). reflexivity.
  - intros w data res Hfail.
    pose proof (createPostLoop_failed w data MAX_ATTEMPTS 1 None I Hfail) as H.
    fold res in H. destruct (lr_response res) as [r|]; [right|left; reflexivity].
    exists r. split; [reflexivity|]. apply failureMessage_used. exact H.
  - vm_compute. reflexivity.
  - vm_compute. reflexivity.
  - intros w st id body blog status b Hblog Hc Hprobe Hpost Hstatus.
    destruct (prepare w blog body) as [failure trace|p] eqn:Hprep.
    + pose proof (createPosts_prepare w blog body) as Hq. rewrite Hprep in Hq.
      unfold publish. rewrite Hblog, Hc. cbn [negb].
      rewrite authLoop_step, Hprobe. cbn [negb]. rewrite Hprep.
      unfold thrown. cbn [respond o_trace o_storage o_response].
      rewrite createPosts_app, Hq. cbn. split; [lia|]. split; [reflexivity|].
      eexists. reflexivity.
    + destruct (Hdone w st id body blog p status b Hblog Hc Hprobe Hprep Hpost Hstatus)
        as (Hposts & Hst & Hr).
      rewrite Hposts, Hst, Hr. split; [cbn; lia|]. split; [reflexivity|].
      eexists. reflexivity.
Qed.

Lemma createPost_401_reported_as_generic_failure_witness :
  getBlog (sampleStorage twoImages None) (js "b1") = Some twoImages
  /\ complete (resolveCredentials emptyBody (sampleStorage twoImages None)) = true
  /\ probeOk (w_authProbe (sampleWorld probeSucceeds (fun _ => postForbidden 401)) 1) = true
  /\ (exists p, prepare (sampleWorld probeSucceeds (fun _ => postForbidden 401))
                        twoImages emptyBody = PrepDone p)
  /\ w_createPost (sampleWorld probeSucceeds (fun _ => postForbidden 401)) 1
     = postForbidden 401
  /\ length (createPosts (o_trace
       (publish (sampleWorld probeSucceeds (fun _ => postForbidden 401))
                (sampleStorage twoImages None) (js "b1") emptyBody))) = 1
  /\ o_response (publish (sampleWorld probeSucceeds (fun _ => postForbidden 401))
                         (sampleStorage twoImages None) (js "b1") emptyBody)
     = {| r_status := 500;
          r_body := JError (js "Failed to publish to WordPress")
                           (Some (js "WordPress HTTP 401 error")) false |}.
Proof.
  assert (Hb : getBlog (sampleStorage twoImages None) (js "b1") = Some twoImages)
    by (vm_compute; reflexivity).
  assert (Hc : complete (resolveCredentials emptyBody (sampleStorage twoImages None)) = true)
    by reflexivity.
  destruct (prepare (sampleWorld probeSucceeds (fun _ => postForbidden 401))
                    twoImages emptyBody) as [failure trace|p] eqn:Hp;
    [vm_compute in Hp; discriminate|].
  split; [exact Hb|]. split; [exact Hc|]. split; [reflexivity|].
  split; [exists p; reflexivity|]. split; [reflexivity|].
  destruct createPost_401_reported_as_generic_failure as [H _].
  destruct (H (sampleWorld probeSucceeds (fun _ => postForbidden 401))
              (sampleStorage twoImages None) (js "b1") emptyBody twoImages p 401%Z
              _ Hb Hc eq_refl Hp eq_refl (or_introl eq_refl)) as (Hposts & _ & Hr).
  rewrite Hposts, Hr. split; reflexivity.
Defined.

(** C4. What the code does when the request supplies the address, the user
    name and the password: these are used as they are and the stored
    credentials are not consulted, whatever they are. *)
Theorem supplied_credentials_override_stored :
  forall (body : PublishBody) (st : Storage),
    complete (supplied body) = true ->
    resolveCredentials body st = supplied body.
Proof.
  intros body st H. unfold resolveCredentials. fold (supplied body).
  rewrite H. reflexivity.
Qed.

Lemma supplied_credentials_override_stored_witness :
  complete (supplied suppliedBody) = true
  /\ getWordPressCredentials (sampleStorage twoImages (Some storedCredentials))
     = Some storedCredentials
  /\ complete storedCredentials = true
  /\ resolveCredentials suppliedBody (sampleStorage twoImages (Some storedCredentials))
     = {| c_wordpressUrl := Some (js "https://supplied.example");
          c_username := Some (js "supplied-user");
          c_password := Some (js "supplied-pass") |}
  /\ head (o_trace (publish happyWorld (sampleStorage twoImages (Some storedCredentials))
                            (js "b1") suppliedBody))
     = Some (EvAuthProbe 1 (js "https://supplied.example") (js "supplied-user")
                         (js "supplied-pass") 15000).
Proof.
  split; [reflexivity|]. split; [reflexivity|]. split; [reflexivity|]. split.
  - rewrite (supplied_credentials_override_stored suppliedBody _ eq_refl). reflexivity.
  - vm_compute. reflexivity.
Defined.

(** The run that answers 200. *)
Lemma publish_200 w st id body blog :
  getBlog st id = Some blog ->
  r_status (o_response (publish w st id body)) = 200%Z ->
  exists p n status publishedPost post postId authTrace,
    prepare w blog body = PrepDone p
    /\ 1 <= n <= 8
    /\ w_createPost w n = Resp status (Some publishedPost) /\ okStatus status = true
    /\ keysOf publishedPost = Some post /\ j_id post = Some postId
    /\ createPosts authTrace = []
    /\ publish w st id body
       = respond 200
           (JPublished (j_link post) (w_now w 1) (q_categoryId body)
                       (p_tagIds p) (q_metaDescription body))
           (snd (updateBlog st (b_id blog)
                   (publishedUpdate w body (p_tagIds p) (j_link post) postId)))
           ((authTrace ++ p_trace p ++ attemptsTrace (p_wordpressData p) n 1)
            ++ [EvScheduleSourceBackup]).
Proof.
  intros Hblog. unfold publish. rewrite Hblog.
  destruct (complete _); cbn [negb]; [|discriminate].
  pose proof (createPosts_authLoop w (authOf (resolveCredentials body st)) 3 1) as Ha.
  destruct (authLoop w _ 3 1) as [authSuccess authTrace]. cbn [snd] in Ha.
  destruct authSuccess; cbn [negb]; [|discriminate].
  destruct (prepare w blog body) as [failure trace|p]; [discriminate|].
  intros Hstatus.
  destruct (createPostLoop_spec w (p_wordpressData p) 7 1 None eq_refl)
    as (n & Hn & Ht & _ & _ & Hs & Hresp).
  replace (1 + n - 1) with n in * by lia.
  change (createPostLoop w (p_wordpressData p) 8 1 None)
    with (createPostLoop w (p_wordpressData p) MAX_ATTEMPTS 1 None) in *.
  revert Hstatus. unfold conclude, thrown. rewrite Ht.
  destruct (lr_publishSuccess _) eqn:Hsucc.
  - symmetry in Hs. unfold isOk in Hs.
    destruct (w_createPost w n) as [msg|status b] eqn:Hw; [discriminate|].
    rewrite (Hresp status b eq_refl Hs). cbn [ro_status]. rewrite Hs.
    unfold readBody. cbn [ro_bodyUsed ro_body].
    destruct b as [publishedPost|]; [|discriminate].
    destruct (keysOf publishedPost) as [post|] eqn:Hkeys; [|discriminate].
    destruct (j_id post) as [postId|] eqn:Hid; [|discriminate].
    intros _. exists p, n, status, publishedPost, post, postId, authTrace.
    repeat split; auto; try lia.
    destruct (updateBlog st (b_id blog) _) as [u st']. reflexivity.
  - destruct (lr_response _); discriminate.
Qed.

(** What a preparation that went through holds. *)
Lemma prepare_done w blog body p :
  prepare w blog body = PrepDone p ->
  exists validCategoryIds,
    resolveCategories blog (fetchCategories w) (requestedCategoryIds body)
    = inr validCategoryIds
    /\ p_tagIds p = fst (processTags w 0 (generateTags w blog))
    /\ wp_categories (p_wordpressData p) = validCategoryIds
    /\ wp_tags (p_wordpressData p)
       = fst (validateTags w (fst (processTags w 0 (generateTags w blog))))
    /\ wp_featured_media (p_wordpressData p) = None
    /\ p_featuredMediaId p
       = fst (uploadFeaturedImage w (matchFirst imagePattern (b_content blog))).
Proof.
  rewrite prepare_eq. cbv zeta.
  destruct (resolveCategories _ _ _) as [failure|validCategoryIds]; [discriminate|].
  intros H. inversion H; subst p. exists validCategoryIds. repeat split.
Qed.

(** *** Ids that are sent are ids of the site *)

Lemma sameId_eq a b : sameId a b = true <-> a = b.
Proof.
  destruct a as [x|], b as [y|]; cbn; try (split; [discriminate|congruence]).
  - rewrite Z.eqb_eq. split; congruence.
  - split; reflexivity.
Qed.

Lemma includesId_In ids id : includesId ids id = true <-> In id ids.
Proof.
  unfold includesId. rewrite existsb_exists. split.
  - intros (x & Hin & Hx). apply sameId_eq in Hx. subst x. exact Hin.
  - intros Hin. exists id. split; [exact Hin|]. apply sameId_eq. reflexivity.
Qed.

Lemma findByName_live words : forall categories c,
  findByName words categories = Some (Some c) -> In c categories.
Proof.
  induction categories as [|cat rest IH]; intros c H; [discriminate|].
  cbn [findByName] in H. destruct (j_name cat) as [name|]; [|discriminate].
  destruct (existsb _ words).
  - inversion H; subst. left. reflexivity.
  - right. apply IH. exact H.
Qed.

Lemma smartFallback_live blog categories c :
  smartFallback blog categories = Some (Some c) -> In c categories.
Proof.
  unfold smartFallback. cbv zeta.
  assert (Hh : head categories = Some c -> In c categories).
  { destruct categories as [|c0 cats']; [discriminate|].
    intros E. inversion E; subst. left. reflexivity. }
  repeat match goal with
         | |- context [if ?b then findByName ?ws categories else Some None] =>
             destruct b
         | |- context [findByName ?ws categories] =>
             let E := fresh "E" in
             destruct (findByName ws categories) as [[?|]|] eqn:E
         end;
    intros H; try discriminate;
    first [ apply Hh; congruence
          | inversion H; subst; eapply findByName_live; eassumption ].
Qed.

(** Every category id that is sent is the id of a category of the list. *)
Lemma resolveCategories_live blog entries ids valid c :
  resolveCategories blog (JArray entries) ids = inr valid ->
  In c valid ->
  exists categories, entriesOf entries = Some categories /\ In c (map j_id categories).
Proof.
  cbn [resolveCategories].
  destruct (entriesOf entries) as [categories|]; [|discriminate].
  cbv zeta. intros H Hin. exists categories. split; [reflexivity|].
  assert (Hv : In c (validateCategories (map j_id categories) ids) ->
               In c (map j_id categories)).
  { unfold validateCategories. intros Hc. apply in_map_iff in Hc.
    destruct Hc as (x & <- & Hx). apply List.filter_In in Hx.
    destruct Hx as [_ Hx]. apply includesId_In in Hx. exact Hx. }
  destruct (validateCategories (map j_id categories) ids) as [|v vs] eqn:E.
  - destruct categories as [|c0 cats]; [inversion H; subst; destruct Hin|].
    destruct (smartFallback blog (c0 :: cats)) as [[best|]|] eqn:Eb;
      inversion H; subst; [|destruct Hin].
    destruct Hin as [<-|[]]. apply in_map. exact (smartFallback_live _ _ _ Eb).
  - inversion H; subst. apply Hv. exact Hin.
Qed.

Lemma resolveCategories_array blog availableCategories ids valid :
  resolveCategories blog availableCategories ids = inr valid ->
  exists entries categories,
    availableCategories = JArray entries /\ entriesOf entries = Some categories.
Proof.
  destruct availableCategories as [|entries|s|o]; try discriminate.
  cbn [resolveCategories].
  destruct (entriesOf entries) as [categories|] eqn:E; [|discriminate].
  intros _. exists entries, categories. split; [reflexivity|exact E].
Qed.

(** The tags that are sent when the list of the site has been read. *)
Lemma validateTags_read w tagIds status entries availableTags :
  w_tags w = Resp status (Some (JArray entries)) -> okStatus status = true ->
  entriesOf entries = Some availableTags ->
  fst (validateTags w tagIds)
  = List.filter (includesId (map j_id availableTags)) tagIds.
Proof.
  intros Hw Hok He. unfold validateTags. destruct tagIds as [|t ts]; [reflexivity|].
  rewrite Hw, Hok, He. reflexivity.
Qed.

(** C3, as amended. A run that answers 200 created the post at some
    attempt [n], whose 2xx answer is an object with an id. The stored blog
    is the old one with status [published], the link of the created post,
    its id as text, the time of the clock and, for [categoryId], [tagIds]
    and [metaDescription], the category id of the request (as text), the
    tag ids that the search-or-create loop gave, before their validation,
    and the meta description of the request; every other column is what it
    was. The ids that every create-post request carried are others: the
    category ids that the category step resolved, all of them ids of
    categories the site listed in this run, and the tag ids that the
    validation step kept, which, when the tag list of the site was read,
    are the ids of the loop that are on that list. *)
Theorem publish_stores_request_values :
  forall (w : World) (st : Storage) (id : jstr) (body : PublishBody) (blog : Blog),
    getBlog st id = Some blog ->
    b_id blog = id ->
    r_status (o_response (publish w st id body)) = 200%Z ->
    let tagIds := fst (processTags w 0 (generateTags w blog)) in
    exists n status publishedPost post postId validCategoryIds data,
      1 <= n <= 8
      /\ w_createPost w n = Resp status (Some publishedPost) /\ okStatus status = true
      /\ keysOf publishedPost = Some post /\ j_id post = Some postId
      /\ getBlog (o_storage (publish w st id body)) id
         = Some {| b_id := b_id blog;
                   b_keyword := b_keyword blog;
                   b_title := b_title blog;
                   b_content := b_content blog;
                   b_imageUrl := b_imageUrl blog;
                   b_imageDescription := b_imageDescription blog;
                   b_images := b_images blog;
                   b_status := js "published";
                   b_generatedTopics := b_generatedTopics blog;
                   b_wordCount := b_wordCount blog;
                   b_wordpressUrl := j_link post;
                   b_wordpressPostId := Some (toString postId);
                   b_publishedAt := Some (w_now w 0);
                   b_categoryId := option_map toString (q_categoryId body);
                   b_tagIds := Some tagIds;
                   b_metaDescription := q_metaDescription body;
                   b_githubFilePath := b_githubFilePath blog;
                   b_githubCommitSha := b_githubCommitSha blog;
                   b_backedUpToGithub := b_backedUpToGithub blog;
                   b_createdAt := b_createdAt blog |}
      /\ createPosts (o_trace (publish w st id body)) = postsUpTo data n
      /\ resolveCategories blog (fetchCategories w) (requestedCategoryIds body)
         = inr validCategoryIds
      /\ wp_categories data = validCategoryIds
      /\ wp_tags data = fst (validateTags w tagIds)
      /\ (exists entries categories,
            fetchCategories w = JArray entries
            /\ entriesOf entries = Some categories
            /\ forall c, In c (wp_categories data) -> In c (map j_id categories))
      /\ (forall status' entries availableTags,
            w_tags w = Resp status' (Some (JArray entries)) -> okStatus status' = true ->
            entriesOf entries = Some availableTags ->
            forall t, In t (wp_tags data)
                      <-> In t tagIds /\ In t (map j_id availableTags)).
Proof.
  intros w st id body blog Hblog Hid Hstatus. cbv zeta. subst id.
  destruct (publish_200 w st (b_id blog) body blog Hblog Hstatus)
    as (p & n & status & publishedPost & post & postId & authTrace
        & Hprep & Hn & Hw & Hok & Hkeys & Hpid & Ha & Hp).
  destruct (prepare_done w blog body p Hprep)
    as (valid & Hres & Htags & Hcats & Hsent & _ & _).
  exists n, status, publishedPost, post, postId, valid, (p_wordpressData p).
  split; [exact Hn|]. split; [exact Hw|]. split; [exact Hok|].
  split; [exact Hkeys|]. split; [exact Hpid|].
  rewrite Hp. cbn [o_trace o_storage respond].
  split; [|split; [|split; [|split; [|split; [|split]]]]].
  - rewrite (updateBlog_found _ _ _ _ Hblog). cbn [snd].
    unfold getBlog. cbn [blogs]. rewrite lookup_insert_eq, Htags. reflexivity.
  - rewrite !createPosts_app, Ha, (createPosts_prepared _ _ _ _ Hprep),
      createPosts_attemptsTrace.
    cbn. rewrite app_nil_r. reflexivity.
  - exact Hres.
  - exact Hcats.
  - exact Hsent.
  - destruct (resolveCategories_array _ _ _ _ Hres) as (entries & categories & Hf & He).
    exists entries, categories. split; [exact Hf|]. split; [exact He|].
    intros c Hc. rewrite Hcats in Hc. rewrite Hf in Hres.
    destruct (resolveCategories_live _ _ _ _ c Hres Hc) as (cats' & He' & Hin).
    rewrite He in He'. inversion He'; subst cats'. exact Hin.
  - intros status' entries availableTags Hwt Hokt He t.
    rewrite Hsent, (validateTags_read _ _ _ _ _ Hwt Hokt He), List.filter_In,
      includesId_In.
    reflexivity.
Qed.

Lemma publish_stores_request_values_witness :
  getBlog (sampleStorage twoImages None) (js "b1") = Some twoImages
  /\ b_id twoImages = js "b1"
  /\ r_status (o_response (publish happyWorld (sampleStorage twoImages None)
                                   (js "b1") category5Body)) = 200%Z
  /\ option_map b_categoryId
       (getBlog (o_storage (publish happyWorld (sampleStorage twoImages None)
                                    (js "b1") category5Body)) (js "b1"))
     = Some (Some (js "5"))
  /\ option_map b_tagIds
       (getBlog (o_storage (publish happyWorld (sampleStorage twoImages None)
                                    (js "b1") category5Body)) (js "b1"))
     = Some (Some [Some 10; Some 11]%Z).
Proof.
  assert (Hb : getBlog (sampleStorage twoImages None) (js "b1") = Some twoImages)
    by (vm_compute; reflexivity).
  assert (Hs : r_status (o_response (publish happyWorld (sampleStorage twoImages None)
                                   (js "b1") category5Body)) = 200%Z)
    by (vm_compute; reflexivity).
  split; [exact Hb|]. split; [reflexivity|]. split; [exact Hs|].
  destruct (publish_stores_request_values happyWorld _ _ category5Body twoImages
              Hb eq_refl Hs)
    as (n & status & publishedPost & post & postId & valid & data
        & _ & _ & _ & _ & _ & Hst & _).
  rewrite Hst. cbn [option_map b_categoryId b_tagIds]. split.
  - reflexivity.
  - vm_compute. reflexivity.
Defined.

(** C3 as stated fails: category 5 is asked for, the site only has
    category 3; the post is created with category 3 and tag 10, while the
    blog is stored with category 5 and tags 10 and 11. *)
Lemma publish_stores_validated_ids_counterexample :
  r_status (o_response (publish happyWorld (sampleStorage twoImages None)
                                (js "b1") category5Body)) = 200%Z
  /\ ~ storesValidatedIds (publish happyWorld (sampleStorage twoImages None)
                                   (js "b1") category5Body) (js "b1").
Proof.
  split; [vm_compute; reflexivity|].
  intros H.
  assert (Hin : exists t d,
    In (EvCreatePost 1 t d)
       (o_trace (publish happyWorld (sampleStorage twoImages None) (js "b1") category5Body))
    /\ wp_categories d = [Some 3%Z]).
  { eexists _, _. split.
    - vm_compute. do 8 right. left. reflexivity.
    - reflexivity. }
  destruct Hin as (t & d & Hin & Hcat).
  destruct (H 1 t d Hin) as (b & Hb & Hc & _).
  rewrite Hcat in Hc.
  assert (Hstored : option_map b_categoryId
       (getBlog (o_storage (publish happyWorld (sampleStorage twoImages None)
                                    (js "b1") category5Body)) (js "b1"))
     = Some (Some (js "5"))) by (vm_compute; reflexivity).
  rewrite Hb in Hstored. cbn in Hstored. rewrite Hc in Hstored.
  vm_compute in Hstored. discriminate.
Qed.

(** C10. The create-post request never names a featured image: the field
    [featured_media] of the data built by the handler is null in every
    world, also when the image was downloaded and uploaded and the site
    returned a media id, and so it is in every create-post request of every
    run. *)
Theorem featured_media_always_null :
  (forall (w : World) (blog : Blog) (body : PublishBody) (p : Prepared),
     prepare w blog body = PrepDone p ->
     wp_featured_media (p_wordpressData p) = None)
  /\ (forall (w : World) (st : Storage) (id : jstr) (body : PublishBody) k t d,
        In (EvCreatePost k t d) (o_trace (publish w st id body)) ->
        wp_featured_media d = None)
  /\ (exists p, prepare happyWorld twoImages emptyBody = PrepDone p
                /\ p_featuredMediaId p = Some 77%Z)
  /\ In (EvMediaUpload (js "one") (js "one") 12000)
        (o_trace (publish happyWorld (sampleStorage twoImages None) (js "b1") emptyBody)).
Proof.
  assert (Hnull : forall (w : World) (blog : Blog) (body : PublishBody) (p : Prepared),
     prepare w blog body = PrepDone p ->
     wp_featured_media (p_wordpressData p) = None).
  { intros w blog body p Hp.
    destruct (prepare_done w blog body p Hp) as (valid & _ & _ & _ & _ & H & _).
    exact H. }
  split; [exact Hnull|]. split; [|split].
  - intros w st id body k t d Hin.
    assert (Hin' : In (EvCreatePost k t d) (createPosts (o_trace (publish w st id body)))).
    { unfold createPosts. apply List.filter_In. split; [exact Hin|reflexivity]. }
    destruct (publish_createPosts w st id body) as [H|(blog & p & n & _ & Hp & _ & H)];
      rewrite H in Hin'; [destruct Hin'|].
    unfold postsUpTo in Hin'. apply in_map_iff in Hin'.
    destruct Hin' as (j & Hj & _). inversion Hj; subst. exact (Hnull _ _ _ _ Hp).
  - destruct (prepare happyWorld twoImages emptyBody) as [failure trace|p] eqn:Hp;
      [vm_compute in Hp; discriminate|].
    exists p. split; [reflexivity|].
    destruct (prepare_done _ _ _ _ Hp) as (valid & _ & _ & _ & _ & _ & H).
    rewrite H. vm_compute. reflexivity.
  - vm_compute. do 5 right. left. reflexivity.
Qed.

Lemma featured_media_always_null_witness :
  exists p,
    prepare happyWorld twoImages emptyBody = PrepDone p
    /\ p_featuredMediaId p = Some 77%Z
    /\ wp_featured_media (p_wordpressData p) = None.
Proof.
  eexists. split; [vm_compute; reflexivity|]. split; [reflexivity|].
  apply (proj1 featured_media_always_null happyWorld twoImages emptyBody).
  vm_compute. reflexivity.
Defined.

(** ** The category fallback *)

(** The loop of [find] over categories that all have a name: the first
    one whose name has one of the words, if there is one. *)
Lemma findByName_spec words : forall categories,
  Forall (fun c => j_name c <> None) categories ->
  (exists c, findByName words categories = Some (Some c)
             /\ firstWith words categories c)
  \/ (findByName words categories = Some None
      /\ Forall (fun x => ~ nameHas words x) categories).
Proof.
  induction categories as [|cat rest IH]; intros Hnamed.
  - right. split; [reflexivity|constructor].
  - inversion Hnamed as [|? ? Hcat Hrest]; subst. cbn [findByName].
    destruct (j_name cat) as [name|] eqn:Hname; [|congruence].
    destruct (existsb (fun word => includes (toLowerCase name) word) words) eqn:Hw.
    + left. exists cat. split; [reflexivity|]. exists [], rest.
      split; [reflexivity|]. split; [|constructor].
      apply existsb_exists in Hw. destruct Hw as (word & Hin & Hinc).
      exists name, word. split; [exact Hname|]. split; assumption.
    + assert (Hno : ~ nameHas words cat).
      { intros (name' & word & Hn & Hin & Hinc).
        rewrite Hname in Hn. inversion Hn; subst name'.
        assert (Ht : existsb (fun word => includes (toLowerCase name) word) words = true)
          by (apply existsb_exists; exists word; split; assumption).
        congruence. }
      destruct (IH Hrest) as [(c & Hf & before & after & Hs & Hc & Hb)|[Hf Hall]].
      * left. exists c. split; [exact Hf|]. exists (cat :: before), after.
        split; [rewrite Hs; reflexivity|]. split; [exact Hc|].
        constructor; assumption.
      * right. split; [exact Hf|]. constructor; assumption.
Qed.

Lemma firstWith_In words categories c : firstWith words categories c -> In c categories.
Proof.
  intros (before & after & -> & _). apply in_or_app. right. left. reflexivity.
Qed.

(** What the fallback picks among categories that all have a name. *)
Lemma smartFallback_spec blog categories :
  Forall (fun c => j_name c <> None) categories ->
  categories <> [] ->
  exists c,
    smartFallback blog categories = Some (Some c)
    /\ ((aiContent blog = true /\ firstWith aiNames categories c)
        \/ (givesNothing (aiContent blog) aiNames categories
            /\ incomeContent blog = true /\ firstWith incomeNames categories c)
        \/ (givesNothing (aiContent blog) aiNames categories
            /\ givesNothing (incomeContent blog) incomeNames categories
            /\ travelContent blog = true /\ firstWith travelNames categories c)
        \/ (givesNothing (aiContent blog) aiNames categories
            /\ givesNothing (incomeContent blog) incomeNames categories
            /\ givesNothing (travelContent blog) travelNames categories
            /\ head categories = Some c)).
Proof.
  intros Hnamed Hne. unfold smartFallback. cbv zeta.
  change (includes (toLowerCase (b_title blog)) (js "ai")
          || includes (toLowerCase (b_title blog)) (js "automation")
          || includes (toLowerCase (b_content blog)) (js "artificial intelligence"))
    with (aiContent blog).
  change (includes (toLowerCase (b_title blog)) (js "income")
          || includes (toLowerCase (b_title blog)) (js "money")
          || includes (toLowerCase (b_content blog)) (js "passive income"))
    with (incomeContent blog).
  change (includes (toLowerCase (b_title blog)) (js "travel")
          || includes (toLowerCase (b_title blog)) (js "nomad")
          || includes (toLowerCase (b_content blog)) (js "digital nomad"))
    with (travelContent blog).
  change [js "ai"; js "automation"; js "tool"] with aiNames.
  change [js "income"; js "business"; js "affiliate"] with incomeNames.
  change [js "nomad"; js "travel"; js "abroad"] with travelNames.
  assert (Hai : (aiContent blog = true
                 /\ exists c, findByName aiNames categories = Some (Some c)
                              /\ firstWith aiNames categories c)
                \/ ((if aiContent blog then findByName aiNames categories else Some None)
                    = Some None
                    /\ givesNothing (aiContent blog) aiNames categories)).
  { destruct (aiContent blog); [|right; split; [reflexivity|left; reflexivity]].
    destruct (findByName_spec aiNames categories Hnamed) as [H|[Hf Hall]];
      [left; split; [reflexivity|exact H]|right; split; [exact Hf|right; exact Hall]]. }
  assert (Hincome : (incomeContent blog = true
                 /\ exists c, findByName incomeNames categories = Some (Some c)
                              /\ firstWith incomeNames categories c)
                \/ ((if incomeContent blog then findByName incomeNames categories
                     else Some None) = Some None
                    /\ givesNothing (incomeContent blog) incomeNames categories)).
  { destruct (incomeContent blog); [|right; split; [reflexivity|left; reflexivity]].
    destruct (findByName_spec incomeNames categories Hnamed) as [H|[Hf Hall]];
      [left; split; [reflexivity|exact H]|right; split; [exact Hf|right; exact Hall]]. }
  assert (Htravel : (travelContent blog = true
                 /\ exists c, findByName travelNames categories = Some (Some c)
                              /\ firstWith travelNames categories c)
                \/ ((if travelContent blog then findByName travelNames categories
                     else Some None) = Some None
                    /\ givesNothing (travelContent blog) travelNames categories)).
  { destruct (travelContent blog); [|right; split; [reflexivity|left; reflexivity]].
    destruct (findByName_spec travelNames categories Hnamed) as [H|[Hf Hall]];
      [left; split; [reflexivity|exact H]|right; split; [exact Hf|right; exact Hall]]. }
  destruct Hai as [(Hc & c & Hf & Hfirst)|[Hf1 Hn1]].
  { exists c. split; [rewrite Hc, Hf; reflexivity|].
    left. split; [exact Hc|exact Hfirst]. }
  destruct Hincome as [(Hc & c & Hf & Hfirst)|[Hf2 Hn2]].
  { exists c. split; [rewrite Hf1, Hc, Hf; reflexivity|]. right. left.
    split; [exact Hn1|]. split; [exact Hc|exact Hfirst]. }
  destruct Htravel as [(Hc & c & Hf & Hfirst)|[Hf3 Hn3]].
  { exists c. split; [rewrite Hf1, Hf2, Hc, Hf; reflexivity|]. right. right. left.
    split; [exact Hn1|]. split; [exact Hn2|]. split; [exact Hc|exact Hfirst]. }
  destruct categories as [|c0 rest]; [congruence|].
  exists c0. split; [rewrite Hf1, Hf2, Hf3; reflexivity|]. right. right. right.
  split; [exact Hn1|]. split; [exact Hn2|]. split; [exact Hn3|reflexivity].
Qed.

(** No requested id validates. *)
Lemma validateCategories_none availableCategoryIds categoryIds :
  (forall id, In id categoryIds -> ~ In (Some id) availableCategoryIds) ->
  validateCategories availableCategoryIds categoryIds = [].
Proof.
  intros H. unfold validateCategories.
  induction categoryIds as [|id rest IH]; [reflexivity|].
  cbn [List.filter].
  destruct (includesId availableCategoryIds (Some id)) eqn:E.
  - apply includesId_In in E. exfalso. apply (H id); [left; reflexivity|exact E].
  - apply IH. intros id' Hin. apply H. right. exact Hin.
Qed.

(** C8. When none of the requested category ids is the id of a category
    of the site and the site lists at least one category (each with its
    name), the resolution gives exactly one id, that of a category of the
    site. Which one is fixed by the keyword groups, tried in the order
    AI/automation, income/business, travel/nomad: for the first group that
    the title or the content of the blog falls in and of which some
    category name has a word, it is the first category of the list whose
    name has a word of that group; when no group gives a category it is
    the first category of the list. With the single category number 3,
    named General, the result is [3] for every blog. *)
Theorem category_fallback_never_empty :
  forall (blog : Blog) (entries : list (option JObject)) (categories : list JObject)
         (categoryIds : list Z),
    entriesOf entries = Some categories ->
    categories <> [] ->
    Forall (fun c => j_name c <> None) categories ->
    (forall id, In id categoryIds -> ~ In (Some id) (map j_id categories)) ->
    (exists c,
       resolveCategories blog (JArray entries) categoryIds = inr [j_id c]
       /\ In c categories
       /\ ((aiContent blog = true /\ firstWith aiNames categories c)
           \/ (givesNothing (aiContent blog) aiNames categories
               /\ incomeContent blog = true /\ firstWith incomeNames categories c)
           \/ (givesNothing (aiContent blog) aiNames categories
               /\ givesNothing (incomeContent blog) incomeNames categories
               /\ travelContent blog = true /\ firstWith travelNames categories c)
           \/ (givesNothing (aiContent blog) aiNames categories
               /\ givesNothing (incomeContent blog) incomeNames categories
               /\ givesNothing (travelContent blog) travelNames categories
               /\ head categories = Some c)))
    /\ (entries = [Some general3] ->
        resolveCategories blog (JArray entries) categoryIds = inr [Some 3%Z]).
Proof.
  intros blog entries categories ids He Hne Hnamed Hvalid.
  destruct (smartFallback_spec blog categories Hnamed Hne) as (c & Hf & Hwhich).
  assert (Hres : resolveCategories blog (JArray entries) ids = inr [j_id c]).
  { cbn [resolveCategories]. rewrite He. cbv zeta.
    rewrite (validateCategories_none _ _ Hvalid), Hf.
    destruct categories; [congruence|reflexivity]. }
  assert (Hin : In c categories).
  { destruct Hwhich as [[_ H]|[(_ & _ & H)|[(_ & _ & _ & H)|(_ & _ & _ & H)]]];
      try (eapply firstWith_In; exact H).
    destruct categories as [|c0 rest]; [discriminate|].
    inversion H; subst. left. reflexivity. }
  split.
  - exists c. split; [exact Hres|]. split; [exact Hin|exact Hwhich].
  - intros ->. cbn [entriesOf option_map] in He. inversion He; subst categories.
    rewrite Hres. destruct Hin as [<-|[]]. reflexivity.
Qed.

Lemma category_fallback_never_empty_witness :
  (exists c,
     resolveCategories aiBlog (JArray [Some general3; Some tools7]) [5%Z] = inr [j_id c]
     /\ In c [general3; tools7]
     /\ ((aiContent aiBlog = true /\ firstWith aiNames [general3; tools7] c)
         \/ (givesNothing (aiContent aiBlog) aiNames [general3; tools7]
             /\ incomeContent aiBlog = true
             /\ firstWith incomeNames [general3; tools7] c)
         \/ (givesNothing (aiContent aiBlog) aiNames [general3; tools7]
             /\ givesNothing (incomeContent aiBlog) incomeNames [general3; tools7]
             /\ travelContent aiBlog = true
             /\ firstWith travelNames [general3; tools7] c)
         \/ (givesNothing (aiContent aiBlog) aiNames [general3; tools7]
             /\ givesNothing (incomeContent aiBlog) incomeNames [general3; tools7]
             /\ givesNothing (travelContent aiBlog) travelNames [general3; tools7]
             /\ head [general3; tools7] = Some c)))
  /\ resolveCategories aiBlog (JArray [Some general3; Some tools7]) [5%Z]
     = inr [Some 7%Z]
  /\ resolveCategories twoImages (JArray [Some general3]) [5%Z] = inr [Some 3%Z].
Proof.
  split; [|split; [vm_compute; reflexivity|]].
  - apply (category_fallback_never_empty aiBlog [Some general3; Some tools7]
             [general3; tools7] [5%Z]).
    + reflexivity.
    + discriminate.
    + repeat constructor; discriminate.
    + intros id [<-|[]] [H|[H|[]]]; discriminate.
  - apply (category_fallback_never_empty twoImages [Some general3] [general3] [5%Z]).
    + reflexivity.
    + discriminate.
    + repeat constructor; discriminate.
    + intros id [<-|[]] [H|[]]; discriminate.
    + reflexivity.
Defined.

(** ** The excerpt *)

(** The loop over the sentences stops at the first one that qualifies. *)
Lemma firstSentence_spec sentences :
  (exists before s after,
     sentences = before ++ s :: after
     /\ Forall notQualified before
     /\ qualifies (trim s) = true
     /\ firstSentence sentences = trim s ++ js ".")
  \/ (Forall notQualified sentences /\ firstSentence sentences = []).
Proof.
  induction sentences as [|s rest IH].
  - right. split; [constructor|reflexivity].
  - cbn [firstSentence]. destruct (qualifies (trim s)) eqn:Hq.
    + left. exists [], s, rest. repeat split; auto.
    + destruct IH as [(before & s' & after & -> & Hb & Hq' & Hf)|[Hall Hf]].
      * left. exists (s :: before), s', after. repeat split; auto.
      * right. split; [constructor; assumption|exact Hf].
Qed.

(** The last-word pattern ends at the end of the string, so replacing its
    first match by nothing leaves a prefix. *)
Lemma lastWord_reaches_end prev s m :
  match_at lastWordPattern prev s = Some m -> mt_text m = s.
Proof.
  intros H. apply match_at_sound in H. destruct H as (rest & Hs & Hm).
  assert (Hrest : rest = []).
  { clear Hs. cbv [lastWordPattern cat plus star] in Hm. inv_matches.
    match goal with H : at_eos _ = true |- _ => cbn in H end.
    destruct rest; [reflexivity|discriminate]. }
  subst rest. rewrite app_nil_r in Hs. symmetry. exact Hs.
Qed.

Lemma replaceFirst_lastWord_prefix : forall s prev,
  exists tail, s = flat_map (render []) (scan1 lastWordPattern prev s) ++ tail.
Proof.
  induction s as [|c s IH]; intros prev; cbn [scan1].
  - destruct (match_at lastWordPattern prev []) as [m|] eqn:E.
    + apply lastWord_reaches_end in E. rewrite E. exists []. reflexivity.
    + exists []. reflexivity.
  - destruct (match_at lastWordPattern prev (c :: s)) as [m|] eqn:E.
    + apply lastWord_reaches_end in E. rewrite E.
      rewrite skipn_all. exists (c :: s). reflexivity.
    + destruct (IH (Some c)) as (tail & Ht). exists tail.
      cbn [flat_map render app]. rewrite <- Ht. reflexivity.
Qed.

(** C6, as amended. The excerpt is never empty. It is the first sentence of
    the cleaned text (the pieces between runs of full stops, exclamation and
    question marks) that, once trimmed, has more than 20 characters, does
    not start with an http or https address and does not contain
    [unsplash], followed by a full stop, whatever its length; when no
    sentence qualifies and the cleaned text has more than 20 characters, it
    is what is left of the first 160 characters once the last run of white
    space and what follows it are cut off, when that is not empty: a prefix
    of at most 160 characters; it is the fixed sentence only when no
    sentence qualifies and the cleaned text has at most 20 characters or
    that cut leaves nothing. *)
Theorem cleanExcerpt_cases :
  forall content : jstr,
    let clean := cleanForExcerpt content in
    let sentences := splitRe sentenceEndPattern clean in
    let excerpt := cleanExcerpt content in
    excerpt <> []
    /\ ((exists before s after,
           sentences = before ++ s :: after
           /\ Forall notQualified before
           /\ qualifies (trim s) = true
           /\ excerpt = trim s ++ js "."
           /\ 21 < length excerpt)
        \/ (Forall notQualified sentences
            /\ 20 < length clean
            /\ replaceFirst lastWordPattern [] (substring0 160 clean) <> []
            /\ excerpt = replaceFirst lastWordPattern [] (substring0 160 clean)
            /\ (exists tail, substring0 160 clean = excerpt ++ tail)
            /\ length excerpt <= 160)
        \/ (Forall notQualified sentences
            /\ (length clean <= 20
                \/ replaceFirst lastWordPattern [] (substring0 160 clean) = [])
            /\ excerpt = genericExcerpt)).
Proof.
  intros content clean sentences excerpt.
  assert (Hdef : excerpt = excerptOfClean clean) by reflexivity.
  unfold excerptOfClean in Hdef. fold sentences in Hdef.
  destruct (firstSentence_spec sentences)
    as [(before & s & after & Hs & Hb & Hq & Hf)|[Hall Hf]].
  - assert (Hlen : 20 < length (trim s)).
    { unfold qualifies in Hq. apply andb_prop in Hq. destruct Hq as [Hq _].
      apply andb_prop in Hq. destruct Hq as [Hq _]. apply Nat.ltb_lt in Hq. exact Hq. }
    assert (He : excerpt = trim s ++ js ".").
    { rewrite Hdef, Hf. destruct (trim s) as [|c t]; [simpl in Hlen; lia|reflexivity]. }
    split.
    + rewrite He. destruct (trim s); discriminate.
    + left. exists before, s, after. repeat split; auto.
      rewrite He, length_app. simpl. lia.
  - rewrite Hf in Hdef.
    destruct (20 <? length clean) eqn:Hlong.
    + apply Nat.ltb_lt in Hlong.
      destruct (replaceFirst lastWordPattern [] (substring0 160 clean)) as [|c t] eqn:Hr.
      * split; [rewrite Hdef; discriminate|]. right. right. split; auto.
      * split; [rewrite Hdef; discriminate|]. right. left.
        assert (Hp : exists tail, substring0 160 clean = excerpt ++ tail).
        { rewrite Hdef, <- Hr. unfold replaceFirst. apply replaceFirst_lastWord_prefix. }
        split; [exact Hall|]. split; [exact Hlong|]. split; [discriminate|].
        split; [exact Hdef|]. split; [exact Hp|].
        destruct Hp as (tail & Hp).
        assert (Hl : length (substring0 160 clean) <= 160)
          by (unfold substring0; rewrite length_firstn; lia).
        rewrite Hp, length_app in Hl. lia.
    + apply Nat.ltb_ge in Hlong.
      split; [rewrite Hdef; discriminate|]. right. right. split; auto.
Qed.

(** C6 as stated fails: a sentence of 192 characters is returned whole,
    with its full stop, and a first sentence of exactly 20 characters is
    passed over. *)
Lemma cleanExcerpt_length_counterexample :
  length (cleanExcerpt longSentence) = 193
  /\ ~ length (cleanExcerpt longSentence) <= 165
  /\ cleanExcerpt twentyThenMore
     = js "The second sentence is the one that is taken.".
Proof.
  assert (H : length (cleanExcerpt longSentence) = 193) by (vm_compute; reflexivity).
  split; [exact H|]. split; [rewrite H; lia|]. vm_compute. reflexivity.
Qed.

(** ** The HTML: where its characters come from *)

(** A capture is made of characters of the matched text. *)
Lemma matches_caps r prev x rest caps caps' :
  matches r prev x rest caps caps' ->
  forall n t, In (n, t) caps' -> In (n, t) caps \/ incl t x.
Proof.
  induction 1; intros k t Hin; auto.
  - destruct (IHmatches2 k t Hin) as [H1|H1].
    + destruct (IHmatches1 k t H1) as [H2|H2]; [left; exact H2|].
      right. intros c Hc. apply in_or_app. left. apply H2. exact Hc.
    + right. intros c Hc. apply in_or_app. right. apply H1. exact Hc.
  - destruct Hin as [Heq|Hin].
    + inversion Heq; subst. right. apply incl_refl.
    + apply IHmatches. exact Hin.
Qed.

Lemma cap_in n caps : cap n caps = [] \/ In (n, cap n caps) caps.
Proof.
  induction caps as [|[i t] caps IH]; [left; reflexivity|].
  cbn [cap]. destruct (Nat.eqb_spec n i) as [->|Hne].
  - right. left. reflexivity.
  - destruct IH as [IH|IH]; [left; exact IH|right; right; exact IH].
Qed.

Lemma expand_chars r prev s m tmpl c :
  match_at r prev s = Some m ->
  In c (expand tmpl m) -> In c (mt_text m) \/ In c (literals tmpl).
Proof.
  intros Hm. apply match_at_sound in Hm. destruct Hm as (rest & _ & Hm).
  pose proof (matches_caps _ _ _ _ _ _ Hm) as Hcaps.
  unfold expand, literals. induction tmpl as [|[t|n] tmpl IH]; cbn [flat_map].
  - intros [].
  - intros Hin. apply in_app_or in Hin. destruct Hin as [Hin|Hin].
    + right. apply in_or_app. left. exact Hin.
    + destruct (IH Hin) as [H|H]; [left; exact H|].
      right. apply in_or_app. right. exact H.
  - intros Hin. apply in_app_or in Hin. destruct Hin as [Hin|Hin].
    + left. destruct (cap_in n (mt_caps m)) as [E|E].
      * rewrite E in Hin. destruct Hin.
      * destruct (Hcaps _ _ E) as [[]|Hincl]. apply Hincl. exact Hin.
    + destruct (IH Hin) as [H|H]; [left; exact H|right; exact H].
Qed.

Lemma In_textOf sgs c :
  In c (textOf sgs) <->
  exists sg, In sg sgs /\ In c (segText sg).
Proof. unfold textOf. apply in_flat_map. Qed.

(** A replacement only adds the literal characters of its replacement string. *)
Lemma replaceAll_chars r tmpl s c :
  In c (replaceAll r tmpl s) -> In c s \/ In c (literals tmpl).
Proof.
  unfold replaceAll. intros Hin. apply in_flat_map in Hin.
  destruct Hin as (sg & Hsg & Hc).
  assert (Htext : forall d, In d (segText sg) -> In d s).
  { intros d Hd. pose proof (textOf_scan r s None 0) as E. change (skipn 0 s) with s in E.
    rewrite <- E. apply In_textOf. eauto. }
  destruct sg as [c'|m]; cbn [render] in Hc.
  - left. apply Htext. exact Hc.
  - apply scan_matches in Hsg. destruct Hsg as (prev' & s' & Hm).
    destruct (expand_chars _ _ _ _ _ _ Hm Hc) as [H|H]; [left|right; exact H].
    apply Htext. exact H.
Qed.

Ltac not_in_literal :=
  let H := fresh in
  intros H; cbn in H;
  repeat (destruct H as [H|H]; [discriminate H|]); destruct H.

Lemma replaceAll_noBang r tmpl s :
  ~ In BANG (literals tmpl) -> ~ In BANG s -> ~ In BANG (replaceAll r tmpl s).
Proof.
  intros Hl Hs Hin. apply replaceAll_chars in Hin. destruct Hin; auto.
Qed.

Lemma In_trimStart c s : In c (trimStart s) -> In c s.
Proof.
  induction s as [|d s IH]; cbn [trimStart]; [auto|].
  destruct (isSpace d); [intros H; right; apply IH; exact H|auto].
Qed.

Lemma In_trim c s : In c (trim s) -> In c s.
Proof.
  unfold trim, trimEnd. intros H. apply in_rev, In_trimStart, in_rev in H.
  apply In_trimStart. exact H.
Qed.

Lemma In_split_go sep c : forall s pending inside piece,
  In piece (split_go sep pending inside s) -> In c piece ->
  In c pending \/ In c s.
Proof.
  induction s as [|d s IH]; intros pending inside piece; cbn [split_go].
  - intros [<-|[]] Hc. left. apply in_rev. exact Hc.
  - destruct inside as [|n].
    + destruct (startsWith sep (d :: s)).
      * intros [<-|Hp] Hc.
        -- left. apply in_rev. exact Hc.
        -- destruct (IH _ _ _ Hp Hc) as [[]|H]. right. right. exact H.
      * intros Hp Hc. destruct (IH _ _ _ Hp Hc) as [[<-|H]|H].
        -- right. left. reflexivity.
        -- left. exact H.
        -- right. right. exact H.
    + intros Hp Hc. destruct (IH _ _ _ Hp Hc) as [H|H]; [left|right; right]; exact H.
Qed.

Lemma In_split sep c s piece :
  In piece (split sep s) -> In c piece -> In c s.
Proof.
  unfold split. intros Hp Hc. destruct (In_split_go _ _ _ _ _ _ Hp Hc) as [[]|H]. exact H.
Qed.

Lemma In_join sep c : forall l,
  In c (join sep l) -> In c sep \/ exists x, In x l /\ In c x.
Proof.
  induction l as [|x l IH]; cbn [join]; [intros []|].
  destruct l as [|y l].
  - intros H. right. exists x. split; [left; reflexivity|exact H].
  - intros H. apply in_app_or in H. destruct H as [H|H].
    + right. exists x. split; [left; reflexivity|exact H].
    + apply in_app_or in H. destruct H as [H|H]; [left; exact H|].
      destruct (IH H) as [H'|(z & Hz & Hc)]; [left; exact H'|].
      right. exists z. split; [right; exact Hz|exact Hc].
Qed.

Lemma In_groupLists line : forall lines inList,
  In line (groupLists inList lines) ->
  In line lines \/ line = js "<ul>" \/ line = js "</ul>".
Proof.
  induction lines as [|l lines IH]; intros inList; cbn [groupLists].
  - destruct inList; [intros [<-|[]]; auto|intros []].
  - destruct (includes l (js "<li>")), inList; cbn [app];
      intros H; repeat (destruct H as [<-|H]; [auto|]);
      try (left; left; reflexivity);
      destruct (IH _ H) as [H'|H']; auto; left; right; exact H'.
Qed.

Lemma convertLists_noBang s : ~ In BANG s -> ~ In BANG (convertLists s).
Proof.
  intros Hs Hin. unfold convertLists in Hin.
  apply In_join in Hin. destruct Hin as [Hin|(line & Hline & Hc)].
  - revert Hin. not_in_literal.
  - apply In_groupLists in Hline. destruct Hline as [Hline|[->| ->]].
    + apply (In_split _ _ _ _ Hline) in Hc. revert Hc.
      apply replaceAll_noBang; [not_in_literal|exact Hs].
    + revert Hc. not_in_literal.
    + revert Hc. not_in_literal.
Qed.

Lemma toParagraphs_noBang s : ~ In BANG s -> ~ In BANG (toParagraphs s).
Proof.
  intros Hs Hin. unfold toParagraphs in Hin.
  apply In_join in Hin. destruct Hin as [Hin|(q & Hq & Hc)].
  - revert Hin. not_in_literal.
  - apply in_map_iff in Hq. destruct Hq as (p & <- & Hp).
    apply List.filter_In in Hp. destruct Hp as [Hp _].
    assert (Hcp : In BANG p).
    { unfold paragraph in Hc. destruct (isHtmlBlock p); [exact Hc|].
      apply in_app_or in Hc. destruct Hc as [Hc|Hc]; [revert Hc; not_in_literal|].
      apply in_app_or in Hc. destruct Hc as [Hc|Hc]; [|revert Hc; not_in_literal].
      apply In_trim. exact Hc. }
    apply Hs. apply (In_split _ _ _ _ Hp Hcp).
Qed.

(** After the image references are deleted no step adds an exclamation mark. *)
Lemma markdownToHtml_noBang content :
  ~ In BANG (stripImages content) -> ~ In BANG (markdownToHtml content).
Proof.
  intros H. unfold markdownToHtml.
  apply toParagraphs_noBang.
  unfold convertEmphasis. do 2 (apply replaceAll_noBang; [not_in_literal|]).
  unfold convertLinks. do 2 (apply replaceAll_noBang; [not_in_literal|]).
  apply convertLists_noBang.
  unfold convertHeadings. do 3 (apply replaceAll_noBang; [not_in_literal|]).
  unfold stripH1. apply replaceAll_noBang; [not_in_literal|].
  unfold stripCaptions. do 3 (apply replaceAll_noBang; [not_in_literal|]).
  exact H.
Qed.

(** ** Deleting the image references *)

Lemma run_app_stop p x rest :
  Forall (fun c => p c = true) x ->
  match rest with [] => True | c :: _ => p c = false end ->
  run p None (x ++ rest) = length x.
Proof.
  intros Hx Hrest. induction Hx as [|c x Hc Hx IH].
  - destruct rest as [|c rest]; [reflexivity|].
    cbn [app run option_map length]. rewrite Hrest. reflexivity.
  - cbn [app run option_map length]. rewrite Hc, IH. reflexivity.
Qed.

Lemma backoff_first lo n st k res :
  k (skip n st) = Some res -> backoff lo n st k = Some res.
Proof. intros H. destruct n; cbn [backoff]; rewrite H; reflexivity. Qed.

(** A greedy repetition whose longest run lets the rest of the pattern
    match takes that run. *)
Lemma rx_rep_greedy p lo prev x rest pos caps k res :
  Forall (fun c => p c = true) x ->
  match rest with [] => True | c :: _ => p c = false end ->
  lo <= length x ->
  k (MState (lastChar prev x) rest (pos + length x) caps) = Some res ->
  rx (Rep p lo None) (MState prev (x ++ rest) pos caps) k = Some res.
Proof.
  intros Hx Hrest Hlo Hk. cbn [rx m_rest].
  rewrite (run_app_stop p x rest Hx Hrest).
  destruct (Nat.leb_spec lo (length x)) as [_|]; [|lia].
  apply backoff_first. rewrite skip_state by (rewrite length_app; lia).
  rewrite firstn_app, Nat.sub_diag, firstn_all, skipn_app, Nat.sub_diag, skipn_all.
  cbn [firstn skipn app]. rewrite app_nil_r. exact Hk.
Qed.

(** Unfolds the matcher on a pattern of the source, leaving the tests on
    characters as they are. *)
Ltac rx_unfold pat :=
  cbv [pat headingPattern];
  cbn [rx cat lit liti js map list_ascii_of_string star plus opt
       m_rest m_pos m_caps m_prev skip set_cap].

Lemma match_at_image_start prev c s :
  c <> BANG -> match_at imagePattern prev (c :: s) = None.
Proof.
  intros Hc. unfold match_at. rx_unfold imagePattern.
  destruct (Ascii.eqb_spec "!" c) as [E|_]; [|reflexivity].
  exfalso. apply Hc. symmetry. exact E.
Qed.

Lemma match_at_image_end prev : match_at imagePattern prev [] = None.
Proof. reflexivity. Qed.

Lemma rx_chr_hit p prev c s pos caps k :
  p c = true ->
  rx (Chr p) (MState prev (c :: s) pos caps) k = k (MState (Some c) s (S pos) caps).
Proof. intros H. cbn [rx m_rest]. rewrite H. reflexivity. Qed.

(** A literal run matches itself. *)
Lemma rx_lit_hit t : forall prev s pos caps k,
  t <> [] ->
  rx (cat (map (fun c => Chr (Ascii.eqb c)) t)) (MState prev (t ++ s) pos caps) k
  = k (MState (lastChar prev t) s (pos + length t) caps).
Proof.
  induction t as [|c t IH]; intros prev s pos caps k Hne; [congruence|].
  destruct t as [|d t].
  - cbn [map cat app]. rewrite rx_chr_hit by apply Ascii.eqb_refl.
    cbn [length]. replace (pos + 1) with (S pos) by lia. reflexivity.
  - change (cat (map (fun c => Chr (Ascii.eqb c)) (c :: d :: t)))
      with (Cat (Chr (Ascii.eqb c)) (cat (map (fun c => Chr (Ascii.eqb c)) (d :: t)))).
    cbn [rx app]. cbn [m_rest]. rewrite Ascii.eqb_refl.
    cbn [skip m_rest m_pos m_caps].
    change (d :: t ++ s) with ((d :: t) ++ s).
    rewrite IH by discriminate.
    f_equal. f_equal; [|cbn [length]; lia].
    change (c :: d :: t) with ([c] ++ (d :: t)). rewrite <- lastChar_app. reflexivity.
Qed.

Lemma firstn_length_app {A} (x y : list A) n :
  n = length x -> firstn n (x ++ y) = x.
Proof.
  intros ->. rewrite firstn_app, Nat.sub_diag, firstn_all. cbn. apply app_nil_r.
Qed.

Lemma match_at_image_ref prev alt url rest :
  Forall (fun c => noneOf "]" c = true) alt ->
  url <> [] -> Forall (fun c => noneOf ")" c = true) url ->
  match_at imagePattern prev (imageReference alt url ++ rest)
  = Some (RMatch (imageReference alt url) [(2, url); (1, alt)]).
Proof.
  intros Halt Hne Hurl. unfold match_at.
  assert (H : rx imagePattern (MState prev (imageReference alt url ++ rest) 0 []) Some
              = Some (MState (Some ")"%char) rest (length (imageReference alt url))
                             [(2, url); (1, alt)])).
  { unfold imageReference, imagePattern, lit. rewrite <- !app_assoc.
    cbn [cat]. cbn [rx].
    rewrite rx_lit_hit by discriminate.
    cbn [m_pos m_rest].
    apply rx_rep_greedy; [exact Halt|reflexivity|lia|].
    cbn [set_cap m_prev m_rest m_pos m_caps].
    rewrite firstn_length_app by lia.
    unfold set_cap; cbn [m_prev m_rest m_pos m_caps].
    rewrite rx_lit_hit by discriminate.
    unfold plus. cbn [rx]. cbn [m_pos m_rest].
    apply rx_rep_greedy; [exact Hurl|reflexivity|destruct url; [congruence|cbn; lia]|].
    cbn [m_prev m_rest m_pos m_caps].
    rewrite firstn_length_app by lia.
    unfold set_cap; cbn [m_prev m_rest m_pos m_caps].
    rewrite rx_lit_hit by discriminate.
    f_equal. f_equal; try reflexivity. rewrite !length_app. cbn. lia. }
  rewrite H. cbn [m_pos m_caps]. f_equal. f_equal.
  apply firstn_length_app. reflexivity.
Qed.

Lemma lastChar_cons prev c t : lastChar (Some c) t = lastChar prev (c :: t).
Proof.
  change (c :: t) with ([c] ++ t). rewrite <- lastChar_app. reflexivity.
Qed.

(** The characters covered by a match are passed over. *)
Lemma scan_inside r : forall n s prev,
  n <= length s ->
  scan r prev n s = scan r (lastChar prev (firstn n s)) 0 (skipn n s).
Proof.
  induction n as [|n IH]; intros s prev Hn; [reflexivity|].
  destruct s as [|c s]; [cbn in Hn; lia|].
  cbn [scan firstn skipn]. rewrite IH by (cbn in Hn; lia).
  rewrite lastChar_cons with (prev := prev). reflexivity.
Qed.

Lemma scan_image_text : forall t prev s,
  ~ In BANG t ->
  scan imagePattern prev 0 (t ++ s)
  = map SChr t ++ scan imagePattern (lastChar prev t) 0 s.
Proof.
  induction t as [|c t IH]; intros prev s Hnb; [reflexivity|].
  cbn [app scan map].
  rewrite match_at_image_start by (intros E; apply Hnb; left; exact E).
  rewrite IH by (intros H; apply Hnb; right; exact H).
  rewrite lastChar_cons with (prev := prev). reflexivity.
Qed.

(** A non-empty match found at the head of the string is the first segment. *)
Lemma scan_match r prev m rest :
  match_at r prev (mt_text m ++ rest) = Some m ->
  mt_text m <> [] ->
  scan r prev 0 (mt_text m ++ rest)
  = SMatch m :: scan r (lastChar prev (mt_text m)) 0 rest.
Proof.
  intros Hm Hne. destruct (mt_text m) as [|c x] eqn:E; [congruence|].
  cbn [app scan]. cbn [app] in Hm. rewrite Hm, E. cbn [length].
  f_equal. rewrite scan_inside by (rewrite length_app; lia).
  rewrite firstn_length_app by reflexivity.
  rewrite skipn_app, skipn_all, Nat.sub_diag. cbn [skipn app].
  rewrite lastChar_cons with (prev := prev). reflexivity.
Qed.

Lemma render_chars tmpl t : flat_map (render tmpl) (map SChr t) = t.
Proof. induction t as [|c t IH]; [reflexivity|]. cbn. rewrite IH. reflexivity. Qed.

Lemma stripImages_imagesOnly md :
  imagesOnly md ->
  forall prev, ~ In BANG (flat_map (render []) (scan imagePattern prev 0 md)).
Proof.
  induction 1 as [t Ht|t alt url rest Ht Halt Hne Hurl Hrest IH]; intros prev.
  - rewrite <- (app_nil_r t), scan_image_text by exact Ht.
    cbn [scan]. rewrite match_at_image_end, app_nil_r, render_chars. exact Ht.
  - rewrite scan_image_text by exact Ht.
    pose proof (match_at_image_ref (lastChar prev t) alt url rest Halt Hne Hurl) as Hm.
    pose proof (scan_match imagePattern (lastChar prev t)
                  (RMatch (imageReference alt url) [(2, url); (1, alt)]) rest Hm
                  ltac:(discriminate)) as Hs.
    cbn [mt_text] in Hs. rewrite Hs.
    rewrite flat_map_app, render_chars. cbn [flat_map render expand app mt_text].
    intros Hin. apply in_app_or in Hin. destruct Hin as [Hin|Hin].
    + exact (Ht Hin).
    + exact (IH _ Hin).
Qed.

Lemma hasImageSyntax_bang s : hasImageSyntax s = true -> In BANG s.
Proof.
  unfold hasImageSyntax. intros H. apply existsb_exists in H.
  destruct H as ([c|m] & Hin & Hm); [discriminate|].
  assert (Htext : In BANG (mt_text m)).
  { destruct (scan_matches _ _ _ _ _ Hin) as (prev' & s' & Hmatch).
    apply match_at_sound in Hmatch. destruct Hmatch as (rest & _ & Hmatch).
    apply imagePattern_shape in Hmatch.
    destruct Hmatch as (alt & url & -> & _). left. reflexivity. }
  pose proof (textOf_scan imagePattern s None 0) as E.
  change (skipn 0 s) with s in E. rewrite <- E.
  apply In_textOf. exists (SMatch m). split; [exact Hin|exact Htext].
Qed.

(** ** Replacing the image at an index: which reference is rewritten *)

Lemma noneOf_bracket c : noneOf "]" c = true <-> c <> "]"%char.
Proof.
  unfold noneOf, oneOf. cbn [js list_ascii_of_string existsb].
  rewrite orb_false_r, negb_true_iff.
  destruct (Ascii.eqb_spec c "]"); split; congruence.
Qed.

Lemma noneOf_paren c : noneOf ")" c = true <-> c <> ")"%char.
Proof.
  unfold noneOf, oneOf. cbn [js list_ascii_of_string existsb].
  rewrite orb_false_r, negb_true_iff.
  destruct (Ascii.eqb_spec c ")"); split; congruence.
Qed.

Lemma isReference_pattern alt url :
  isReference alt url
  <-> Forall (fun c => noneOf "]" c = true) alt
      /\ url <> []
      /\ Forall (fun c => noneOf ")" c = true) url.
Proof.
  unfold isReference. rewrite !List.Forall_forall.
  split; intros (Ha & Hne & Hu); (split; [|split; [exact Hne|]]);
    intros c Hc;
    first [apply noneOf_bracket; apply Ha; exact Hc
          |apply noneOf_paren; apply Hu; exact Hc].
Qed.

(** The pattern matches at a position exactly when a reference starts
    there, and then it matches that reference. *)
Lemma match_at_reference prev alt url rest :
  isReference alt url ->
  match_at imagePattern prev (imageReference alt url ++ rest)
  = Some (RMatch (imageReference alt url) [(2, url); (1, alt)]).
Proof.
  intros H. apply isReference_pattern in H. destruct H as (Ha & Hne & Hu).
  apply match_at_image_ref; assumption.
Qed.

Lemma match_at_startsReference prev s m :
  match_at imagePattern prev s = Some m -> startsReference s.
Proof.
  intros H. apply match_at_sound in H. destruct H as (rest & Hs & Hm).
  apply imagePattern_shape in Hm.
  destruct Hm as (alt & url & Hx & _ & _ & Ha & Hne & Hu).
  exists alt, url, rest. split.
  - apply isReference_pattern. split; [exact Ha|]. split; assumption.
  - rewrite <- Hx. exact Hs.
Qed.

Lemma no_reference_no_match prev s :
  ~ startsReference s -> match_at imagePattern prev s = None.
Proof.
  intros H. destruct (match_at imagePattern prev s) as [m|] eqn:E; [|reflexivity].
  exfalso. apply H. eapply match_at_startsReference. exact E.
Qed.

(** The scan copies a stretch in which no reference starts. *)
Lemma scan_clear : forall gap prev rest,
  clearOf gap rest ->
  scan imagePattern prev 0 (gap ++ rest)
  = map SChr gap ++ scan imagePattern (lastChar prev gap) 0 rest.
Proof.
  induction gap as [|c gap IH]; intros prev rest Hclear; [reflexivity|].
  cbn [app scan map].
  rewrite (no_reference_no_match prev (c :: gap ++ rest))
    by (apply (Hclear [] (c :: gap)); [reflexivity|discriminate]).
  rewrite IH.
  - rewrite lastChar_cons with (prev := prev). reflexivity.
  - intros a b Hs Hb. apply (Hclear (c :: a) b); [rewrite Hs; reflexivity|exact Hb].
Qed.

(** The scan of a text follows its reading. *)
Lemma scan_reading content refs tail :
  reading content refs tail ->
  forall prev, scan imagePattern prev 0 content = segmentsOf refs tail.
Proof.
  induction 1 as [tail Hclear|gap alt url rest refs tail Hclear Href Hread IH];
    intros prev.
  - rewrite <- (app_nil_r tail) at 1. rewrite (scan_clear _ _ _ Hclear).
    cbn [scan]. rewrite match_at_image_end, app_nil_r. reflexivity.
  - rewrite (scan_clear _ _ _ Hclear).
    pose proof (match_at_reference (lastChar prev gap) alt url rest Href) as Hm.
    pose proof (scan_match imagePattern (lastChar prev gap)
                  (RMatch (imageReference alt url) [(2, url); (1, alt)]) rest Hm
                  ltac:(discriminate)) as Hs.
    cbn [mt_text] in Hs. rewrite Hs, IH.
    unfold segmentsOf. cbn [flat_map]. rewrite <- !app_assoc. reflexivity.
Qed.

Lemma reading_written content refs tail :
  reading content refs tail -> content = written refs ++ tail.
Proof.
  induction 1 as [tail Hclear|gap alt url rest refs tail Hclear Href Hread IH];
    [reflexivity|].
  unfold written. cbn [flat_map]. fold (written refs).
  rewrite <- !app_assoc, <- IH. reflexivity.
Qed.

(** Every text has a reading. *)
Lemma first_reference : forall content,
  clearOf content []
  \/ exists gap alt url rest,
       content = gap ++ imageReference alt url ++ rest
       /\ isReference alt url
       /\ clearOf gap (imageReference alt url ++ rest).
Proof.
  induction content as [|c s IH].
  - left. intros a b Hs Hb. destruct a; destruct b; try discriminate. congruence.
  - destruct (match_at imagePattern None (c :: s)) as [m|] eqn:E.
    + right. apply match_at_startsReference in E.
      destruct E as (alt & url & rest & Href & Hs).
      exists [], alt, url, rest. split; [exact Hs|]. split; [exact Href|].
      intros a b Hab Hb. destruct a; destruct b; try discriminate. congruence.
    + assert (Hno : ~ startsReference (c :: s)).
      { intros (alt & url & rest & Href & Hs).
        rewrite Hs, (match_at_reference None alt url rest Href) in E. discriminate. }
      destruct IH as [Hclear|(gap & alt & url & rest & Hs & Href & Hclear)].
      * left. intros a b Hab Hb. destruct a as [|d a].
        -- cbn [app] in Hab. subst b. rewrite app_nil_r. exact Hno.
        -- cbn [app] in Hab. inversion Hab; subst. apply (Hclear a b); auto.
      * right. exists (c :: gap), alt, url, rest.
        split; [rewrite Hs; reflexivity|]. split; [exact Href|].
        intros a b Hab Hb. destruct a as [|d a].
        -- cbn [app] in Hab. subst b. cbn [app]. rewrite <- Hs. exact Hno.
        -- cbn [app] in Hab. inversion Hab; subst. apply (Hclear a b); auto.
Qed.

Lemma reading_exists_bounded : forall n content,
  length content <= n -> exists refs tail, reading content refs tail.
Proof.
  induction n as [|n IH]; intros content Hlen.
  - destruct content; [|cbn in Hlen; lia].
    exists [], []. constructor. intros a b Hs Hb.
    destruct a; destruct b; try discriminate. congruence.
  - destruct (first_reference content)
      as [Hclear|(gap & alt & url & rest & Hs & Href & Hclear)].
    + exists [], content. constructor. exact Hclear.
    + destruct (IH rest) as (refs & tail & Hread).
      { rewrite Hs, !length_app in Hlen. unfold imageReference in Hlen.
        rewrite !length_app in Hlen. cbn [length js list_ascii_of_string] in Hlen. lia. }
      exists ((gap, alt, url) :: refs), tail. rewrite Hs.
      constructor; assumption.
Qed.

(** A text has one reading only. *)
Lemma segmentsOf_inj : forall refs refs' tail tail',
  segmentsOf refs tail = segmentsOf refs' tail' -> refs = refs' /\ tail = tail'.
Proof.
  assert (Hchars : forall x y : jstr, map SChr x = map SChr y -> x = y).
  { induction x as [|c x IHx]; intros [|d y] H; try discriminate; [reflexivity|].
    cbn [map] in H. inversion H; subst. f_equal. apply IHx. assumption. }
  assert (Hgap : forall (g g' : jstr) m m' (r r' : list seg),
            map SChr g ++ SMatch m :: r = map SChr g' ++ SMatch m' :: r' ->
            g = g' /\ m = m' /\ r = r').
  { induction g as [|c g IHg]; intros [|d g'] m m' r r' H; cbn [map app] in H;
      try discriminate.
    - inversion H; subst. repeat split.
    - inversion H; subst. destruct (IHg _ _ _ _ _ H2) as (-> & -> & ->).
      repeat split. }
  assert (Hend : forall (g t : jstr) m (r : list seg),
            map SChr g ++ SMatch m :: r <> map SChr t).
  { induction g as [|c g IHg]; intros [|d t] m r H; cbn [map app] in H;
      try discriminate.
    inversion H; subst. eapply IHg. eassumption. }
  induction refs as [|[[gap alt] url] refs IH]; intros [|[[gap' alt'] url'] refs'] tail tail' H;
    unfold segmentsOf in H; cbn [flat_map app] in H; rewrite <- ?app_assoc in H;
    cbn [app] in H.
  - split; [reflexivity|]. apply Hchars. exact H.
  - exfalso. symmetry in H. eapply Hend. exact H.
  - exfalso. eapply Hend. exact H.
  - destruct (Hgap _ _ _ _ _ _ H) as (-> & Hm & Hr).
    inversion Hm; subst.
    destruct (IH refs' tail tail' Hr) as (-> & ->). split; reflexivity.
Qed.

Lemma countMatches_chars t : countMatches (map SChr t) = 0.
Proof. induction t; [reflexivity|assumption]. Qed.

Lemma textOf_chars t : textOf (map SChr t) = t.
Proof. induction t as [|c t IH]; [reflexivity|]. cbn. f_equal. exact IH. Qed.

Lemma countMatches_segmentsOf refs tail :
  countMatches (segmentsOf refs tail) = length refs.
Proof.
  unfold segmentsOf. rewrite countMatches_app, countMatches_chars, Nat.add_0_r.
  induction refs as [|[[gap alt] url] refs IH]; [reflexivity|].
  cbn [flat_map length]. rewrite !countMatches_app, countMatches_chars, IH.
  reflexivity.
Qed.

Lemma textOf_segmentsOf refs tail :
  textOf (segmentsOf refs tail) = written refs ++ tail.
Proof.
  unfold segmentsOf. rewrite textOf_app, textOf_chars. f_equal.
  induction refs as [|[[gap alt] url] refs IH]; [reflexivity|].
  unfold written. cbn [flat_map]. fold (written refs).
  rewrite !textOf_app, textOf_chars, IH.
  change (textOf [SMatch (RMatch (imageReference alt url) [(2, url); (1, alt)])])
    with (imageReference alt url ++ []).
  rewrite app_nil_r, <- !app_assoc. reflexivity.
Qed.

Lemma segmentsOf_split before gap alt url after tail :
  segmentsOf (before ++ (gap, alt, url) :: after) tail
  = (segmentsOf before gap)
    ++ SMatch (RMatch (imageReference alt url) [(2, url); (1, alt)])
    :: segmentsOf after tail.
Proof.
  unfold segmentsOf. rewrite flat_map_app. cbn [flat_map].
  rewrite <- !app_assoc. reflexivity.
Qed.

(** The reference the callback writes, spelled out. *)
Lemma newReference_chosen newImage alt url newUrl :
  ni_url newImage = Some newUrl ->
  newReference newImage (RMatch (imageReference alt url) [(2, url); (1, alt)])
  = imageReference (chosenDescription newImage alt) newUrl.
Proof.
  intros Hu. unfold newReference, imageReference, chosenDescription, orElse.
  rewrite Hu. cbn [mt_caps default].
  destruct (ni_description newImage) as [[|c d]|];
    destruct (ni_alt_description newImage) as [[|c' d']|]; reflexivity.
Qed.

Lemma countMatches_cons x l :
  countMatches (x :: l) = (if isMatch x then 1 else 0) + countMatches l.
Proof. unfold countMatches. cbn [List.filter]. destruct (isMatch x); reflexivity. Qed.

(** Where the match number [n] of a list of segments is. *)
Lemma split_by_count : forall sx sb m m' sa sa',
  sx ++ SMatch m :: sa = sb ++ SMatch m' :: sa' ->
  countMatches sx = countMatches sb ->
  sx = sb /\ m = m' /\ sa = sa'.
Proof.
  induction sx as [|x sx IH]; intros sb m m' sa sa' Hs Hcount.
  - destruct sb as [|y sb].
    + cbn [app] in Hs. inversion Hs; subst. repeat split.
    + cbn [app] in Hs. inversion Hs; subst.
      rewrite countMatches_cons in Hcount. cbn [isMatch] in Hcount.
      change (countMatches []) with 0 in Hcount. lia.
  - destruct sb as [|y sb].
    + cbn [app] in Hs. inversion Hs; subst.
      rewrite countMatches_cons in Hcount. cbn [isMatch] in Hcount.
      change (countMatches []) with 0 in Hcount. lia.
    + cbn [app] in Hs. inversion Hs; subst.
      rewrite !countMatches_cons in Hcount.
      destruct (IH sb m m' sa sa' ltac:(assumption) ltac:(lia)) as (-> & Hm & Ha).
      repeat split; assumption.
Qed.

(** The callback over the segments of a reading, with the index in range. *)
Lemma replaceWith_reference i newImage before gap alt url after tail :
  length before = i ->
  replaceWith (replaceCallback i newImage) {| currentIndex := 0; replaced := false |}
    (segmentsOf (before ++ (gap, alt, url) :: after) tail)
  = (written before ++ gap
     ++ newReference newImage (RMatch (imageReference alt url) [(2, url); (1, alt)])
     ++ written after ++ tail,
     {| currentIndex := length (before ++ (gap, alt, url) :: after);
        replaced := true |}).
Proof.
  intros Hlen.
  destruct (replaceWith_hit i newImage
              (segmentsOf (before ++ (gap, alt, url) :: after) tail) 0 false)
    as (sb & m & sa & Hs & Hc & Hr).
  { rewrite countMatches_segmentsOf, length_app. cbn [length]. lia. }
  rewrite Hr, countMatches_segmentsOf. cbn [Nat.add].
  rewrite segmentsOf_split in Hs.
  destruct (split_by_count _ _ _ _ _ _ Hs) as (<- & <- & <-).
  { rewrite countMatches_segmentsOf. cbn [Nat.add] in Hc. lia. }
  rewrite !textOf_segmentsOf, <- !app_assoc. reflexivity.
Qed.

(** A stretch without exclamation mark has no start of a reference. *)
Lemma clearOf_plain gap rest : ~ In BANG gap -> clearOf gap rest.
Proof.
  intros Hno a b Hs Hb (alt & url & rest' & _ & Hstart).
  destruct b as [|c b]; [congruence|].
  unfold imageReference in Hstart. cbn [js list_ascii_of_string app] in Hstart.
  inversion Hstart; subst c. apply Hno. rewrite Hs. apply in_or_app. right.
  left. reflexivity.
Qed.

(** The route on the reference number [length before] of the reading. *)
Lemma replaceImage_reference st id blog newImage newUrl before gap alt url after tail :
  getBlog st id = Some blog ->
  ni_url newImage = Some newUrl -> newUrl <> [] ->
  reading (b_content blog) (before ++ (gap, alt, url) :: after) tail ->
  let updated :=
    {| b_id := b_id blog;
       b_keyword := b_keyword blog;
       b_title := b_title blog;
       b_content :=
         written before ++ gap
         ++ imageReference (chosenDescription newImage alt) newUrl
         ++ written after ++ tail;
       b_imageUrl := b_imageUrl blog;
       b_imageDescription := b_imageDescription blog;
       b_images := b_images blog;
       b_status := b_status blog;
       b_generatedTopics := b_generatedTopics blog;
       b_wordCount := b_wordCount blog;
       b_wordpressUrl := b_wordpressUrl blog;
       b_wordpressPostId := b_wordpressPostId blog;
       b_publishedAt := b_publishedAt blog;
       b_categoryId := b_categoryId blog;
       b_tagIds := b_tagIds blog;
       b_metaDescription := b_metaDescription blog;
       b_githubFilePath := b_githubFilePath blog;
       b_githubCommitSha := b_githubCommitSha blog;
       b_backedUpToGithub := b_backedUpToGithub blog;
       b_createdAt := b_createdAt blog |} in
  replaceImage st id (Some (Z.of_nat (length before))) (Some newImage)
  = ({| r_status := 200; r_body := JBlog updated |},
     {| blogs := <[id := updated]> (blogs st);
        wordpressCredentials := wordpressCredentials st |}).
Proof.
  intros Hblog Hurl Hne Hread. cbv zeta.
  assert (Htruthy : truthy (ni_url newImage) = true)
    by (rewrite Hurl; destruct newUrl; [congruence|reflexivity]).
  unfold replaceImage. rewrite Htruthy, Hblog. cbn [negb].
  destruct (Z.ltb_spec (Z.of_nat (length before)) 0); [lia|].
  rewrite Nat2Z.id, (scan_reading _ _ _ Hread None).
  rewrite (replaceWith_reference (length before) newImage before gap alt url after
             tail eq_refl).
  cbn [replaced negb].
  rewrite (updateBlog_found _ _ _ _ Hblog).
  rewrite (newReference_chosen newImage alt url newUrl Hurl).
  reflexivity.
Qed.

(** C9. Replacing the image at index [i]. Every content reads, from left
    to right and in one way only, as stretches in which no image reference
    starts, separated by image references [![alt](url)] ([alt] without
    closing square bracket, [url] not empty and without closing
    parenthesis), and is the text of these in order. When the reading has
    more than [i] references, the handler answers 200 with the blog it
    stores under the id: the old blog, every column as it was but the
    content, and the content as it was but for the reference number [i]
    (from 0), which is now the reference to the new address with the
    description of the new image (else its alternative description, else
    the old description). Otherwise the handler answers 400, with the
    number of references in the message, and the storage is as it was. *)
Theorem replaceImage_rewrites_ith_reference :
  (forall content : jstr, exists refs tail, reading content refs tail)
  /\ (forall content refs tail refs' tail',
        reading content refs tail -> reading content refs' tail' ->
        refs = refs' /\ tail = tail')
  /\ (forall content refs tail,
        reading content refs tail -> content = written refs ++ tail)
  /\ (forall (st : Storage) (id : jstr) (blog : Blog) (i : nat) (newImage : NewImage)
             (newUrl : jstr) (refs : list (jstr * jstr * jstr)) (tail : jstr),
        getBlog st id = Some blog ->
        ni_url newImage = Some newUrl -> newUrl <> [] ->
        reading (b_content blog) refs tail ->
        (forall before gap alt url after,
           refs = before ++ (gap, alt, url) :: after -> length before = i ->
           let updated :=
             {| b_id := b_id blog;
                b_keyword := b_keyword blog;
                b_title := b_title blog;
                b_content :=
                  written before ++ gap
                  ++ imageReference (chosenDescription newImage alt) newUrl
                  ++ written after ++ tail;
                b_imageUrl := b_imageUrl blog;
                b_imageDescription := b_imageDescription blog;
                b_images := b_images blog;
                b_status := b_status blog;
                b_generatedTopics := b_generatedTopics blog;
                b_wordCount := b_wordCount blog;
                b_wordpressUrl := b_wordpressUrl blog;
                b_wordpressPostId := b_wordpressPostId blog;
                b_publishedAt := b_publishedAt blog;
                b_categoryId := b_categoryId blog;
                b_tagIds := b_tagIds blog;
                b_metaDescription := b_metaDescription blog;
                b_githubFilePath := b_githubFilePath blog;
                b_githubCommitSha := b_githubCommitSha blog;
                b_backedUpToGithub := b_backedUpToGithub blog;
                b_createdAt := b_createdAt blog |} in
           replaceImage st id (Some (Z.of_nat i)) (Some newImage)
           = ({| r_status := 200; r_body := JBlog updated |},
              {| blogs := <[id := updated]> (blogs st);
                 wordpressCredentials := wordpressCredentials st |}))
        /\ (length refs <= i ->
            replaceImage st id (Some (Z.of_nat i)) (Some newImage)
            = ({| r_status := 400;
                  r_body := JError (js "Image index " ++ toString (Z.of_nat i)
                                    ++ js " not found in content. Total images: "
                                    ++ toString (Z.of_nat (length refs)))
                                   None false |}, st))).
Proof.
  split; [|split; [|split]].
  - intros content. apply (reading_exists_bounded (length content)). apply le_n.
  - intros content refs tail refs' tail' H H'.
    apply segmentsOf_inj.
    rewrite <- (scan_reading _ _ _ H None), <- (scan_reading _ _ _ H' None).
    reflexivity.
  - exact reading_written.
  - intros st id blog i newImage newUrl refs tail Hblog Hurl Hne Hread.
    assert (Htruthy : truthy (ni_url newImage) = true)
      by (rewrite Hurl; destruct newUrl; [congruence|reflexivity]).
    split.
    + intros before gap alt url after Hrefs Hlen. subst refs i.
      exact (replaceImage_reference st id blog newImage newUrl before gap alt url
               after tail Hblog Hurl Hne Hread).
    + intros Hlen. unfold replaceImage. rewrite Htruthy, Hblog. cbn [negb].
      destruct (Z.ltb_spec (Z.of_nat i) 0); [lia|].
      rewrite Nat2Z.id, (scan_reading _ _ _ Hread None).
      rewrite replaceWith_copy by (right; rewrite countMatches_segmentsOf; lia).
      cbn [replaced negb currentIndex]. rewrite countMatches_segmentsOf.
      reflexivity.
Qed.

Lemma replaceImage_rewrites_ith_reference_witness :
  fst (replaceImage (sampleStorage twoImages None) (js "b1") (Some 1%Z)
         (Some sampleNewImage))
  = {| r_status := 200;
       r_body := JBlog (sampleBlog
         "Intro ![one](http://a/1.jpg) middle ![a new view](http://b/new.jpg) end") |}
  /\ fst (replaceImage (sampleStorage twoImages None) (js "b1") (Some 2%Z)
            (Some sampleNewImage))
     = {| r_status := 400;
          r_body := JError (js "Image index 2 not found in content. Total images: 2")
                           None false |}.
Proof.
  assert (Hread : reading (b_content twoImages)
            [(js "Intro ", js "one", js "http://a/1.jpg");
             (js " middle ", js "two", js "http://a/2.jpg")] (js " end")).
  { apply (Read_reference (js "Intro ") (js "one") (js "http://a/1.jpg")).
    - apply clearOf_plain. vm_compute. intuition discriminate.
    - repeat split; [repeat constructor; discriminate|discriminate
                    |repeat constructor; discriminate].
    - apply (Read_reference (js " middle ") (js "two") (js "http://a/2.jpg")).
      + apply clearOf_plain. vm_compute. intuition discriminate.
      + repeat split; [repeat constructor; discriminate|discriminate
                      |repeat constructor; discriminate].
      + apply Read_tail. apply clearOf_plain. vm_compute. intuition discriminate. }
  destruct replaceImage_rewrites_ith_reference as (_ & _ & _ & H).
  destruct (H (sampleStorage twoImages None) (js "b1") twoImages 1 sampleNewImage
              (js "http://b/new.jpg") _ _ ltac:(vm_compute; reflexivity) eq_refl
              ltac:(discriminate) Hread) as [Hhit _].
  destruct (H (sampleStorage twoImages None) (js "b1") twoImages 2 sampleNewImage
              (js "http://b/new.jpg") _ _ ltac:(vm_compute; reflexivity) eq_refl
              ltac:(discriminate) Hread) as [_ Hmiss].
  split.
  - change (Z.of_nat 1) with 1%Z in Hhit.
    rewrite (Hhit [(js "Intro ", js "one", js "http://a/1.jpg")] (js " middle ")
                  (js "two") (js "http://a/2.jpg") [] eq_refl eq_refl).
    reflexivity.
  - change (Z.of_nat 2) with 2%Z in Hmiss. rewrite (Hmiss (le_n 2)). reflexivity.
Defined.

(** ** Reading the HTML line by line *)

Lemma lrun_app q a b :
  lrun q (a ++ b) = match lrun q a with Some q' => lrun q' b | None => None end.
Proof.
  revert q. induction a as [|c a IH]; intros q; [reflexivity|].
  cbn [app lrun]. destruct (lstep q c); [apply IH|reflexivity].
Qed.

Lemma lsim_refl q : lsim q q.
Proof. left. reflexivity. Qed.

Lemma lsim_mid q : lsim LMid q.
Proof. right. reflexivity. Qed.

Lemma lstep_sim qo qi c qi' :
  lsim qo qi -> lstep qi c = Some qi' ->
  exists qo', lstep qo c = Some qo' /\ lsim qo' qi'.
Proof.
  intros [->| ->] H.
  - exists qi'. split; [exact H|apply lsim_refl].
  - unfold lstep in *. destruct (isLineTerminator c).
    + inversion H; subst. exists LStart. split; [reflexivity|apply lsim_refl].
    + exists LMid. split; [reflexivity|apply lsim_mid].
Qed.

Lemma lrun_sim s : forall qo qi qi',
  lsim qo qi -> lrun qi s = Some qi' ->
  exists qo', lrun qo s = Some qo' /\ lsim qo' qi'.
Proof.
  induction s as [|c s IH]; intros qo qi qi' Hsim H; cbn [lrun] in *.
  - inversion H; subst. exists qo. split; [reflexivity|exact Hsim].
  - destruct (lstep qi c) as [q1|] eqn:E; [|discriminate].
    destruct (lstep_sim _ _ _ _ Hsim E) as (q1' & -> & Hs1).
    apply (IH _ _ _ Hs1 H).
Qed.

(** A text that can be read from the start of a line can be read from
    anywhere. *)
Lemma lrun_weaken s qo qi :
  lsim qo qi -> lrun qi s <> None -> lrun qo s <> None.
Proof.
  intros Hsim H. destruct (lrun qi s) as [qi'|] eqn:E; [|congruence].
  destruct (lrun_sim _ _ _ _ Hsim E) as (qo' & -> & _). discriminate.
Qed.

Lemma lastChar_None pre : lastChar None pre = None -> pre = [].
Proof.
  unfold lastChar. destruct (rev pre) eqn:E; [|discriminate].
  intros _. apply (f_equal (@rev _)) in E. rewrite rev_involutive in E. exact E.
Qed.

Lemma lastChar_Some pre c :
  lastChar None pre = Some c -> exists pre', pre = pre' ++ [c].
Proof.
  unfold lastChar. destruct (rev pre) as [|d l] eqn:E; [discriminate|].
  intros H. inversion H; subst. exists (rev l).
  apply (f_equal (@rev _)) in E. rewrite rev_involutive in E. exact E.
Qed.

Lemma lrun_at_line_start q pre q' :
  lrun q pre = Some q' -> atLineStart pre -> q' = LStart \/ (pre = [] /\ q' = q).
Proof.
  unfold atLineStart. intros Hrun Hstart.
  destruct (lastChar None pre) as [c|] eqn:E.
  - left. apply lastChar_Some in E. destruct E as (pre' & ->).
    rewrite lrun_app in Hrun. destruct (lrun q pre') as [q1|]; [|discriminate].
    cbn [lrun] in Hrun. unfold lstep in Hrun. rewrite Hstart in Hrun.
    inversion Hrun. reflexivity.
  - right. apply lastChar_None in E. subst pre. inversion Hrun. auto.
Qed.

(** What reading from the start of a line guarantees. *)
Lemma lrun_noTitledH1 s : lrun LStart s <> None -> noTitledH1 s.
Proof.
  intros Hgood pre c post -> Hstart.
  rewrite lrun_app in Hgood.
  destruct (lrun LStart pre) as [q1|] eqn:E; [|congruence].
  assert (q1 = LStart) as ->.
  { destruct (lrun_at_line_start _ _ _ E Hstart) as [H|[_ H]]; exact H. }
  assert (H1 : lstep LStart "#" = Some LHash) by reflexivity.
  assert (H2 : lstep LHash " " = Some LHashSp) by reflexivity.
  cbn [js list_ascii_of_string app lrun] in Hgood.
  rewrite H1, H2 in Hgood. unfold lstep in Hgood.
  destruct (isLineTerminator c); [reflexivity|]. congruence.
Qed.

(** Replacing every match by a text that can be read wherever the match
    could keeps a readable text readable. *)
Lemma segs_sim tmpl : forall sgs qo qi qi',
  (forall m, In (SMatch m) sgs -> simMatch tmpl m) ->
  lsim qo qi -> lrun qi (textOf sgs) = Some qi' ->
  exists qo', lrun qo (flat_map (render tmpl) sgs) = Some qo' /\ lsim qo' qi'.
Proof.
  induction sgs as [|sg sgs IH]; intros qo qi qi' Hm Hsim Hrun.
  - cbn in *. inversion Hrun; subst. eauto.
  - unfold textOf in Hrun. cbn [flat_map] in *. fold (textOf sgs) in Hrun.
    rewrite lrun_app in Hrun. rewrite lrun_app.
    destruct (lrun qi (segText sg)) as [q1|] eqn:E; [|discriminate].
    assert (Hseg : exists q1', lrun qo (render tmpl sg) = Some q1' /\ lsim q1' q1).
    { destruct sg as [c|m]; cbn [render segText] in *.
      - apply (lrun_sim _ _ _ _ Hsim E).
      - apply (Hm m (or_introl eq_refl) _ _ _ Hsim E). }
    destruct Hseg as (q1' & -> & Hs1).
    apply (IH _ _ _ (fun m H => Hm m (or_intror H)) Hs1 Hrun).
Qed.

Lemma replaceAll_readable r tmpl s :
  (forall prev x m, match_at r prev x = Some m -> simMatch tmpl m) ->
  lrun LStart s <> None -> lrun LStart (replaceAll r tmpl s) <> None.
Proof.
  intros Hm Hgood. destruct (lrun LStart s) as [q'|] eqn:E; [|congruence].
  pose proof (textOf_scan r s None 0) as Ht. change (skipn 0 s) with s in Ht.
  rewrite <- Ht in E.
  destruct (segs_sim tmpl _ LStart LStart q'
              (fun m H => match scan_matches _ _ _ _ _ H with
                          | ex_intro _ prev' (ex_intro _ s' Hm') => Hm _ _ _ Hm'
                          end)
              (lsim_refl _) E) as (qo' & Hrun & _).
  unfold replaceAll. rewrite Hrun. discriminate.
Qed.

(** ** The rewriting steps keep the lines readable *)

Lemma solid_in t q s q' :
  solid t -> lrun q (t ++ s) = Some q' -> q <> LHashSp /\ lrun LMid s = Some q'.
Proof.
  intros (H1 & H2 & H3 & H4). rewrite lrun_app.
  destruct q; rewrite ?H1, ?H2, ?H3, ?H4; intros H; try discriminate;
    split; auto; discriminate.
Qed.

Lemma solid_out t q s :
  solid t -> q <> LHashSp -> lrun q (t ++ s) = lrun LMid s.
Proof.
  intros (H1 & H2 & H3 & H4) Hq. rewrite lrun_app.
  destruct q; rewrite ?H1, ?H2, ?H3; try reflexivity. congruence.
Qed.

Lemma lsim_not_hashsp qo qi : lsim qo qi -> qi <> LHashSp -> qo <> LHashSp.
Proof. intros [->| ->] H; [exact H|discriminate]. Qed.

Lemma lrun_mid_noLT x :
  Forall (fun c => isLineTerminator c = false) x -> lrun LMid x = Some LMid.
Proof.
  induction 1 as [|c x Hc Hx IH]; [reflexivity|].
  cbn [lrun]. unfold lstep. rewrite Hc. exact IH.
Qed.

Lemma lrun_split q a b q' :
  lrun q (a ++ b) = Some q' ->
  exists q1, lrun q a = Some q1 /\ lrun q1 b = Some q'.
Proof.
  rewrite lrun_app. destruct (lrun q a) as [q1|]; [|discriminate]. eauto.
Qed.

Ltac solid_lit := repeat split; reflexivity.

Lemma linkPattern_shape prev x rest caps :
  matches linkPattern prev x rest [] caps ->
  exists t u,
    caps = [(2, u); (1, t)]
    /\ x = js "[" ++ t ++ js "](" ++ u ++ js ")".
Proof.
  intros H.
  cbv [linkPattern cat lit js map list_ascii_of_string star plus] in H.
  inv_matches. do 2 eexists. split; [reflexivity|].
  cbn. rewrite <- ?app_assoc. reflexivity.
Qed.

Lemma linkPattern_sim prev s m :
  match_at linkPattern prev s = Some m ->
  simMatch [TLit anchorOpen; TRef 2; TLit anchorAttrs; TRef 1; TLit (js "</a>")] m.
Proof.
  intros Hm. apply match_at_sound in Hm. destruct Hm as (rest & _ & Hm).
  apply linkPattern_shape in Hm. destruct Hm as (t & u & Hc & Hx).
  intros qi qo qi' Hsim Hrun. rewrite Hx in Hrun.
  unfold expand. rewrite Hc. cbn [flat_map cap Nat.eqb].
  apply solid_in in Hrun; [|solid_lit]. destruct Hrun as [Hq Hrun].
  apply lrun_split in Hrun. destruct Hrun as (qt & Ht & Hrun).
  apply solid_in in Hrun; [|solid_lit]. destruct Hrun as [Hqt Hrun].
  apply lrun_split in Hrun. destruct Hrun as (qu & Hu & Hrun).
  rewrite <- (app_nil_r (js ")")) in Hrun.
  apply solid_in in Hrun; [|solid_lit]. destruct Hrun as [Hqu Hrun].
  inversion Hrun; subst qi'.
  exists LMid. split; [|apply lsim_refl].
  rewrite solid_out; [|solid_lit|exact (lsim_not_hashsp _ _ Hsim Hq)].
  rewrite lrun_app, Hu.
  rewrite solid_out; [|solid_lit|exact Hqu].
  rewrite lrun_app, Ht.
  rewrite solid_out; [|solid_lit|exact Hqt].
  reflexivity.
Qed.

Lemma dot_noLT x :
  Forall (fun c => dot c = true) x -> Forall (fun c => isLineTerminator c = false) x.
Proof.
  induction 1 as [|c x Hc Hx IH]; constructor; [|exact IH].
  unfold dot in Hc. destruct (isLineTerminator c); [discriminate|reflexivity].
Qed.

Lemma boldPattern_sim prev s m :
  match_at boldPattern prev s = Some m ->
  simMatch [TLit (js "<strong>"); TRef 1; TLit (js "</strong>")] m.
Proof.
  intros Hm. apply match_at_sound in Hm. destruct Hm as (rest & _ & Hm).
  assert (Hshape : exists t, mt_caps m = [(1, t)]
                             /\ mt_text m = js "**" ++ t ++ js "**").
  { cbv [boldPattern cat lit js map list_ascii_of_string star plus] in Hm.
    inv_matches. eexists. split; [reflexivity|].
    cbn. rewrite <- ?app_assoc. reflexivity. }
  destruct Hshape as (t & Hc & Hx).
  intros qi qo qi' Hsim Hrun. rewrite Hx in Hrun.
  unfold expand. rewrite Hc. cbn [flat_map cap Nat.eqb].
  apply solid_in in Hrun; [|solid_lit]. destruct Hrun as [Hq Hrun].
  apply lrun_split in Hrun. destruct Hrun as (qt & Ht & Hrun).
  rewrite <- (app_nil_r (js "**")) in Hrun.
  apply solid_in in Hrun; [|solid_lit]. destruct Hrun as [Hqt Hrun].
  inversion Hrun; subst qi'.
  exists LMid. split; [|apply lsim_refl].
  rewrite solid_out; [|solid_lit|exact (lsim_not_hashsp _ _ Hsim Hq)].
  rewrite lrun_app, Ht.
  rewrite solid_out; [|solid_lit|exact Hqt].
  reflexivity.
Qed.

Lemma italicPattern_sim prev s m :
  match_at italicPattern prev s = Some m ->
  simMatch [TLit (js "<em>"); TRef 1; TLit (js "</em>")] m.
Proof.
  intros Hm. apply match_at_sound in Hm. destruct Hm as (rest & _ & Hm).
  assert (Hshape : exists t, mt_caps m = [(1, t)]
                             /\ mt_text m = js "*" ++ t ++ js "*").
  { cbv [italicPattern cat lit js map list_ascii_of_string star plus] in Hm.
    inv_matches. eexists. split; [reflexivity|].
    cbn. rewrite <- ?app_assoc. reflexivity. }
  destruct Hshape as (t & Hc & Hx).
  intros qi qo qi' Hsim Hrun. rewrite Hx in Hrun.
  unfold expand. rewrite Hc. cbn [flat_map cap Nat.eqb].
  apply solid_in in Hrun; [|solid_lit]. destruct Hrun as [Hq Hrun].
  apply lrun_split in Hrun. destruct Hrun as (qt & Ht & Hrun).
  rewrite <- (app_nil_r (js "*")) in Hrun.
  apply solid_in in Hrun; [|solid_lit]. destruct Hrun as [Hqt Hrun].
  inversion Hrun; subst qi'.
  exists LMid. split; [|apply lsim_refl].
  rewrite solid_out; [|solid_lit|exact (lsim_not_hashsp _ _ Hsim Hq)].
  rewrite lrun_app, Ht.
  rewrite solid_out; [|solid_lit|exact Hqt].
  reflexivity.
Qed.

(** The proof shared by the line patterns: [mark] starts the line, the rest
    of the line is group 1, and the line is put between two tags. *)
Lemma line_sim (mark open close : jstr) m t :
  solid mark -> solid open -> solid close ->
  mt_caps m = [(1, t)] -> mt_text m = mark ++ t ->
  Forall (fun c => dot c = true) t ->
  simMatch [TLit open; TRef 1; TLit close] m.
Proof.
  intros Hmark Hopen Hclose Hc Hx Hdot.
  intros qi qo qi' Hsim Hrun. rewrite Hx in Hrun.
  unfold expand. rewrite Hc. cbn [flat_map cap Nat.eqb].
  apply solid_in in Hrun; [|exact Hmark]. destruct Hrun as [Hq Hrun].
  rewrite (lrun_mid_noLT t (dot_noLT _ Hdot)) in Hrun. inversion Hrun; subst qi'.
  exists LMid. split; [|apply lsim_refl].
  rewrite solid_out; [|exact Hopen|exact (lsim_not_hashsp _ _ Hsim Hq)].
  rewrite lrun_app, (lrun_mid_noLT t (dot_noLT _ Hdot)).
  rewrite solid_out; [|exact Hclose|discriminate].
  reflexivity.
Qed.

Ltac line_shape pat :=
  match goal with
  | Hm : matches _ _ _ _ _ _ |- _ =>
      cbv [pat headingPattern cat lit js map list_ascii_of_string star plus] in Hm;
      inv_matches; eexists; split; [reflexivity|];
      split; [cbn; rewrite ?app_nil_r, <- ?app_assoc; reflexivity|assumption]
  end.

Lemma h2_sim prev s m :
  match_at (headingPattern "##") prev s = Some m ->
  simMatch [TLit (js "<h2>"); TRef 1; TLit (js "</h2>")] m.
Proof.
  intros Hm. apply match_at_sound in Hm. destruct Hm as (rest & _ & Hm).
  assert (Hshape : exists t, mt_caps m = [(1, t)] /\ mt_text m = js "## " ++ t
                             /\ Forall (fun c => dot c = true) t)
    by line_shape headingPattern.
  destruct Hshape as (t & Hc & Hx & Hdot).
  apply (line_sim (js "## ") _ _ m t); auto; solid_lit.
Qed.

Lemma h3_sim prev s m :
  match_at (headingPattern "###") prev s = Some m ->
  simMatch [TLit (js "<h3>"); TRef 1; TLit (js "</h3>")] m.
Proof.
  intros Hm. apply match_at_sound in Hm. destruct Hm as (rest & _ & Hm).
  assert (Hshape : exists t, mt_caps m = [(1, t)] /\ mt_text m = js "### " ++ t
                             /\ Forall (fun c => dot c = true) t)
    by line_shape headingPattern.
  destruct Hshape as (t & Hc & Hx & Hdot).
  apply (line_sim (js "### ") _ _ m t); auto; solid_lit.
Qed.

Lemma h4_sim prev s m :
  match_at (headingPattern "####") prev s = Some m ->
  simMatch [TLit (js "<h4>"); TRef 1; TLit (js "</h4>")] m.
Proof.
  intros Hm. apply match_at_sound in Hm. destruct Hm as (rest & _ & Hm).
  assert (Hshape : exists t, mt_caps m = [(1, t)] /\ mt_text m = js "#### " ++ t
                             /\ Forall (fun c => dot c = true) t)
    by line_shape headingPattern.
  destruct Hshape as (t & Hc & Hx & Hdot).
  apply (line_sim (js "#### ") _ _ m t); auto; solid_lit.
Qed.

Lemma listItem_sim prev s m :
  match_at listItemPattern prev s = Some m ->
  simMatch [TLit (js "<li>"); TRef 1; TLit (js "</li>")] m.
Proof.
  intros Hm. apply match_at_sound in Hm. destruct Hm as (rest & _ & Hm).
  assert (Hshape : exists t, mt_caps m = [(1, t)] /\ mt_text m = js "- " ++ t
                             /\ Forall (fun c => dot c = true) t)
    by line_shape listItemPattern.
  destruct Hshape as (t & Hc & Hx & Hdot).
  apply (line_sim (js "- ") _ _ m t); auto; solid_lit.
Qed.

Lemma notSpace_noLT c : isSpace c = false -> isLineTerminator c = false.
Proof.
  intros H. unfold isLineTerminator.
  destruct (Ascii.eqb_spec c LF) as [->|_]; [discriminate H|].
  destruct (Ascii.eqb_spec c CR) as [->|_]; [discriminate H|]. reflexivity.
Qed.

Lemma urlChar_noLT x :
  Forall (fun c => urlChar c = true) x -> Forall (fun c => isLineTerminator c = false) x.
Proof.
  induction 1 as [|c x Hc Hx IH]; constructor; [|exact IH].
  apply notSpace_noLT. unfold urlChar in Hc.
  destruct (isSpace c); [discriminate|reflexivity].
Qed.

Lemma oneOf_s_noLT x :
  Forall (fun c => oneOf "s" c = true) x -> Forall (fun c => isLineTerminator c = false) x.
Proof.
  induction 1 as [|c x Hc Hx IH]; constructor; [|exact IH].
  unfold oneOf in Hc. cbn in Hc. rewrite orb_false_r in Hc.
  apply Ascii.eqb_eq in Hc. subst c. reflexivity.
Qed.

Lemma bareUrl_sim prev s m :
  match_at bareUrlPattern prev s = Some m ->
  simMatch [TRef 1; TLit anchorOpen; TRef 2; TLit anchorAttrs; TRef 2; TLit (js "</a>")] m.
Proof.
  intros Hm. apply match_at_sound in Hm. destruct Hm as (rest & _ & Hm).
  assert (Hshape : exists g1 tail,
            mt_caps m = [(2, js "http" ++ tail); (1, g1)]
            /\ mt_text m = g1 ++ js "http" ++ tail
            /\ Forall (fun c => isLineTerminator c = false) tail).
  { cbv [bareUrlPattern cat lit js map list_ascii_of_string star plus opt] in Hm.
    inv_matches.
    all: do 2 eexists; split; [cbn; rewrite ?app_nil_r, <- ?app_assoc; reflexivity|].
    all: split; [cbn; rewrite ?app_nil_r, <- ?app_assoc; reflexivity|].
    all: repeat first [ apply Forall_app; split
                      | apply oneOf_s_noLT; assumption
                      | apply urlChar_noLT; assumption
                      | constructor ]. }
  destruct Hshape as (g1 & tail & Hc & Hx & Htail).
  intros qi qo qi' Hsim Hrun. rewrite Hx in Hrun.
  unfold expand. rewrite Hc. cbn [flat_map cap Nat.eqb].
  apply lrun_split in Hrun. destruct Hrun as (q1 & Hg & Hrun).
  apply solid_in in Hrun; [|solid_lit]. destruct Hrun as [Hq1 Hrun].
  rewrite (lrun_mid_noLT tail Htail) in Hrun. inversion Hrun; subst qi'.
  destruct (lrun_sim _ _ _ _ Hsim Hg) as (q1' & Hg' & Hs1).
  exists LMid. split; [|apply lsim_refl].
  rewrite lrun_app, Hg'.
  rewrite solid_out; [|solid_lit|exact (lsim_not_hashsp _ _ Hs1 Hq1)].
  rewrite <- !app_assoc.
  rewrite solid_out; [|solid_lit|discriminate].
  rewrite lrun_app, (lrun_mid_noLT tail Htail).
  rewrite solid_out; [|solid_lit|discriminate].
  rewrite solid_out; [|solid_lit|discriminate].
  rewrite lrun_app, (lrun_mid_noLT tail Htail).
  rewrite solid_out; [|solid_lit|discriminate].
  reflexivity.
Qed.

(** ** Deleting the heading lines *)

Lemma h1Pattern_shape prev s m :
  match_at h1Pattern prev s = Some m ->
  bol prev = true
  /\ exists t rest,
       s = mt_text m ++ rest /\ mt_text m = js "# " ++ t /\ t <> []
       /\ Forall (fun c => isLineTerminator c = false) t /\ eol rest.
Proof.
  intros Hm. apply match_at_sound in Hm. destruct Hm as (rest & Hs & Hm).
  assert (Hfacts : bol prev = true
                   /\ exists t, mt_text m = js "# " ++ t /\ t <> []
                                /\ Forall (fun c => isLineTerminator c = false) t
                                /\ eol rest).
  { clear Hs. cbv [h1Pattern cat lit js map list_ascii_of_string star plus] in Hm.
    inv_matches.
    match goal with H : at_bol _ = true |- _ => cbn in H end.
    match goal with H : at_eol _ = true |- _ => cbn in H end.
    split; [destruct prev; assumption|].
    match goal with H : Forall _ ?t |- _ => exists t end.
    split.
    - cbn. rewrite ?app_nil_r. reflexivity.
    - split; [intros ->; cbn in *; lia|]. split; [apply dot_noLT; assumption|].
      destruct rest; [exact I|assumption]. }
  destruct Hfacts as (Hbol & t & Ht & Hne & Hdot & Heol).
  split; [exact Hbol|]. exists t, rest. repeat split; assumption.
Qed.

(** The longest prefix made of characters of a class. *)
Lemma span p : forall s : jstr,
  exists x rest, s = x ++ rest /\ Forall (fun c => p c = true) x
                 /\ match rest with [] => True | c :: _ => p c = false end.
Proof.
  induction s as [|c s IH].
  - exists [], []. repeat split; constructor.
  - destruct (p c) eqn:E.
    + destruct IH as (x & rest & -> & Hx & Hr).
      exists (c :: x), rest. repeat split; [constructor; assumption|exact Hr].
    + exists [], (c :: s). repeat split; [constructor|exact E].
Qed.

Lemma h1Pattern_complete prev d s :
  bol prev = true -> isLineTerminator d = false ->
  match_at h1Pattern prev ("#"%char :: " "%char :: d :: s) <> None.
Proof.
  intros Hbol Hd.
  destruct (span dot (d :: s)) as (x & rest & Hs & Hx & Hr).
  assert (Hne : 1 <= length x).
  { destruct x as [|c x]; [|cbn; lia]. cbn in Hs. subst rest.
    unfold dot in Hr. rewrite Hd in Hr. discriminate. }
  unfold match_at.
  assert (H : exists st, rx h1Pattern
                (MState prev ("#"%char :: " "%char :: d :: s) 0 []) Some = Some st).
  { rewrite Hs. unfold h1Pattern, lit. cbn [cat]. cbn [rx].
    replace (at_bol _) with true by (destruct prev; symmetry; exact Hbol).
    change ("#"%char :: " "%char :: x ++ rest) with (js "# " ++ x ++ rest).
    rewrite rx_lit_hit by discriminate.
    eexists. unfold plus. apply rx_rep_greedy; [exact Hx|exact Hr|exact Hne|].
    replace (at_eol _) with true; [reflexivity|].
    destruct rest as [|c rest]; [reflexivity|].
    unfold at_eol. cbn [m_rest].
    unfold dot in Hr. destruct (isLineTerminator c); [reflexivity|discriminate]. }
  destruct H as (st & ->). discriminate.
Qed.

Lemma h1_step q prev c s :
  h1Inv q prev (c :: s) ->
  match_at h1Pattern prev (c :: s) = None ->
  exists q', lstep q c = Some q' /\ h1Inv q' (Some c) s.
Proof.
  intros Hinv Hnone. unfold lstep.
  destruct (isLineTerminator c) eqn:Hc.
  { exists LStart. split; [reflexivity|]. left. exact Hc. }
  destruct q; cbn [h1Inv] in Hinv.
  - destruct Hinv as [Hbol|Heol]; [|cbn in Heol; congruence].
    destruct (Ascii.eqb_spec c "#") as [->|Hne].
    + exists LHash. split; [reflexivity|]. split; [reflexivity|].
      intros (d & s' & -> & Hd).
      exact (h1Pattern_complete prev d s' Hbol Hd Hnone).
    + exists LMid. split; [reflexivity|]. exact Hc.
  - destruct Hinv as [Hbol Hno].
    destruct (Ascii.eqb_spec c " ") as [->|Hne].
    + exists LHashSp. split; [reflexivity|]. split; [reflexivity|].
      destruct s as [|d s']; [exact I|]. cbn [eol].
      destruct (isLineTerminator d) eqn:Hd; [reflexivity|].
      exfalso. apply Hno. exists d, s'. split; [reflexivity|exact Hd].
    + exists LMid. split; [reflexivity|]. exact Hc.
  - destruct Hinv as [_ Heol]. cbn in Heol. congruence.
  - exists LMid. split; [reflexivity|]. exact Hc.
Qed.

Lemma stripH1_scan : forall s prev inside q,
  (inside = 0 -> h1Inv q prev s) ->
  (0 < inside ->
   q = LStart /\ inside <= length s
   /\ Forall (fun c => isLineTerminator c = false) (firstn inside s)
   /\ eol (skipn inside s)) ->
  lrun q (flat_map (render []) (scan h1Pattern prev inside s)) <> None.
Proof.
  induction s as [|c s IH]; intros prev inside q H0 Hin.
  - cbn [scan]. destruct inside; [|discriminate].
    destruct (match_at h1Pattern prev []); discriminate.
  - cbn [scan]. destruct inside as [|n].
    + specialize (H0 eq_refl).
      destruct (match_at h1Pattern prev (c :: s)) as [m|] eqn:E.
      * destruct (h1Pattern_shape _ _ _ E)
          as (Hbol & t & rest & Hs & Hx & Hne & Hdot & Heol).
        assert (Hq : q = LStart).
        { destruct q; cbn [h1Inv] in H0; [reflexivity| | |].
          - destruct H0 as [H0 _]. rewrite Hbol in H0. discriminate.
          - destruct H0 as [H0 _]. rewrite Hbol in H0. discriminate.
          - rewrite Hbol in H0. discriminate. }
        rewrite Hx in Hs. cbn [js list_ascii_of_string app] in Hs.
        inversion Hs; subst c s. clear Hs.
        rewrite Hx. cbn [js list_ascii_of_string app length].
        cbn [flat_map render expand app].
        apply IH; [discriminate|]. intros _.
        split; [exact Hq|].
        split; [cbn [length]; rewrite length_app; lia|].
        split.
        { cbn [firstn]. rewrite firstn_length_app by reflexivity.
          constructor; [reflexivity|exact Hdot]. }
        cbn [skipn]. rewrite skipn_app, skipn_all, Nat.sub_diag. exact Heol.
      * destruct (h1_step _ _ _ _ H0 E) as (q' & Hstep & Hinv).
        cbn [flat_map render app lrun]. rewrite Hstep.
        apply IH; [intros _; exact Hinv|intros H; lia].
    + destruct (Hin ltac:(lia)) as (-> & Hlen & Hall & Heol).
      cbn [firstn] in Hall. inversion Hall as [|? ? Hc Hall']; subst.
      apply IH.
      * intros ->. right. exact Heol.
      * intros Hn. repeat split; auto. cbn [length] in Hlen. lia.
Qed.

Lemma stripH1_readable s : lrun LStart (stripH1 s) <> None.
Proof.
  unfold stripH1, replaceAll. apply stripH1_scan.
  - intros _. left. reflexivity.
  - intros H. lia.
Qed.

(** ** Splitting and joining *)

Lemma startsWith_spec p : forall s,
  startsWith p s = true -> s = p ++ skipn (length p) s.
Proof.
  induction p as [|x p IH]; intros s H; [reflexivity|].
  destruct s as [|y s]; [discriminate|]. cbn [startsWith] in H.
  apply andb_prop in H. destruct H as [Hxy Hp].
  apply Ascii.eqb_eq in Hxy. subst y.
  cbn [length skipn app]. f_equal. apply IH. exact Hp.
Qed.

Lemma split_go_nonempty sep : forall s pending inside,
  split_go sep pending inside s <> [].
Proof.
  induction s as [|c s IH]; intros pending inside; cbn [split_go]; [discriminate|].
  destruct inside; [|apply IH].
  destruct (startsWith sep (c :: s)); [discriminate|apply IH].
Qed.

Lemma join_cons sep x l : l <> [] -> join sep (x :: l) = x ++ sep ++ join sep l.
Proof. destruct l; [congruence|reflexivity]. Qed.

Lemma join_split_go sep : sep <> [] -> forall s pending inside,
  inside <= length s ->
  join sep (split_go sep pending inside s) = rev pending ++ skipn inside s.
Proof.
  intros Hsep. induction s as [|c s IH]; intros pending inside Hin.
  - cbn in Hin. replace inside with 0 by lia. cbn. rewrite app_nil_r. reflexivity.
  - cbn [split_go]. destruct inside as [|n].
    + destruct (startsWith sep (c :: s)) eqn:E.
      * rewrite join_cons by apply split_go_nonempty.
        apply startsWith_spec in E.
        assert (Hlen : length sep - 1 <= length s).
        { apply (f_equal (@length _)) in E. rewrite length_app in E.
          cbn [length] in E. lia. }
        rewrite IH by exact Hlen. cbn [rev app skipn].
        f_equal. destruct sep as [|y sep]; [congruence|].
        cbn [length skipn app] in *.
        replace (S (length sep) - 1) with (length sep) in * by lia.
        injection E as Ey Es. subst y. rewrite Es at 2. reflexivity.
      * rewrite IH by lia. cbn [rev skipn]. rewrite <- app_assoc. reflexivity.
    + rewrite IH by (cbn in Hin; lia). reflexivity.
Qed.

Lemma join_split sep s : sep <> [] -> join sep (split sep s) = s.
Proof.
  intros Hsep. unfold split. rewrite join_split_go by (auto; lia). reflexivity.
Qed.

(** ** Lines and paragraphs *)

Lemma lrun_NL q : lrun q NL = Some LStart.
Proof. destruct q; reflexivity. Qed.

Lemma lrun_NLNL q : lrun q NLNL = Some LStart.
Proof. destruct q; reflexivity. Qed.

Lemma join_readable sep :
  (forall q, lrun q sep = Some LStart) ->
  forall l x q,
    lrun q x <> None -> Forall (fun y => lrun LStart y <> None) l ->
    lrun q (join sep (x :: l)) <> None.
Proof.
  intros Hsep. induction l as [|y l IH]; intros x q Hx Hl; [exact Hx|].
  rewrite join_cons by discriminate. rewrite lrun_app.
  destruct (lrun q x) as [q1|]; [|congruence].
  rewrite lrun_app, Hsep. inversion Hl; subst. apply IH; assumption.
Qed.

Lemma readable_pieces sep :
  (forall q, lrun q sep = Some LStart) ->
  forall l x q,
    lrun q (join sep (x :: l)) <> None ->
    lrun q x <> None /\ Forall (fun y => lrun LStart y <> None) l.
Proof.
  intros Hsep. induction l as [|y l IH]; intros x q H; [split; [exact H|constructor]|].
  rewrite join_cons in H by discriminate. rewrite lrun_app in H.
  destruct (lrun q x) as [q1|]; [|congruence].
  rewrite lrun_app, Hsep in H. apply IH in H. destruct H as [Hy Hl].
  split; [discriminate|constructor; assumption].
Qed.

Lemma split_readable sep s :
  sep <> [] -> (forall q, lrun q sep = Some LStart) ->
  lrun LStart s <> None ->
  Forall (fun y => lrun LStart y <> None) (split sep s).
Proof.
  intros Hne Hsep Hs. rewrite <- (join_split sep s Hne) in Hs.
  destruct (split sep s) as [|x l]; [constructor|].
  apply (readable_pieces sep Hsep) in Hs. destruct Hs as [Hx Hl].
  constructor; assumption.
Qed.

Lemma joined_readable sep l :
  (forall q, lrun q sep = Some LStart) ->
  Forall (fun y => lrun LStart y <> None) l ->
  lrun LStart (join sep l) <> None.
Proof.
  intros Hsep Hl. destruct l as [|x l]; [discriminate|].
  inversion Hl; subst. apply join_readable; assumption.
Qed.

Lemma groupLists_readable : forall lines inList,
  Forall (fun y => lrun LStart y <> None) lines ->
  Forall (fun y => lrun LStart y <> None) (groupLists inList lines).
Proof.
  induction lines as [|line rest IH]; intros inList H; cbn [groupLists].
  - destruct inList; repeat constructor. discriminate.
  - inversion H; subst.
    destruct (includes line (js "<li>")), inList; cbn [app];
      repeat (constructor; try discriminate); auto.
Qed.

Lemma convertLists_readable s :
  lrun LStart s <> None -> lrun LStart (convertLists s) <> None.
Proof.
  intros H. unfold convertLists.
  apply joined_readable; [exact lrun_NL|].
  apply groupLists_readable.
  apply split_readable; [discriminate|exact lrun_NL|].
  apply replaceAll_readable; [exact listItem_sim|exact H].
Qed.

Lemma trimStart_suffix : forall s, exists a, s = a ++ trimStart s.
Proof.
  induction s as [|c s [a IH]]; [exists []; reflexivity|].
  cbn [trimStart]. destruct (isSpace c).
  - exists (c :: a). cbn [app]. f_equal. exact IH.
  - exists []. reflexivity.
Qed.

Lemma trimStart_head s c r : trimStart s = c :: r -> isSpace c = false.
Proof.
  induction s as [|d s IH]; cbn [trimStart]; [discriminate|].
  destruct (isSpace d) eqn:E; [exact IH|].
  intros H. inversion H; subst. exact E.
Qed.

Lemma trimEnd_prefix s : exists b, s = trimEnd s ++ b.
Proof.
  unfold trimEnd. destruct (trimStart_suffix (rev s)) as [a Ha].
  exists (rev a). rewrite <- rev_app_distr, <- Ha, rev_involutive. reflexivity.
Qed.

Lemma trimEnd_last s x c : trimEnd s = x ++ [c] -> isSpace c = false.
Proof.
  unfold trimEnd. intros H. apply (f_equal (@rev _)) in H.
  rewrite rev_involutive, rev_app_distr in H. cbn [rev app] in H.
  exact (trimStart_head _ _ _ H).
Qed.

Lemma lrun_last_hashsp q x c :
  lrun q (x ++ [c]) = Some LHashSp -> c = " "%char.
Proof.
  rewrite lrun_app. destruct (lrun q x) as [q1|]; [|discriminate].
  cbn [lrun]. unfold lstep. destruct (isLineTerminator c); [discriminate|].
  destruct q1; try discriminate.
  - destruct (Ascii.eqb c "#"); discriminate.
  - destruct (Ascii.eqb_spec c " ") as [->|_]; [reflexivity|discriminate].
Qed.

Lemma paragraph_readable p :
  nonBlank p = true -> lrun LStart p <> None -> lrun LStart (paragraph p) <> None.
Proof.
  intros Hnb Hp. unfold paragraph. destruct (isHtmlBlock p); [exact Hp|].
  unfold nonBlank in Hnb.
  destruct (trimStart_suffix p) as [a Ha].
  destruct (trimEnd_prefix (trimStart p)) as [b Hb]. fold (trim p) in Hb.
  rewrite Ha, Hb in Hp.
  destruct (lrun LStart (a ++ trim p ++ b)) as [qe|] eqn:E; [|congruence].
  apply lrun_split in E. destruct E as (q1 & _ & E).
  apply lrun_split in E. destruct E as (q2 & E & _).
  destruct (lrun_sim _ _ _ _ (lsim_mid q1) E) as (q3 & E3 & _).
  assert (Hq3 : q3 <> LHashSp).
  { intros ->. destruct (trim p) as [|c r] eqn:Et; [discriminate|].
    destruct (exists_last (l := c :: r)) as (x & d & Hx); [discriminate|].
    rewrite Hx in E3. apply lrun_last_hashsp in E3. subst d.
    unfold trim in Et. rewrite Hx in Et. apply trimEnd_last in Et. discriminate. }
  rewrite solid_out by (first [discriminate | repeat split; reflexivity]).
  rewrite lrun_app, E3.
  rewrite <- (app_nil_r (js "</p>")).
  rewrite solid_out by (first [exact Hq3 | repeat split; reflexivity]).
  discriminate.
Qed.

Lemma toParagraphs_readable s :
  lrun LStart s <> None -> lrun LStart (toParagraphs s) <> None.
Proof.
  intros H. unfold toParagraphs.
  apply joined_readable; [exact lrun_NLNL|].
  pose proof (split_readable NLNL s ltac:(discriminate) lrun_NLNL H) as Hl.
  induction Hl as [|p l Hp Hl IH]; [constructor|].
  cbn [List.filter]. destruct (nonBlank p) eqn:E; [|exact IH].
  cbn [map]. constructor; [|exact IH]. apply paragraph_readable; assumption.
Qed.

Lemma markdownToHtml_readable md : lrun LStart (markdownToHtml md) <> None.
Proof.
  unfold markdownToHtml.
  apply toParagraphs_readable.
  unfold convertEmphasis.
  apply replaceAll_readable; [exact italicPattern_sim|].
  apply replaceAll_readable; [exact boldPattern_sim|].
  unfold convertLinks.
  apply replaceAll_readable; [exact bareUrl_sim|].
  apply replaceAll_readable; [exact linkPattern_sim|].
  apply convertLists_readable.
  unfold convertHeadings.
  apply replaceAll_readable; [exact h4_sim|].
  apply replaceAll_readable; [exact h3_sim|].
  apply replaceAll_readable; [exact h2_sim|].
  apply stripH1_readable.
Qed.

(** ** The HTML that is sent *)

(** What the two removals do achieve.  No line of the HTML is a hash sign
    and a space followed by a further character: a line that begins with
    a hash sign and a space ends there.  When every exclamation mark of the
    markdown text belongs to an image reference, the references being read
    from left to right, the HTML has no exclamation mark at all, hence no
    image reference. *)
Lemma markdownToHtml_removals (md : jstr) :
  noTitledH1 (markdownToHtml md)
  /\ (imagesOnly md ->
      ~ In BANG (markdownToHtml md)
      /\ hasImageSyntax (markdownToHtml md) = false).
Proof.
  split.
  - apply lrun_noTitledH1, markdownToHtml_readable.
  - intros Hmd.
    assert (Hbang : ~ In BANG (markdownToHtml md)).
    { apply markdownToHtml_noBang. unfold stripImages, replaceAll.
      apply stripImages_imagesOnly. exact Hmd. }
    split; [exact Hbang|].
    destruct (hasImageSyntax (markdownToHtml md)) eqn:E; [|reflexivity].
    destruct (Hbang (hasImageSyntax_bang _ E)).
Qed.

(** C7. The conversion is meant to remove all image references and the
    heading line of the title, and does not.  The image references are
    deleted in one pass from left to right, so the reference that the
    deletion of an inner one puts together is sent as it is:
    [![]![b](c)(d)] gives a paragraph with the image reference [![](d)].
    The heading line is deleted only when a character follows the hash
    sign and the space, and the images are deleted first: the heading
    [# ![a](b)] is sent as the line made of a hash sign and a space. *)
Theorem markdownToHtml_image_and_h1_remain :
  markdownToHtml nestedImage = js "<p>![](d)</p>"
  /\ hasImageSyntax (markdownToHtml nestedImage) = true
  /\ scan imagePattern None 0 (markdownToHtml nestedImage)
     = map SChr (js "<p>")
       ++ [SMatch (RMatch (imageReference [] (js "d")) [(2, js "d"); (1, [])])]
       ++ map SChr (js "</p>")
  /\ markdownToHtml imageHeading
     = js "<p>intro" ++ [LF] ++ js "# " ++ [LF] ++ js "more</p>"
  /\ hasH1Line (markdownToHtml imageHeading) = true
  /\ In (js "# ") (split NL (markdownToHtml imageHeading)).
Proof. vm_compute. repeat split; try reflexivity. right. left. reflexivity. Qed.

(** ** The publish handler as a whole *)

(** The two ways the handler ends once the create-post loop is over. *)
Lemma conclude_cases w st blog body tagIds res trace :
  (exists link postId,
     conclude w st blog body tagIds res trace
     = respond 200
         (JPublished link (w_now w 1) (q_categoryId body)
                     tagIds (q_metaDescription body))
         (snd (updateBlog st (b_id blog) (publishedUpdate w body tagIds link postId)))
         (trace ++ [EvScheduleSourceBackup]))
  \/ (exists details,
        conclude w st blog body tagIds res trace
        = respond 500 (publishFailed details) st trace).
Proof.
  unfold conclude, thrown.
  destruct (lr_publishSuccess res), (lr_response res) as [r|];
    try (right; eexists; reflexivity).
  destruct (okStatus (ro_status r)); [|right; eexists; reflexivity].
  destruct (readBody r) as [[publishedPost|]|]; try (right; eexists; reflexivity).
  destruct (keysOf publishedPost) as [post|]; [|right; eexists; reflexivity].
  destruct (j_id post) as [postId|]; [|right; eexists; reflexivity].
  left. exists (j_link post), postId. destruct (updateBlog _ _ _) as [u st']. reflexivity.
Qed.

(** All three probes failed. *)
Lemma authLoop_fails w a :
  fst (authLoop w a 3 1) = false
  <-> forall k, 1 <= k <= 3 -> probeOk (w_authProbe w k) = false.
Proof.
  rewrite authLoop_step.
  destruct (probeOk (w_authProbe w 1)) eqn:E1.
  { cbn. split; [discriminate|]. intros H. rewrite <- E1. apply H. lia. }
  cbv zeta. rewrite authLoop_step.
  destruct (probeOk (w_authProbe w 2)) eqn:E2.
  { cbn. split; [discriminate|]. intros H. rewrite <- E2. apply H. lia. }
  cbv zeta. rewrite authLoop_step.
  destruct (probeOk (w_authProbe w 3)) eqn:E3.
  { cbn. split; [discriminate|]. intros H. rewrite <- E3. apply H. lia. }
  cbn. split; [|reflexivity]. intros _ k Hk.
  assert (k = 1 \/ k = 2 \/ k = 3) as [-> | [-> | ->]] by lia; assumption.
Qed.


Lemma publish_end w st id body : PublishEnd w st id body (publish w st id body).
Proof.
  unfold publish.
  destruct (getBlog st id) as [blog|] eqn:Hblog; [|apply PE_missing; exact Hblog].
  destruct (complete (resolveCredentials body st)) eqn:Hc; cbn [negb];
    [|apply (PE_incomplete _ _ _ _ blog); assumption].
  destruct (authLoop w (authOf (resolveCredentials body st)) 3 1)
    as [authSuccess authTrace] eqn:Ha.
  replace authTrace
    with (snd (authLoop w (authOf (resolveCredentials body st)) 3 1))
    by (rewrite Ha; reflexivity).
  assert (Hs : fst (authLoop w (authOf (resolveCredentials body st)) 3 1) = authSuccess)
    by (rewrite Ha; reflexivity).
  destruct authSuccess; cbn [negb];
    [|apply (PE_refused _ _ _ _ blog); assumption].
  destruct (prepare w blog body) as [failure trace|p] eqn:Hp.
  - apply (PE_threw _ _ _ _ blog); assumption.
  - destruct (conclude_cases w st blog body (p_tagIds p)
               (createPostLoop w (p_wordpressData p) MAX_ATTEMPTS 1 None)
               (snd (authLoop w (authOf (resolveCredentials body st)) 3 1)
                ++ p_trace p
                ++ lr_trace (createPostLoop w (p_wordpressData p) MAX_ATTEMPTS 1 None)))
      as [(link & postId & ->)|(details & ->)].
    + apply (PE_published _ _ _ _ blog p); assumption.
    + apply (PE_failed _ _ _ _ blog p); assumption.
Qed.

Lemma authLoop_succeeds w a :
  fst (authLoop w a 3 1) = true
  <-> exists k, 1 <= k <= 3 /\ probeOk (w_authProbe w k) = true.
Proof.
  split.
  - intros H.
    destruct (probeOk (w_authProbe w 1)) eqn:E1; [exists 1; split; [lia|exact E1]|].
    destruct (probeOk (w_authProbe w 2)) eqn:E2; [exists 2; split; [lia|exact E2]|].
    destruct (probeOk (w_authProbe w 3)) eqn:E3; [exists 3; split; [lia|exact E3]|].
    assert (Hf : fst (authLoop w a 3 1) = false).
    { apply authLoop_fails. intros k Hk.
      assert (k = 1 \/ k = 2 \/ k = 3) as [-> | [-> | ->]] by lia; assumption. }
    congruence.
  - intros (k & Hk & Hok).
    destruct (fst (authLoop w a 3 1)) eqn:E; [reflexivity|].
    rewrite (proj1 (authLoop_fails w a) E k Hk) in Hok. discriminate.
Qed.

(** The status of the answer tells how far the handler went: 404 exactly
    when the blog is not stored, 400 exactly when the credentials that were
    resolved are incomplete, 401 exactly when all three probes failed, and
    200 or 500 exactly when a probe succeeded; no other status is answered,
    and before the first probe nothing outside the process is called. *)
Theorem publish_status_cases (w : World) (st : Storage) (id : jstr) (body : PublishBody) :
  let o := publish w st id body in
  let status := r_status (o_response o) in
  (status = 404%Z <-> getBlog st id = None)
  /\ (status = 400%Z
      <-> getBlog st id <> None /\ complete (resolveCredentials body st) = false)
  /\ (status = 401%Z
      <-> getBlog st id <> None /\ complete (resolveCredentials body st) = true
          /\ forall k, 1 <= k <= 3 -> probeOk (w_authProbe w k) = false)
  /\ (status = 200%Z \/ status = 500%Z
      <-> getBlog st id <> None /\ complete (resolveCredentials body st) = true
          /\ exists k, 1 <= k <= 3 /\ probeOk (w_authProbe w k) = true)
  /\ (status = 404%Z \/ status = 400%Z -> o_trace o = []).
Proof.
  cbv zeta.
  pose proof (authLoop_fails w (authOf (resolveCredentials body st))) as Hfail.
  pose proof (authLoop_succeeds w (authOf (resolveCredentials body st))) as Hsucc.
  assert (Hboth : forall k, 1 <= k <= 3 ->
            probeOk (w_authProbe w k) = true ->
            (forall j, 1 <= j <= 3 -> probeOk (w_authProbe w j) = false) -> False).
  { intros k Hk Hok Hall. rewrite (Hall k Hk) in Hok. discriminate. }
  destruct (publish_end w st id body)
    as [Hb|blog Hb Hc|blog Hb Hc Ha|blog failure trace Hb Hc Ha Hp
       |blog p details Hb Hc Ha Hp|blog p link postId Hb Hc Ha Hp];
    cbn [respond o_response o_trace r_status];
    repeat split; intros;
    repeat match goal with
           | H : _ /\ _ |- _ => destruct H
           | H : _ \/ _ |- _ => destruct H
           | H : exists _, _ |- _ => destruct H
           end;
    first
      [ discriminate | congruence | solve [eauto]
      | apply (proj1 Hsucc); assumption
      | apply (proj1 Hfail); [assumption|lia]
      | exfalso; eapply Hboth;
        [|eassumption|apply (proj1 Hfail); assumption]; lia
      | exfalso; destruct (proj1 Hsucc Ha) as (k' & Hk' & Hok');
        apply (Hboth k'); [lia|exact Hok'|assumption] ].
Qed.


Lemma quiet_app a b : quiet a -> quiet b -> quiet (a ++ b).
Proof. unfold quiet. rewrite in_app_iff. tauto. Qed.

Lemma quiet_cons e a : e <> EvScheduleSourceBackup -> quiet a -> quiet (e :: a).
Proof. unfold quiet. intros He Ha [H|H]; [exact (He H)|exact (Ha H)]. Qed.

Lemma quiet_nil : quiet [].
Proof. intros []. Qed.

Ltac quiet_solve :=
  repeat first [ apply quiet_nil | assumption
               | apply quiet_cons; [discriminate|] | apply quiet_app ].

Lemma authLoop_quiet w a : forall remaining authAttempt,
  quiet (snd (authLoop w a remaining authAttempt)).
Proof.
  induction remaining as [|remaining IH]; intros authAttempt; [apply quiet_nil|].
  rewrite authLoop_step. destruct (probeOk _); [cbn; quiet_solve|].
  specialize (IH (S authAttempt)).
  destruct (authLoop w a remaining (S authAttempt)) as [b evs]. cbn [snd] in *.
  destruct (authAttempt <? 3); quiet_solve.
Qed.

Lemma processTags_quiet w : forall names i, quiet (snd (processTags w i names)).
Proof.
  induction names as [|tagName rest IH]; intros i; [apply quiet_nil|].
  cbn [processTags]. specialize (IH (S i)).
  destruct (processTags w (S i) rest) as [ids evs]. cbn [snd] in IH.
  destruct (searchTag w i tagName); cbn [snd]; try solve [quiet_solve].
  destruct (createTag w i tagName); cbn [snd]; quiet_solve.
Qed.

Lemma uploadFeaturedImage_quiet w fm : quiet (snd (uploadFeaturedImage w fm)).
Proof.
  unfold uploadFeaturedImage. destruct fm as [m|]; [|apply quiet_nil].
  destruct (truthy _); [|apply quiet_nil].
  destruct (w_imageDownload w _) as [msg|status [len|]];
    cbn [snd]; try solve [quiet_solve].
  destruct (okStatus status); cbn [snd]; try solve [quiet_solve].
  destruct ((0 <? len)%Z && (len <? 10000000)%Z); cbn [snd]; try solve [quiet_solve].
  destruct (w_mediaUpload w) as [msg|status' [mediaData|]];
    cbn [snd]; try solve [quiet_solve];
    destruct (okStatus status'); cbn [snd]; try solve [quiet_solve].
  destruct (keysOf mediaData); cbn [snd]; quiet_solve.
Qed.

Lemma validateTags_quiet w tagIds : quiet (snd (validateTags w tagIds)).
Proof.
  unfold validateTags. destruct tagIds as [|t ts]; [apply quiet_nil|].
  destruct (w_tags w) as [msg|status [[|entries|s|o]|]]; cbn [snd];
    try solve [quiet_solve];
    destruct (okStatus status); cbn [snd]; try solve [quiet_solve].
  destruct (entriesOf entries); cbn [snd]; quiet_solve.
Qed.

Lemma prepare_quiet w blog body :
  quiet match prepare w blog body with
        | PrepThrew _ trace => trace
        | PrepDone p => p_trace p
        end.
Proof.
  rewrite prepare_eq. cbv zeta.
  pose proof (processTags_quiet w (generateTags w blog) 0) as H1.
  pose proof (uploadFeaturedImage_quiet w (matchFirst imagePattern (b_content blog))) as H2.
  pose proof (validateTags_quiet w (fst (processTags w 0 (generateTags w blog)))) as H3.
  destruct (resolveCategories _ _ _) as [failure|validCategoryIds];
    cbn [p_trace]; quiet_solve.
Qed.

Lemma createPostLoop_quiet w data : forall remaining attempt response,
  quiet (lr_trace (createPostLoop w data remaining attempt response)).
Proof.
  induction remaining as [|remaining IH]; intros attempt response; [apply quiet_nil|].
  cbn [createPostLoop].
  destruct (w_createPost w attempt) as [msg|status b].
  - cbn [lr_trace]. destruct (attempt <? MAX_ATTEMPTS); quiet_solve; apply IH.
  - destruct (okStatus status); [cbn [lr_trace]; quiet_solve|].
    destruct ((status =? 401) || (status =? 403))%Z; cbn [lr_trace]; [quiet_solve|].
    destruct (attempt <? MAX_ATTEMPTS); quiet_solve; apply IH.
Qed.

(** A run that does not answer 200 leaves the storage as it was and
    schedules no backup. *)
Theorem publish_failure_keeps_storage (w : World) (st : Storage) (id : jstr)
  (body : PublishBody) :
  r_status (o_response (publish w st id body)) <> 200%Z ->
  o_storage (publish w st id body) = st
  /\ ~ In EvScheduleSourceBackup (o_trace (publish w st id body)).
Proof.
  intros Hstatus.
  destruct (publish_end w st id body)
    as [Hb|blog Hb Hc|blog Hb Hc Ha|blog failure trace Hb Hc Ha Hp
       |blog p details Hb Hc Ha Hp|blog p link postId Hb Hc Ha Hp];
    cbn [respond o_response o_trace o_storage r_status] in *;
    try (split; [reflexivity|]); try congruence.
  - intros [].
  - intros [].
  - apply authLoop_quiet.
  - pose proof (prepare_quiet w blog body) as Hq. rewrite Hp in Hq.
    apply quiet_app; [apply authLoop_quiet|exact Hq].
  - pose proof (prepare_quiet w blog body) as Hq. rewrite Hp in Hq.
    repeat apply quiet_app;
      [apply authLoop_quiet|exact Hq|apply createPostLoop_quiet].
Qed.

(** ** What a run does to the storage *)

Lemma updateBlog_keyed st id u : keyedById st -> keyedById (snd (updateBlog st id u)).
Proof.
  intros Hk. unfold updateBlog. destruct (blogs st !! id) as [b|] eqn:E; [|exact Hk].
  cbn [snd]. intros id' b'. unfold getBlog. cbn [blogs].
  destruct (decide (id = id')) as [<-|Hne].
  - rewrite lookup_insert_eq. intros H. inversion H; subst. cbn [spread b_id].
    apply Hk. exact E.
  - rewrite lookup_insert_ne by exact Hne. apply Hk.
Qed.

Lemma updateBlog_other st id u id' :
  id' <> id -> getBlog (snd (updateBlog st id u)) id' = getBlog st id'.
Proof.
  intros Hne. unfold updateBlog. destruct (blogs st !! id) as [b|] eqn:E; [|reflexivity].
  cbn [snd]. unfold getBlog. cbn [blogs]. apply lookup_insert_ne. congruence.
Qed.

Lemma updateBlog_credentials st id u :
  wordpressCredentials (snd (updateBlog st id u)) = wordpressCredentials st.
Proof.
  unfold updateBlog. destruct (blogs st !! id); reflexivity.
Qed.

Lemma updateBlog_same st id u b :
  getBlog st id = Some b ->
  getBlog (snd (updateBlog st id u)) id = Some (spread b u).
Proof.
  unfold getBlog, updateBlog. intros ->. cbn [snd blogs]. apply lookup_insert_eq.
Qed.

(** Publishing touches one blog only, and of that blog neither the id, the
    keyword, the title, the content nor the images, nor any other column
    but the status and the six columns about the publication: in a storage
    where every blog is kept under its own id, every other blog and the
    stored credentials are after the run what they were before, and the
    storage still keeps every blog under its own id. *)
Theorem publish_touches_one_blog (w : World) (st : Storage) (id : jstr)
  (body : PublishBody) :
  keyedById st ->
  let st' := o_storage (publish w st id body) in
  keyedById st'
  /\ wordpressCredentials st' = wordpressCredentials st
  /\ (forall id', id' <> id -> getBlog st' id' = getBlog st id')
  /\ (forall blog, getBlog st id = Some blog ->
        exists blog', getBlog st' id = Some blog'
          /\ b_id blog' = b_id blog /\ b_keyword blog' = b_keyword blog
          /\ b_title blog' = b_title blog /\ b_content blog' = b_content blog
          /\ b_images blog' = b_images blog
          /\ b_imageUrl blog' = b_imageUrl blog
          /\ b_imageDescription blog' = b_imageDescription blog
          /\ b_generatedTopics blog' = b_generatedTopics blog
          /\ b_wordCount blog' = b_wordCount blog
          /\ b_githubFilePath blog' = b_githubFilePath blog
          /\ b_githubCommitSha blog' = b_githubCommitSha blog
          /\ b_backedUpToGithub blog' = b_backedUpToGithub blog
          /\ b_createdAt blog' = b_createdAt blog).
Proof.
  intros Hk. cbv zeta.
  destruct (publish_end w st id body)
    as [Hb|blog Hb Hc|blog Hb Hc Ha|blog failure trace Hb Hc Ha Hp
       |blog p details Hb Hc Ha Hp|blog p link postId Hb Hc Ha Hp];
    cbn [respond o_storage];
    try (split; [exact Hk|]; split; [reflexivity|]; split; [reflexivity|];
         intros b Hb'; exists b; repeat split; exact Hb').
  assert (Hid : b_id blog = id) by (apply Hk; exact Hb). rewrite Hid.
  split; [apply updateBlog_keyed; exact Hk|].
  split; [apply updateBlog_credentials|].
  split; [intros id' Hne; apply updateBlog_other; exact Hne|].
  intros b Hb'. rewrite Hb in Hb'. inversion Hb'; subst b.
  eexists. split; [apply updateBlog_same; exact Hb|]. repeat split.
Qed.

Lemma publish_touches_one_blog_witness :
  keyedById (sampleStorage twoImages None)
  /\ getBlog (o_storage (publish happyWorld (sampleStorage twoImages None)
                                 (js "b1") emptyBody)) (js "b2")
     = getBlog (sampleStorage twoImages None) (js "b2").
Proof.
  assert (Hk : keyedById (sampleStorage twoImages None)).
  { intros id b. unfold getBlog, sampleStorage. cbn [blogs].
    intros H. apply lookup_insert_Some in H.
    destruct H as [[<- <-]|[_ H]]; [reflexivity|].
    rewrite lookup_empty in H. discriminate. }
  split; [exact Hk|].
  apply (publish_touches_one_blog happyWorld _ (js "b1") emptyBody Hk).
  discriminate.
Defined.

Lemma publish_failure_keeps_storage_witness :
  r_status (o_response (publish (sampleWorld (fun _ => Rejected (js "fetch failed"))
                                             (fun _ => postCreated))
                                (sampleStorage twoImages None) (js "b1") emptyBody))
  <> 200%Z
  /\ o_storage (publish (sampleWorld (fun _ => Rejected (js "fetch failed"))
                                     (fun _ => postCreated))
                        (sampleStorage twoImages None) (js "b1") emptyBody)
     = sampleStorage twoImages None.
Proof.
  assert (H : r_status (o_response
                (publish (sampleWorld (fun _ => Rejected (js "fetch failed"))
                                      (fun _ => postCreated))
                         (sampleStorage twoImages None) (js "b1") emptyBody))
              <> 200%Z) by (vm_compute; discriminate).
  split; [exact H|].
  exact (proj1 (publish_failure_keeps_storage _ _ _ _ H)).
Defined.

(** ** What is sent to the site *)

Lemma filter_sublist {A} (f : A -> bool) (l : list A) : sublist (List.filter f l) l.
Proof.
  induction l as [|x l IH]; [constructor|].
  cbn [List.filter]. destruct (f x); constructor; exact IH.
Qed.

Lemma processTags_length w : forall names i,
  length (fst (processTags w i names)) <= length names.
Proof.
  induction names as [|tagName rest IH]; intros i; [reflexivity|].
  cbn [processTags]. specialize (IH (S i)).
  destruct (processTags w (S i) rest) as [ids evs]. cbn [fst] in IH.
  destruct (searchTag w i tagName); cbn [fst length]; try lia.
  destruct (createTag w i tagName); cbn [fst length]; lia.
Qed.

(** Where an id of the search-or-create loop comes from. *)
Lemma processTags_origin w : forall names i id,
  In id (fst (processTags w i names)) ->
  exists j tagName,
    nth_error names j = Some tagName
    /\ (searchTag w (i + j) tagName = TagFound id
        \/ (searchTag w (i + j) tagName = TagMissing
            /\ createTag w (i + j) tagName = Some id)).
Proof.
  induction names as [|tagName rest IH]; intros i id; [intros []|].
  cbn [processTags]. specialize (IH (S i) id).
  destruct (processTags w (S i) rest) as [ids evs]. cbn [fst] in IH.
  assert (Hrest : In id ids ->
            exists j name, nth_error (tagName :: rest) j = Some name
              /\ (searchTag w (i + j) name = TagFound id
                  \/ (searchTag w (i + j) name = TagMissing
                      /\ createTag w (i + j) name = Some id))).
  { intros Hin. destruct (IH Hin) as (j & name & Hn & Hj).
    exists (S j), name. split; [exact Hn|].
    replace (i + S j) with (S i + j) by lia. exact Hj. }
  destruct (searchTag w i tagName) as [|found|] eqn:Es; cbn [fst].
  - exact Hrest.
  - intros [<-|Hin]; [|exact (Hrest Hin)].
    exists 0, tagName. rewrite Nat.add_0_r. split; [reflexivity|]. left. exact Es.
  - destruct (createTag w i tagName) as [created|] eqn:Ec; cbn [fst];
      [|exact Hrest].
    intros [<-|Hin]; [|exact (Hrest Hin)].
    exists 0, tagName. rewrite Nat.add_0_r. split; [reflexivity|]. right.
    split; [exact Es|exact Ec].
Qed.

Lemma validateTags_sublist w tagIds : sublist (fst (validateTags w tagIds)) tagIds.
Proof.
  unfold validateTags. destruct tagIds as [|t ts]; [constructor|].
  destruct (w_tags w) as [msg|status [[|entries|s|o]|]]; [reflexivity|..];
    destruct (okStatus status); cbn [fst];
    try first [reflexivity | apply sublist_nil_l].
  destruct (entriesOf entries); cbn [fst]; [apply filter_sublist|reflexivity].
Qed.

(** The list of the categories as the handler holds it when the request
    for it did not give a 2xx answer that is JSON: the empty array. *)
Lemma fetchCategories_failed w :
  (forall status body, w_categories w = Resp status body ->
                       okStatus status = false \/ body = None) ->
  fetchCategories w = JArray [].
Proof.
  intros H. unfold fetchCategories.
  destruct (w_categories w) as [msg|status body]; [reflexivity|].
  destruct (H status body eq_refl) as [-> | ->]; [reflexivity|].
  destruct (okStatus status); reflexivity.
Qed.

Lemma resolveCategories_empty blog ids : resolveCategories blog (JArray []) ids = inr [].
Proof.
  cbn [resolveCategories entriesOf]. cbv zeta.
  assert (Hv : validateCategories (map j_id []) ids = []).
  { unfold validateCategories. induction ids as [|c cs IH]; [reflexivity|exact IH]. }
  rewrite Hv. reflexivity.
Qed.

(** The ids of the create-post request, when the preparation goes through.
    Every category sent is the id of a category of the array that the site
    answered in this run, and none is sent when the list could not be
    fetched. The tags sent are what the validation step keeps of the ids
    of the search-or-create loop: ids of the loop, in the same order; the
    loop gives at most one id for each tag name, each of them the id of
    the first tag that the search for a name answered, or the id of the
    answer to the creation of a name that the search did not find; and
    when the site answered the tag list, every tag sent is on that list. *)
Theorem prepare_sends_known_ids (w : World) (blog : Blog) (body : PublishBody)
  (p : Prepared) :
  prepare w blog body = PrepDone p ->
  let names := generateTags w blog in
  let tagIds := fst (processTags w 0 names) in
  (forall c, In c (wp_categories (p_wordpressData p)) ->
     exists entries categories,
       fetchCategories w = JArray entries
       /\ entriesOf entries = Some categories
       /\ In c (map j_id categories))
  /\ ((forall status answer, w_categories w = Resp status answer ->
                             okStatus status = false \/ answer = None) ->
      wp_categories (p_wordpressData p) = [])
  /\ wp_tags (p_wordpressData p) = fst (validateTags w tagIds)
  /\ sublist (wp_tags (p_wordpressData p)) tagIds
  /\ length tagIds <= length names
  /\ (forall id, In id tagIds ->
        exists j tagName,
          nth_error names j = Some tagName
          /\ (searchTag w j tagName = TagFound id
              \/ (searchTag w j tagName = TagMissing
                  /\ createTag w j tagName = Some id)))
  /\ (forall status entries availableTags,
        w_tags w = Resp status (Some (JArray entries)) -> okStatus status = true ->
        entriesOf entries = Some availableTags ->
        forall t, In t (wp_tags (p_wordpressData p)) -> In t (map j_id availableTags)).
Proof.
  intros Hp. cbv zeta.
  destruct (prepare_done w blog body p Hp)
    as (validCategoryIds & Hr & _ & Hcats & Htags & _).
  rewrite Hcats, Htags.
  split.
  { intros c Hc.
    destruct (resolveCategories_array _ _ _ _ Hr) as (entries & categories & He & Hcs).
    exists entries, categories. split; [exact He|]. split; [exact Hcs|].
    rewrite He in Hr.
    destruct (resolveCategories_live _ _ _ _ c Hr Hc) as (categories' & Hcs' & Hin).
    rewrite Hcs in Hcs'. inversion Hcs'; subst categories'. exact Hin. }
  split.
  { intros Hfailed.
    rewrite (fetchCategories_failed w Hfailed), resolveCategories_empty in Hr.
    congruence. }
  split; [reflexivity|].
  split; [apply validateTags_sublist|].
  split; [apply processTags_length|].
  split; [intros id Hid; apply (processTags_origin w _ 0 id Hid)|].
  intros status entries availableTags Hw Hok He t.
  rewrite (validateTags_read w _ status entries availableTags Hw Hok He).
  intros Ht. apply List.filter_In in Ht. destruct Ht as [_ Ht].
  apply includesId_In in Ht. exact Ht.
Qed.

Lemma prepare_sends_known_ids_witness :
  exists p, prepare happyWorld twoImages emptyBody = PrepDone p
    /\ wp_tags (p_wordpressData p)
       = fst (validateTags happyWorld
                (fst (processTags happyWorld 0 (generateTags happyWorld twoImages)))).
Proof.
  eexists. split; [vm_compute; reflexivity|].
  apply (prepare_sends_known_ids happyWorld twoImages emptyBody).
  vm_compute. reflexivity.
Defined.








(** ** Patterns made of one character class *)

Lemma match_at_Chr p prev s :
  match_at (Chr p) prev s
  = match s with
    | c :: _ => if p c then Some (RMatch [c] []) else None
    | [] => None
    end.
Proof.
  unfold match_at. cbn [rx m_rest]. destruct s as [|c s]; [reflexivity|].
  destruct (p c); reflexivity.
Qed.

(** Deleting the characters of a class leaves none of them. *)
Lemma replaceAll_Chr_chars p c : forall s prev,
  In c (flat_map (render []) (scan (Chr p) prev 0 s)) -> In c s /\ p c = false.
Proof.
  induction s as [|d s IH]; intros prev; cbn [scan].
  - rewrite match_at_Chr. intros [].
  - rewrite match_at_Chr. destruct (p d) eqn:E; cbn [mt_text length flat_map render].
    + cbn [expand flat_map app]. intros H. apply IH in H.
      destruct H as [H1 H2]. split; [right; exact H1|exact H2].
    + cbn [app]. intros [<-|H]; [split; [left; reflexivity|exact E]|].
      apply IH in H. destruct H as [H1 H2]. split; [right; exact H1|exact H2].
Qed.

Lemma match_at_plus_miss p prev s :
  match s with [] => True | c :: _ => p c = false end ->
  match_at (plus p) prev s = None.
Proof.
  intros H. unfold match_at, plus. cbn [rx m_rest].
  destruct s as [|c s]; [reflexivity|]. cbn [run]. rewrite H. reflexivity.
Qed.

Lemma match_at_plus_hit p prev x rest :
  x <> [] -> Forall (fun c => p c = true) x ->
  match rest with [] => True | c :: _ => p c = false end ->
  match_at (plus p) prev (x ++ rest) = Some (RMatch x []).
Proof.
  intros Hne Hx Hrest. unfold match_at, plus.
  rewrite (rx_rep_greedy p 1 prev x rest 0 [] Some
             (MState (lastChar prev x) rest (0 + length x) []) Hx Hrest).
  - cbn [m_pos m_caps]. rewrite firstn_length_app by reflexivity. reflexivity.
  - destruct x; [congruence|cbn; lia].
  - reflexivity.
Qed.

(** Replacing the runs of a class: what is left of the class in the
    result comes from the replacement string. *)
Lemma replaceAll_plus_chars p t c : forall n s prev,
  length s <= n ->
  In c (flat_map (render [TLit t]) (scan (plus p) prev 0 s)) ->
  (In c s /\ p c = false) \/ In c t.
Proof.
  induction n as [|n IH]; intros s prev Hn.
  - destruct s; [|cbn in Hn; lia]. cbn [scan].
    rewrite match_at_plus_miss by trivial. intros [].
  - destruct s as [|d s]; [cbn [scan]; rewrite match_at_plus_miss by trivial; intros []|].
    destruct (p d) eqn:E.
    + destruct (span p (d :: s)) as (x & rest & Hs & Hx & Hr).
      assert (Hne : x <> []).
      { intros ->. cbn in Hs. subst rest. rewrite E in Hr. discriminate. }
      rewrite Hs.
      pose proof (match_at_plus_hit p prev x rest Hne Hx Hr) as Hm.
      pose proof (scan_match (plus p) prev (RMatch x []) rest Hm Hne) as Hsc.
      cbn [mt_text] in Hsc. rewrite Hsc.
      cbn [flat_map render expand mt_text]. rewrite app_nil_r.
      intros H. apply in_app_or in H. destruct H as [H|H]; [right; exact H|].
      apply IH in H.
      * destruct H as [[H1 H2]|H]; [left; split; [apply in_or_app; right; exact H1|exact H2]|right; exact H].
      * apply (f_equal (@length _)) in Hs. rewrite length_app in Hs.
        destruct x; [congruence|]. cbn [length] in *. lia.
    + cbn [scan]. rewrite match_at_plus_miss by exact E. cbn [flat_map render app].
      intros [<-|H]; [left; split; [left; reflexivity|exact E]|].
      apply IH in H; [|cbn in Hn; lia].
      destruct H as [[H1 H2]|H]; [left; split; [right; exact H1|exact H2]|right; exact H].
Qed.

(** ** The excerpt is plain text *)

Lemma In_pieces c : forall sgs pending piece,
  In piece (pieces pending sgs) -> In c piece ->
  In c pending \/ In c (textOf sgs).
Proof.
  induction sgs as [|[d|m] sgs IH]; intros pending piece; cbn [pieces].
  - intros [<-|[]] Hc. left. apply in_rev. exact Hc.
  - intros Hp Hc. destruct (IH _ _ Hp Hc) as [[<-|H]|H].
    + right. left. reflexivity.
    + left. exact H.
    + right. right. exact H.
  - intros [<-|Hp] Hc.
    + left. apply in_rev. exact Hc.
    + destruct (IH _ _ Hp Hc) as [[]|H]. right.
      unfold textOf. cbn [flat_map]. apply in_or_app. right. exact H.
Qed.

Lemma In_splitRe r s piece c : In piece (splitRe r s) -> In c piece -> In c s.
Proof.
  unfold splitRe. intros Hp Hc.
  destruct (In_pieces c _ _ _ Hp Hc) as [[]|H].
  rewrite textOf_scan in H. exact H.
Qed.

Lemma In_firstSentence c : forall sentences,
  In c (firstSentence sentences) ->
  c = "."%char \/ exists s, In s sentences /\ In c s.
Proof.
  induction sentences as [|s sentences IH]; cbn [firstSentence]; [intros []|].
  destruct (qualifies (trim s)).
  - intros H. apply in_app_or in H. destruct H as [H|[<-|[]]]; [|left; reflexivity].
    right. exists s. split; [left; reflexivity|apply In_trim; exact H].
  - intros H. destruct (IH H) as [->|(s' & Hs' & Hc)]; [left; reflexivity|].
    right. exists s'. split; [right; exact Hs'|exact Hc].
Qed.

Lemma cleanForExcerpt_plain content c :
  In c (cleanForExcerpt content) -> plainChar c.
Proof.
  unfold cleanForExcerpt. intros H. apply In_trim in H.
  apply (replaceAll_plus_chars isSpace (js " ") c _ _ None (le_n _)) in H.
  destruct H as [[H Hsp]|[<-|[]]]; [|split; [reflexivity|reflexivity]].
  split; [|rewrite Hsp; discriminate].
  apply replaceAll_chars in H.
  destruct H as [H|[<-|[]]]; [|reflexivity].
  apply replaceAll_chars in H. destruct H as [H|[]].
  apply (replaceAll_Chr_chars _ c _ None) in H. tauto.
Qed.

(** The excerpt sent with the post is plain text on one line: it has no
    asterisk, underscore, backquote or hash sign, and no white space other
    than the space. *)
Theorem cleanExcerpt_plain (content : jstr) :
  Forall plainChar (cleanExcerpt content).
Proof.
  apply List.Forall_forall. intros c Hc.
  pose proof (cleanForExcerpt_plain content) as Hclean.
  unfold cleanExcerpt, excerptOfClean in Hc.
  set (clean := cleanForExcerpt content) in *.
  assert (Hgen : forall d, In d genericExcerpt -> plainChar d).
  { apply List.Forall_forall. unfold genericExcerpt.
    repeat constructor; try discriminate. }
  destruct (firstSentence (splitRe sentenceEndPattern clean)) as [|f fs] eqn:Ef.
  - destruct (20 <? length clean); [|apply Hgen; exact Hc].
    destruct (replaceFirst lastWordPattern [] (substring0 160 clean)) as [|e es] eqn:Er;
      [apply Hgen; exact Hc|].
    destruct (replaceFirst_lastWord_prefix (substring0 160 clean) None) as (tail & Ht).
    fold (replaceFirst lastWordPattern [] (substring0 160 clean)) in Ht.
    rewrite Er in Ht. apply Hclean.
    rewrite <- (firstn_skipn 160 clean). apply in_or_app. left.
    fold (substring0 160 clean). rewrite Ht.
    apply in_or_app. left. exact Hc.
  - rewrite <- Ef in Hc. apply In_firstSentence in Hc.
    destruct Hc as [->|(s & Hs & Hc)]; [split; [reflexivity|discriminate]|].
    apply Hclean. exact (In_splitRe _ _ _ _ Hs Hc).
Qed.

(** The tags of the request are read and never used: two requests that
    differ in them only are answered alike, with the same effects. *)
Theorem publish_ignores_request_tags (w : World) (st : Storage) (id : jstr)
  (body : PublishBody) (tags : option (list jstr)) :
  publish w st id (withTags body tags) = publish w st id body.
Proof.
  destruct body as [url user pw cid tg md seo].
  unfold publish, withTags, resolveCredentials, prepare, conclude, publishedUpdate,
    requestedCategoryIds.
  cbn [q_wordpressUrl q_username q_password q_categoryId q_tags q_metaDescription
       q_seoData].
  reflexivity.
Qed.

(** ** The rotation of the Unsplash keys *)

Lemma rotated_length keys index : length (rotated keys index) = length keys.
Proof.
  unfold rotated. rewrite length_app, length_skipn, length_firstn. lia.
Qed.

(** One step of the rotation: the key handed out and the order after it. *)
Lemma rotated_step keys index :
  index < length keys ->
  exists key rest,
    nth_error keys index = Some key
    /\ rotated keys index = key :: rest
    /\ rotated keys ((index + 1) mod length keys) = rest ++ [key].
Proof.
  intros Hi.
  destruct (nth_error keys index) as [key|] eqn:E;
    [|apply nth_error_None in E; lia].
  exists key, (skipn (S index) keys ++ firstn index keys).
  split; [reflexivity|].
  assert (Hdrop : skipn index keys = key :: skipn (S index) keys).
  { clear Hi. revert index E. induction keys as [|k keys IH]; intros [|index] E;
      try discriminate.
    - inversion E; subst. reflexivity.
    - cbn [nth_error] in E. cbn [skipn]. rewrite (IH _ E). reflexivity. }
  assert (Htake : firstn (S index) keys = firstn index keys ++ [key]).
  { clear Hi Hdrop. revert index E. induction keys as [|k keys IH]; intros [|index] E;
      try discriminate.
    - inversion E; subst. reflexivity.
    - cbn [nth_error] in E. cbn [firstn]. rewrite (IH _ E). reflexivity. }
  split.
  - unfold rotated. rewrite Hdrop. reflexivity.
  - unfold rotated. destruct (Nat.eq_dec (S index) (length keys)) as [Heq|Hne].
    + replace (index + 1) with (length keys) by lia.
      rewrite Nat.Div0.mod_same. cbn [skipn firstn]. rewrite app_nil_r.
      rewrite Heq, skipn_all. cbn [app]. rewrite <- Htake, Heq, firstn_all.
      reflexivity.
    + rewrite Nat.mod_small by lia. replace (index + 1) with (S index) by lia.
      rewrite Htake, app_assoc. reflexivity.
Qed.

Lemma nextKeys_spec keys : forall m index,
  index < length keys -> m <= length keys ->
  nextKeys keys m index
  = (map Some (firstn m (rotated keys index)), (index + m) mod length keys).
Proof.
  induction m as [|m IH]; intros index Hi Hm.
  - cbn [nextKeys firstn map]. rewrite Nat.add_0_r, Nat.mod_small by exact Hi.
    reflexivity.
  - cbn [nextKeys]. unfold getNextUnsplashKey.
    destruct keys as [|k0 keys0] eqn:Ek; [cbn in Hi; lia|]. rewrite <- Ek in *.
    destruct (rotated_step keys index Hi) as (key & rest & Hk & Hr & Hr').
    assert (Hn : (index + 1) mod length keys < length keys)
      by (apply Nat.mod_upper_bound; lia).
    rewrite (IH _ Hn) by lia. rewrite Hk, Hr, Hr'. cbn [firstn map].
    assert (Hlen : length rest = length keys - 1).
    { pose proof (rotated_length keys index) as Hl. rewrite Hr in Hl.
      cbn [length] in Hl. lia. }
    rewrite firstn_app. replace (m - length rest) with 0 by lia.
    cbn [firstn]. rewrite app_nil_r.
    rewrite Nat.Div0.add_mod_idemp_l.
    replace (index + 1 + m) with (index + S m) by lia. reflexivity.
Qed.

(** The keys are handed out in turn: from any position, as many calls as
    there are keys return every key once, in the order of the list from that
    position on and then from its start, and leave the position where it
    was. Without any key the answer is null and the position stays. *)
Theorem getNextUnsplashKey_round_robin (keys : list jstr) (currentKeyIndex : nat) :
  currentKeyIndex < length keys ->
  nextKeys keys (length keys) currentKeyIndex
  = (map Some (skipn currentKeyIndex keys ++ firstn currentKeyIndex keys),
     currentKeyIndex)
  /\ getNextUnsplashKey [] currentKeyIndex = (None, currentKeyIndex).
Proof.
  intros Hi. split; [|reflexivity].
  rewrite nextKeys_spec by (auto; lia).
  rewrite <- (rotated_length keys currentKeyIndex) at 1. rewrite firstn_all.
  replace (currentKeyIndex + length keys) with (currentKeyIndex + 1 * length keys) by lia.
  rewrite Nat.Div0.mod_add, Nat.mod_small by exact Hi. reflexivity.
Qed.

Lemma getNextUnsplashKey_round_robin_witness :
  nextKeys [js "k1"; js "k2"; js "k3"] 3 1
  = ([Some (js "k2"); Some (js "k3"); Some (js "k1")], 1).
Proof.
  apply (proj1 (getNextUnsplashKey_round_robin [js "k1"; js "k2"; js "k3"] 1
                  ltac:(cbn; lia))).
Defined.

Section Rotation.

Context {A : Type}.
Variable fetchUnsplash : nat -> jstr -> jstr -> Fetched (RBody A).
Variable keys : list jstr.
Variable url : jstr.
Variable retries : nat.
Hypothesis keys_set : Forall (fun key => key <> []) keys.

Lemma rotationLoop_spec : forall remaining i index,
  index < length keys -> remaining <= length keys ->
  let r := rotationLoop fetchUnsplash keys url retries remaining i index in
  exists m, m <= remaining
    /\ rot_keys r = firstn m (rotated keys index)
    /\ rot_index r = (index + m) mod length keys
    /\ (forall j key, j + 1 < m -> nth_error (rotated keys index) j = Some key ->
                      isOk (fetchUnsplash (i + j) url key) = false)
    /\ match rot_response r with
       | Some (status, body) =>
           1 <= m /\ okStatus status = true
           /\ exists key, nth_error (rotated keys index) (m - 1) = Some key
                          /\ fetchUnsplash (i + (m - 1)) url key = Resp status body
       | None =>
           m = remaining
           /\ forall j key, j < m -> nth_error (rotated keys index) j = Some key ->
                            isOk (fetchUnsplash (i + j) url key) = false
       end.
Proof.
  induction remaining as [|remaining IH]; intros i index Hi Hrem; cbv zeta.
  - exists 0. cbn [rotationLoop rot_keys rot_index rot_response firstn].
    rewrite Nat.add_0_r, Nat.mod_small by exact Hi.
    repeat split; intros; lia.
  - cbn [rotationLoop]. unfold getNextUnsplashKey.
    destruct keys as [|k0 keys0] eqn:Ek; [cbn in Hi; lia|]. rewrite <- Ek in *.
    destruct (rotated_step keys index Hi) as (key & rest & Hk & Hr & Hr').
    assert (Hn : (index + 1) mod length keys < length keys)
      by (apply Nat.mod_upper_bound; lia).
    assert (Hkey : key <> []).
    { apply nth_error_In in Hk. rewrite List.Forall_forall in keys_set.
      exact (keys_set _ Hk). }
    assert (Hlen : length rest = length keys - 1).
    { pose proof (rotated_length keys index) as Hl. rewrite Hr in Hl.
      cbn [length] in Hl. lia. }
    rewrite Hk. destruct key as [|c t] eqn:Ekey; [congruence|]. rewrite <- Ekey in *.
    replace (truthy (Some key)) with true by (rewrite Ekey; reflexivity).
    change (default [] (Some key)) with key.
    specialize (IH (S i) _ Hn ltac:(lia)). cbv zeta in IH.
    destruct IH as (m & Hm & Hkeys & Hidx & Hbefore & Hres).
    set (next := rotationLoop fetchUnsplash keys url retries remaining (S i)
                   ((index + 1) mod length keys)) in *.
    assert (Hcont :
      isOk (fetchUnsplash i url key) = false ->
      let r := {| rot_response := rot_response next; rot_index := rot_index next;
                  rot_keys := key :: rot_keys next |} in
      exists m0, m0 <= S remaining
        /\ rot_keys r = firstn m0 (rotated keys index)
        /\ rot_index r = (index + m0) mod length keys
        /\ (forall j key', j + 1 < m0 -> nth_error (rotated keys index) j = Some key' ->
                           isOk (fetchUnsplash (i + j) url key') = false)
        /\ match rot_response r with
           | Some (status, body) =>
               1 <= m0 /\ okStatus status = true
               /\ exists key', nth_error (rotated keys index) (m0 - 1) = Some key'
                               /\ fetchUnsplash (i + (m0 - 1)) url key' = Resp status body
           | None =>
               m0 = S remaining
               /\ forall j key', j < m0 -> nth_error (rotated keys index) j = Some key' ->
                                 isOk (fetchUnsplash (i + j) url key') = false
           end).
    { intros Hfail. cbv zeta. cbn [rot_response rot_index rot_keys].
      assert (Hnth : forall j, j < length rest ->
                nth_error (rotated keys ((index + 1) mod length keys)) j
                = nth_error (rotated keys index) (S j)).
      { intros j Hj. rewrite Hr, Hr'. cbn [nth_error].
        apply nth_error_app1. exact Hj. }
      exists (S m). split; [lia|]. split; [|split; [|split]].
      - rewrite Hkeys, Hr, Hr'. cbn [firstn]. f_equal.
        rewrite firstn_app. replace (m - length rest) with 0 by lia.
        cbn [firstn]. apply app_nil_r.
      - rewrite Hidx, Nat.Div0.add_mod_idemp_l. f_equal. lia.
      - intros [|j] key' Hj Hnk.
        + rewrite Hr in Hnk. inversion Hnk; subst key'.
          rewrite Nat.add_0_r. exact Hfail.
        + rewrite <- Hnth in Hnk by lia.
          replace (i + S j) with (S i + j) by lia.
          apply Hbefore; [lia|exact Hnk].
      - destruct (rot_response next) as [[status body]|].
        + destruct Hres as (H1 & Hok & key' & Hnk & Hf).
          split; [lia|]. split; [exact Hok|]. exists key'.
          replace (S m - 1) with (S (m - 1)) by lia.
          rewrite <- Hnth by lia. split; [exact Hnk|].
          replace (i + S (m - 1)) with (S i + (m - 1)) by lia. exact Hf.
        + destruct Hres as (-> & Hall). split; [reflexivity|].
          intros [|j] key' Hj Hnk.
          * rewrite Hr in Hnk. inversion Hnk; subst key'.
            rewrite Nat.add_0_r. exact Hfail.
          * rewrite <- Hnth in Hnk by lia.
            replace (i + S j) with (S i + j) by lia.
            apply Hall; [lia|exact Hnk]. }
    destruct (fetchUnsplash i url key) as [msg|status body] eqn:Ef.
    + destruct (i <? retries - 1); apply Hcont; reflexivity.
    + destruct (okStatus status) eqn:Eok.
      * exists 1. cbn [rot_response rot_index rot_keys].
        split; [lia|]. split; [rewrite Hr; reflexivity|]. split; [reflexivity|].
        split; [intros; lia|]. split; [lia|]. split; [exact Eok|].
        exists key. rewrite Hr. cbn [Nat.sub nth_error]. split; [reflexivity|].
        rewrite Nat.add_0_r. exact Ef.
      * destruct ((status =? 403)%Z && (i <? retries - 1)); apply Hcont; exact Eok.
Qed.

End Rotation.

(** One call of [fetchWithUnsplashRotation], with keys that are all set:
    the requests use the keys in rotation from the current position, each
    key at most once; the call stops at the first response that is ok and
    returns it; it returns null only when every key has been tried and
    no response was ok, whatever the failures were (a 403, another status, a
    network error); the position moves on by the number of requests made. *)
Theorem fetchWithUnsplashRotation_tries_every_key {A : Type}
  (fetchUnsplash : nat -> jstr -> jstr -> Fetched (RBody A))
  (keys : list jstr) (url : jstr) (currentKeyIndex : nat) :
  Forall (fun key => key <> []) keys ->
  currentKeyIndex < length keys ->
  let r := fetchWithUnsplashRotation fetchUnsplash keys url currentKeyIndex in
  let order := skipn currentKeyIndex keys ++ firstn currentKeyIndex keys in
  exists m, m <= length keys
    /\ rot_keys r = firstn m order
    /\ rot_index r = (currentKeyIndex + m) mod length keys
    /\ (forall j key, j + 1 < m -> nth_error order j = Some key ->
                      isOk (fetchUnsplash j url key) = false)
    /\ match rot_response r with
       | Some (status, body) =>
           1 <= m /\ okStatus status = true
           /\ exists key, nth_error order (m - 1) = Some key
                          /\ fetchUnsplash (m - 1) url key = Resp status body
       | None =>
           m = length keys
           /\ forall j key, j < m -> nth_error order j = Some key ->
                            isOk (fetchUnsplash j url key) = false
       end.
Proof.
  intros Hset Hi.
  exact (rotationLoop_spec fetchUnsplash keys url (length keys) Hset
           (length keys) 0 currentKeyIndex Hi (le_n _)).
Qed.

Lemma fetchWithUnsplashRotation_tries_every_key_witness :
  exists m, m <= 3
    /\ rot_keys (fetchWithUnsplashRotation
                   (fun j _ key => if j <? 1 then Resp 403 (@BOther unit)
                                   else Resp 200 (BJson tt))
                   [js "k1"; js "k2"; js "k3"] (js "u") 2)
       = firstn m [js "k3"; js "k1"; js "k2"]
    /\ rot_index (fetchWithUnsplashRotation
                    (fun j _ key => if j <? 1 then Resp 403 (@BOther unit)
                                    else Resp 200 (BJson tt))
                    [js "k1"; js "k2"; js "k3"] (js "u") 2)
       = (2 + m) mod 3.
Proof.
  destruct (fetchWithUnsplashRotation_tries_every_key
              (fun j _ key => if j <? 1 then Resp 403 (@BOther unit)
                              else Resp 200 (BJson tt))
              [js "k1"; js "k2"; js "k3"] (js "u") 2
              ltac:(repeat constructor; discriminate) ltac:(cbn; lia))
    as (m & Hm & Hkeys & Hidx & _).
  exists m. split; [exact Hm|]. split; [exact Hkeys|exact Hidx].
Defined.

Lemma fetchWithUnsplashRotation_no_key {A : Type}
  (fetchUnsplash : nat -> jstr -> jstr -> Fetched (RBody A)) (url : jstr) (index : nat) :
  fetchWithUnsplashRotation fetchUnsplash [] url index
  = {| rot_response := None; rot_index := index; rot_keys := [] |}.
Proof. reflexivity. Qed.

(** The keys that are loaded are all set. *)
Lemma loadUnsplashKeys_set env : Forall (fun key => key <> []) (loadUnsplashKeys env).
Proof.
  unfold loadUnsplashKeys. induction env as [|k env IH]; [constructor|].
  cbn [flat_map]. destruct k as [[|c t]|]; cbn [truthy app]; try exact IH.
  constructor; [discriminate|exact IH].
Qed.

(** ** The storage *)

Lemma default_twice {A} (x : A) (o : option A) :
  default (default x o) o = default x o.
Proof. destruct o; reflexivity. Qed.

(** [updateBlog] and [getBlog]. An update of a stored blog returns, stores
    under the id and has [getBlog] read back the record in which every
    column that the update has a key for holds the value of the update and
    every other column, the id and the time of creation with them, holds
    what it held; an update of a blog that is not stored changes nothing
    and returns undefined. In both cases the other blogs and the
    credentials stay, and so does the fact that every blog is stored under
    its own id. The same update applied twice stores what it stored the
    first time. *)
Theorem updateBlog_round_trip (st : Storage) (id : jstr) (u : UpdateBlog) :
  (forall b, getBlog st id = Some b ->
     let updated :=
       {| b_id := b_id b;
          b_keyword := match u_keyword u with Some v => v | None => b_keyword b end;
          b_title := match u_title u with Some v => v | None => b_title b end;
          b_content := match u_content u with Some v => v | None => b_content b end;
          b_imageUrl := match u_imageUrl u with Some v => v | None => b_imageUrl b end;
          b_imageDescription := match u_imageDescription u with Some v => v | None => b_imageDescription b end;
          b_images := match u_images u with Some v => v | None => b_images b end;
          b_status := match u_status u with Some v => v | None => b_status b end;
          b_generatedTopics := match u_generatedTopics u with Some v => v | None => b_generatedTopics b end;
          b_wordCount := match u_wordCount u with Some v => v | None => b_wordCount b end;
          b_wordpressUrl := match u_wordpressUrl u with Some v => v | None => b_wordpressUrl b end;
          b_wordpressPostId := match u_wordpressPostId u with Some v => v | None => b_wordpressPostId b end;
          b_publishedAt := match u_publishedAt u with Some v => v | None => b_publishedAt b end;
          b_categoryId := match u_categoryId u with Some v => v | None => b_categoryId b end;
          b_tagIds := match u_tagIds u with Some v => v | None => b_tagIds b end;
          b_metaDescription := match u_metaDescription u with Some v => v | None => b_metaDescription b end;
          b_githubFilePath := match u_githubFilePath u with Some v => v | None => b_githubFilePath b end;
          b_githubCommitSha := match u_githubCommitSha u with Some v => v | None => b_githubCommitSha b end;
          b_backedUpToGithub := match u_backedUpToGithub u with Some v => v | None => b_backedUpToGithub b end;
          b_createdAt := b_createdAt b |} in
     fst (updateBlog st id u) = Some updated
     /\ getBlog (snd (updateBlog st id u)) id = Some updated
     /\ blogs (snd (updateBlog st id u)) = <[id := updated]> (blogs st)
     /\ snd (updateBlog (snd (updateBlog st id u)) id u) = snd (updateBlog st id u))
  /\ (getBlog st id = None -> updateBlog st id u = (None, st))
  /\ (forall id', id' <> id -> getBlog (snd (updateBlog st id u)) id' = getBlog st id')
  /\ wordpressCredentials (snd (updateBlog st id u)) = wordpressCredentials st
  /\ (keyedById st -> keyedById (snd (updateBlog st id u)))
  /\ (forall b, getBlog st id = Some b ->
        getBlog (snd (updateBlog st id noUpdate)) id = Some b).
Proof.
  split; [|split; [|split; [|split; [|split]]]].
  - intros b Hb. cbv zeta.
    assert (Hfst : updateBlog st id u
                   = (Some (spread b u),
                      {| blogs := <[id := spread b u]> (blogs st);
                         wordpressCredentials := wordpressCredentials st |})).
    { unfold updateBlog, getBlog in *. rewrite Hb. reflexivity. }
    rewrite Hfst. cbn [fst snd blogs].
    split; [reflexivity|]. split; [apply lookup_insert_eq|].
    split; [reflexivity|].
    unfold updateBlog. cbn [blogs wordpressCredentials].
    rewrite lookup_insert_eq. cbn [snd]. rewrite insert_insert_eq.
    f_equal. f_equal. unfold spread.
    cbn [b_id b_keyword b_title b_content b_imageUrl b_imageDescription b_images
         b_status b_generatedTopics b_wordCount b_wordpressUrl b_wordpressPostId
         b_publishedAt b_categoryId b_tagIds b_metaDescription b_githubFilePath
         b_githubCommitSha b_backedUpToGithub b_createdAt].
    rewrite !default_twice. reflexivity.
  - unfold updateBlog, getBlog. intros ->. reflexivity.
  - intros id' Hne. apply updateBlog_other. exact Hne.
  - apply updateBlog_credentials.
  - apply updateBlog_keyed.
  - intros b Hb. rewrite (updateBlog_same st id noUpdate b Hb).
    destruct b; reflexivity.
Qed.

Lemma deleteBlog_other st id id' :
  id' <> id -> getBlog (snd (deleteBlog st id)) id' = getBlog st id'.
Proof.
  intros Hne. unfold deleteBlog. destruct (blogs st !! id); [|reflexivity].
  cbn [snd]. unfold getBlog. cbn [blogs]. apply lookup_delete_ne. congruence.
Qed.

Lemma deleteBlog_gone st id : getBlog (snd (deleteBlog st id)) id = None.
Proof.
  unfold deleteBlog. destruct (blogs st !! id) eqn:E; cbn [snd]; unfold getBlog.
  - cbn [blogs]. apply lookup_delete_eq.
  - exact E.
Qed.

Lemma deleteBlog_again st id :
  deleteBlog (snd (deleteBlog st id)) id = (false, snd (deleteBlog st id)).
Proof.
  pose proof (deleteBlog_gone st id) as H. unfold getBlog in H.
  unfold deleteBlog at 1. rewrite H. reflexivity.
Qed.

(** [deleteBlog]: it returns true exactly when the blog was stored; after
    it the blog is not stored, every other blog and the credentials are
    what they were; a second deletion returns false and changes nothing. *)
Theorem deleteBlog_round_trip (st : Storage) (id : jstr) :
  (fst (deleteBlog st id) = true <-> getBlog st id <> None)
  /\ getBlog (snd (deleteBlog st id)) id = None
  /\ (forall id', id' <> id -> getBlog (snd (deleteBlog st id)) id' = getBlog st id')
  /\ wordpressCredentials (snd (deleteBlog st id)) = wordpressCredentials st
  /\ deleteBlog (snd (deleteBlog st id)) id = (false, snd (deleteBlog st id))
  /\ (keyedById st -> keyedById (snd (deleteBlog st id))).
Proof.
  split; [|split; [apply deleteBlog_gone|split; [|split; [|split]]]].
  - unfold deleteBlog, getBlog. destruct (blogs st !! id); cbn [fst];
      split; congruence.
  - intros id' Hne. apply deleteBlog_other. exact Hne.
  - unfold deleteBlog. destruct (blogs st !! id); reflexivity.
  - apply deleteBlog_again.
  - intros Hk id' b Hb. destruct (decide (id' = id)) as [->|Hne].
    + rewrite deleteBlog_gone in Hb. discriminate.
    + rewrite deleteBlog_other in Hb by exact Hne. apply Hk. exact Hb.
Qed.

(** [DELETE /api/blogs/:id] answers 204 when the blog was stored and 404
    when it was not; after a 204 the blog route answers 404 for that id, and
    deleting again answers 404. *)
Theorem deleteBlogRoute_then_missing (st : Storage) (id : jstr) :
  let '(reply, st') := deleteBlogRoute st id in
  (rp_status reply = 204%Z <-> rp_status (getBlogRoute st id) = 200%Z)
  /\ (rp_status reply = 404%Z <-> rp_status (getBlogRoute st id) = 404%Z)
  /\ rp_status (getBlogRoute st' id) = 404%Z
  /\ rp_status (fst (deleteBlogRoute st' id)) = 404%Z
  /\ (rp_status reply = 404%Z -> st' = st).
Proof.
  unfold deleteBlogRoute.
  pose proof (deleteBlog_gone st id) as Hgone.
  pose proof (deleteBlog_again st id) as Hagain.
  destruct (deleteBlog st id) as [success st'] eqn:E. cbn [snd] in *.
  assert (Hst : success = false -> st' = st).
  { unfold deleteBlog in E. destruct (blogs st !! id); inversion E; subst;
      [discriminate|reflexivity]. }
  assert (Hs : success = true <-> getBlog st id <> None).
  { unfold deleteBlog, getBlog in *. destruct (blogs st !! id); inversion E; subst;
      split; congruence. }
  destruct success; cbn [negb fst rp_status];
    unfold getBlogRoute; rewrite Hgone, Hagain; cbn [negb fst rp_status];
    destruct (getBlog st id) as [b|]; cbn [rp_status];
    repeat split; intros; try discriminate; try reflexivity;
    try (apply Hst; reflexivity);
    exfalso; destruct Hs as [H1 H2];
    first [ apply H1; reflexivity | discriminate H2; discriminate ].
Qed.

(** ** Saved credentials *)

(** [POST /api/wordpress/credentials] answers 200 exactly when the four
    fields are set, and otherwise answers 400 and stores nothing. After a
    200 the blogs are what they were, and a publish request that does not
    carry the three credentials is run with the saved ones, never with the
    built-in ones. *)
Theorem saved_credentials_are_used (st : Storage) (cb : CredentialsBody) :
  let '(reply, st') := saveCredentialsRoute st cb in
  (rp_status reply = 200%Z
   <-> truthy (cb_name cb) = true /\ truthy (cb_wordpressUrl cb) = true
       /\ truthy (cb_username cb) = true /\ truthy (cb_password cb) = true)
  /\ (rp_status reply <> 200%Z -> rp_status reply = 400%Z /\ st' = st)
  /\ (rp_status reply = 200%Z ->
      blogs st' = blogs st
      /\ forall body : PublishBody,
           complete (supplied body) = false ->
           resolveCredentials body st'
           = {| c_wordpressUrl := cb_wordpressUrl cb;
                c_username := cb_username cb;
                c_password := cb_password cb |}).
Proof.
  unfold saveCredentialsRoute, saveWordPressCredentials.
  destruct (truthy (cb_name cb)) eqn:E1, (truthy (cb_wordpressUrl cb)) eqn:E2,
    (truthy (cb_username cb)) eqn:E3, (truthy (cb_password cb)) eqn:E4;
    cbn [negb orb rp_status];
    (split; [split; [intros H; try discriminate H; tauto
                    |intros (H1 & H2 & H3 & H4); try discriminate; reflexivity]|]);
    (split; [intros H; first [congruence | split; reflexivity]|]);
    intros H; try discriminate H.
  split; [reflexivity|]. intros body Hc.
  unfold resolveCredentials. fold (supplied body). rewrite Hc.
  cbn [getWordPressCredentials wordpressCredentials c_wordpressUrl c_username c_password].
  unfold orElse. rewrite E2, E3, E4. reflexivity.
Qed.

(** ** The client *)

Lemma startsWith_app p s : startsWith p (p ++ s) = true.
Proof.
  induction p as [|x p IH]; [reflexivity|].
  cbn [app startsWith]. rewrite Ascii.eqb_refl. exact IH.
Qed.

Lemma includes_app a p c : includes (a ++ p ++ c) p = true.
Proof.
  induction a as [|x a IH].
  - cbn [app]. destruct (p ++ c) eqn:E; cbn [includes]; rewrite <- ?E;
      rewrite startsWith_app; reflexivity.
  - cbn [app includes]. rewrite IH. apply orb_true_r.
Qed.

(** The decimal notation of an integer starts with a digit or a minus sign. *)
Lemma toString_head z :
  exists c t, toString z = c :: t /\ (c = "-"%char \/ oneOf "0123456789" c = true).
Proof.
  unfold toString.
  assert (Hu : forall d, exists c t,
             js (NilZero.string_of_uint d) = c :: t /\ oneOf "0123456789" c = true).
  { intros d. destruct d; cbn; eexists _, _; split; reflexivity. }
  destruct (Z.to_int z) as [d|d]; cbn [NilZero.string_of_int].
  - destruct (Hu d) as (c & t & E & Hc). exists c, t. split; [exact E|right; exact Hc].
  - eexists _, _. split; [reflexivity|left; reflexivity].
Qed.

Lemma publish_url_timeout blogId :
  timeoutMs (js "/api/blogs/" ++ blogId ++ js "/publish") = 60000%Z.
Proof.
  unfold timeoutMs.
  replace (js "/api/blogs/" ++ blogId ++ js "/publish")
    with ((js "/api/blogs/" ++ blogId) ++ js "/publish" ++ [])
    by (rewrite app_nil_r, <- app_assoc; reflexivity).
  rewrite includes_app. reflexivity.
Qed.

(** Whatever the id of the blog, the publish request of the client is sent
    under a timeout of 60 s (also when the id contains the name of a route
    that has a longer one), and when that timeout aborts the request the
    error says so. *)
Theorem publishBlog_times_out_after_60s (blogId : jstr) (net : Z -> ClientFetch) :
  timeoutMs (js "/api/blogs/" ++ blogId ++ js "/publish") = 60000%Z
  /\ (net 60000%Z = CFAborted ->
      publishBlog blogId net
      = Thrown (js "Request timeout after 60 seconds. Please check your connection and try again.")).
Proof.
  split; [apply publish_url_timeout|].
  intros Hnet. unfold publishBlog, apiRequest.
  rewrite publish_url_timeout, Hnet. reflexivity.
Qed.

Lemma publishBlog_times_out_after_60s_witness :
  publishBlog (js "b/generate-content") (fun _ => CFAborted)
  = Thrown (js "Request timeout after 60 seconds. Please check your connection and try again.").
Proof.
  apply (proj2 (publishBlog_times_out_after_60s (js "b/generate-content")
                  (fun _ => CFAborted))).
  reflexivity.
Defined.

(** A response that is not ok never reaches the code of [publishBlog] that
    tells an authentication failure from the other failures: [apiRequest]
    has already thrown, and the error of [publishBlog] is the status, a
    colon and the text of the body (the status text when the body cannot be
    read), also for a 401 whose body speaks of authentication; it is never
    the message that asks to check the credentials. *)
Theorem publishBlog_never_reports_authentication (blogId : jstr)
  (net : Z -> ClientFetch) (r : ClientResponse) :
  net 60000%Z = CFResponse r ->
  okStatus (cr_status r) = false ->
  publishBlog blogId net
  = Thrown (toString (cr_status r) ++ js ": "
            ++ match cr_text r with
               | Resolved text => text
               | Thrown _ => cr_statusText r
               end)
  /\ publishBlog blogId net <> Thrown authenticationMessage.
Proof.
  intros Hnet Hok.
  assert (H : publishBlog blogId net
              = Thrown (toString (cr_status r) ++ js ": "
                        ++ match cr_text r with
                           | Resolved text => text
                           | Thrown _ => cr_statusText r
                           end)).
  { unfold publishBlog, apiRequest, throwIfResNotOk.
    rewrite publish_url_timeout, Hnet, Hok. reflexivity. }
  split; [exact H|]. rewrite H. intros E. inversion E as [E'].
  destruct (toString_head (cr_status r)) as (c & t & Hs & [->|Hc]);
    rewrite Hs in E'; cbn in E'; inversion E'; subst; discriminate.
Qed.

Lemma publishBlog_never_reports_authentication_witness :
  publishBlog (js "b1") (fun _ => CFResponse unauthorizedResponse)
  = Thrown (js "401: WordPress authentication failed after multiple attempts").
Proof.
  apply (proj1 (publishBlog_never_reports_authentication (js "b1")
                  (fun _ => CFResponse unauthorizedResponse) unauthorizedResponse
                  eq_refl eq_refl)).
Defined.

(** ** The incremental backup *)

Lemma jstr_eqb_eq a : forall b, jstr_eqb a b = true <-> a = b.
Proof.
  induction a as [|x a IH]; intros [|y b]; cbn [jstr_eqb]; split; try congruence.
  - intros H. apply andb_prop in H. destruct H as [H1 H2].
    apply Ascii.eqb_eq in H1. apply IH in H2. congruence.
  - intros H. inversion H; subst. rewrite Ascii.eqb_refl. apply IH. reflexivity.
Qed.

Section Backup.

Variable w : BackupWorld.

Lemma backupFile_skips s path :
  upToDate w (bs_records s) path ->
  bs_records (backupFile w s path) = bs_records s
  /\ bs_calls (backupFile w s path) = bs_calls s
  /\ bs_changedFiles (backupFile w s path) = bs_changedFiles s
  /\ bs_clock (backupFile w s path) = bs_clock s.
Proof.
  intros Hup. unfold backupFile.
  destruct (bw_file w path) as [| |content] eqn:E; try (repeat split; reflexivity).
  destruct (Hup content E) as (r & Hr & Hh). rewrite Hr.
  replace (jstr_eqb (br_fileHash r) (bw_calculateFileHash w content)) with true
    by (symmetry; apply jstr_eqb_eq; exact Hh).
  repeat split; reflexivity.
Qed.

Lemma backupFile_other s path other :
  other <> path ->
  bs_records (backupFile w s path) !! other = bs_records s !! other.
Proof.
  intros Hne. unfold backupFile.
  destruct (bw_file w path) as [| |content]; try reflexivity.
  destruct (match bs_records s !! path with
            | Some r => jstr_eqb (br_fileHash r) (bw_calculateFileHash w content)
            | None => false
            end); [reflexivity|].
  destruct (bw_createOrUpdateFile w path content _); [|reflexivity].
  cbn [bs_records]. apply lookup_insert_ne. congruence.
Qed.

Lemma backupFile_calls s path :
  exists new, bs_calls (backupFile w s path) = new ++ bs_calls s
              /\ forall p, In p (putPaths new) -> p = path.
Proof.
  unfold backupFile.
  destruct (bw_file w path) as [| |content]; try (exists []; split; [reflexivity|intros p []]).
  destruct (match bs_records s !! path with
            | Some r => jstr_eqb (br_fileHash r) (bw_calculateFileHash w content)
            | None => false
            end); [exists []; split; [reflexivity|intros p []]|].
  destruct (bw_createOrUpdateFile w path content _);
    (eexists [_]; split; [reflexivity|]; intros p [<-|[]]; reflexivity).
Qed.

Lemma backupFile_keeps_upToDate s path other :
  upToDate w (bs_records s) other ->
  upToDate w (bs_records (backupFile w s path)) other.
Proof.
  intros Hup. destruct (decide (other = path)) as [->|Hne].
  - rewrite (proj1 (backupFile_skips s path Hup)). exact Hup.
  - intros content Hc. rewrite backupFile_other by exact Hne. apply Hup. exact Hc.
Qed.

Lemma backupFile_makes_upToDate s path :
  reliable w -> upToDate w (bs_records (backupFile w s path)) path.
Proof.
  intros Hrel content Hc. unfold backupFile. rewrite Hc.
  destruct (bs_records s !! path) as [r|] eqn:Er.
  - destruct (jstr_eqb (br_fileHash r) (bw_calculateFileHash w content)) eqn:Eh.
    + exists r. cbn [bs_records]. split; [exact Er|]. apply jstr_eqb_eq. exact Eh.
    + destruct (bw_createOrUpdateFile w path content _) as [sha|] eqn:Ep;
        [|exfalso; exact (Hrel _ _ _ Ep)].
      cbn [bs_records]. eexists. split; [apply lookup_insert_eq|reflexivity].
  - destruct (bw_createOrUpdateFile w path content _) as [sha|] eqn:Ep;
      [|exfalso; exact (Hrel _ _ _ Ep)].
    cbn [bs_records]. eexists. split; [apply lookup_insert_eq|reflexivity].
Qed.

Lemma fold_keeps_upToDate files : forall s other,
  upToDate w (bs_records s) other ->
  upToDate w (bs_records (fold_left (backupFile w) files s)) other.
Proof.
  induction files as [|path files IH]; intros s other Hup; [exact Hup|].
  cbn [fold_left]. apply IH. apply backupFile_keeps_upToDate. exact Hup.
Qed.

Lemma fold_makes_upToDate files : forall s path,
  reliable w -> In path files ->
  upToDate w (bs_records (fold_left (backupFile w) files s)) path.
Proof.
  induction files as [|p files IH]; intros s path Hrel Hin; [destruct Hin|].
  cbn [fold_left]. destruct Hin as [<-|Hin].
  - apply fold_keeps_upToDate. apply backupFile_makes_upToDate. exact Hrel.
  - apply IH; assumption.
Qed.

Lemma fold_skips files : forall s,
  (forall path, In path files -> upToDate w (bs_records s) path) ->
  bs_records (fold_left (backupFile w) files s) = bs_records s
  /\ bs_calls (fold_left (backupFile w) files s) = bs_calls s
  /\ bs_changedFiles (fold_left (backupFile w) files s) = bs_changedFiles s.
Proof.
  induction files as [|p files IH]; intros s Hup; [repeat split|].
  cbn [fold_left].
  destruct (backupFile_skips s p (Hup p (or_introl eq_refl))) as (Hr & Hc & Hn & _).
  destruct (IH (backupFile w s p)) as (Hr' & Hc' & Hn').
  { intros path Hin. rewrite Hr. apply Hup. right. exact Hin. }
  rewrite Hr', Hc', Hn'. repeat split; assumption.
Qed.

Lemma fold_spares files path r : forall s,
  bs_records s !! path = Some r ->
  upToDate w (bs_records s) path ->
  ~ In path (putPaths (bs_calls s)) ->
  bs_records (fold_left (backupFile w) files s) !! path = Some r
  /\ ~ In path (putPaths (bs_calls (fold_left (backupFile w) files s))).
Proof.
  induction files as [|p files IH]; intros s Hr Hup Hcalls; [split; assumption|].
  cbn [fold_left]. apply IH.
  - destruct (decide (path = p)) as [->|Hne].
    + rewrite (proj1 (backupFile_skips s p Hup)). exact Hr.
    + rewrite backupFile_other by exact Hne. exact Hr.
  - apply backupFile_keeps_upToDate. exact Hup.
  - destruct (decide (path = p)) as [->|Hne].
    + destruct (backupFile_skips s p Hup) as (_ & -> & _). exact Hcalls.
    + destruct (backupFile_calls s p) as (new & -> & Hnew).
      unfold putPaths in *. rewrite flat_map_app, in_app_iff.
      intros [H|H]; [apply Hne; exact (Hnew _ H)|exact (Hcalls H)].
Qed.

End Backup.

Lemma putPaths_rev calls path : In path (putPaths (rev calls)) <-> In path (putPaths calls).
Proof.
  unfold putPaths. rewrite !in_flat_map.
  split; intros (e & He & Hp); exists e; (split; [|exact Hp]).
  - apply in_rev. exact He.
  - apply in_rev in He. exact He.
Qed.

(** A file whose record holds the digest of its present content is not
    sent again, and its record is left as it is. *)
Theorem backup_skips_unchanged_file (w : BackupWorld)
  (records : gmap jstr BackupRecord) (path content : jstr) (r : BackupRecord) :
  bw_file w path = FContent content ->
  records !! path = Some r ->
  br_fileHash r = bw_calculateFileHash w content ->
  fst (backupSourceCode w true records) !! path = Some r
  /\ ~ In path (putPaths (snd (backupSourceCode w true records))).
Proof.
  intros Hfile Hr Hhash. unfold backupSourceCode.
  generalize filesToBackup. intros files. cbn [negb fst snd].
  assert (Hup : upToDate w records path).
  { intros c Hc. rewrite Hfile in Hc. inversion Hc; subst c.
    exists r. split; assumption. }
  destruct (fold_spares w files path r
              {| bs_records := records; bs_changedFiles := 0; bs_skippedFiles := 0;
                 bs_clock := 0; bs_calls := [] |} Hr Hup (fun H => H))
    as [H1 H2].
  split; [exact H1|].
  unfold putPaths. rewrite flat_map_app, in_app_iff.
  intros [H|H].
  - apply (proj1 (putPaths_rev _ _)) in H. exact (H2 H).
  - destruct (0 <? _); [destruct H|destruct H].
Qed.

(** When every call to GitHub succeeded, a second run over the same files
    sends nothing, not even the project information, and leaves the records
    as the first run wrote them, whatever GitHub would answer then. Without
    stored credentials a run does nothing at all. *)
Theorem backup_second_run_sends_nothing (w w' : BackupWorld)
  (records : gmap jstr BackupRecord) :
  reliable w ->
  (forall path, bw_file w' path = bw_file w path) ->
  (forall content, bw_calculateFileHash w' content = bw_calculateFileHash w content) ->
  backupSourceCode w' true (fst (backupSourceCode w true records))
  = (fst (backupSourceCode w true records), [])
  /\ backupSourceCode w false records = (records, []).
Proof.
  intros Hrel Hfile Hhash. split; [|reflexivity].
  unfold backupSourceCode. generalize filesToBackup. intros files.
  cbn [negb fst].
  set (init := {| bs_records := records; bs_changedFiles := 0; bs_skippedFiles := 0;
                  bs_clock := 0; bs_calls := [] |}).
  set (s1 := fold_left (backupFile w) files init).
  assert (Hup : forall path, In path files -> upToDate w' (bs_records s1) path).
  { intros path Hin content Hc. rewrite Hfile in Hc.
    destruct (fold_makes_upToDate w files init path Hrel Hin content Hc)
      as (r & Hr & Hh).
    exists r. split; [exact Hr|]. rewrite Hhash. exact Hh. }
  destruct (fold_skips w' files
              {| bs_records := bs_records s1; bs_changedFiles := 0; bs_skippedFiles := 0;
                 bs_clock := 0; bs_calls := [] |} Hup) as (Hr & Hc & Hn).
  cbn [bs_records bs_calls bs_changedFiles] in Hr, Hc, Hn.
  rewrite Hr, Hc, Hn. cbn [Nat.ltb Nat.leb rev app]. reflexivity.
Qed.

Lemma backup_skips_unchanged_file_witness :
  fst (backupSourceCode sampleBackupWorld true (<[js "README.md" := readmeRecord]> ∅))
    !! js "README.md" = Some readmeRecord
  /\ ~ In (js "README.md")
          (putPaths (snd (backupSourceCode sampleBackupWorld true
                            (<[js "README.md" := readmeRecord]> ∅)))).
Proof.
  apply (backup_skips_unchanged_file sampleBackupWorld
           (<[js "README.md" := readmeRecord]> ∅) (js "README.md") (js "hello")
           readmeRecord);
    [reflexivity|apply lookup_insert_eq|reflexivity].
Defined.

Lemma backup_second_run_sends_nothing_witness :
  backupSourceCode sampleBackupWorld true
    (fst (backupSourceCode sampleBackupWorld true ∅))
  = (fst (backupSourceCode sampleBackupWorld true ∅), []).
Proof.
  apply (proj1 (backup_second_run_sends_nothing sampleBackupWorld sampleBackupWorld ∅
                  ltac:(intros path content message; discriminate)
                  ltac:(intros path; reflexivity)
                  ltac:(intros content; reflexivity))).
Defined.

(** ** The image-replace route and the storage *)

Lemma replaceImage_frame (st : Storage) (id : jstr)
  (imageIndexNum : option Z) (newImage : option NewImage) :
  let '(response, st') := replaceImage st id imageIndexNum newImage in
  (r_status response = 200%Z \/ r_status response = 400%Z
   \/ r_status response = 404%Z)
  /\ (r_status response <> 200%Z -> st' = st)
  /\ wordpressCredentials st' = wordpressCredentials st
  /\ (forall id', id' <> id -> getBlog st' id' = getBlog st id')
  /\ (forall blog, getBlog st id = Some blog ->
        exists content, getBlog st' id = Some (spread blog (contentUpdate content))
                        /\ b_images (spread blog (contentUpdate content)) = b_images blog
                        /\ (r_status response <> 200%Z -> content = b_content blog)).
Proof.
  unfold replaceImage.
  destruct (getBlog st id) as [blog|] eqn:Hb.
  - assert (H400 :
      (400%Z = 200%Z \/ 400%Z = 400%Z \/ 400%Z = 404%Z)
      /\ (400%Z <> 200%Z -> st = st)
      /\ wordpressCredentials st = wordpressCredentials st
      /\ (forall id', id' <> id -> getBlog st id' = getBlog st id')
      /\ (forall blog0, Some blog = Some blog0 ->
            exists content, getBlog st id = Some (spread blog0 (contentUpdate content))
                            /\ b_images (spread blog0 (contentUpdate content)) = b_images blog0
                            /\ (400%Z <> 200%Z -> content = b_content blog0))).
    { split; [right; left; reflexivity|]. repeat (split; [reflexivity|]).
      intros b E. inversion E; subst b. exists (b_content blog).
      split; [|split; reflexivity]. rewrite Hb. f_equal. destruct blog; reflexivity. }
    destruct newImage as [ni|]; [|exact H400].
    destruct (truthy (ni_url ni)); cbn [negb]; [|exact H400].
    destruct imageIndexNum as [i|]; [|exact H400].
    destruct (i <? 0)%Z; [exact H400|].
    destruct (replaceWith _ _ _) as [updatedContent s].
    destruct (replaced s); cbn [negb]; [|exact H400].
    rewrite (updateBlog_found st id blog _ Hb). cbn [r_status].
    split; [left; reflexivity|]. split; [congruence|]. split; [reflexivity|].
    split.
    + intros id' Hne. unfold getBlog. cbn [blogs]. apply lookup_insert_ne. congruence.
    + intros b Hb'. inversion Hb'; subst b. exists updatedContent.
      split; [unfold getBlog; cbn [blogs]; apply lookup_insert_eq|].
      split; [reflexivity|congruence].
  - assert (H40x : forall status,
      status = 400%Z \/ status = 404%Z ->
      (status = 200%Z \/ status = 400%Z \/ status = 404%Z)
      /\ (status <> 200%Z -> st = st)
      /\ wordpressCredentials st = wordpressCredentials st
      /\ (forall id', id' <> id -> getBlog st id' = getBlog st id')
      /\ (forall blog0, @None Blog = Some blog0 ->
            exists content, getBlog st id = Some (spread blog0 (contentUpdate content))
                            /\ b_images (spread blog0 (contentUpdate content)) = b_images blog0
                            /\ (status <> 200%Z -> content = b_content blog0))).
    { intros status Hs. split; [tauto|]. repeat (split; [reflexivity|]).
      intros b E. discriminate. }
    destruct newImage as [ni|]; [|apply H40x; left; reflexivity].
    destruct (truthy (ni_url ni)); cbn [negb]; apply H40x; [right|left]; reflexivity.
Qed.

(** The image-replace route changes the storage only when it answers 200,
    and then only the content of the blog it names: the other blogs, the
    credentials and every other column of that blog, the [images] array
    among them, are what they were. With a blog that is stored it never
    answers that the blog could not be saved. *)
Theorem replaceImage_touches_content_only (st : Storage) (id : jstr)
  (imageIndexNum : option Z) (newImage : option NewImage) :
  let '(response, st') := replaceImage st id imageIndexNum newImage in
  (r_status response = 200%Z \/ r_status response = 400%Z
   \/ r_status response = 404%Z)
  /\ (r_status response <> 200%Z -> st' = st)
  /\ wordpressCredentials st' = wordpressCredentials st
  /\ (forall id', id' <> id -> getBlog st' id' = getBlog st id')
  /\ (forall blog, getBlog st id = Some blog ->
        exists content, getBlog st' id = Some (spread blog (contentUpdate content))
                        /\ b_images (spread blog (contentUpdate content)) = b_images blog
                        /\ (r_status response <> 200%Z -> content = b_content blog))
  /\ (forall blog, getBlog st id = Some blog ->
        exists blog', getBlog st' id = Some blog'
          /\ b_id blog' = b_id blog /\ b_keyword blog' = b_keyword blog
          /\ b_title blog' = b_title blog /\ b_imageUrl blog' = b_imageUrl blog
          /\ b_imageDescription blog' = b_imageDescription blog
          /\ b_images blog' = b_images blog /\ b_status blog' = b_status blog
          /\ b_generatedTopics blog' = b_generatedTopics blog
          /\ b_wordCount blog' = b_wordCount blog
          /\ b_wordpressUrl blog' = b_wordpressUrl blog
          /\ b_wordpressPostId blog' = b_wordpressPostId blog
          /\ b_publishedAt blog' = b_publishedAt blog
          /\ b_categoryId blog' = b_categoryId blog /\ b_tagIds blog' = b_tagIds blog
          /\ b_metaDescription blog' = b_metaDescription blog
          /\ b_githubFilePath blog' = b_githubFilePath blog
          /\ b_githubCommitSha blog' = b_githubCommitSha blog
          /\ b_backedUpToGithub blog' = b_backedUpToGithub blog
          /\ b_createdAt blog' = b_createdAt blog
          /\ (r_status response <> 200%Z -> b_content blog' = b_content blog)).
Proof.
  pose proof (replaceImage_frame st id imageIndexNum newImage) as H.
  destruct (replaceImage st id imageIndexNum newImage) as [response st'].
  destruct H as (H1 & H2 & H3 & H4 & H5).
  repeat (split; [assumption|]).
  intros blog Hb. destruct (H5 blog Hb) as (content & Hg & _ & Hc).
  eexists. split; [exact Hg|]. repeat split.
  intros Hs. rewrite (Hc Hs). reflexivity.
Qed.

(** ** The renderer and the image-replace route *)

Lemma indexOf_spec x : forall a,
  (indexOf x a = (-1)%Z /\ ~ In x a)
  \/ (exists i, indexOf x a = Z.of_nat i /\ nth_error a i = Some x
                /\ forall j, j < i -> nth_error a j <> Some x).
Proof.
  induction a as [|y a IH]; [left; split; [reflexivity|intros []]|].
  cbn [indexOf]. destruct (jstr_eqb y x) eqn:E.
  - apply jstr_eqb_eq in E. subst y. right. exists 0.
    split; [reflexivity|]. split; [reflexivity|]. intros j Hj. lia.
  - assert (Hne : y <> x).
    { intros ->. rewrite (proj2 (jstr_eqb_eq x x) eq_refl) in E. discriminate. }
    destruct IH as [[Hi Hn]|(i & Hi & Hnth & Hfirst)].
    + left. rewrite Hi. split; [reflexivity|]. intros [H|H]; [exact (Hne H)|exact (Hn H)].
    + right. exists (S i). rewrite Hi.
      replace (Z.of_nat i <? 0)%Z with false by (symmetry; apply Z.ltb_ge; lia).
      split; [lia|]. split; [exact Hnth|].
      intros [|j] Hj; cbn [nth_error]; [congruence|apply Hfirst; lia].
Qed.

Lemma matchesOf_app a b : matchesOf (a ++ b) = matchesOf a ++ matchesOf b.
Proof. unfold matchesOf. apply flat_map_app. Qed.

Lemma matchesOf_length sgs : length (matchesOf sgs) = countMatches sgs.
Proof.
  unfold matchesOf, countMatches.
  induction sgs as [|[c|m] sgs IH]; cbn; [reflexivity|exact IH|rewrite IH; reflexivity].
Qed.

Lemma matchesOf_segmentsOf refs tail :
  matchesOf (segmentsOf refs tail)
  = map (fun ref => match ref with
                    | (gap, alt, url) =>
                        RMatch (imageReference alt url) [(2, url); (1, alt)]
                    end) refs.
Proof.
  unfold segmentsOf. rewrite matchesOf_app.
  assert (Hchars : forall t, matchesOf (map SChr t) = []).
  { induction t as [|c t IH]; [reflexivity|exact IH]. }
  rewrite Hchars, app_nil_r.
  induction refs as [|[[gap alt] url] refs IH]; [reflexivity|].
  cbn [flat_map map]. rewrite !matchesOf_app, Hchars, IH. reflexivity.
Qed.

(** The addresses the renderer lists are those of the reading, in order. *)
Lemma imageUrls_reading content refs tail :
  reading content refs tail -> imageUrls content = map snd refs.
Proof.
  intros H. unfold imageUrls.
  rewrite (scan_reading _ _ _ H None), matchesOf_segmentsOf, map_map.
  apply map_ext. intros [[gap alt] url]. reflexivity.
Qed.

(** A click on the replace button of the image number [k], whose address
    is [src]. The addresses the renderer lists are those of the references
    of the content, in reading order, and the index it sends is that of the
    first reference that has the address [src]: at most [k], and [k] when
    no two references share an address. The route answers 200 and stores
    the blog with that first reference rewritten to the new address and
    description, whichever image was clicked; every other reference, the
    text between the references and every other column are what they
    were. *)
Theorem click_replaces_first_image_with_that_address (st : Storage) (id : jstr)
  (blog : Blog) (k : nat) (src : jstr) (newImage : NewImage) (newUrl : jstr)
  (refs : list (jstr * jstr * jstr)) (tail : jstr) :
  getBlog st id = Some blog ->
  ni_url newImage = Some newUrl -> newUrl <> [] ->
  reading (b_content blog) refs tail ->
  nth_error (imageUrls (b_content blog)) k = Some src ->
  let i := currentImageIndex (b_content blog) src in
  imageUrls (b_content blog) = map snd refs
  /\ (0 <= i <= Z.of_nat k)%Z
  /\ (List.NoDup (imageUrls (b_content blog)) -> i = Z.of_nat k)
  /\ exists before gap alt after,
       refs = before ++ (gap, alt, src) :: after
       /\ Z.of_nat (length before) = i
       /\ (forall ref, In ref before -> snd ref <> src)
       /\ let updated :=
            {| b_id := b_id blog;
               b_keyword := b_keyword blog;
               b_title := b_title blog;
               b_content :=
                 written before ++ gap
                 ++ imageReference (chosenDescription newImage alt) newUrl
                 ++ written after ++ tail;
               b_imageUrl := b_imageUrl blog;
               b_imageDescription := b_imageDescription blog;
               b_images := b_images blog;
               b_status := b_status blog;
               b_generatedTopics := b_generatedTopics blog;
               b_wordCount := b_wordCount blog;
               b_wordpressUrl := b_wordpressUrl blog;
               b_wordpressPostId := b_wordpressPostId blog;
               b_publishedAt := b_publishedAt blog;
               b_categoryId := b_categoryId blog;
               b_tagIds := b_tagIds blog;
               b_metaDescription := b_metaDescription blog;
               b_githubFilePath := b_githubFilePath blog;
               b_githubCommitSha := b_githubCommitSha blog;
               b_backedUpToGithub := b_backedUpToGithub blog;
               b_createdAt := b_createdAt blog |} in
          replaceImage st id (Some i) (Some newImage)
          = ({| r_status := 200; r_body := JBlog updated |},
             {| blogs := <[id := updated]> (blogs st);
                wordpressCredentials := wordpressCredentials st |}).
Proof.
  intros Hb Hurl Hne Hread Hk. cbv zeta. unfold currentImageIndex.
  pose proof (imageUrls_reading _ _ _ Hread) as Hurls.
  split; [exact Hurls|].
  destruct (indexOf_spec src (imageUrls (b_content blog)))
    as [[_ Hn]|(i & Hi & Hnth & Hfirst)].
  { exfalso. apply Hn. apply nth_error_In in Hk. exact Hk. }
  rewrite Hi.
  assert (Hik : i <= k).
  { destruct (Nat.le_gt_cases i k) as [H|H]; [exact H|].
    exfalso. exact (Hfirst k H Hk). }
  split; [lia|]. split.
  - intros Hnd. f_equal.
    apply (proj1 (List.NoDup_nth_error _) Hnd i k); [|congruence].
    apply nth_error_Some. congruence.
  - rewrite Hurls in Hnth, Hfirst. rewrite nth_error_map in Hnth.
    destruct (nth_error refs i) as [[[gap alt] url]|] eqn:Hi'; [|discriminate].
    cbn in Hnth. inversion Hnth; subst url.
    destruct (nth_error_split refs i Hi') as (before & after & Hrefs & Hlen).
    exists before, gap, alt, after.
    split; [exact Hrefs|]. split; [rewrite Hlen; reflexivity|]. split.
    + intros ref Hin Heq.
      apply (In_nth_error before) in Hin. destruct Hin as (j & Hj).
      assert (Hjlt : j < i).
      { rewrite <- Hlen. apply nth_error_Some. congruence. }
      apply (Hfirst j Hjlt).
      rewrite nth_error_map, Hrefs, nth_error_app1 by lia.
      rewrite Hj. cbn. rewrite Heq. reflexivity.
    + rewrite <- Hlen. subst refs.
      exact (replaceImage_reference st id blog newImage newUrl before gap alt src
               after tail Hb Hurl Hne Hread).
Qed.

Lemma click_replaces_first_image_with_that_address_witness :
  nth_error (imageUrls (b_content sameImageTwice)) 1 = Some (js "http://a/1.jpg")
  /\ currentImageIndex (b_content sameImageTwice) (js "http://a/1.jpg") = 0%Z
  /\ fst (replaceImage (sampleStorage sameImageTwice None) (js "b1")
            (Some (currentImageIndex (b_content sameImageTwice) (js "http://a/1.jpg")))
            (Some sampleNewImage))
     = {| r_status := 200;
          r_body := JBlog (sampleBlog
            "First ![a new view](http://b/new.jpg) then ![again](http://a/1.jpg) end") |}.
Proof.
  assert (Hk : nth_error (imageUrls (b_content sameImageTwice)) 1
               = Some (js "http://a/1.jpg")) by (vm_compute; reflexivity).
  assert (Hi : currentImageIndex (b_content sameImageTwice) (js "http://a/1.jpg") = 0%Z)
    by (vm_compute; reflexivity).
  assert (Hread : reading (b_content sameImageTwice)
            [(js "First ", js "one", js "http://a/1.jpg");
             (js " then ", js "again", js "http://a/1.jpg")] (js " end")).
  { apply (Read_reference (js "First ") (js "one") (js "http://a/1.jpg")).
    - apply clearOf_plain. vm_compute. intuition discriminate.
    - repeat split; [repeat constructor; discriminate|discriminate
                    |repeat constructor; discriminate].
    - apply (Read_reference (js " then ") (js "again") (js "http://a/1.jpg")).
      + apply clearOf_plain. vm_compute. intuition discriminate.
      + repeat split; [repeat constructor; discriminate|discriminate
                      |repeat constructor; discriminate].
      + apply Read_tail. apply clearOf_plain. vm_compute. intuition discriminate. }
  split; [exact Hk|]. split; [exact Hi|].
  destruct (click_replaces_first_image_with_that_address
              (sampleStorage sameImageTwice None) (js "b1") sameImageTwice 1
              (js "http://a/1.jpg") sampleNewImage (js "http://b/new.jpg") _ _
              ltac:(vm_compute; reflexivity) eq_refl ltac:(discriminate) Hread Hk)
    as (_ & _ & _ & before & gap & alt & after & Hrefs & Hlen & _ & Hrun).
  rewrite Hi in Hlen. destruct before as [|ref before]; [|cbn in Hlen; lia].
  cbn [app] in Hrefs. inversion Hrefs; subst gap alt after.
  rewrite Hrun. reflexivity.
Defined.

(** ** The categories the client chooses *)

Lemma matchCategory_live categories suggestion cat :
  matchCategory categories suggestion = Some cat -> In cat categories.
Proof.
  unfold matchCategory.
  destruct (find _ categories) as [c|] eqn:E.
  - intros H. inversion H; subst. apply find_some in E. tauto.
  - intros H. apply find_some in H. tauto.
Qed.

(** What the loop keeps: the categories matched so far are categories of
    the site with different ids, and they stay at the front. *)
Lemma matchCategories_spec categories : forall suggestions matched,
  List.NoDup (map cat_id matched) ->
  (forall cat, In cat matched -> In cat categories) ->
  exists more,
    matchCategories categories matched suggestions = matched ++ more
    /\ List.NoDup (map cat_id (matched ++ more))
    /\ (forall cat, In cat (matched ++ more) -> In cat categories)
    /\ length more <= length suggestions.
Proof.
  induction suggestions as [|suggestion rest IH]; intros matched Hnd Hlive.
  - exists []. cbn [matchCategories]. rewrite app_nil_r.
    repeat split; auto.
  - cbn [matchCategories].
    assert (Hskip : exists more,
              matchCategories categories matched rest = matched ++ more
              /\ List.NoDup (map cat_id (matched ++ more))
              /\ (forall cat, In cat (matched ++ more) -> In cat categories)
              /\ length more <= length (suggestion :: rest)).
    { destruct (IH matched Hnd Hlive) as (more & H1 & H2 & H3 & H4).
      exists more. repeat split; auto. cbn [length]. lia. }
    destruct suggestion as [|c t]; [exact Hskip|].
    destruct (matchCategory categories (c :: t)) as [cat|] eqn:Em; [|exact Hskip].
    destruct (existsb _ matched) eqn:Ex; [exact Hskip|].
    destruct (IH (matched ++ [cat])) as (more & H1 & H2 & H3 & H4).
    + rewrite map_app. cbn [map]. apply List.NoDup_app.
      * exact Hnd.
      * repeat constructor. intros [].
      * intros x Hx [<-|[]]. apply in_map_iff in Hx. destruct Hx as (m & Hid & Hm).
        assert (Ht : existsb (fun cat0 => (cat_id cat0 =? cat_id cat)%Z) matched = true).
        { apply existsb_exists. exists m. split; [exact Hm|]. apply Z.eqb_eq. exact Hid. }
        congruence.
    + intros x Hx. apply in_app_or in Hx. destruct Hx as [Hx|[<-|[]]];
        [apply Hlive; exact Hx|exact (matchCategory_live _ _ _ Em)].
    + exists (cat :: more). rewrite <- app_assoc in H1, H2, H3. cbn [app] in H1, H2, H3.
      repeat split; auto. cbn [length]. lia.
Qed.

Lemma getSmartFallbackCategory_range blog :
  In (getSmartFallbackCategory blog) [40; 15; 25; 30; 35; 21]%Z.
Proof.
  unfold getSmartFallbackCategory. cbv zeta.
  repeat match goal with
         | |- context [if ?b then _ else _] => destruct b
         end; cbn; tauto.
Qed.

(** The categories handed to [onPublish]: the list is never empty, its
    first element is the primary category, no id comes twice, and every id
    is that of a category the site listed, matched to a suggestion of the
    analysis, or else the one fallback id, which is one of six fixed
    numbers; at most one category is kept for each suggestion. *)
Theorem client_categories_never_empty (blog : Blog)
  (categories : option (list WordPressCategory)) (seoAnalysis : option SeoAnalysis) :
  let d := finalSeoData blog categories seoAnalysis in
  head (cs_categoryIds d) = Some (cs_categoryId d)
  /\ List.NoDup (cs_categoryIds d)
  /\ (forall c, In c (cs_categoryIds d) ->
        c = getSmartFallbackCategory blog
        \/ exists live cat, categories = Some live /\ In cat live /\ cat_id cat = c)
  /\ (forall analysis, seoAnalysis = Some analysis ->
        length (cs_categoryIds d) <= Nat.max 1 (length (suggestedCategories analysis)))
  /\ In (getSmartFallbackCategory blog) [40; 15; 25; 30; 35; 21]%Z.
Proof.
  cbv zeta.
  assert (Hfb : head (cs_categoryIds (fallbackSeoData blog))
                = Some (cs_categoryId (fallbackSeoData blog))
                /\ List.NoDup (cs_categoryIds (fallbackSeoData blog))
                /\ (forall c, In c (cs_categoryIds (fallbackSeoData blog)) ->
                      c = getSmartFallbackCategory blog
                      \/ exists live cat, categories = Some live /\ In cat live
                                          /\ cat_id cat = c)).
  { split; [reflexivity|]. split; [repeat constructor; intros []|].
    intros c [<-|[]]. left. reflexivity. }
  split; [|split; [|split; [|split; [|apply getSmartFallbackCategory_range]]]].
  1-3: destruct categories as [live|], seoAnalysis as [analysis|];
       try (apply Hfb); cbn [finalSeoData cs_categoryIds cs_categoryId];
       destruct (matchCategories_spec live (suggestedCategories analysis) []
                   (List.NoDup_nil _) (fun cat H => match H with end))
         as (more & -> & Hnd & Hlive & Hlen); cbn [app] in *;
       destruct more as [|m more]; cbn [map head].
  - reflexivity.
  - reflexivity.
  - repeat constructor. intros [].
  - exact Hnd.
  - intros c [<-|[]]. left. reflexivity.
  - intros c Hc. right. change (In c (map cat_id (m :: more))) in Hc.
    apply in_map_iff in Hc. destruct Hc as (cat & Hid & Hin).
    exists live, cat. split; [reflexivity|]. split; [apply Hlive; exact Hin|exact Hid].
  - intros analysis ->. destruct categories as [live|]; [|cbn; lia].
    cbn [finalSeoData cs_categoryIds].
    destruct (matchCategories_spec live (suggestedCategories analysis) []
                (List.NoDup_nil _) (fun cat H => match H with end))
      as (more & -> & Hnd & Hlive & Hlen); cbn [app] in *.
    destruct more as [|m more]; cbn [map length] in *; [lia|].
    rewrite length_map. lia.
Qed.

Lemma resolveCategories_length blog availableCategories ids validCategoryIds :
  length ids <= 1 ->
  resolveCategories blog availableCategories ids = inr validCategoryIds ->
  length validCategoryIds <= 1.
Proof.
  intros Hlen.
  destruct availableCategories as [|entries|s|o]; try discriminate.
  cbn [resolveCategories].
  destruct (entriesOf entries) as [categories|]; [|discriminate]. cbv zeta.
  assert (Hv : length (validateCategories (map j_id categories) ids) <= 1).
  { unfold validateCategories. rewrite length_map.
    destruct ids as [|c [|c' ids]]; [cbn; lia| |cbn in Hlen; lia].
    cbn [List.filter]. destruct (includesId _ _); cbn; lia. }
  destruct (validateCategories (map j_id categories) ids) as [|v vs].
  - destruct categories as [|c0 cats]; [intros H; inversion H; cbn; lia|].
    destruct (smartFallback blog (c0 :: cats)) as [[best|]|];
      intros H; inversion H; cbn; lia.
  - intros H. inversion H; subst. exact Hv.
Qed.

(** From the client to the site. The body [api.publishBlog] sends has no
    key [seoData], so of the categories the client chose the route reads
    the primary one only: the categories it validates are that id alone
    (none when the id is 0), the post is created with one category at most,
    however many the client had matched, and with the primary category
    when the site lists it. *)
Theorem client_publish_sends_one_category (w : World) (blog : Blog)
  (wordpressUrl username password : jstr) (seoData : ClientSeoData) :
  let body := publishRequestBody wordpressUrl username password seoData in
  requestedCategoryIds body
  = (if (cs_categoryId seoData =? 0)%Z then [] else [cs_categoryId seoData])
  /\ (forall p, prepare w blog body = PrepDone p ->
        length (wp_categories (p_wordpressData p)) <= 1)
  /\ (forall entries categories,
        cs_categoryId seoData <> 0%Z ->
        fetchCategories w = JArray entries ->
        entriesOf entries = Some categories ->
        In (Some (cs_categoryId seoData)) (map j_id categories) ->
        exists p, prepare w blog body = PrepDone p
          /\ wp_categories (p_wordpressData p) = [Some (cs_categoryId seoData)]).
Proof.
  cbv zeta.
  assert (Hreq : requestedCategoryIds (publishRequestBody wordpressUrl username password seoData)
                 = (if (cs_categoryId seoData =? 0)%Z then [] else [cs_categoryId seoData]))
    by reflexivity.
  split; [exact Hreq|]. split.
  - intros p Hp.
    destruct (prepare_done w blog _ p Hp) as (validCategoryIds & Hr & _ & Hcats & _).
    rewrite Hcats. refine (resolveCategories_length _ _ _ _ _ Hr).
    rewrite Hreq. destruct (cs_categoryId seoData =? 0)%Z; cbn; lia.
  - intros entries categories Hne Hf He Hin.
    rewrite prepare_eq. cbv zeta. rewrite Hreq, Hf.
    replace (cs_categoryId seoData =? 0)%Z with false
      by (symmetry; apply Z.eqb_neq; exact Hne).
    cbn [resolveCategories]. rewrite He. cbv zeta.
    unfold validateCategories. cbn [List.filter].
    rewrite (proj2 (includesId_In _ _) Hin). cbn [map].
    eexists. split; reflexivity.
Qed.

(** * The file names of the GitHub backup

    [GitHubService.generateFileName]. *)

(** ** Runs of a class replaced by a string *)

Lemma squeeze_run p t : forall x rest,
  Forall (fun c => p c = true) x ->
  match rest with [] => True | c :: _ => p c = false end ->
  squeeze p t true (x ++ rest) = squeeze p t false rest.
Proof.
  induction x as [|c x IH]; intros rest Hx Hrest.
  - cbn [app]. destruct rest as [|d rest]; [reflexivity|].
    cbn [squeeze]. rewrite Hrest. reflexivity.
  - inversion Hx; subst. cbn [app squeeze].
    match goal with H : p c = true |- _ => rewrite H end.
    cbn [app]. apply IH; assumption.
Qed.

Lemma replaceAll_plus_squeeze p t : forall n s prev,
  length s <= n ->
  flat_map (render [TLit t]) (scan (plus p) prev 0 s) = squeeze p t false s.
Proof.
  induction n as [|n IH]; intros s prev Hn.
  - destruct s; [|cbn in Hn; lia]. cbn [scan].
    rewrite match_at_plus_miss by trivial. reflexivity.
  - destruct s as [|d s]; [cbn [scan]; rewrite match_at_plus_miss by trivial; reflexivity|].
    destruct (p d) eqn:E.
    + destruct (span p (d :: s)) as (x & rest & Hs & Hx & Hr).
      destruct x as [|c x]; [cbn in Hs; subst rest; rewrite E in Hr; discriminate|].
      cbn [app] in Hs. inversion Hs; subst c s.
      pose proof (match_at_plus_hit p prev (d :: x) rest ltac:(discriminate) Hx Hr) as Hm.
      pose proof (scan_match (plus p) prev (RMatch (d :: x) []) rest Hm
                    ltac:(discriminate)) as Hsc.
      cbn [mt_text app] in Hsc. rewrite Hsc.
      cbn [flat_map render expand mt_text squeeze]. rewrite E, app_nil_r.
      cbn [app]. f_equal.
      rewrite IH by (cbn [length] in Hn; rewrite length_app in Hn; lia).
      inversion Hx; subst. symmetry. apply squeeze_run; assumption.
    + cbn [scan]. rewrite match_at_plus_miss by exact E.
      cbn [flat_map render app squeeze]. rewrite E. f_equal.
      apply IH. cbn in Hn. lia.
Qed.

(** ** The hyphens at the two ends *)

Lemma edge_shape prev s m :
  match_at edgeHyphensPattern prev s = Some m ->
  mt_text m <> [] /\ Forall (fun c => hyphen c = true) (mt_text m)
  /\ exists rest, s = mt_text m ++ rest /\ (prev = None \/ rest = []).
Proof.
  intros H. apply match_at_sound in H. destruct H as (rest & Hs & Hm).
  assert (Hx : mt_text m <> [] /\ Forall (fun c => hyphen c = true) (mt_text m)
               /\ (prev = None \/ rest = [])).
  { clear Hs. cbv [edgeHyphensPattern cat plus] in Hm.
    inversion Hm; subst; clear Hm; inv_matches.
    - match goal with H : at_bos _ = true |- _ => cbn in H end.
      cbn [app]. split; [|split].
      + intros E. match goal with H : 1 <= length _ |- _ => rewrite E in H; cbn in H; lia end.
      + assumption.
      + left. destruct prev; [discriminate|reflexivity].
    - match goal with H : at_eos _ = true |- _ => cbn in H end.
      rewrite app_nil_r. split; [|split].
      + intros E. match goal with H : 1 <= length _ |- _ => rewrite E in H; cbn in H; lia end.
      + assumption.
      + right. destruct rest; [reflexivity|discriminate]. }
  destruct Hx as (H1 & H2 & H3). split; [exact H1|]. split; [exact H2|].
  exists rest. split; assumption.
Qed.

Lemma rx_Alt a b st k :
  rx (Alt a b) st k = match rx a st k with Some res => Some res | None => rx b st k end.
Proof. reflexivity. Qed.

Lemma rx_Cat a b st k : rx (Cat a b) st k = rx a st (fun st' => rx b st' k).
Proof. reflexivity. Qed.

Lemma rx_Bos st k : rx Bos st k = if at_bos st then k st else None.
Proof. reflexivity. Qed.

Lemma rx_Eos st k : rx Eos st k = if at_eos st then k st else None.
Proof. reflexivity. Qed.

Lemma edge_hit_start x rest :
  x <> [] -> Forall (fun c => hyphen c = true) x ->
  match rest with [] => True | c :: _ => hyphen c = false end ->
  match_at edgeHyphensPattern None (x ++ rest) = Some (RMatch x []).
Proof.
  intros Hne Hx Hrest. unfold match_at, edgeHyphensPattern. cbn [cat].
  rewrite rx_Alt, rx_Cat, rx_Bos. cbn [at_bos m_prev]. unfold plus.
  rewrite (rx_rep_greedy hyphen 1 None x rest 0 [] Some
             (MState (lastChar None x) rest (0 + length x) []) Hx Hrest).
  - cbn [m_pos m_caps]. rewrite firstn_length_app by reflexivity. reflexivity.
  - destruct x; [congruence|cbn; lia].
  - reflexivity.
Qed.

Lemma edge_hit_end d x :
  x <> [] -> Forall (fun c => hyphen c = true) x ->
  match_at edgeHyphensPattern (Some d) x = Some (RMatch x []).
Proof.
  intros Hne Hx. unfold match_at, edgeHyphensPattern. cbn [cat].
  rewrite rx_Alt, rx_Cat, rx_Bos. cbn [at_bos m_prev]. rewrite rx_Cat. unfold plus.
  rewrite <- (app_nil_r x) at 1.
  rewrite (rx_rep_greedy hyphen 1 (Some d) x [] 0 [] (fun st' => rx Eos st' Some)
             (MState (lastChar (Some d) x) [] (0 + length x) []) Hx I).
  - cbn [m_pos m_caps]. rewrite Nat.add_0_l, firstn_all. reflexivity.
  - destruct x; [congruence|cbn; lia].
  - reflexivity.
Qed.

Lemma forallb_hyphen x : forallb hyphen x = true <-> Forall (fun c => hyphen c = true) x.
Proof.
  rewrite forallb_forall, List.Forall_forall. reflexivity.
Qed.

(** Past the start of the string only the hyphens at its end match. *)
Lemma edge_mid d s :
  match_at edgeHyphensPattern (Some d) s
  = match s with
    | [] => None
    | _ :: _ => if forallb hyphen s then Some (RMatch s []) else None
    end.
Proof.
  destruct s as [|c s].
  - destruct (match_at edgeHyphensPattern (Some d) []) as [m|] eqn:E; [|reflexivity].
    apply edge_shape in E. destruct E as (Hne & _ & rest & Hs & _).
    destruct (mt_text m); [congruence|discriminate].
  - destruct (forallb hyphen (c :: s)) eqn:Ef.
    + apply edge_hit_end; [discriminate|]. apply forallb_hyphen. exact Ef.
    + destruct (match_at edgeHyphensPattern (Some d) (c :: s)) as [m|] eqn:E; [|reflexivity].
      apply edge_shape in E. destruct E as (_ & Hall & rest & Hs & [Hp|Hr]); [discriminate|].
      subst rest. rewrite app_nil_r in Hs. rewrite <- Hs in Hall.
      apply forallb_hyphen in Hall. congruence.
Qed.

Lemma edge_miss_start c s :
  hyphen c = false -> match_at edgeHyphensPattern None (c :: s) = None.
Proof.
  intros Hc.
  destruct (match_at edgeHyphensPattern None (c :: s)) as [m|] eqn:E; [|reflexivity].
  apply edge_shape in E. destruct E as (Hne & Hall & rest & Hs & _).
  destruct (mt_text m) as [|e x]; [congruence|].
  cbn [app] in Hs. inversion Hs; subst. inversion Hall; subst. congruence.
Qed.

Lemma edge_miss_empty prev : match_at edgeHyphensPattern prev [] = None.
Proof.
  destruct (match_at edgeHyphensPattern prev []) as [m|] eqn:E; [|reflexivity].
  apply edge_shape in E. destruct E as (Hne & _ & rest & Hs & _).
  destruct (mt_text m); [congruence|discriminate].
Qed.

Lemma scan_edge_mid : forall s d,
  flat_map (render []) (scan edgeHyphensPattern (Some d) 0 s) = dropEnd s.
Proof.
  induction s as [|c s IH]; intros d.
  - cbn [scan]. rewrite edge_miss_empty. reflexivity.
  - destruct (forallb hyphen (c :: s)) eqn:Ef.
    + pose proof (edge_mid d (c :: s)) as Hm. cbv iota in Hm. rewrite Ef in Hm.
      pose proof (scan_match edgeHyphensPattern (Some d) (RMatch (c :: s) []) []) as Hsc.
      cbn [mt_text] in Hsc. rewrite app_nil_r in Hsc.
      rewrite (Hsc Hm ltac:(discriminate)).
      cbn [flat_map render expand scan]. rewrite edge_miss_empty.
      cbn [dropEnd]. cbn [forallb] in Ef. rewrite Ef. reflexivity.
    + cbn [scan]. rewrite (edge_mid d (c :: s)), Ef.
      cbn [flat_map render app dropEnd]. cbn [forallb] in Ef. rewrite Ef.
      f_equal. apply IH.
Qed.

Lemma lastChar_nonempty prev c x : exists e, lastChar prev (c :: x) = Some e.
Proof.
  unfold lastChar. destruct (rev (c :: x)) as [|e l] eqn:E; [|exists e; reflexivity].
  apply (f_equal (@length _)) in E. rewrite length_rev in E. discriminate.
Qed.

Lemma dropStart_run : forall x rest,
  Forall (fun c => hyphen c = true) x ->
  match rest with [] => True | c :: _ => hyphen c = false end ->
  dropStart (x ++ rest) = rest.
Proof.
  induction x as [|c x IH]; intros rest Hx Hrest.
  - cbn [app]. destruct rest as [|d rest]; [reflexivity|].
    cbn [dropStart]. rewrite Hrest. reflexivity.
  - inversion Hx; subst. cbn [app dropStart].
    match goal with H : hyphen c = true |- _ => rewrite H end.
    apply IH; assumption.
Qed.

(** [replace(/^-+|-+$/g, '')] deletes the hyphens at the two ends. *)
Lemma replaceAll_edge s :
  replaceAll edgeHyphensPattern [] s = dropEnd (dropStart s).
Proof.
  unfold replaceAll. destruct s as [|c s].
  - cbn [scan]. rewrite edge_miss_empty. reflexivity.
  - destruct (hyphen c) eqn:E.
    + destruct (span hyphen (c :: s)) as (x & rest & Hs & Hx & Hr).
      destruct x as [|e x]; [cbn in Hs; subst rest; rewrite E in Hr; discriminate|].
      rewrite Hs.
      pose proof (edge_hit_start (e :: x) rest ltac:(discriminate) Hx Hr) as Hm.
      pose proof (scan_match edgeHyphensPattern None (RMatch (e :: x) []) rest Hm
                    ltac:(discriminate)) as Hsc.
      cbn [mt_text] in Hsc. rewrite Hsc.
      rewrite (dropStart_run (e :: x) rest Hx Hr).
      destruct (lastChar_nonempty None e x) as (d & ->).
      cbn [flat_map render expand app]. rewrite scan_edge_mid.
      reflexivity.
    + cbn [scan]. rewrite edge_miss_start by exact E.
      cbn [flat_map render app]. rewrite scan_edge_mid.
      cbn [dropStart]. rewrite E. cbn [dropEnd]. rewrite E. reflexivity.
Qed.

(** The slug, without regular expressions. *)
Lemma slugOf_direct title :
  slugOf title
  = dropEnd (dropStart (squeeze notSlugChar (js "-") false (toLowerCase title))).
Proof.
  unfold slugOf. rewrite replaceAll_edge. unfold replaceAll at 1, nonSlugPattern.
  rewrite (replaceAll_plus_squeeze notSlugChar (js "-") _ _ None (le_n _)).
  reflexivity.
Qed.

(** *** The slug as a list *)

Lemma hyphen_char c : hyphen c = true <-> c = "-"%char.
Proof.
  unfold hyphen, oneOf. cbn [js existsb list_ascii_of_string].
  rewrite orb_false_r. apply Ascii.eqb_eq.
Qed.

Lemma hyphen_notSlugChar c : hyphen c = true -> notSlugChar c = true.
Proof. intros H. apply hyphen_char in H. subst c. reflexivity. Qed.

Lemma slugChar_not_hyphen c : slugChar c = true -> hyphen c = false.
Proof.
  intros H. destruct (hyphen c) eqn:E; [|reflexivity].
  apply hyphen_notSlugChar in E. unfold notSlugChar in E. rewrite H in E. discriminate.
Qed.

Lemma lowerChar_slugChar c : slugChar c = true -> lowerChar c = c.
Proof.
  destruct c as [[] [] [] [] [] [] [] []]; vm_compute; intros H;
    first [reflexivity | discriminate].
Qed.

Lemma lowerChar_hyphen c : hyphen c = true -> lowerChar c = c.
Proof. intros H. apply hyphen_char in H. subst c. reflexivity. Qed.

Lemma In_squeeze p t : forall s b c,
  In c (squeeze p t b s) -> In c t \/ (In c s /\ p c = false).
Proof.
  induction s as [|d s IH]; intros b c Hin; [destruct Hin|].
  cbn [squeeze] in Hin. destruct (p d) eqn:E.
  - apply in_app_or in Hin. destruct Hin as [Hin|Hin].
    + destruct b; [destruct Hin|left; exact Hin].
    + destruct (IH _ _ Hin) as [H|[H1 H2]]; [left; exact H|right; split; [right; exact H1|exact H2]].
  - destruct Hin as [<-|Hin]; [right; split; [left; reflexivity|exact E]|].
    destruct (IH _ _ Hin) as [H|[H1 H2]]; [left; exact H|right; split; [right; exact H1|exact H2]].
Qed.

Lemma squeeze_keeps p t : forall s b c,
  In c s -> p c = false -> In c (squeeze p t b s).
Proof.
  induction s as [|d s IH]; intros b c Hin Hc; [destruct Hin|].
  cbn [squeeze]. destruct Hin as [->|Hin].
  - rewrite Hc. left. reflexivity.
  - destruct (p d); [apply in_or_app; right|right]; apply IH; assumption.
Qed.

Lemma squeeze_all p t : forall s b,
  Forall (fun c => p c = true) s ->
  squeeze p t b s = match s with [] => [] | _ :: _ => if b then [] else t end.
Proof.
  induction s as [|d s IH]; intros b Hs; [reflexivity|].
  inversion Hs as [|? ? Hd Hs']; subst. cbn [squeeze]. rewrite Hd, (IH true Hs').
  destruct s; destruct b; cbn [app]; rewrite ?app_nil_r; reflexivity.
Qed.

Lemma In_dropStart c : forall s, In c (dropStart s) -> In c s.
Proof.
  induction s as [|d s IH]; intros Hin; [exact Hin|].
  cbn [dropStart] in Hin. destruct (hyphen d); [right; apply IH; exact Hin|exact Hin].
Qed.

Lemma In_dropEnd c : forall s, In c (dropEnd s) -> In c s.
Proof.
  induction s as [|d s IH]; intros Hin; [exact Hin|].
  cbn [dropEnd] in Hin. destruct (hyphen d && forallb hyphen s); [destruct Hin|].
  destruct Hin as [<-|Hin]; [left; reflexivity|right; apply IH; exact Hin].
Qed.

Lemma dropStart_keeps c : forall s, In c s -> hyphen c = false -> In c (dropStart s).
Proof.
  induction s as [|d s IH]; intros Hin Hc; [destruct Hin|].
  cbn [dropStart]. destruct (hyphen d) eqn:E; [|exact Hin].
  destruct Hin as [->|Hin]; [congruence|apply IH; assumption].
Qed.

Lemma dropEnd_keeps c : forall s, In c s -> hyphen c = false -> In c (dropEnd s).
Proof.
  induction s as [|d s IH]; intros Hin Hc; [destruct Hin|].
  cbn [dropEnd]. destruct (hyphen d && forallb hyphen s) eqn:E.
  - apply andb_prop in E. destruct E as [Ed Es].
    destruct Hin as [->|Hin]; [congruence|].
    rewrite forallb_forall in Es. rewrite (Es _ Hin) in Hc. discriminate.
  - destruct Hin as [->|Hin]; [left; reflexivity|right; apply IH; assumption].
Qed.

Lemma dropStart_head s c t : dropStart s = c :: t -> hyphen c = false.
Proof.
  induction s as [|d s IH]; intros H; [discriminate|].
  cbn [dropStart] in H. destruct (hyphen d) eqn:E; [apply IH; exact H|].
  inversion H; subst. exact E.
Qed.

Lemma dropEnd_head s c t : dropEnd s = c :: t -> exists s', s = c :: s'.
Proof.
  destruct s as [|d s]; intros H; [discriminate|].
  cbn [dropEnd] in H. destruct (hyphen d && forallb hyphen s); [discriminate|].
  inversion H; subst. eexists. reflexivity.
Qed.

Lemma dropEnd_nil : forall s, dropEnd s = [] -> forallb hyphen s = true.
Proof.
  destruct s as [|d s]; intros H; [reflexivity|].
  cbn [dropEnd] in H. cbn [forallb].
  destruct (hyphen d && forallb hyphen s); [reflexivity|discriminate].
Qed.

Lemma dropEnd_last : forall s t c, dropEnd s = t ++ [c] -> hyphen c = false.
Proof.
  induction s as [|d s IH]; intros t c H; [destruct t; discriminate|].
  cbn [dropEnd] in H. destruct (hyphen d && forallb hyphen s) eqn:E;
    [destruct t; discriminate|].
  destruct t as [|e t]; cbn [app] in H; inversion H; subst.
  - match goal with H' : dropEnd s = [] |- _ => apply dropEnd_nil in H' as Hs end.
    rewrite Hs, andb_true_r in E. exact E.
  - eapply IH. eassumption.
Qed.

Lemma noDoubleHyphen_cons a s :
  noDoubleHyphen (a :: s)
  = match s with [] => true | b :: _ => negb (hyphen a && hyphen b) end
    && noDoubleHyphen s.
Proof. destruct s; reflexivity. Qed.

Lemma noDoubleHyphen_tail a s : noDoubleHyphen (a :: s) = true -> noDoubleHyphen s = true.
Proof. rewrite noDoubleHyphen_cons. intros H. apply andb_prop in H. apply H. Qed.

Lemma squeeze_noDoubleHyphen : forall s b,
  noDoubleHyphen (squeeze notSlugChar (js "-") b s) = true
  /\ (b = true ->
      match squeeze notSlugChar (js "-") b s with
      | [] => True
      | c :: _ => hyphen c = false
      end).
Proof.
  induction s as [|d s IH]; intros b; [split; [reflexivity|intros _; exact I]|].
  cbn [squeeze]. destruct (notSlugChar d) eqn:E.
  - destruct (IH true) as [Hn Hh]. specialize (Hh eq_refl). destruct b.
    + cbn [app]. split; [exact Hn|intros _; exact Hh].
    + split; [|discriminate]. change (js "-" ++ ?x) with ("-"%char :: x).
      rewrite noDoubleHyphen_cons, Hn, andb_true_r.
      destruct (squeeze notSlugChar (js "-") true s); [reflexivity|].
      rewrite Hh, andb_false_r. reflexivity.
  - assert (Hd : hyphen d = false).
    { destruct (hyphen d) eqn:Eh; [|reflexivity].
      apply hyphen_notSlugChar in Eh. congruence. }
    destruct (IH false) as [Hn _]. split; [|intros _; exact Hd].
    rewrite noDoubleHyphen_cons, Hn, andb_true_r, Hd.
    destruct (squeeze notSlugChar (js "-") false s); reflexivity.
Qed.

Lemma noDoubleHyphen_dropStart : forall s,
  noDoubleHyphen s = true -> noDoubleHyphen (dropStart s) = true.
Proof.
  induction s as [|d s IH]; intros H; [reflexivity|].
  cbn [dropStart]. destruct (hyphen d); [|exact H].
  apply IH. eapply noDoubleHyphen_tail. exact H.
Qed.

Lemma noDoubleHyphen_dropEnd : forall s,
  noDoubleHyphen s = true -> noDoubleHyphen (dropEnd s) = true.
Proof.
  induction s as [|d s IH]; intros H; [reflexivity|].
  cbn [dropEnd]. destruct (hyphen d && forallb hyphen s); [reflexivity|].
  rewrite noDoubleHyphen_cons in H. apply andb_prop in H. destruct H as [Hh Hn].
  rewrite noDoubleHyphen_cons, (IH Hn), andb_true_r.
  destruct (dropEnd s) as [|e r] eqn:E; [reflexivity|].
  apply dropEnd_head in E. destruct E as (s' & ->). exact Hh.
Qed.

Lemma slug_wellFormed s :
  wellFormedSlug (dropEnd (dropStart (squeeze notSlugChar (js "-") false s))).
Proof.
  split; [|split].
  - intros c Hin. apply In_dropEnd, In_dropStart, In_squeeze in Hin.
    destruct Hin as [Hin|[_ Hc]].
    + right. destruct Hin as [<-|[]]. reflexivity.
    + left. unfold notSlugChar in Hc. apply negb_false_iff in Hc. exact Hc.
  - split.
    + intros c t H. apply dropEnd_head in H as (s' & Hs).
      eapply dropStart_head. exact Hs.
    + intros t c H. eapply dropEnd_last. exact H.
  - apply noDoubleHyphen_dropEnd, noDoubleHyphen_dropStart, squeeze_noDoubleHyphen.
Qed.

Lemma toLowerCase_wellFormed s :
  (forall c, In c s -> slugChar c = true \/ c = "-"%char) -> toLowerCase s = s.
Proof.
  unfold toLowerCase. induction s as [|d s IH]; intros H; [reflexivity|].
  cbn [map]. rewrite IH by (intros c Hc; apply H; right; exact Hc).
  destruct (H d (or_introl eq_refl)) as [Hd| ->];
    [rewrite (lowerChar_slugChar _ Hd)|]; reflexivity.
Qed.

Lemma squeeze_wellFormed : forall s b,
  (forall c, In c s -> slugChar c = true \/ c = "-"%char) ->
  noDoubleHyphen s = true ->
  (b = true -> match s with [] => True | c :: _ => hyphen c = false end) ->
  squeeze notSlugChar (js "-") b s = s.
Proof.
  induction s as [|d s IH]; intros b Hc Hn Hb; [reflexivity|].
  rewrite noDoubleHyphen_cons in Hn. apply andb_prop in Hn. destruct Hn as [Hh Hn].
  assert (Hc' : forall c, In c s -> slugChar c = true \/ c = "-"%char)
    by (intros c Hin; apply Hc; right; exact Hin).
  cbn [squeeze]. destruct (Hc d (or_introl eq_refl)) as [Hd| ->].
  - unfold notSlugChar at 1. rewrite Hd. cbn [negb]. f_equal.
    apply IH; [exact Hc'|exact Hn|discriminate].
  - change (notSlugChar "-") with true. cbv iota.
    destruct b; [specialize (Hb eq_refl); discriminate|].
    change (js "-" ++ ?x) with ("-"%char :: x). f_equal.
    apply IH; [exact Hc'|exact Hn|]. intros _.
    destruct s as [|e s]; [exact I|].
    change (hyphen "-") with true in Hh. cbn [andb] in Hh.
    apply negb_true_iff in Hh. exact Hh.
Qed.

Lemma dropStart_wellFormed s :
  (forall c t, s = c :: t -> hyphen c = false) -> dropStart s = s.
Proof.
  destruct s as [|d s]; intros H; [reflexivity|].
  cbn [dropStart]. rewrite (H d s eq_refl). reflexivity.
Qed.

Lemma forallb_hyphen_last : forall s,
  s <> [] -> forallb hyphen s = true -> exists t c, s = t ++ [c] /\ hyphen c = true.
Proof.
  intros s Hne Hs. destruct (exists_last Hne) as (t & c & ->).
  exists t, c. split; [reflexivity|].
  rewrite forallb_app in Hs. apply andb_prop in Hs. destruct Hs as [_ Hs].
  cbn [forallb] in Hs. rewrite andb_true_r in Hs. exact Hs.
Qed.

Lemma dropEnd_wellFormed : forall s,
  (forall t c, s = t ++ [c] -> hyphen c = false) -> dropEnd s = s.
Proof.
  induction s as [|d s IH]; intros H; [reflexivity|].
  cbn [dropEnd]. destruct (hyphen d && forallb hyphen s) eqn:E.
  - destruct (forallb_hyphen_last (d :: s) ltac:(discriminate) E) as (t & c & Hs & Hc).
    rewrite (H t c Hs) in Hc. discriminate.
  - f_equal. apply IH. intros t c ->. apply (H (d :: t) c). reflexivity.
Qed.

Lemma slug_fixed s :
  wellFormedSlug s ->
  dropEnd (dropStart (squeeze notSlugChar (js "-") false (toLowerCase s))) = s.
Proof.
  intros (Hc & [Hs He] & Hn).
  rewrite (toLowerCase_wellFormed s Hc).
  rewrite (squeeze_wellFormed s false Hc Hn) by discriminate.
  rewrite (dropStart_wellFormed s Hs). apply dropEnd_wellFormed. exact He.
Qed.

(** The slug [generateFileName] puts in a file name holds only lower-case
    letters, digits and hyphens, neither starts nor ends with a hyphen, and
    never has two hyphens in a row, whatever the title. *)
Theorem slugOf_shape title :
  (forall c, In c (slugOf title) -> slugChar c = true \/ c = "-"%char)
  /\ noEdgeHyphen (slugOf title)
  /\ noDoubleHyphen (slugOf title) = true.
Proof. rewrite slugOf_direct. apply slug_wellFormed. Qed.

(** A slug is its own slug: taking the slug of a title that is already one
    changes nothing. *)
Theorem slugOf_idempotent title : slugOf (slugOf title) = slugOf title.
Proof.
  rewrite (slugOf_direct (slugOf title)). apply slug_fixed.
  rewrite slugOf_direct. apply slug_wellFormed.
Qed.

(** The file name is [<date>-.md], with an empty slug, exactly when the title
    has no letter of the basic alphabet and no digit; all such titles of one
    day share one file name. *)
Theorem generateFileName_without_letters date title :
  (forall c, In c title -> slugChar (lowerChar c) = false)
  <-> generateFileName date title = date ++ js "-.md".
Proof.
  unfold generateFileName. rewrite slugOf_direct. split.
  - intros H.
    rewrite (squeeze_all notSlugChar (js "-") (toLowerCase title) false).
    + destruct title; reflexivity.
    + unfold toLowerCase. apply List.Forall_forall. intros c Hin.
      apply in_map_iff in Hin. destruct Hin as (d & <- & Hd).
      unfold notSlugChar. rewrite (H d Hd). reflexivity.
  - intros H c Hin. apply app_inv_head in H.
    change (js "-.md") with (js "-" ++ [] ++ js ".md") in H.
    apply app_inv_head, app_inv_tail in H.
    destruct (slugChar (lowerChar c)) eqn:E; [|reflexivity].
    assert (Hk : In (lowerChar c)
                   (dropEnd (dropStart (squeeze notSlugChar (js "-") false
                                                (toLowerCase title))))).
    { apply dropEnd_keeps; [apply dropStart_keeps; [apply squeeze_keeps|]|].
      - unfold toLowerCase. apply in_map. exact Hin.
      - unfold notSlugChar. rewrite E. reflexivity.
      - apply slugChar_not_hyphen. exact E.
      - apply slugChar_not_hyphen. exact E. }
    rewrite H in Hk. destruct Hk.
Qed.


(** * The images of a generated article

    The image search of [POST /api/blogs/generate-content]. *)

Lemma addPhotos_bound imagesNeeded query : forall photos allImages allImages',
  length allImages < imagesNeeded ->
  addPhotos imagesNeeded query photos allImages = Some allImages' ->
  length allImages' <= imagesNeeded.
Proof.
  induction photos as [|photo photos IH]; intros allImages allImages' Hlt H.
  - cbn [addPhotos] in H. inversion H; subst. lia.
  - cbn [addPhotos] in H. destruct photo as [photo|]; [|discriminate].
    cbv zeta in H.
    destruct (imagesNeeded <=? length (allImages ++ [articleImage query photo])) eqn:E.
    + inversion H; subst. rewrite length_app in *. cbn [length] in *. lia.
    + apply Nat.leb_gt in E. exact (IH _ _ E H).
Qed.

Lemma collectLoop_bound fetchUnsplash keys imagesNeeded :
  forall queries i index allImages,
  length allImages < imagesNeeded ->
  let c := collectLoop fetchUnsplash keys imagesNeeded queries i index allImages in
  col_searches c = firstn (length (col_searches c)) queries
  /\ forall images, col_images c = Some images -> length images <= imagesNeeded.
Proof.
  induction queries as [|query queries IH]; intros i index allImages Hlt; cbv zeta.
  - cbn [collectLoop col_searches col_images length firstn].
    split; [reflexivity|]. intros images H. inversion H; subst. lia.
  - cbn [collectLoop]. cbv zeta.
    set (r := fetchWithUnsplashRotation (fetchUnsplash i) keys (searchUrl query) index).
    assert (Hnext : forall allImages',
      length allImages' <= imagesNeeded ->
      let c := if imagesNeeded <=? length allImages'
               then {| col_images := Some allImages'; col_index := rot_index r;
                       col_searches := [query] |}
               else {| col_images := col_images (collectLoop fetchUnsplash keys imagesNeeded
                                                   queries (S i) (rot_index r) allImages');
                       col_index := col_index (collectLoop fetchUnsplash keys imagesNeeded
                                                 queries (S i) (rot_index r) allImages');
                       col_searches := query :: col_searches
                                         (collectLoop fetchUnsplash keys imagesNeeded
                                            queries (S i) (rot_index r) allImages') |} in
      col_searches c = firstn (length (col_searches c)) (query :: queries)
      /\ forall images, col_images c = Some images -> length images <= imagesNeeded).
    { intros allImages' Hle. cbv zeta.
      destruct (imagesNeeded <=? length allImages') eqn:E.
      - cbn [col_searches col_images length firstn]. split; [reflexivity|].
        intros images H. inversion H; subst. exact Hle.
      - apply Nat.leb_gt in E. destruct (IH (S i) (rot_index r) allImages' E) as [Hs Hi].
        cbn [col_searches col_images length firstn]. split; [f_equal; exact Hs|exact Hi]. }
    assert (Hthrown :
      col_searches {| col_images := None; col_index := rot_index r; col_searches := [query] |}
      = firstn (length (col_searches {| col_images := None; col_index := rot_index r;
                                        col_searches := [query] |})) (query :: queries)
      /\ forall images,
           col_images {| col_images := None; col_index := rot_index r;
                         col_searches := [query] |} = Some images ->
           length images <= imagesNeeded).
    { cbn [col_searches col_images length firstn]. split; [reflexivity|discriminate]. }
    destruct (rot_response r) as [[status body]|]; [|apply Hnext; lia].
    destruct (okStatus status); [|apply Hnext; lia].
    destruct body as [results| |]; [|exact Hthrown|exact Hthrown].
    destruct (0 <? length results); [|apply Hnext; lia].
    destruct (addPhotos imagesNeeded query (firstn (Nat.min 2 (length results)) results)
                allImages) as [allImages'|] eqn:E; [|exact Hthrown].
    apply Hnext. eapply addPhotos_bound; eassumption.
Qed.

(** The image search of [generate-content] never collects more images than
    the article length calls for, and it searches at most as many of the
    eight queries, in their order, as images are needed, whatever Unsplash
    answers. *)
Theorem collectImages_bounded
  (fetchUnsplash : nat -> nat -> jstr -> jstr -> Fetched (RBody SearchResults))
  (keys : list jstr) (imagesNeeded : nat) (keyword : jstr) (currentKeyIndex : nat) :
  let c := collectImages fetchUnsplash keys imagesNeeded keyword currentKeyIndex in
  length (col_searches c) <= Nat.min 8 imagesNeeded
  /\ col_searches c = firstn (length (col_searches c)) (searchQueries keyword)
  /\ forall images, col_images c = Some images -> length images <= imagesNeeded.
Proof.
  cbv zeta. unfold collectImages.
  change (length (searchQueries keyword)) with 8.
  generalize (searchQueries keyword). intros queries.
  destruct imagesNeeded as [|n].
  - rewrite Nat.min_0_r. change (firstn 0 queries) with (@nil jstr).
    cbn [collectLoop col_searches col_images length firstn].
    split; [lia|]. split; [reflexivity|]. intros images H. inversion H; subst. cbn; lia.
  - destruct (collectLoop_bound fetchUnsplash keys (S n) (firstn (Nat.min 8 (S n)) queries)
                0 currentKeyIndex [] ltac:(cbn; lia)) as [Hs Hi].
    set (c := collectLoop fetchUnsplash keys (S n) (firstn (Nat.min 8 (S n)) queries)
                0 currentKeyIndex []) in *.
    assert (Hlen : length (col_searches c) <= Nat.min 8 (S n)).
    { rewrite Hs, length_firstn, length_firstn. lia. }
    split; [exact Hlen|]. split; [|exact Hi].
    rewrite Hs at 1. rewrite firstn_firstn. f_equal. lia.
Qed.

Lemma rotation_answered (fetch : nat -> jstr -> jstr -> Fetched (RBody SearchResults))
  keys url index key status body :
  nth_error keys index = Some key -> key <> [] ->
  fetch 0 url key = Resp status body -> okStatus status = true ->
  fetchWithUnsplashRotation fetch keys url index
  = {| rot_response := Some (status, body);
       rot_index := (index + 1) mod length keys;
       rot_keys := [key] |}.
Proof.
  intros Hk Hkey Hf Hok. unfold fetchWithUnsplashRotation.
  destruct keys as [|k0 keys0] eqn:Ek; [destruct index; discriminate|].
  rewrite <- Ek in *. replace (length keys) with (S (length keys0)) at 1 2
    by (rewrite Ek; reflexivity).
  cbn [rotationLoop]. unfold getNextUnsplashKey. rewrite Ek at 1. rewrite Hk.
  destruct key as [|c key]; [congruence|].
  cbn [truthy default].
  change (id (c :: key)) with (c :: key). rewrite Hf, Hok. reflexivity.
Qed.

Lemma half_step d : 3 <= d -> (d + 1) / 2 = S ((d - 2 + 1) / 2).
Proof.
  intros H. replace (d + 1) with ((d - 2 + 1) + 1 * 2) by lia.
  rewrite Nat.div_add by lia. lia.
Qed.

Section Answered.

Variable fetchUnsplash : nat -> nat -> jstr -> jstr -> Fetched (RBody SearchResults).
Variable keys : list jstr.
Variable imagesNeeded : nat.
Hypothesis keys_set : Forall (fun key => key <> []) keys.
Hypothesis all_answered : answered fetchUnsplash.

Lemma collectLoop_answered : forall queries i index allImages,
  index < length keys ->
  length allImages < imagesNeeded ->
  imagesNeeded <= length allImages + 2 * length queries ->
  let c := collectLoop fetchUnsplash keys imagesNeeded queries i index allImages in
  let searches := (imagesNeeded - length allImages + 1) / 2 in
  (exists images, col_images c = Some images /\ length images = imagesNeeded)
  /\ col_searches c = firstn searches queries
  /\ col_index c = (index + searches) mod length keys.
Proof.
  induction queries as [|query queries IH]; intros i index allImages Hi Hlt Hle; cbv zeta.
  - cbn [length] in Hle. lia.
  - destruct (nth_error keys index) as [key|] eqn:Hk;
      [|apply nth_error_None in Hk; lia].
    assert (Hkey : key <> []).
    { apply nth_error_In in Hk. rewrite List.Forall_forall in keys_set.
      exact (keys_set _ Hk). }
    destruct (all_answered i (searchUrl query) key)
      as (status & p1 & p2 & more & Hf & Hok).
    cbn [collectLoop]. cbv zeta.
    rewrite (rotation_answered (fetchUnsplash i) keys (searchUrl query) index key
               status _ Hk Hkey Hf Hok).
    cbn [rot_response rot_index]. rewrite Hok.
    change (0 <? length (Some p1 :: Some p2 :: more)) with true. cbv iota.
    change (firstn (Nat.min 2 (length (Some p1 :: Some p2 :: more)))
              (Some p1 :: Some p2 :: more)) with [Some p1; Some p2].
    cbn [addPhotos]. cbv zeta.
    set (one := allImages ++ [articleImage query p1]).
    assert (Hone : length one = S (length allImages))
      by (unfold one; rewrite length_app; cbn [length]; lia).
    destruct (imagesNeeded <=? length one) eqn:E1.
    + apply Nat.leb_le in E1. rewrite (proj2 (Nat.leb_le _ _) E1).
      cbn [col_images col_searches col_index].
      replace (imagesNeeded - length allImages + 1) with 2 by lia.
      change (2 / 2) with 1. change (firstn 1 (query :: queries)) with [query].
      split; [exists one; split; [reflexivity|lia]|]. split; reflexivity.
    + apply Nat.leb_gt in E1.
      set (two := one ++ [articleImage query p2]).
      assert (Htwo : length two = S (S (length allImages)))
        by (unfold two; rewrite length_app; cbn [length]; lia).
      destruct (imagesNeeded <=? length two) eqn:E2.
      * cbn [col_images col_searches col_index]. rewrite E2.
        apply Nat.leb_le in E2.
        cbn [col_images col_searches col_index].
        replace (imagesNeeded - length allImages + 1) with 3 by lia.
        change (3 / 2) with 1. change (firstn 1 (query :: queries)) with [query].
        split; [exists two; split; [reflexivity|lia]|]. split; reflexivity.
      * rewrite E2. apply Nat.leb_gt in E2.
        assert (Hn : (index + 1) mod length keys < length keys)
          by (apply Nat.mod_upper_bound; lia).
        destruct (IH (S i) ((index + 1) mod length keys) two Hn E2
                    ltac:(cbn [length] in Hle; lia)) as (Himg & Hs & Hx).
        cbn [col_images col_searches col_index].
        rewrite (half_step (imagesNeeded - length allImages)) by lia.
        replace (imagesNeeded - length allImages - 2) with (imagesNeeded - length two)
          by lia.
        split; [exact Himg|]. split.
        -- rewrite Hs. reflexivity.
        -- rewrite Hx. rewrite Nat.Div0.add_mod_idemp_l. f_equal. lia.
Qed.

End Answered.

(** When Unsplash answers every search at the first request with two
    photos or more, the collection takes two photos a query: it gets exactly
    the images needed (up to sixteen) from the first half as many queries,
    rounded up, and uses one key for each. *)
Theorem collectImages_answered
  (fetchUnsplash : nat -> nat -> jstr -> jstr -> Fetched (RBody SearchResults))
  (keys : list jstr) (imagesNeeded : nat) (keyword : jstr) (currentKeyIndex : nat) :
  Forall (fun key => key <> []) keys ->
  currentKeyIndex < length keys ->
  answered fetchUnsplash ->
  imagesNeeded <= 16 ->
  let c := collectImages fetchUnsplash keys imagesNeeded keyword currentKeyIndex in
  let searches := (imagesNeeded + 1) / 2 in
  (exists images, col_images c = Some images /\ length images = imagesNeeded)
  /\ col_searches c = firstn searches (searchQueries keyword)
  /\ col_index c = (currentKeyIndex + searches) mod length keys.
Proof.
  intros Hset Hi Hans Hn. cbv zeta. unfold collectImages.
  change (length (searchQueries keyword)) with 8.
  assert (Hq : length (searchQueries keyword) = 8) by reflexivity.
  revert Hq. generalize (searchQueries keyword). intros queries Hq.
  destruct imagesNeeded as [|n].
  - rewrite Nat.min_0_r. change ((0 + 1) / 2) with 0.
    change (firstn 0 queries) with (@nil jstr).
    cbn [collectLoop col_searches col_images col_index].
    rewrite Nat.add_0_r, Nat.mod_small by exact Hi.
    split; [exists []; split; reflexivity|]. split; reflexivity.
  - destruct (collectLoop_answered fetchUnsplash keys (S n) Hset Hans
                (firstn (Nat.min 8 (S n)) queries) 0 currentKeyIndex [] Hi
                ltac:(cbn [length]; lia)
                ltac:(rewrite length_firstn, Hq; cbn [length]; lia))
      as (Himg & Hs & Hx).
    cbn [length] in Hs, Hx. rewrite Nat.sub_0_r in Hs, Hx.
    split; [exact Himg|]. split; [|exact Hx].
    rewrite Hs, firstn_firstn. f_equal.
    assert ((S n + 1) / 2 <= S n) by (apply Nat.Div0.div_le_upper_bound; lia).
    assert ((S n + 1) / 2 < 9) by (apply Nat.Div0.div_lt_upper_bound; lia).
    lia.
Qed.

Lemma collectImages_answered_witness :
  let c := collectImages sampleSearch [js "k1"; js "k2"] 4 (js "seo") 1 in
  let searches := (4 + 1) / 2 in
  (exists images, col_images c = Some images /\ length images = 4)
  /\ col_searches c = firstn searches (searchQueries (js "seo"))
  /\ col_index c = (1 + searches) mod length [js "k1"; js "k2"].
Proof.
  apply (collectImages_answered sampleSearch [js "k1"; js "k2"] 4 (js "seo") 1).
  - repeat constructor; discriminate.
  - cbn; lia.
  - intros i url key. exists 200%Z, samplePhoto, samplePhoto, []. split; reflexivity.
  - lia.
Defined.
